(** * The Vulkan command submission core of ANGLE

    A shallow embedding of [src/libANGLE/renderer/vulkan/CommandProcessor.cpp]:
    the fence recycler, the command batch, the command pool broker, the
    command queue with its in-flight and finished rings, and the command
    processor with its task queue and deferred error queue.

    The C++ objects live in one [State] record.  Every method is a function
    in the monad [M], which threads the state, stops at the first failing
    [ANGLE_TRY], and aborts on a failed [ASSERT], on [UNREACHABLE] and when a
    thread locks a mutex it already owns.  Every call into the Vulkan device
    and every store to memory that other threads read is appended to the
    trace together with the mutexes held at that moment.  The device answers
    through an oracle that sees the whole trace so far. *)

From Stdlib Require Import ZArith List String Bool Lia.
From stdpp Require Import base list.
Import ListNotations.

(** ** Vulkan scalars *)

Definition VkResult := Z.
Definition VK_SUCCESS : VkResult := 0%Z.
Definition VK_NOT_READY : VkResult := 1%Z.
Definition VK_TIMEOUT : VkResult := 2%Z.
Definition VK_SUBOPTIMAL_KHR : VkResult := 1000001003%Z.
Definition VK_ERROR_OUT_OF_DATE_KHR : VkResult := (-1000001004)%Z.
Definition VK_ERROR_DEVICE_LOST : VkResult := (-4)%Z.

Definition VkStructureType := Z.
Definition VK_STRUCTURE_TYPE_SUBMIT_INFO : VkStructureType := 4%Z.

(** Dispatchable and non-dispatchable handles are integers; zero is
    [VK_NULL_HANDLE]. *)
Definition VkHandle := Z.
Definition VK_NULL_HANDLE : VkHandle := 0%Z.
Definition VkFence := VkHandle.
Definition VkSemaphore := VkHandle.
Definition VkCommandBuffer := VkHandle.
Definition VkPipelineStageFlags := Z.

(** A wrapped handle ([Fence], [PrimaryCommandBuffer]) is valid when it is not
    the null handle. *)
Definition valid (h : VkHandle) : bool := negb (h =? VK_NULL_HANDLE)%Z.

(** ** Serials *)

(** Modelled from the spec: the serial types of the missing headers.  A
    serial is a 64-bit counter with the distinguished values zero (never
    submitted) and infinite; a queue serial is a pair of an index and a
    serial and is valid when its serial is not zero. *)
Definition Serial := Z.
Definition kZeroSerial : Serial := 0%Z.
Definition Serial_Infinite : Serial := 18446744073709551615%Z.
Definition SerialIndex := N.
Definition kInvalidQueueSerialIndex : SerialIndex := 4294967295%N.

Record QueueSerial := {
  qsIndex : SerialIndex;
  qsSerial : Serial
}.

Definition QueueSerial_default : QueueSerial :=
  {| qsIndex := kInvalidQueueSerialIndex; qsSerial := kZeroSerial |}.

Definition QueueSerial_valid (q : QueueSerial) : bool :=
  negb (qsSerial q =? kZeroSerial)%Z.

(** Modelled from the spec: a resource use is the set of queue serials of the
    submissions that still reference the resource. *)
Definition ResourceUse := list QueueSerial.

(** ** Enumerations *)

Inductive ProtectionType := Unprotected | Protected | InvalidEnum.
Inductive ContextPriority := Low | Medium | High.
Inductive SubmitPolicy := AllowDeferred | EnsureSubmitted.

Inductive CustomTask :=
| Invalid
| FlushWaitSemaphores
| ProcessOutsideRenderPassCommands
| ProcessRenderPassCommands
| FlushAndQueueSubmit
| OneOffQueueSubmit
| Present.

Inductive Mutex :=
| mQueueSubmitMutex
| mCmdCompleteMutex
| mCmdReleaseMutex
| mCmdPoolMutex
| mRecyclerMutex
| mTaskEnqueueMutex
| mTaskDequeueMutex
| mErrorMutex.

Definition ProtectionType_eqb (a b : ProtectionType) : bool :=
  match a, b with
  | Unprotected, Unprotected | Protected, Protected | InvalidEnum, InvalidEnum => true
  | _, _ => false
  end.

Definition ContextPriority_eqb (a b : ContextPriority) : bool :=
  match a, b with
  | Low, Low | Medium, Medium | High, High => true
  | _, _ => false
  end.

Definition Mutex_eqb (a b : Mutex) : bool :=
  match a, b with
  | mQueueSubmitMutex, mQueueSubmitMutex
  | mCmdCompleteMutex, mCmdCompleteMutex
  | mCmdReleaseMutex, mCmdReleaseMutex
  | mCmdPoolMutex, mCmdPoolMutex
  | mRecyclerMutex, mRecyclerMutex
  | mTaskEnqueueMutex, mTaskEnqueueMutex
  | mTaskDequeueMutex, mTaskDequeueMutex
  | mErrorMutex, mErrorMutex => true
  | _, _ => false
  end.

(** ** Structures *)

(** [RecyclableFence]: the fence and the recycler it goes back to.  Only one
    [FenceRecycler] exists, so the pointer [mRecycler] is a flag.  [rfRefs]
    is the reference count of the shared handle that owns the object. *)
Record RecyclableFence := {
  rfFence : VkFence;
  rfRecycler : bool;
  rfRefs : nat
}.

(** A [SharedFence] is a counted pointer to a [RecyclableFence] of the
    store; a [SharedExternalFence] is a pointer to a fence of the caller.
    [None] is the null pointer. *)
Definition SharedFence := nat.
Definition SharedExternalFence := VkFence.

Record CommandBatch := {
  mQueueSerial : QueueSerial;
  mProtectionType : ProtectionType;
  mPrimaryCommands : VkCommandBuffer;
  mCommandPoolAccess : bool;
  mSecondaryCommands : list VkCommandBuffer;
  mFence : option SharedFence;
  mExternalFence : option SharedExternalFence
}.

(** [CommandBatch::CommandBatch()] *)
Definition CommandBatch_new : CommandBatch :=
  {| mQueueSerial := QueueSerial_default;
     mProtectionType := InvalidEnum;
     mPrimaryCommands := VK_NULL_HANDLE;
     mCommandPoolAccess := false;
     mSecondaryCommands := [];
     mFence := None;
     mExternalFence := None |}.

Record CommandsState := {
  primaryCommands : VkCommandBuffer;
  secondaryCommands : list VkCommandBuffer;
  waitSemaphores : list VkSemaphore;
  waitSemaphoreStageMasks : list VkPipelineStageFlags
}.

Record VkSubmitInfo := {
  sType : VkStructureType;
  protectedSubmit : bool;
  commandBufferCount : Z;
  pCommandBuffers : VkCommandBuffer;
  pWaitSemaphores : list VkSemaphore;
  pWaitDstStageMask : list VkPipelineStageFlags;
  signalSemaphoreCount : Z;
  pSignalSemaphores : VkSemaphore
}.

(** [VkSubmitInfo submitInfo = {}] *)
Definition VkSubmitInfo_zero : VkSubmitInfo :=
  {| sType := 0%Z; protectedSubmit := false; commandBufferCount := 0%Z;
     pCommandBuffers := VK_NULL_HANDLE; pWaitSemaphores := [];
     pWaitDstStageMask := []; signalSemaphoreCount := 0%Z;
     pSignalSemaphores := VK_NULL_HANDLE |}.

(** The present info without its chain of extension records. *)
Record VkPresentInfoKHR := {
  present_sType : VkStructureType;
  swapchainCount : Z;
  pSwapchains : VkHandle;
  pImageIndices : Z;
  waitSemaphoreCount : Z;
  pWaitSemaphore : VkSemaphore;
  pResults : bool
}.

Definition VkPresentInfoKHR_zero : VkPresentInfoKHR :=
  {| present_sType := 0%Z; swapchainCount := 0%Z; pSwapchains := VK_NULL_HANDLE;
     pImageIndices := 0%Z; waitSemaphoreCount := 0%Z;
     pWaitSemaphore := VK_NULL_HANDLE; pResults := false |}.

Record SwapchainStatus := {
  isPending : bool;
  lastPresentResult : VkResult
}.

Record Error := {
  errorCode : VkResult;
  file : string;
  function : string;
  line : nat
}.

Record CommandProcessorTask := {
  task_mTask : CustomTask;
  task_mOutsideRenderPassCommandBuffer : VkHandle;
  task_mRenderPassCommandBuffer : VkHandle;
  task_mRenderPass : VkHandle;
  task_mFramebufferOverride : VkHandle;
  task_mWaitSemaphores : list VkSemaphore;
  task_mWaitSemaphoreStageMasks : list VkPipelineStageFlags;
  task_mSemaphore : VkSemaphore;
  task_mExternalFence : option SharedExternalFence;
  task_mOneOffCommandBuffer : VkCommandBuffer;
  task_mOneOffWaitSemaphore : VkSemaphore;
  task_mOneOffWaitSemaphoreStageMask : VkPipelineStageFlags;
  task_mSubmitQueueSerial : QueueSerial;
  task_mPriority : ContextPriority;
  task_mProtectionType : ProtectionType;
  task_mPresentInfo : VkPresentInfoKHR;
  task_mSwapchainStatus : nat
}.

(** ** The trace *)

(** The calls into the device and the pool, and the stores that other threads
    can read. *)
Inductive Action :=
| ActQueueSubmit (priority : ContextPriority) (info : VkSubmitInfo) (fence : VkFence)
| ActWaitForFence (fence : VkFence) (timeout : Z)
| ActGetFenceStatus (fence : VkFence)
| ActCreateFence
| ActResetFence (fence : VkFence)
| ActDestroyFence (fence : VkFence)
| ActExportFenceFd (fence : VkFence)
| ActEndCommandBuffer (cmd : VkCommandBuffer)
| ActDestroyCommandBuffer (cmd : VkCommandBuffer)
| ActCollectCommandBuffer (protection : ProtectionType) (cmd : VkCommandBuffer)
| ActReleaseSecondaryCommandBuffers (cmds : list VkCommandBuffer)
| ActFlushToPrimary (helper : VkHandle)
| ActRecycleCommandBufferHelper (helper : VkHandle)
| ActQueuePresent (priority : ContextPriority) (info : VkPresentInfoKHR)
| ActQueueWaitIdle
| ActCleanupGarbage
| ActNotifyWorker
| ActWarn
| ActProcessTask (task : CustomTask)
| ActHandleError (context : nat) (err : Error)
| ActPushInFlight (serial : QueueSerial)
| ActMoveToFinished (serial : QueueSerial)
| ActPopInFlight (serial : QueueSerial)
| ActPopFinished (serial : QueueSerial)
| ActStoreLastSubmitted (serial : QueueSerial)
| ActStoreLastCompleted (serial : QueueSerial)
| ActFillLastCompleted (serial : Serial)
| ActStoreLastPresentResult (status : nat) (result : VkResult)
| ActStoreIsPending (status : nat) (pending : bool).

Record Event := {
  evLocks : list Mutex;
  evAction : Action
}.

(** The device and the renderer are outside the file.  Their answers are
    functions of the trace so far, so a fence may time out on one wait and be
    signalled on the next.  The ring capacities and the fence wait limit come
    from headers that are not part of the sources. *)
Record Environment := {
  vkQueueSubmit : list Event -> VkSubmitInfo -> VkFence -> VkResult;
  vkWaitForFences : list Event -> VkFence -> Z -> VkResult;
  vkGetFenceStatus : list Event -> VkFence -> VkResult;
  vkCreateFence : list Event -> VkResult * VkFence;
  vkEndCommandBuffer : list Event -> VkCommandBuffer -> VkResult;
  vkResetCommandBuffer : list Event -> VkCommandBuffer -> VkResult;
  vkQueuePresentKHR : list Event -> VkPresentInfoKHR -> VkResult;
  flushToPrimary : list Event -> VkHandle -> CommandsState -> VkResult * CommandsState;
  allocatePrimary : list Event -> ProtectionType -> VkResult * VkCommandBuffer;
  kInFlightCommandsLimit : nat;
  kMaxFinishedCommandsLimit : nat;
  kMaxCommandProcessorTasksLimit : nat;
  getMaxFenceWaitTimeNs : Z;
  isAsyncCommandBufferResetAndGarbageCleanupEnabled : bool
}.

(** ** The state *)

Record State := {
  (* CommandQueue *)
  mInFlightCommands : list CommandBatch;
  mFinishedCommandBatches : list CommandBatch;
  mNumAllCommands : nat;
  mLastSubmittedSerials : list Serial;
  mLastCompletedSerials : list Serial;
  (* FenceRecycler and the store of shared fences *)
  mFenceRecycler : list VkFence;
  sharedFences : list RecyclableFence;
  (* CommandPoolAccess *)
  mCommandsStateMap : ContextPriority -> ProtectionType -> CommandsState;
  mPrimaryCommandPoolMap : ProtectionType -> list VkCommandBuffer;
  (* CommandProcessor *)
  mTaskQueue : list CommandProcessorTask;
  mErrors : list Error;
  mNeedCommandsAndGarbageCleanup : bool;
  (* the swapchain status objects of the window surfaces *)
  swapchainStatus : list SwapchainStatus;
  (* the mutexes the running thread holds, and the trace *)
  held : list Mutex;
  trace : list Event
}.

Definition set_mInFlightCommands (v : list CommandBatch) (s : State) : State :=
  Build_State v (mFinishedCommandBatches s) (mNumAllCommands s)
    (mLastSubmittedSerials s) (mLastCompletedSerials s) (mFenceRecycler s)
    (sharedFences s) (mCommandsStateMap s) (mPrimaryCommandPoolMap s)
    (mTaskQueue s) (mErrors s) (mNeedCommandsAndGarbageCleanup s)
    (swapchainStatus s) (held s) (trace s).

Definition set_mFinishedCommandBatches (v : list CommandBatch) (s : State) : State :=
  Build_State (mInFlightCommands s) v (mNumAllCommands s)
    (mLastSubmittedSerials s) (mLastCompletedSerials s) (mFenceRecycler s)
    (sharedFences s) (mCommandsStateMap s) (mPrimaryCommandPoolMap s)
    (mTaskQueue s) (mErrors s) (mNeedCommandsAndGarbageCleanup s)
    (swapchainStatus s) (held s) (trace s).

Definition set_mNumAllCommands (v : nat) (s : State) : State :=
  Build_State (mInFlightCommands s) (mFinishedCommandBatches s) v
    (mLastSubmittedSerials s) (mLastCompletedSerials s) (mFenceRecycler s)
    (sharedFences s) (mCommandsStateMap s) (mPrimaryCommandPoolMap s)
    (mTaskQueue s) (mErrors s) (mNeedCommandsAndGarbageCleanup s)
    (swapchainStatus s) (held s) (trace s).

Definition set_mLastSubmittedSerials (v : list Serial) (s : State) : State :=
  Build_State (mInFlightCommands s) (mFinishedCommandBatches s) (mNumAllCommands s)
    v (mLastCompletedSerials s) (mFenceRecycler s)
    (sharedFences s) (mCommandsStateMap s) (mPrimaryCommandPoolMap s)
    (mTaskQueue s) (mErrors s) (mNeedCommandsAndGarbageCleanup s)
    (swapchainStatus s) (held s) (trace s).

Definition set_mLastCompletedSerials (v : list Serial) (s : State) : State :=
  Build_State (mInFlightCommands s) (mFinishedCommandBatches s) (mNumAllCommands s)
    (mLastSubmittedSerials s) v (mFenceRecycler s)
    (sharedFences s) (mCommandsStateMap s) (mPrimaryCommandPoolMap s)
    (mTaskQueue s) (mErrors s) (mNeedCommandsAndGarbageCleanup s)
    (swapchainStatus s) (held s) (trace s).

Definition set_mFenceRecycler (v : list VkFence) (s : State) : State :=
  Build_State (mInFlightCommands s) (mFinishedCommandBatches s) (mNumAllCommands s)
    (mLastSubmittedSerials s) (mLastCompletedSerials s) v
    (sharedFences s) (mCommandsStateMap s) (mPrimaryCommandPoolMap s)
    (mTaskQueue s) (mErrors s) (mNeedCommandsAndGarbageCleanup s)
    (swapchainStatus s) (held s) (trace s).

Definition set_sharedFences (v : list RecyclableFence) (s : State) : State :=
  Build_State (mInFlightCommands s) (mFinishedCommandBatches s) (mNumAllCommands s)
    (mLastSubmittedSerials s) (mLastCompletedSerials s) (mFenceRecycler s)
    v (mCommandsStateMap s) (mPrimaryCommandPoolMap s)
    (mTaskQueue s) (mErrors s) (mNeedCommandsAndGarbageCleanup s)
    (swapchainStatus s) (held s) (trace s).

Definition set_mCommandsStateMap
    (v : ContextPriority -> ProtectionType -> CommandsState) (s : State) : State :=
  Build_State (mInFlightCommands s) (mFinishedCommandBatches s) (mNumAllCommands s)
    (mLastSubmittedSerials s) (mLastCompletedSerials s) (mFenceRecycler s)
    (sharedFences s) v (mPrimaryCommandPoolMap s)
    (mTaskQueue s) (mErrors s) (mNeedCommandsAndGarbageCleanup s)
    (swapchainStatus s) (held s) (trace s).

Definition set_mPrimaryCommandPoolMap
    (v : ProtectionType -> list VkCommandBuffer) (s : State) : State :=
  Build_State (mInFlightCommands s) (mFinishedCommandBatches s) (mNumAllCommands s)
    (mLastSubmittedSerials s) (mLastCompletedSerials s) (mFenceRecycler s)
    (sharedFences s) (mCommandsStateMap s) v
    (mTaskQueue s) (mErrors s) (mNeedCommandsAndGarbageCleanup s)
    (swapchainStatus s) (held s) (trace s).

Definition set_mTaskQueue (v : list CommandProcessorTask) (s : State) : State :=
  Build_State (mInFlightCommands s) (mFinishedCommandBatches s) (mNumAllCommands s)
    (mLastSubmittedSerials s) (mLastCompletedSerials s) (mFenceRecycler s)
    (sharedFences s) (mCommandsStateMap s) (mPrimaryCommandPoolMap s)
    v (mErrors s) (mNeedCommandsAndGarbageCleanup s)
    (swapchainStatus s) (held s) (trace s).

Definition set_mErrors (v : list Error) (s : State) : State :=
  Build_State (mInFlightCommands s) (mFinishedCommandBatches s) (mNumAllCommands s)
    (mLastSubmittedSerials s) (mLastCompletedSerials s) (mFenceRecycler s)
    (sharedFences s) (mCommandsStateMap s) (mPrimaryCommandPoolMap s)
    (mTaskQueue s) v (mNeedCommandsAndGarbageCleanup s)
    (swapchainStatus s) (held s) (trace s).

Definition set_mNeedCommandsAndGarbageCleanup (v : bool) (s : State) : State :=
  Build_State (mInFlightCommands s) (mFinishedCommandBatches s) (mNumAllCommands s)
    (mLastSubmittedSerials s) (mLastCompletedSerials s) (mFenceRecycler s)
    (sharedFences s) (mCommandsStateMap s) (mPrimaryCommandPoolMap s)
    (mTaskQueue s) (mErrors s) v
    (swapchainStatus s) (held s) (trace s).

Definition set_swapchainStatus (v : list SwapchainStatus) (s : State) : State :=
  Build_State (mInFlightCommands s) (mFinishedCommandBatches s) (mNumAllCommands s)
    (mLastSubmittedSerials s) (mLastCompletedSerials s) (mFenceRecycler s)
    (sharedFences s) (mCommandsStateMap s) (mPrimaryCommandPoolMap s)
    (mTaskQueue s) (mErrors s) (mNeedCommandsAndGarbageCleanup s)
    v (held s) (trace s).

Definition set_held (v : list Mutex) (s : State) : State :=
  Build_State (mInFlightCommands s) (mFinishedCommandBatches s) (mNumAllCommands s)
    (mLastSubmittedSerials s) (mLastCompletedSerials s) (mFenceRecycler s)
    (sharedFences s) (mCommandsStateMap s) (mPrimaryCommandPoolMap s)
    (mTaskQueue s) (mErrors s) (mNeedCommandsAndGarbageCleanup s)
    (swapchainStatus s) v (trace s).

Definition set_trace (v : list Event) (s : State) : State :=
  Build_State (mInFlightCommands s) (mFinishedCommandBatches s) (mNumAllCommands s)
    (mLastSubmittedSerials s) (mLastCompletedSerials s) (mFenceRecycler s)
    (sharedFences s) (mCommandsStateMap s) (mPrimaryCommandPoolMap s)
    (mTaskQueue s) (mErrors s) (mNeedCommandsAndGarbageCleanup s)
    (swapchainStatus s) (held s) v.

(** ** The monad *)

Inductive Fault :=
| AssertionFailed (line : nat)
| UnreachableReached
| SelfDeadlock
| InvalidAccess
| OutOfFuel.

(** [Ok] carries the value of a call that ran to its end; for a function that
    returns [angle::Result] it is [Continue].  [Stop] is [angle::Result::Stop].
    [Abort] ends the program. *)
Inductive Outcome (A : Type) :=
| Ok (a : A)
| Stop
| Abort (f : Fault).
Arguments Ok {A} a.
Arguments Stop {A}.
Arguments Abort {A} f.

Definition M (A : Type) : Type := State -> Outcome A * State.

Definition ret {A} (a : A) : M A := fun s => (Ok a, s).

Definition bind {A B} (m : M A) (k : A -> M B) : M B :=
  fun s =>
    match m s with
    | (Ok a, s') => k a s'
    | (Stop, s') => (Stop, s')
    | (Abort f, s') => (Abort f, s')
    end.

Declare Scope cmd_scope.
Delimit Scope cmd_scope with cmd.
Notation "x <- c1 ;; c2" := (bind c1 (fun x => c2))
  (at level 100, c1 at next level, right associativity) : cmd_scope.
Notation "c1 ;; c2" := (bind c1 (fun _ => c2))
  (at level 100, right associativity) : cmd_scope.
Open Scope cmd_scope.

Definition get {A} (f : State -> A) : M A := fun s => (Ok (f s), s).
Definition modify (f : State -> State) : M unit := fun s => (Ok tt, f s).
Definition stop {A} : M A := fun s => (Stop, s).
Definition abort {A} (f : Fault) : M A := fun s => (Abort f, s).

(** [ASSERT(c)] on the given line of the source, and [UNREACHABLE()].  The
    assertions inside the containers of the missing headers have line 0. *)
Definition ASSERT (line : nat) (c : bool) : M unit :=
  if c then ret tt else abort (AssertionFailed line).
Definition UNREACHABLE : M unit := abort UnreachableReached.

(** [(void)f(...)] for an [f] that returns [angle::Result] *)
Definition ignoreResult (m : M unit) : M unit :=
  fun s =>
    match m s with
    | (Stop, s') => (Ok tt, s')
    | r => r
    end.

(** Append one event, stamped with the mutexes held. *)
Definition emit (a : Action) : M unit :=
  modify (fun s => set_trace (trace s ++ [ {| evLocks := held s; evAction := a |} ]) s).

(** Ask the device: the oracle reads the trace before the call is logged. *)
Definition ask {A} (oracle : list Event -> A) (a : Action) : M A :=
  r <- get (fun s => oracle (trace s)) ;;
  emit a ;;
  ret r.

Fixpoint holds (m : Mutex) (l : list Mutex) : bool :=
  match l with
  | [] => false
  | x :: l' => Mutex_eqb m x || holds m l'
  end.

Fixpoint unhold (m : Mutex) (l : list Mutex) : list Mutex :=
  match l with
  | [] => []
  | x :: l' => if Mutex_eqb m x then l' else x :: unhold m l'
  end.

(** The mutexes are not recursive: a thread that locks one it owns never
    returns. *)
Definition lock (m : Mutex) : M unit :=
  fun s =>
    if holds m (held s) then (Abort SelfDeadlock, s)
    else (Ok tt, set_held (m :: held s) s).

Definition unlock (m : Mutex) : M unit :=
  modify (fun s => set_held (unhold m (held s)) s).

(** [std::lock_guard<...> guard(m); body]: the mutex is released when the
    scope is left, also on an early [return]. *)
Definition lock_guard {A} (m : Mutex) (body : M A) : M A :=
  fun s =>
    match lock m s with
    | (Ok _, s1) =>
        match body s1 with
        | (Ok a, s2) => (Ok a, set_held (unhold m (held s2)) s2)
        | (Stop, s2) => (Stop, set_held (unhold m (held s2)) s2)
        | (Abort f, s2) => (Abort f, s2)
        end
    | (Stop, s1) => (Stop, s1)
    | (Abort f, s1) => (Abort f, s1)
    end.

(** ** Contexts *)

(** A [Context] is used for its [handleError].  The contexts of the callers
    are outside the file: they record the error.  The command processor is a
    context too; its [handleError] is defined with the processor. *)
Record Context := {
  handleError : VkResult -> string -> string -> nat -> M unit
}.

Definition thisFile : string := "CommandProcessor.cpp".

Definition externalContext (id : nat) : Context :=
  {| handleError := fun code f fn ln =>
       emit (ActHandleError id
               {| errorCode := code; file := f; function := fn; line := ln |}) |}.

(** Modelled from the spec: the macro [ANGLE_VK_TRY] of a missing header;
    a device result other than success is handed to the context's error
    handler and the function returns [Stop]. *)
Definition ANGLE_VK_TRY (context : Context) (command : M VkResult)
    (fn : string) (ln : nat) : M unit :=
  result <- command ;;
  if (result =? VK_SUCCESS)%Z then ret tt
  else (handleError context result thisFile fn ln ;; stop).

Section Device.

Variable env : Environment.

(** ** FenceRecycler *)

(** Modelled from the spec: [angle::Recycler], the free list behind
    [FenceRecycler::mRecycler]; fetch pops a handle and recycle pushes one.
    The head of the list is the handle that is fetched next. *)
Definition Recycler_empty : M bool :=
  get (fun s => match mFenceRecycler s with [] => true | _ => false end).

Definition Recycler_fetch : M VkFence :=
  l <- get mFenceRecycler ;;
  match l with
  | [] => abort (AssertionFailed 0)
  | f :: rest => modify (set_mFenceRecycler rest) ;; ret f
  end.

Definition Recycler_recycle (fence : VkFence) : M unit :=
  modify (fun s => set_mFenceRecycler (fence :: mFenceRecycler s) s).

Fixpoint destroyFences (l : list VkFence) : M unit :=
  match l with
  | [] => ret tt
  | f :: rest => emit (ActDestroyFence f) ;; destroyFences rest
  end.

(** [FenceRecycler::destroy] *)
Definition FenceRecycler_destroy : M unit :=
  lock_guard mRecyclerMutex
    (l <- get mFenceRecycler ;;
     destroyFences l ;;
     modify (set_mFenceRecycler [])).

(** [FenceRecycler::fetch]: the result is the value of [*fenceOut] at the end. *)
Definition FenceRecycler_fetch (fenceOut : VkFence) : M VkFence :=
  ASSERT 132 (negb (valid fenceOut)) ;;
  lock_guard mRecyclerMutex
    (e <- Recycler_empty ;;
     if negb e then
       (f <- Recycler_fetch ;;
        emit (ActResetFence f) ;;
        ret f)
     else ret fenceOut).

(** [FenceRecycler::recycle] *)
Definition FenceRecycler_recycle (fence : VkFence) : M unit :=
  lock_guard mRecyclerMutex (Recycler_recycle fence).

(** ** RecyclableFence and SharedFence *)

Definition deref (p : SharedFence) : M RecyclableFence :=
  o <- get (fun s => sharedFences s !! p) ;;
  match o with
  | Some r => ret r
  | None => abort InvalidAccess
  end.

Definition store (p : SharedFence) (r : RecyclableFence) : M unit :=
  modify (fun s => set_sharedFences (<[p := r]> (sharedFences s)) s).

Definition set_rfFence (f : VkFence) (r : RecyclableFence) : RecyclableFence :=
  {| rfFence := f; rfRecycler := rfRecycler r; rfRefs := rfRefs r |}.
Definition set_rfRecycler (b : bool) (r : RecyclableFence) : RecyclableFence :=
  {| rfFence := rfFence r; rfRecycler := b; rfRefs := rfRefs r |}.
Definition set_rfRefs (n : nat) (r : RecyclableFence) : RecyclableFence :=
  {| rfFence := rfFence r; rfRecycler := rfRecycler r; rfRefs := n |}.

(** [RecyclableFence::init] *)
Definition RecyclableFence_init (p : SharedFence) : M VkResult :=
  r <- deref p ;;
  ASSERT 82 (negb (valid (rfFence r))) ;;
  ASSERT 83 (negb (rfRecycler r)) ;;
  (* First try to fetch from recycler. If that failed, try to create a new VkFence *)
  f <- FenceRecycler_fetch (rfFence r) ;;
  store p (set_rfFence f r) ;;
  if negb (valid f) then
    created <- ask (vkCreateFence env) ActCreateFence ;;
    if negb (fst created =? VK_SUCCESS)%Z then
      (ASSERT 95 (negb (valid f)) ;;
       ret (fst created))
    else
      (store p (set_rfFence (snd created) r) ;;
       ASSERT 98 (valid (snd created)) ;;
       store p (set_rfRecycler true (set_rfFence (snd created) r)) ;;
       ret VK_SUCCESS)
  else
    (store p (set_rfRecycler true (set_rfFence f r)) ;;
     ret VK_SUCCESS).

(** [RecyclableFence::destroy] *)
Definition RecyclableFence_destroy (p : SharedFence) : M unit :=
  r <- deref p ;;
  if valid (rfFence r) then
    if rfRecycler r then
      (FenceRecycler_recycle (rfFence r) ;;
       store p (set_rfFence VK_NULL_HANDLE r))
    else
      (* Recycler was detached - destroy the fence. *)
      (emit (ActDestroyFence (rfFence r)) ;;
       store p (set_rfFence VK_NULL_HANDLE r))
  else ret tt.

(** [RecyclableFence::detachRecycler], of the missing header: the pointer to
    the recycler is cleared. *)
Definition RecyclableFence_detachRecycler (p : SharedFence) : M unit :=
  r <- deref p ;;
  store p (set_rfRecycler false r).

(** Modelled from the spec: [SharedFence], the shared-ownership handle of a
    missing header.  The last releaser destroys the [RecyclableFence], which
    returns the fence to its recycler when still attached. *)
Definition SharedFence_MakeShared : M SharedFence :=
  p <- get (fun s => length (sharedFences s)) ;;
  modify (fun s => set_sharedFences
            (sharedFences s ++ [ {| rfFence := VK_NULL_HANDLE;
                                    rfRecycler := false; rfRefs := 1 |} ]) s) ;;
  ret p.

Definition SharedFence_copy (p : SharedFence) : M SharedFence :=
  r <- deref p ;;
  store p (set_rfRefs (S (rfRefs r)) r) ;;
  ret p.

Definition SharedFence_reset (p : SharedFence) : M unit :=
  r <- deref p ;;
  store p (set_rfRefs (pred (rfRefs r)) r) ;;
  if (rfRefs r <=? 1)%nat then RecyclableFence_destroy p else ret tt.

(** ** CommandPoolAccess *)

Definition set_state (priority : ContextPriority) (protection : ProtectionType)
    (c : CommandsState) : M unit :=
  modify (fun s => set_mCommandsStateMap
    (fun pr pt => if ContextPriority_eqb pr priority && ProtectionType_eqb pt protection
                  then c else mCommandsStateMap s pr pt) s).

Definition set_pool (protection : ProtectionType) (l : list VkCommandBuffer) : M unit :=
  modify (fun s => set_mPrimaryCommandPoolMap
    (fun pt => if ProtectionType_eqb pt protection then l
               else mPrimaryCommandPoolMap s pt) s).

(** [CommandPoolAccess::destroyPrimaryCommandBuffer]: the result is the
    value of [*primaryCommands] at the end. *)
Definition destroyPrimaryCommandBuffer (primary : VkCommandBuffer) : M VkCommandBuffer :=
  ASSERT 1113 (valid primary) ;;
  lock_guard mCmdPoolMutex
    (emit (ActDestroyCommandBuffer primary) ;;
     ret VK_NULL_HANDLE).

(** Modelled from the spec: [PersistentCommandPool::collect] of a missing
    file; the buffer is reset and goes back to the free buffers of its pool. *)
Definition PersistentCommandPool_collect (context : Context)
    (protection : ProtectionType) (buffer : VkCommandBuffer) : M VkCommandBuffer :=
  ANGLE_VK_TRY context
    (ask (fun t => vkResetCommandBuffer env t buffer)
         (ActCollectCommandBuffer protection buffer))
    "collect" 0 ;;
  free <- get (fun s => mPrimaryCommandPoolMap s protection) ;;
  set_pool protection (buffer :: free) ;;
  ret VK_NULL_HANDLE.

(** [CommandPoolAccess::collectPrimaryCommandBuffer] *)
Definition collectPrimaryCommandBuffer (context : Context)
    (protection : ProtectionType) (primary : VkCommandBuffer) : M VkCommandBuffer :=
  ASSERT 1123 (valid primary) ;;
  lock_guard mCmdPoolMutex
    (PersistentCommandPool_collect context protection primary).

(** Modelled from the spec: [ensurePrimaryCommandBufferValidLocked] of a
    missing file; a state without a primary buffer takes a free buffer of the
    pool or a newly allocated one. *)
Definition ensurePrimaryCommandBufferValidLocked (context : Context)
    (protection : ProtectionType) (priority : ContextPriority) : M unit :=
  st <- get (fun s => mCommandsStateMap s priority protection) ;;
  if valid (primaryCommands st) then ret tt
  else
    free <- get (fun s => mPrimaryCommandPoolMap s protection) ;;
    match free with
    | b :: rest =>
        set_pool protection rest ;;
        set_state priority protection
          {| primaryCommands := b; secondaryCommands := secondaryCommands st;
             waitSemaphores := waitSemaphores st;
             waitSemaphoreStageMasks := waitSemaphoreStageMasks st |}
    | [] =>
        a <- get (fun s => allocatePrimary env (trace s) protection) ;;
        ANGLE_VK_TRY context (ret (fst a)) "allocate" 0 ;;
        set_state priority protection
          {| primaryCommands := snd a; secondaryCommands := secondaryCommands st;
             waitSemaphores := waitSemaphores st;
             waitSemaphoreStageMasks := waitSemaphoreStageMasks st |}
    end.

(** [CommandPoolAccess::flushOutsideRPCommands] and
    [CommandPoolAccess::flushRenderPassCommands]; [flushToPrimary] belongs to
    the command buffer helper, outside the file. *)
Definition CommandPoolAccess_flushCommands (context : Context)
    (protection : ProtectionType) (priority : ContextPriority)
    (helper : VkHandle) : M unit :=
  lock_guard mCmdPoolMutex
    (ensurePrimaryCommandBufferValidLocked context protection priority ;;
     st <- get (fun s => mCommandsStateMap s priority protection) ;;
     r <- ask (fun t => flushToPrimary env t helper st) (ActFlushToPrimary helper) ;;
     set_state priority protection (snd r) ;;
     ANGLE_VK_TRY context (ret (fst r)) "flushToPrimary" 0).

(** [CommandPoolAccess::flushWaitSemaphores] *)
Definition CommandPoolAccess_flushWaitSemaphores
    (protection : ProtectionType) (priority : ContextPriority)
    (sems : list VkSemaphore) (masks : list VkPipelineStageFlags) : M unit :=
  ASSERT 1164 (negb (match sems with [] => true | _ => false end)) ;;
  ASSERT 1165 (length sems =? length masks)%nat ;;
  lock_guard mCmdPoolMutex
    (st <- get (fun s => mCommandsStateMap s priority protection) ;;
     set_state priority protection
       {| primaryCommands := primaryCommands st;
          secondaryCommands := secondaryCommands st;
          waitSemaphores := waitSemaphores st ++ sems;
          waitSemaphoreStageMasks := waitSemaphoreStageMasks st ++ masks |}).

(** ** CommandBatch *)

Definition set_mQueueSerial (v : QueueSerial) (b : CommandBatch) : CommandBatch :=
  {| mQueueSerial := v; mProtectionType := mProtectionType b;
     mPrimaryCommands := mPrimaryCommands b; mCommandPoolAccess := mCommandPoolAccess b;
     mSecondaryCommands := mSecondaryCommands b; mFence := mFence b;
     mExternalFence := mExternalFence b |}.
Definition set_mProtectionType (v : ProtectionType) (b : CommandBatch) : CommandBatch :=
  {| mQueueSerial := mQueueSerial b; mProtectionType := v;
     mPrimaryCommands := mPrimaryCommands b; mCommandPoolAccess := mCommandPoolAccess b;
     mSecondaryCommands := mSecondaryCommands b; mFence := mFence b;
     mExternalFence := mExternalFence b |}.
Definition set_mPrimaryCommands (v : VkCommandBuffer) (b : CommandBatch) : CommandBatch :=
  {| mQueueSerial := mQueueSerial b; mProtectionType := mProtectionType b;
     mPrimaryCommands := v; mCommandPoolAccess := mCommandPoolAccess b;
     mSecondaryCommands := mSecondaryCommands b; mFence := mFence b;
     mExternalFence := mExternalFence b |}.
Definition set_mCommandPoolAccess (v : bool) (b : CommandBatch) : CommandBatch :=
  {| mQueueSerial := mQueueSerial b; mProtectionType := mProtectionType b;
     mPrimaryCommands := mPrimaryCommands b; mCommandPoolAccess := v;
     mSecondaryCommands := mSecondaryCommands b; mFence := mFence b;
     mExternalFence := mExternalFence b |}.
Definition set_mSecondaryCommands (v : list VkCommandBuffer) (b : CommandBatch) : CommandBatch :=
  {| mQueueSerial := mQueueSerial b; mProtectionType := mProtectionType b;
     mPrimaryCommands := mPrimaryCommands b; mCommandPoolAccess := mCommandPoolAccess b;
     mSecondaryCommands := v; mFence := mFence b;
     mExternalFence := mExternalFence b |}.
Definition set_mFence (v : option SharedFence) (b : CommandBatch) : CommandBatch :=
  {| mQueueSerial := mQueueSerial b; mProtectionType := mProtectionType b;
     mPrimaryCommands := mPrimaryCommands b; mCommandPoolAccess := mCommandPoolAccess b;
     mSecondaryCommands := mSecondaryCommands b; mFence := v;
     mExternalFence := mExternalFence b |}.
Definition set_mExternalFence (v : option SharedExternalFence) (b : CommandBatch) : CommandBatch :=
  {| mQueueSerial := mQueueSerial b; mProtectionType := mProtectionType b;
     mPrimaryCommands := mPrimaryCommands b; mCommandPoolAccess := mCommandPoolAccess b;
     mSecondaryCommands := mSecondaryCommands b; mFence := mFence b;
     mExternalFence := v |}.

Definition isSome {A} (o : option A) : bool :=
  match o with Some _ => true | None => false end.

(** [SecondaryCommandBufferCollector::releaseCommandBuffers], of a missing
    file: the collected buffers go back to their pools. *)
Definition releaseCommandBuffers (b : CommandBatch) : M CommandBatch :=
  match mSecondaryCommands b with
  | [] => ret b
  | cmds =>
      emit (ActReleaseSecondaryCommandBuffers cmds) ;;
      ret (set_mSecondaryCommands [] b)
  end.

(** [CommandBatch::hasFence] *)
Definition hasFence (b : CommandBatch) : M bool :=
  ASSERT 500 (negb (isSome (mExternalFence b)) || negb (isSome (mFence b))) ;;
  match mFence b with
  | None => ret tt
  | Some p => r <- deref p ;; ASSERT 501 (valid (rfFence r))
  end ;;
  ret (isSome (mFence b) || isSome (mExternalFence b)).

(** [CommandBatch::destroy] *)
Definition CommandBatch_destroy (b : CommandBatch) : M CommandBatch :=
  b <- (if valid (mPrimaryCommands b) then
          ASSERT 403 (mCommandPoolAccess b) ;;
          p <- destroyPrimaryCommandBuffer (mPrimaryCommands b) ;;
          ret (set_mPrimaryCommands p b)
        else ret b) ;;
  b <- releaseCommandBuffers b ;;
  b <- match mFence b with
       | Some p =>
           RecyclableFence_detachRecycler p ;;
           SharedFence_reset p ;;
           ret (set_mFence None b)
       | None => ret b
       end ;;
  ret (set_mExternalFence None b).

(** [CommandBatch::release] *)
Definition CommandBatch_release (context : Context) (b : CommandBatch) : M CommandBatch :=
  b <- (if valid (mPrimaryCommands b) then
          ASSERT 420 (mCommandPoolAccess b) ;;
          p <- collectPrimaryCommandBuffer context (mProtectionType b) (mPrimaryCommands b) ;;
          ret (set_mPrimaryCommands p b)
        else ret b) ;;
  b <- releaseCommandBuffers b ;;
  b <- match mFence b with
       | Some p => SharedFence_reset p ;; ret (set_mFence None b)
       | None => ret b
       end ;;
  ret (set_mExternalFence None b).

(** [CommandBatch::setQueueSerial] *)
Definition setQueueSerial (serial : QueueSerial) (b : CommandBatch) : M CommandBatch :=
  ASSERT 433 (QueueSerial_valid serial) ;;
  ASSERT 434 (negb (QueueSerial_valid (mQueueSerial b))) ;;
  ret (set_mQueueSerial serial b).

(** [CommandBatch::setProtectionType] *)
Definition setProtectionType (protection : ProtectionType) (b : CommandBatch) : M CommandBatch :=
  ASSERT 440 (negb (ProtectionType_eqb protection InvalidEnum)) ;;
  ASSERT 441 (ProtectionType_eqb (mProtectionType b) InvalidEnum) ;;
  ret (set_mProtectionType protection b).

(** [CommandBatch::setPrimaryCommands] *)
Definition setPrimaryCommands (primary : VkCommandBuffer) (commandPoolAccess : bool)
    (b : CommandBatch) : M CommandBatch :=
  (* primaryCommands is optional. *)
  ASSERT 449 (negb (valid primary && negb commandPoolAccess)) ;;
  ASSERT 450 (negb (valid (mPrimaryCommands b))) ;;
  ASSERT 451 (negb (mCommandPoolAccess b)) ;;
  ret (set_mCommandPoolAccess commandPoolAccess (set_mPrimaryCommands primary b)).

(** [CommandBatch::setSecondaryCommands] *)
Definition setSecondaryCommands (secondary : list VkCommandBuffer)
    (b : CommandBatch) : M CommandBatch :=
  ASSERT 459 (match mSecondaryCommands b with [] => true | _ => false end) ;;
  ret (set_mSecondaryCommands secondary b).

(** [CommandBatch::initFence]: the result and the batch at the end.  The
    local [fence] is released when it was not moved into the batch. *)
Definition initFence (b : CommandBatch) : M (VkResult * CommandBatch) :=
  h <- hasFence b ;;
  ASSERT 465 (negb h) ;;
  fence <- SharedFence_MakeShared ;;
  result <- RecyclableFence_init fence ;;
  if (result =? VK_SUCCESS)%Z then
    (r <- deref fence ;;
     ASSERT 470 (valid (rfFence r)) ;;
     ret (result, set_mFence (Some fence) b))
  else
    (SharedFence_reset fence ;;
     ret (result, b)).

(** [CommandBatch::setExternalFence] *)
Definition setExternalFence (externalFence : option SharedExternalFence)
    (b : CommandBatch) : M CommandBatch :=
  h <- hasFence b ;;
  ASSERT 478 (negb h) ;;
  ret (set_mExternalFence externalFence b).

(** [CommandBatch::getQueueSerial] *)
Definition getQueueSerial (b : CommandBatch) : M QueueSerial :=
  ASSERT 484 (QueueSerial_valid (mQueueSerial b)) ;;
  ret (mQueueSerial b).

(** [mFence ? mFence->get() : *mExternalFence]: the fence of the batch *)
Definition theFence (b : CommandBatch) : M VkFence :=
  match mFence b, mExternalFence b with
  | Some p, _ => r <- deref p ;; ret (rfFence r)
  | None, Some e => ret e
  | None, None => abort InvalidAccess
  end.

(** [CommandBatch::getFenceHandle] *)
Definition getFenceHandle (b : CommandBatch) : M VkFence :=
  h <- hasFence b ;;
  ASSERT 507 h ;;
  theFence b.

(** [CommandBatch::getFenceStatus] *)
Definition getFenceStatus (b : CommandBatch) : M VkResult :=
  h <- hasFence b ;;
  ASSERT 513 h ;;
  f <- theFence b ;;
  ask (fun t => vkGetFenceStatus env t f) (ActGetFenceStatus f).

(** [CommandBatch::waitFence] *)
Definition waitFence (b : CommandBatch) (timeout : Z) : M VkResult :=
  h <- hasFence b ;;
  ASSERT 519 h ;;
  f <- theFence b ;;
  ask (fun t => vkWaitForFences env t f timeout) (ActWaitForFence f timeout).

(** [CommandBatch::waitFenceUnlocked]: the wait runs on a local copy of the
    fence with the mutex released. *)
Definition waitFenceUnlocked (b : CommandBatch) (timeout : Z) (m : Mutex) : M VkResult :=
  h <- hasFence b ;;
  ASSERT 527 h ;;
  match mFence b, mExternalFence b with
  | Some p, _ =>
      localFenceToWaitOn <- SharedFence_copy p ;;
      unlock m ;;
      r <- deref localFenceToWaitOn ;;
      status <- ask (fun t => vkWaitForFences env t (rfFence r) timeout)
                    (ActWaitForFence (rfFence r) timeout) ;;
      lock m ;;
      SharedFence_reset localFenceToWaitOn ;;
      ret status
  | None, Some e =>
      unlock m ;;
      status <- ask (fun t => vkWaitForFences env t e timeout)
                    (ActWaitForFence e timeout) ;;
      lock m ;;
      ret status
  | None, None => abort InvalidAccess
  end.

(** [CommandPoolAccess::getCommandsAndWaitSemaphores]: the batch and the two
    output vectors at the end.  The state of the pair (priority, protection)
    is left moved-from. *)
Definition getCommandsAndWaitSemaphores (context : Context)
    (protection : ProtectionType) (priority : ContextPriority) (batchOut : CommandBatch)
    : M (CommandBatch * (list VkSemaphore * list VkPipelineStageFlags)) :=
  lock_guard mCmdPoolMutex
    (st <- get (fun s => mCommandsStateMap s priority protection) ;;
     ASSERT 1191 (valid (primaryCommands st)
             || match secondaryCommands st with [] => true | _ => false end) ;;
     (* Store the primary CommandBuffer and the reference to CommandPoolAccess
        in the in-flight list. *)
     (if valid (primaryCommands st) then
        ANGLE_VK_TRY context
          (ask (fun t => vkEndCommandBuffer env t (primaryCommands st))
               (ActEndCommandBuffer (primaryCommands st)))
          "getCommandsAndWaitSemaphores" 1196
      else ret tt) ;;
     batchOut <- setPrimaryCommands (primaryCommands st) true batchOut ;;
     (* Store secondary Command Buffers. *)
     batchOut <- setSecondaryCommands (secondaryCommands st) batchOut ;;
     (* Store wait semaphores. *)
     set_state priority protection
       {| primaryCommands := VK_NULL_HANDLE; secondaryCommands := [];
          waitSemaphores := []; waitSemaphoreStageMasks := [] |} ;;
     ret (batchOut, (waitSemaphores st, waitSemaphoreStageMasks st))).

Definition allPriorities : list ContextPriority := [Low; Medium; High].
Definition allProtections : list ProtectionType := [Unprotected; Protected].

Definition destroyCommandsState (priority : ContextPriority)
    (protection : ProtectionType) : M unit :=
  st <- get (fun s => mCommandsStateMap s priority protection) ;;
  (if valid (primaryCommands st)
   then emit (ActDestroyCommandBuffer (primaryCommands st)) else ret tt) ;;
  (match secondaryCommands st with
   | [] => ret tt
   | cmds => emit (ActReleaseSecondaryCommandBuffers cmds)
   end) ;;
  set_state priority protection
    {| primaryCommands := VK_NULL_HANDLE; secondaryCommands := [];
       waitSemaphores := []; waitSemaphoreStageMasks := [] |}.

Fixpoint forEach {A} (l : list A) (body : A -> M unit) : M unit :=
  match l with
  | [] => ret tt
  | x :: rest => body x ;; forEach rest body
  end.

(** [CommandPoolAccess::destroy] *)
Definition CommandPoolAccess_destroy : M unit :=
  lock_guard mCmdPoolMutex
    (forEach allPriorities (fun priority =>
       forEach allProtections (fun protection =>
         destroyCommandsState priority protection)) ;;
     forEach allProtections (fun protection =>
       free <- get (fun s => mPrimaryCommandPoolMap s protection) ;;
       forEach free (fun b => emit (ActDestroyCommandBuffer b)) ;;
       set_pool protection [])).

(** ** CommandQueue *)

(** A loop whose body answers whether to go round again.  The fuel bounds the
    number of iterations. *)
Fixpoint loop (fuel : nat) (body : M bool) : M unit :=
  match fuel with
  | O => abort OutOfFuel
  | S n => c <- body ;; if c then loop n body else ret tt
  end.

(** Modelled from the spec: [AtomicQueueSerialFixedArray] of a missing
    header, an index-addressable array of atomic serials.  A store outside
    the array is an invalid access. *)
Definition serialAt (l : list Serial) (i : SerialIndex) : option Serial :=
  l !! N.to_nat i.

Definition setLastSubmitted (q : QueueSerial) : M unit :=
  l <- get mLastSubmittedSerials ;;
  match serialAt l (qsIndex q) with
  | None => abort InvalidAccess
  | Some _ =>
      modify (fun s => set_mLastSubmittedSerials
                (<[N.to_nat (qsIndex q) := qsSerial q]> (mLastSubmittedSerials s)) s) ;;
      emit (ActStoreLastSubmitted q)
  end.

Definition setLastCompleted (q : QueueSerial) : M unit :=
  l <- get mLastCompletedSerials ;;
  match serialAt l (qsIndex q) with
  | None => abort InvalidAccess
  | Some _ =>
      modify (fun s => set_mLastCompletedSerials
                (<[N.to_nat (qsIndex q) := qsSerial q]> (mLastCompletedSerials s)) s) ;;
      emit (ActStoreLastCompleted q)
  end.

Definition fillLastCompleted (v : Serial) : M unit :=
  modify (fun s => set_mLastCompletedSerials
                     (replicate (length (mLastCompletedSerials s)) v) s) ;;
  emit (ActFillLastCompleted v).

(** Modelled from the spec: [hasResourceUseSubmitted] and
    [hasResourceUseFinished] of a missing header; every serial of the use is
    at most the last submitted (completed) serial of its index. *)
Definition serialsReached (l : list Serial) (use : ResourceUse) : bool :=
  forallb (fun q => match serialAt l (qsIndex q) with
                    | Some v => (qsSerial q <=? v)%Z
                    | None => false
                    end) use.

Definition hasResourceUseSubmitted (use : ResourceUse) : M bool :=
  get (fun s => serialsReached (mLastSubmittedSerials s) use).

Definition hasResourceUseFinished (use : ResourceUse) : M bool :=
  get (fun s => serialsReached (mLastCompletedSerials s) use).

(** Modelled from the spec: [angle::FixedQueue] of a missing header, a
    bounded FIFO ring; the head of the list is the front of the ring. *)
Definition inFlightFull : M bool :=
  get (fun s => (kInFlightCommandsLimit env <=? length (mInFlightCommands s))%nat).

Definition inFlightEmpty : M bool :=
  get (fun s => match mInFlightCommands s with [] => true | _ => false end).

Definition inFlightFront : M CommandBatch :=
  l <- get mInFlightCommands ;;
  match l with
  | [] => abort (AssertionFailed 0)
  | b :: _ => ret b
  end.

Definition finishedFull : M bool :=
  get (fun s => (kMaxFinishedCommandsLimit env <=? length (mFinishedCommandBatches s))%nat).

Definition finishedEmpty : M bool :=
  get (fun s => match mFinishedCommandBatches s with [] => true | _ => false end).

Definition finishedFront : M CommandBatch :=
  l <- get mFinishedCommandBatches ;;
  match l with
  | [] => abort (AssertionFailed 0)
  | b :: _ => ret b
  end.

(** [CommandQueue::pushInFlightBatchLocked] *)
Definition pushInFlightBatchLocked (batch : CommandBatch) : M unit :=
  (* Need to increment before the push to prevent possible decrement from 0. *)
  modify (fun s => set_mNumAllCommands (S (mNumAllCommands s)) s) ;;
  full <- inFlightFull ;;
  ASSERT 0 (negb full) ;;
  modify (fun s => set_mInFlightCommands (mInFlightCommands s ++ [batch]) s) ;;
  emit (ActPushInFlight (mQueueSerial batch)).

(** [CommandQueue::moveInFlightBatchToFinishedQueueLocked]: the batch is the
    front of the in-flight ring. *)
Definition moveInFlightBatchToFinishedQueueLocked : M unit :=
  (* This must not happen, since we always leave space in the queue during
     queueSubmitLocked. *)
  full <- finishedFull ;;
  ASSERT 1784 (negb full) ;;
  batch <- inFlightFront ;;
  modify (fun s => set_mInFlightCommands (tail (mInFlightCommands s))
                     (set_mFinishedCommandBatches
                        (mFinishedCommandBatches s ++ [batch]) s)) ;;
  emit (ActMoveToFinished (mQueueSerial batch)).

(** [CommandQueue::popFinishedBatchLocked] *)
Definition popFinishedBatchLocked : M unit :=
  batch <- finishedFront ;;
  modify (fun s => set_mFinishedCommandBatches (tail (mFinishedCommandBatches s)) s) ;;
  emit (ActPopFinished (mQueueSerial batch)) ;;
  (* Need to decrement after the pop to prevent possible push over the limit. *)
  n <- get mNumAllCommands ;;
  ASSERT 1796 (0 <? n)%nat ;;
  modify (set_mNumAllCommands (pred n)).

(** [CommandQueue::popInFlightBatchLocked] *)
Definition popInFlightBatchLocked : M unit :=
  batch <- inFlightFront ;;
  modify (fun s => set_mInFlightCommands (tail (mInFlightCommands s)) s) ;;
  emit (ActPopInFlight (mQueueSerial batch)) ;;
  (* Need to decrement after the pop to prevent possible push over the limit. *)
  n <- get mNumAllCommands ;;
  ASSERT 1804 (0 <? n)%nat ;;
  modify (set_mNumAllCommands (pred n)).

(** [CommandQueue::onCommandBatchFinishedLocked] *)
Definition onCommandBatchFinishedLocked (batch : CommandBatch) : M unit :=
  (* Finished. *)
  q <- getQueueSerial batch ;;
  setLastCompleted q ;;
  (* Move command batch to mFinishedCommandBatches. *)
  moveInFlightBatchToFinishedQueueLocked.

(** [CommandQueue::checkOneCommandBatchLocked]: the result is [*finished]. *)
Definition checkOneCommandBatchLocked (context : Context) : M bool :=
  e <- inFlightEmpty ;;
  ASSERT 1700 (negb e) ;;
  batch <- inFlightFront ;;
  h <- hasFence batch ;;
  if h then
    status <- getFenceStatus batch ;;
    if (status =? VK_NOT_READY)%Z then ret false
    else
      (ANGLE_VK_TRY context (ret status) "checkOneCommandBatchLocked" 1711 ;;
       onCommandBatchFinishedLocked batch ;;
       ret true)
  else
    (onCommandBatchFinishedLocked batch ;;
     ret true).

(** [CommandQueue::finishOneCommandBatchLocked] *)
Definition finishOneCommandBatchLocked (context : Context) (timeout : Z) : M unit :=
  e <- inFlightEmpty ;;
  ASSERT 1722 (negb e) ;;
  batch <- inFlightFront ;;
  h <- hasFence batch ;;
  (if h then
     ANGLE_VK_TRY context (waitFence batch timeout) "finishOneCommandBatchLocked" 1728
   else ret tt) ;;
  onCommandBatchFinishedLocked batch.

(** [QueueSerial <= AtomicQueueSerialFixedArray], of a missing header *)
Definition queueSerialReached (q : QueueSerial) (l : list Serial) : bool :=
  match serialAt l (qsIndex q) with
  | Some v => (qsSerial q <=? v)%Z
  | None => false
  end.

(** [CommandQueue::releaseFinishedCommandsLocked] *)
Definition releaseFinishedCommandsLocked (context : Context) : M unit :=
  n <- get (fun s => length (mFinishedCommandBatches s)) ;;
  loop (S n)
    (e <- finishedEmpty ;;
     if e then ret false
     else
       (batch <- finishedFront ;;
        q <- getQueueSerial batch ;;
        completed <- get mLastCompletedSerials ;;
        ASSERT 1752 (queueSerialReached q completed) ;;
        CommandBatch_release context batch ;;
        popFinishedBatchLocked ;;
        ret true)).

(** [CommandQueue::releaseFinishedCommands], of the missing header: the same
    under the release mutex. *)
Definition releaseFinishedCommands (context : Context) : M unit :=
  lock_guard mCmdReleaseMutex (releaseFinishedCommandsLocked context).

(** [CommandQueue::checkCompletedCommandsLocked] *)
Definition checkCompletedCommandsLocked (context : Context) : M unit :=
  n <- get (fun s => length (mInFlightCommands s)) ;;
  loop (S n)
    (e <- inFlightEmpty ;;
     if e then ret false
     else checkOneCommandBatchLocked context).

(** [Renderer::cleanupGarbage] and the request for an asynchronous clean-up
    are outside the file. *)
Definition cleanupGarbage : M unit := emit ActCleanupGarbage.

(** [CommandQueue::releaseFinishedCommandsAndCleanupGarbage] *)
Definition releaseFinishedCommandsAndCleanupGarbage (context : Context) : M unit :=
  if isAsyncCommandBufferResetAndGarbageCleanupEnabled env then
    emit ActNotifyWorker
  else
    (* Do immediate command buffer reset and garbage cleanup *)
    (releaseFinishedCommands context ;;
     cleanupGarbage).

(** [CommandQueue::handleDeviceLost] *)
Definition CommandQueue_handleDeviceLost : M unit :=
  (* Hold all locks while clean up mInFlightCommands. *)
  lock_guard mQueueSubmitMutex
    (lock_guard mCmdCompleteMutex
       (lock_guard mCmdReleaseMutex
          (n <- get (fun s => length (mInFlightCommands s)) ;;
           loop (S n)
             (e <- inFlightEmpty ;;
              if e then ret false
              else
                (batch <- inFlightFront ;;
                 (* On device loss we need to wait for fence to be signaled
                    before destroying it *)
                 h <- hasFence batch ;;
                 (if h then
                    status <- waitFence batch (getMaxFenceWaitTimeNs env) ;;
                    (* If the wait times out, it is probably not possible to
                       recover from lost device *)
                    ASSERT 1284 ((status =? VK_SUCCESS)%Z || (status =? VK_ERROR_DEVICE_LOST)%Z)
                  else ret tt) ;;
                 q <- getQueueSerial batch ;;
                 setLastCompleted q ;;
                 CommandBatch_destroy batch ;;
                 popInFlightBatchLocked ;;
                 ret true))))).

(** [CommandQueue::destroy].  The map of the device queues is not part of
    the state: [mQueueMap.destroy()], which waits for the queues of the
    priorities to be idle, is the event [ActQueueWaitIdle]. *)
Definition CommandQueue_destroy : M unit :=
  lock_guard mQueueSubmitMutex
    (lock_guard mCmdCompleteMutex
       (lock_guard mCmdReleaseMutex
          (emit ActQueueWaitIdle ;;
           (* Assigns an infinite "last completed" serial to force garbage to
              delete. *)
           fillLastCompleted Serial_Infinite ;;
           CommandPoolAccess_destroy ;;
           FenceRecycler_destroy ;;
           e <- inFlightEmpty ;;
           ASSERT 1236 e ;;
           e <- finishedEmpty ;;
           ASSERT 1237 e ;;
           n <- get mNumAllCommands ;;
           ASSERT 1238 (n =? 0)%nat))).

(** The loop of [waitForResourceUseToFinishWithUserTimeout]; [result] is
    [*result].  The fence can be signalled for the wait and not ready for the
    query any number of times, so the rounds are bounded by the fuel. *)
Fixpoint waitLoop (fuel : nat) (context : Context) (use : ResourceUse)
    (timeout : Z) (result : VkResult) : M VkResult :=
  match fuel with
  | O => abort OutOfFuel
  | S n =>
      e <- inFlightEmpty ;;
      finished <- hasResourceUseFinished use ;;
      if negb e && negb finished then
        done <- checkOneCommandBatchLocked context ;;
        if negb done then
          front <- inFlightFront ;;
          result <- waitFenceUnlocked front timeout mCmdCompleteMutex ;;
          (* Don't trigger an error on timeout. *)
          if (result =? VK_TIMEOUT)%Z then ret result
          else
            (ANGLE_VK_TRY context (ret result)
               "waitForResourceUseToFinishWithUserTimeout" 1410 ;;
             waitLoop n context use timeout result)
        else
          (finished <- hasResourceUseFinished use ;;
           waitLoop n context use timeout
             (if finished then VK_SUCCESS else VK_NOT_READY))
      else ret result
  end.

(** [CommandQueue::waitForResourceUseToFinishWithUserTimeout]: the result is
    [*result] at the end. *)
Definition waitForResourceUseToFinishWithUserTimeout (fuel : nat) (context : Context)
    (use : ResourceUse) (timeout : Z) : M VkResult :=
  submitted <- hasResourceUseSubmitted use ;;
  (* Serial is not yet submitted. This is undefined behaviour, so we can do
     anything. *)
  if negb submitted then
    (emit ActWarn ;;
     ret VK_TIMEOUT)
  else
    out <- lock_guard mCmdCompleteMutex
      (finished <- hasResourceUseFinished use ;;
       result <- waitLoop fuel context use timeout
                   (if finished then VK_SUCCESS else VK_NOT_READY) ;;
       (* Do one more check in case more commands also finished. *)
       checkCompletedCommandsLocked context ;;
       finishedCount <- get (fun s => length (mFinishedCommandBatches s)) ;;
       ret (result, finishedCount)) ;;
    (if (0 <? snd out)%nat
     then releaseFinishedCommandsAndCleanupGarbage context else ret tt) ;;
    ret (fst out).

(** The destructor of [DeviceScoped<CommandBatch>]: a function that returns
    early destroys the batch it still owns. *)
Definition onStop {A} (cleanup : M unit) (m : M A) : M A :=
  fun s =>
    match m s with
    | (Stop, s') =>
        match cleanup s' with
        | (Abort f, s'') => (Abort f, s'')
        | (_, s'') => (Stop, s'')
        end
    | r => r
    end.

Definition destroyScoped (b : CommandBatch) : M unit :=
  CommandBatch_destroy b ;; ret tt.

(** [InitializeSubmitInfo] *)
Definition InitializeSubmitInfo (submitInfo : VkSubmitInfo)
    (commandBuffer : VkCommandBuffer) (sems : list VkSemaphore)
    (masks : list VkPipelineStageFlags) (signalSemaphore : VkSemaphore)
    : M VkSubmitInfo :=
  (* Verify that the submitInfo has been zero'd out. *)
  ASSERT 33 (signalSemaphoreCount submitInfo =? 0)%Z ;;
  ASSERT 34 (length sems =? length masks)%nat ;;
  ret {| sType := VK_STRUCTURE_TYPE_SUBMIT_INFO;
         protectedSubmit := protectedSubmit submitInfo;
         commandBufferCount := if valid commandBuffer then 1%Z else 0%Z;
         pCommandBuffers := commandBuffer;
         pWaitSemaphores := sems;
         pWaitDstStageMask := masks;
         signalSemaphoreCount :=
           if negb (signalSemaphore =? VK_NULL_HANDLE)%Z then 1%Z
           else signalSemaphoreCount submitInfo;
         pSignalSemaphores :=
           if negb (signalSemaphore =? VK_NULL_HANDLE)%Z then signalSemaphore
           else pSignalSemaphores submitInfo |}.

Definition set_protectedSubmit (v : bool) (i : VkSubmitInfo) : VkSubmitInfo :=
  {| sType := sType i; protectedSubmit := v;
     commandBufferCount := commandBufferCount i;
     pCommandBuffers := pCommandBuffers i; pWaitSemaphores := pWaitSemaphores i;
     pWaitDstStageMask := pWaitDstStageMask i;
     signalSemaphoreCount := signalSemaphoreCount i;
     pSignalSemaphores := pSignalSemaphores i |}.

(** The first block of [queueSubmitLocked]: when the in-flight ring is full,
    the oldest batch is finished; the ring is not full afterwards. *)
Definition throttleInFlight (context : Context) : M unit :=
  (* CPU should be throttled to avoid mInFlightCommands from growing too fast.
     Important for off-screen scenarios. *)
  full <- inFlightFull ;;
  (if full then
     lock_guard mCmdCompleteMutex
       ((* Check once more inside the lock in case other thread already
           finished some/all commands. *)
        full <- inFlightFull ;;
        if full
        then finishOneCommandBatchLocked context (getMaxFenceWaitTimeNs env)
        else ret tt)
   else ret tt) ;;
  (* Assert will succeed since new batch is pushed only in this method below. *)
  full <- inFlightFull ;;
  ASSERT 1582 (negb full).

(** The second block of [queueSubmitLocked]: when the counter of all batches
    has reached the capacity of the finished ring, the finished batches are
    released; the counter is below the capacity afterwards. *)
Definition reserveFinished (context : Context) : M unit :=
  (* Also ensure that all mInFlightCommands may be moved into the
     mFinishedCommandBatches without need of the
     releaseFinishedCommandsLocked() call. *)
  n <- get mNumAllCommands ;;
  ASSERT 1586 (n <=? kMaxFinishedCommandsLimit env)%nat ;;
  (if (n =? kMaxFinishedCommandsLimit env)%nat then
     lock_guard mCmdReleaseMutex (releaseFinishedCommandsLocked context)
   else ret tt) ;;
  (* Assert will succeed since mNumAllCommands is incremented only in this
     method below. *)
  n <- get mNumAllCommands ;;
  ASSERT 1593 (n <? kMaxFinishedCommandsLimit env)%nat.

(** The third block of [queueSubmitLocked]: the call of the device. *)
Definition deviceSubmit (context : Context) (contextPriority : ContextPriority)
    (submitInfo : VkSubmitInfo) (commandBatch : CommandBatch) : M unit :=
  if (sType submitInfo =? VK_STRUCTURE_TYPE_SUBMIT_INFO)%Z then
    fence <- getFenceHandle commandBatch ;;
    ASSERT 1601 (negb (fence =? VK_NULL_HANDLE)%Z) ;;
    ANGLE_VK_TRY context
      (ask (fun t => vkQueueSubmit env t submitInfo fence)
           (ActQueueSubmit contextPriority submitInfo fence))
      "queueSubmitLocked" 1602 ;;
    match mExternalFence commandBatch with
    | Some externalFence =>
        (* must call exportFd() after successful vkQueueSubmit() call. *)
        emit (ActExportFenceFd externalFence)
    | None => ret tt
    end
  else ret tt.

(** [CommandQueue::queueSubmitLocked]: the scoped batch is passed by value;
    the caller destroys it when the function returns early. *)
Definition queueSubmitLocked (context : Context) (contextPriority : ContextPriority)
    (submitInfo : VkSubmitInfo) (commandBatch : CommandBatch)
    (submitQueueSerial : QueueSerial) : M unit :=
  throttleInFlight context ;;
  reserveFinished context ;;
  deviceSubmit context contextPriority submitInfo commandBatch ;;
  pushInFlightBatchLocked commandBatch ;;
  (* This must set last so that when this submission appears submitted, it
     actually already submitted and enqueued to mInFlightCommands. *)
  setLastSubmitted submitQueueSerial.

(** [CommandQueue::submitCommands] *)
Definition submitCommands (context : Context) (protectionType : ProtectionType)
    (priority : ContextPriority) (signalSemaphore : VkSemaphore)
    (externalFence : option SharedExternalFence)
    (submitQueueSerial : QueueSerial) : M unit :=
  lock_guard mQueueSubmitMutex
    (batch <- setQueueSerial submitQueueSerial CommandBatch_new ;;
     batch <- setProtectionType protectionType batch ;;
     got <- onStop (destroyScoped batch)
              (getCommandsAndWaitSemaphores context protectionType priority batch) ;;
     let batch := fst got in
     let waitSemaphores := fst (snd got) in
     let waitSemaphoreStageMasks := snd (snd got) in
     (* Don't make a submission if there is nothing to submit. *)
     let needsQueueSubmit :=
       valid (mPrimaryCommands batch)
       || negb (signalSemaphore =? VK_NULL_HANDLE)%Z
       || isSome externalFence
       || negb (match waitSemaphores with [] => true | _ => false end) in
     prepared <-
       (if needsQueueSubmit then
          submitInfo <- InitializeSubmitInfo VkSubmitInfo_zero (mPrimaryCommands batch)
                          waitSemaphores waitSemaphoreStageMasks signalSemaphore ;;
          (* No need protected submission if no commands to submit. *)
          let submitInfo :=
            if ProtectionType_eqb protectionType Protected
               && valid (mPrimaryCommands batch)
            then set_protectedSubmit true submitInfo else submitInfo in
          batch <-
            (if negb (isSome externalFence) then
               r <- initFence batch ;;
               onStop (destroyScoped (snd r))
                 (ANGLE_VK_TRY context (ret (fst r)) "submitCommands" 1497) ;;
               ret (snd r)
             else setExternalFence externalFence batch) ;;
          ret (submitInfo, batch)
        else ret (VkSubmitInfo_zero, batch)) ;;
     onStop (destroyScoped (snd prepared))
       (queueSubmitLocked context priority (fst prepared) (snd prepared)
          submitQueueSerial)).

(** [CommandQueue::queueSubmitOneOff] *)
Definition queueSubmitOneOff (context : Context) (protectionType : ProtectionType)
    (contextPriority : ContextPriority) (commandBufferHandle : VkCommandBuffer)
    (waitSemaphore : VkSemaphore) (waitSemaphoreStageMask : VkPipelineStageFlags)
    (submitPolicy : SubmitPolicy) (submitQueueSerial : QueueSerial) : M unit :=
  lock_guard mQueueSubmitMutex
    (batch <- setQueueSerial submitQueueSerial CommandBatch_new ;;
     batch <- setProtectionType protectionType batch ;;
     r <- initFence batch ;;
     onStop (destroyScoped (snd r))
       (ANGLE_VK_TRY context (ret (fst r)) "queueSubmitOneOff" 1526) ;;
     let batch := snd r in
     ASSERT 1532 (ProtectionType_eqb protectionType Unprotected
             || ProtectionType_eqb protectionType Protected) ;;
     let submitInfo :=
       {| sType := VK_STRUCTURE_TYPE_SUBMIT_INFO;
          protectedSubmit := ProtectionType_eqb protectionType Protected;
          commandBufferCount :=
            if negb (commandBufferHandle =? VK_NULL_HANDLE)%Z then 1%Z else 0%Z;
          pCommandBuffers := commandBufferHandle;
          pWaitSemaphores :=
            if negb (waitSemaphore =? VK_NULL_HANDLE)%Z then [waitSemaphore] else [];
          pWaitDstStageMask :=
            if negb (waitSemaphore =? VK_NULL_HANDLE)%Z
            then [waitSemaphoreStageMask] else [];
          signalSemaphoreCount := 0%Z;
          pSignalSemaphores := VK_NULL_HANDLE |} in
     onStop (destroyScoped batch)
       (queueSubmitLocked context contextPriority submitInfo batch submitQueueSerial)).

(** A store through a [SwapchainStatus*]. *)
Definition derefStatus (p : nat) : M SwapchainStatus :=
  o <- get (fun s => swapchainStatus s !! p) ;;
  match o with
  | Some st => ret st
  | None => abort InvalidAccess
  end.

Definition storeLastPresentResult (p : nat) (r : VkResult) : M unit :=
  st <- derefStatus p ;;
  modify (fun s => set_swapchainStatus
            (<[p := {| isPending := isPending st; lastPresentResult := r |}]>
               (swapchainStatus s)) s) ;;
  emit (ActStoreLastPresentResult p r).

Definition storeIsPending (p : nat) (b : bool) : M unit :=
  st <- derefStatus p ;;
  modify (fun s => set_swapchainStatus
            (<[p := {| isPending := b; lastPresentResult := lastPresentResult st |}]>
               (swapchainStatus s)) s) ;;
  emit (ActStoreIsPending p b).

(** [CommandQueue::queuePresent] *)
Definition queuePresent (contextPriority : ContextPriority)
    (presentInfo : VkPresentInfoKHR) (swapchainStatus : nat) : M unit :=
  lock_guard mQueueSubmitMutex
    (r <- ask (fun t => vkQueuePresentKHR env t presentInfo)
              (ActQueuePresent contextPriority presentInfo) ;;
     storeLastPresentResult swapchainStatus r).

(** ** CommandProcessor *)

(** [CommandProcessorTask::initTask] *)
Definition initTask : CommandProcessorTask :=
  {| task_mTask := Invalid;
     task_mOutsideRenderPassCommandBuffer := VK_NULL_HANDLE;
     task_mRenderPassCommandBuffer := VK_NULL_HANDLE;
     task_mRenderPass := VK_NULL_HANDLE;
     task_mFramebufferOverride := VK_NULL_HANDLE;
     task_mWaitSemaphores := [];
     task_mWaitSemaphoreStageMasks := [];
     task_mSemaphore := VK_NULL_HANDLE;
     task_mExternalFence := None;
     task_mOneOffCommandBuffer := VK_NULL_HANDLE;
     task_mOneOffWaitSemaphore := VK_NULL_HANDLE;
     task_mOneOffWaitSemaphoreStageMask := 0%Z;
     task_mSubmitQueueSerial := QueueSerial_default;
     task_mPriority := Medium;
     task_mProtectionType := InvalidEnum;
     task_mPresentInfo := VkPresentInfoKHR_zero;
     task_mSwapchainStatus := 0 |}.

(** [CommandProcessorTask::copyPresentInfo], without the extension chain *)
Definition copyPresentInfo (mine other : VkPresentInfoKHR) : M VkPresentInfoKHR :=
  if (present_sType other =? 0)%Z then ret mine
  else
    ((if (0 <? swapchainCount other)%Z
      then ASSERT 221 (swapchainCount other =? 1)%Z else ret tt) ;;
     (if (0 <? waitSemaphoreCount other)%Z
      then ASSERT 231 (waitSemaphoreCount other =? 1)%Z else ret tt) ;;
     ret {| present_sType := present_sType other;
            swapchainCount :=
              if (0 <? swapchainCount other)%Z then 1%Z else swapchainCount mine;
            pSwapchains :=
              if (0 <? swapchainCount other)%Z then pSwapchains other
              else pSwapchains mine;
            pImageIndices :=
              if (0 <? swapchainCount other)%Z then pImageIndices other
              else pImageIndices mine;
            waitSemaphoreCount :=
              if (0 <? waitSemaphoreCount other)%Z then 1%Z
              else waitSemaphoreCount mine;
            pWaitSemaphore :=
              if (0 <? waitSemaphoreCount other)%Z then pWaitSemaphore other
              else pWaitSemaphore mine;
            pResults := pResults other |}).

(** [CommandProcessorTask::initPresent] *)
Definition initPresent (priority : ContextPriority) (presentInfo : VkPresentInfoKHR)
    (status : nat) : M CommandProcessorTask :=
  info <- copyPresentInfo VkPresentInfoKHR_zero presentInfo ;;
  ret {| task_mTask := Present;
         task_mOutsideRenderPassCommandBuffer := VK_NULL_HANDLE;
         task_mRenderPassCommandBuffer := VK_NULL_HANDLE;
         task_mRenderPass := VK_NULL_HANDLE;
         task_mFramebufferOverride := VK_NULL_HANDLE;
         task_mWaitSemaphores := [];
         task_mWaitSemaphoreStageMasks := [];
         task_mSemaphore := VK_NULL_HANDLE;
         task_mExternalFence := None;
         task_mOneOffCommandBuffer := VK_NULL_HANDLE;
         task_mOneOffWaitSemaphore := VK_NULL_HANDLE;
         task_mOneOffWaitSemaphoreStageMask := 0%Z;
         task_mSubmitQueueSerial := QueueSerial_default;
         task_mPriority := priority;
         task_mProtectionType := InvalidEnum;
         task_mPresentInfo := info;
         task_mSwapchainStatus := status |}.

Definition taskQueueFull : M bool :=
  get (fun s => (kMaxCommandProcessorTasksLimit env <=? length (mTaskQueue s))%nat).

Definition taskQueueEmpty : M bool :=
  get (fun s => match mTaskQueue s with [] => true | _ => false end).

(** [CommandProcessorTask task(std::move(mTaskQueue.front())); mTaskQueue.pop();] *)
Definition popTask : M CommandProcessorTask :=
  l <- get mTaskQueue ;;
  match l with
  | [] => abort (AssertionFailed 0)
  | t :: rest => modify (set_mTaskQueue rest) ;; ret t
  end.

Definition pushTask (task : CommandProcessorTask) : M unit :=
  full <- taskQueueFull ;;
  ASSERT 0 (negb full) ;;
  modify (fun s => set_mTaskQueue (mTaskQueue s ++ [task]) s).

(** [CommandProcessor::checkAndPopPendingError] *)
Definition checkAndPopPendingError (errorHandlingContext : Context) : M unit :=
  lock_guard mErrorMutex
    (errs <- get mErrors ;;
     match errs with
     | [] => ret tt
     | _ =>
         loop (S (length errs))
           (errs <- get mErrors ;;
            match errs with
            | [] => ret false
            | err :: rest =>
                modify (set_mErrors rest) ;;
                handleError errorHandlingContext
                  (errorCode err) (file err) (function err) (line err) ;;
                ret true
            end) ;;
         stop
     end).

Section Processor.

(** The processor as a [Context]: the object behind [this] where the
    processor passes itself to the command queue. *)
Variable this : Context.

(** [CommandProcessor::present] *)
Definition present (priority : ContextPriority) (presentInfo : VkPresentInfoKHR)
    (status : nat) : M VkResult :=
  (* Verify that we are presenting one and only one swapchain *)
  ASSERT 877 (swapchainCount presentInfo =? 1)%Z ;;
  ASSERT 878 (negb (pResults presentInfo)) ;;
  queuePresent priority presentInfo status ;;
  st <- derefStatus status ;;
  let result := lastPresentResult st in
  (* Always make sure update isPending after status has been updated. *)
  ASSERT 886 (isPending st) ;;
  storeIsPending status false ;;
  ret result.

(** The [switch] of [CommandProcessor::processTask] *)
Definition dispatchTask (task : CommandProcessorTask) : M unit :=
  match task_mTask task with
  | FlushAndQueueSubmit =>
      submitCommands this (task_mProtectionType task) (task_mPriority task)
        (task_mSemaphore task) (task_mExternalFence task)
        (task_mSubmitQueueSerial task) ;;
      modify (set_mNeedCommandsAndGarbageCleanup true)
  | OneOffQueueSubmit =>
      queueSubmitOneOff this (task_mProtectionType task) (task_mPriority task)
        (task_mOneOffCommandBuffer task) (task_mOneOffWaitSemaphore task)
        (task_mOneOffWaitSemaphoreStageMask task) EnsureSubmitted
        (task_mSubmitQueueSerial task) ;;
      modify (set_mNeedCommandsAndGarbageCleanup true)
  | Present =>
      result <- present (task_mPriority task) (task_mPresentInfo task)
                  (task_mSwapchainStatus task) ;;
      (* We get to ignore these as they are not fatal *)
      if negb (result =? VK_ERROR_OUT_OF_DATE_KHR)%Z
         && negb (result =? VK_SUBOPTIMAL_KHR)%Z
         && negb (result =? VK_SUCCESS)%Z
      then
        (* Save the error so that we can handle it. *)
        handleError this result thisFile "processTask" 765
      else ret tt
  | FlushWaitSemaphores =>
      CommandPoolAccess_flushWaitSemaphores (task_mProtectionType task)
        (task_mPriority task) (task_mWaitSemaphores task)
        (task_mWaitSemaphoreStageMasks task)
  | ProcessOutsideRenderPassCommands =>
      CommandPoolAccess_flushCommands this (task_mProtectionType task)
        (task_mPriority task) (task_mOutsideRenderPassCommandBuffer task) ;;
      emit (ActRecycleCommandBufferHelper (task_mOutsideRenderPassCommandBuffer task))
  | ProcessRenderPassCommands =>
      CommandPoolAccess_flushCommands this (task_mProtectionType task)
        (task_mPriority task) (task_mRenderPassCommandBuffer task) ;;
      emit (ActRecycleCommandBufferHelper (task_mRenderPassCommandBuffer task))
  | Invalid => UNREACHABLE
  end.

(** [CommandProcessor::processTask].  The first event marks the execution of
    a task on the running thread. *)
Definition processTask (task : CommandProcessorTask) : M unit :=
  emit (ActProcessTask (task_mTask task)) ;;
  dispatchTask task.

(** [CommandProcessor::queueCommand] *)
Definition queueCommand (task : CommandProcessorTask) : M unit :=
  (* Take mTaskEnqueueMutex lock. If task queue is full, try to drain one. *)
  lock_guard mTaskEnqueueMutex
    (full <- taskQueueFull ;;
     (if full then
        lock_guard mTaskDequeueMutex
          ((* Check mTasks again in case someone just drained the mTasks. *)
           full <- taskQueueFull ;;
           if full then
             (frontTask <- popTask ;;
              processTask frontTask)
           else ret tt)
      else ret tt) ;;
     pushTask task ;;
     emit ActNotifyWorker).

(** [CommandProcessor::waitForAllWorkToBeSubmitted] *)
Definition waitForAllWorkToBeSubmitted (context : Context) : M unit :=
  (* Take mWorkerMutex lock so that no one is able to enqueue more work while
     we drain it and handle device lost. *)
  lock_guard mTaskEnqueueMutex
    (lock_guard mTaskDequeueMutex
       ((* Sync any errors to the context *)
        checkAndPopPendingError context ;;
        n <- get (fun s => length (mTaskQueue s)) ;;
        loop (S n)
          (e <- taskQueueEmpty ;;
           if e then ret false
           else
             (task <- popTask ;;
              processTask task ;;
              ret true)) ;;
        (if isAsyncCommandBufferResetAndGarbageCleanupEnabled env then
           releaseFinishedCommands context ;;
           cleanupGarbage
         else ret tt) ;;
        modify (set_mNeedCommandsAndGarbageCleanup false))).

(** [CommandProcessor::handleDeviceLost] *)
Definition CommandProcessor_handleDeviceLost : M unit :=
  (* Take mTaskEnqueueMutex lock so that no one is able to add more work to
     the queue while we drain it and handle device lost. *)
  lock_guard mTaskEnqueueMutex
    (ignoreResult (waitForAllWorkToBeSubmitted this) ;;
     (* Worker thread is idle and command queue is empty so good to continue *)
     CommandQueue_handleDeviceLost).

(** [CommandProcessor::handleError] *)
Definition CommandProcessor_handleError (code : VkResult) (f fn : string)
    (ln : nat) : M unit :=
  ASSERT 554 (negb (code =? VK_SUCCESS)%Z) ;;
  (if (code =? VK_ERROR_DEVICE_LOST)%Z then
     emit ActWarn ;;
     CommandProcessor_handleDeviceLost
   else ret tt) ;;
  lock_guard mErrorMutex
    (modify (fun s => set_mErrors
               (mErrors s ++ [ {| errorCode := code; file := f;
                                  function := fn; line := ln |} ]) s)).

(** [CommandProcessor::enqueuePresent] *)
Definition enqueuePresent (contextPriority : ContextPriority)
    (presentInfo : VkPresentInfoKHR) (status : nat) : M unit :=
  st <- derefStatus status ;;
  ASSERT 945 (negb (isPending st)) ;;
  storeIsPending status true ;;
  (* Always return with VK_SUCCESS initially. *)
  storeLastPresentResult status VK_SUCCESS ;;
  task <- initPresent contextPriority presentInfo status ;;
  ignoreResult (queueCommand task).

(** The loop of [waitForResourceUseToBeSubmitted]; [remaining] is
    [maxTaskCount - taskCount]. *)
Fixpoint drainUntilSubmitted (remaining : nat) (use : ResourceUse) : M unit :=
  match remaining with
  | O => ret tt
  | S n =>
      submitted <- hasResourceUseSubmitted use ;;
      if negb submitted then
        (task <- popTask ;;
         processTask task ;;
         drainUntilSubmitted n use)
      else ret tt
  end.

(** [CommandProcessor::waitForResourceUseToBeSubmitted] *)
Definition waitForResourceUseToBeSubmitted (context : Context)
    (use : ResourceUse) : M unit :=
  submitted <- hasResourceUseSubmitted use ;;
  if submitted then
    checkAndPopPendingError context
  else
    (* We do not hold mTaskEnqueueMutex lock, so that we still allow other
       context to enqueue work while we are processing them. *)
    lock_guard mTaskDequeueMutex
      ((* Do this inside the mutex to prevent new errors adding to the list. *)
       checkAndPopPendingError context ;;
       maxTaskCount <- get (fun s => length (mTaskQueue s)) ;;
       drainUntilSubmitted maxTaskCount use).

End Processor.

(** The processor passes itself as the context of the calls it makes, and
    its error handler drains the task queue, which runs tasks with the
    processor as their context again.  The fuel bounds this nesting. *)
Fixpoint CommandProcessor_this (fuel : nat) : Context :=
  {| handleError := fun code f fn ln =>
       match fuel with
       | O => abort OutOfFuel
       | S n => CommandProcessor_handleError (CommandProcessor_this n) code f fn ln
       end |}.

End Device.

(** ** Concrete environments and states *)

(** A device on which every call succeeds; fences are created with the
    handle 700 and are always signalled. *)
Definition quietDevice : Environment :=
  {| vkQueueSubmit := fun _ _ _ => VK_SUCCESS;
     vkWaitForFences := fun _ _ _ => VK_SUCCESS;
     vkGetFenceStatus := fun _ _ => VK_SUCCESS;
     vkCreateFence := fun _ => (VK_SUCCESS, 700%Z);
     vkEndCommandBuffer := fun _ _ => VK_SUCCESS;
     vkResetCommandBuffer := fun _ _ => VK_SUCCESS;
     vkQueuePresentKHR := fun _ _ => VK_SUCCESS;
     flushToPrimary := fun _ _ st => (VK_SUCCESS, st);
     allocatePrimary := fun _ _ => (VK_SUCCESS, 900%Z);
     kInFlightCommandsLimit := 2;
     kMaxFinishedCommandsLimit := 3;
     kMaxCommandProcessorTasksLimit := 4;
     getMaxFenceWaitTimeNs := 1000000000%Z;
     isAsyncCommandBufferResetAndGarbageCleanupEnabled := false |}.

Definition emptyCommandsState : CommandsState :=
  {| primaryCommands := VK_NULL_HANDLE; secondaryCommands := [];
     waitSemaphores := []; waitSemaphoreStageMasks := [] |}.

(** The state after [CommandQueue::init] with four serial indices. *)
Definition initialState : State :=
  {| mInFlightCommands := [];
     mFinishedCommandBatches := [];
     mNumAllCommands := 0;
     mLastSubmittedSerials := [kZeroSerial; kZeroSerial; kZeroSerial; kZeroSerial];
     mLastCompletedSerials := [kZeroSerial; kZeroSerial; kZeroSerial; kZeroSerial];
     mFenceRecycler := [];
     sharedFences := [];
     mCommandsStateMap := fun _ _ => emptyCommandsState;
     mPrimaryCommandPoolMap := fun _ => [];
     mTaskQueue := [];
     mErrors := [];
     mNeedCommandsAndGarbageCleanup := false;
     swapchainStatus := [];
     held := [];
     trace := [] |}.

Definition someError : Error :=
  {| errorCode := (-1)%Z; file := thisFile; function := "queueSubmitLocked";
     line := 1602 |}.

(** ** Weakest preconditions *)

(** [wp m s Q]: running [m] from [s] ends in an outcome and a state that
    satisfy [Q]. *)
Definition wp {A} (m : M A) (s : State) (Q : Outcome A -> State -> Prop) : Prop :=
  Q (fst (m s)) (snd (m s)).

(** What [Q] has to say about the result of the first half of a [bind]. *)
Definition andThen {A B} (k : A -> M B) (Q : Outcome B -> State -> Prop)
    (r : Outcome A) (s : State) : Prop :=
  match r with
  | Ok a => wp (k a) s Q
  | Stop => Q Stop s
  | Abort f => Q (Abort f) s
  end.

(** What [Q] has to say when the body of a [lock_guard] is left. *)
Definition released {A} (m : Mutex) (Q : Outcome A -> State -> Prop)
    (r : Outcome A) (s : State) : Prop :=
  match r with
  | Ok a => Q (Ok a) (set_held (unhold m (held s)) s)
  | Stop => Q Stop (set_held (unhold m (held s)) s)
  | Abort f => Q (Abort f) s
  end.


(** The event of an error handed to the context [id]. *)
Definition handled (id : nat) (locks : list Mutex) (err : Error) : Event :=
  {| evLocks := locks; evAction := ActHandleError id err |}.

(** The round trip [recycle(fetch())] as the code makes it.  The only call
    of [FenceRecycler::fetch] is in [RecyclableFence::init] and the only call
    of [FenceRecycler::recycle] is in [RecyclableFence::destroy], which hands
    back a valid fence only: a [RecyclableFence] is made, initialised from
    the recycler and destroyed again. *)
Definition initThenDestroy (env : Environment) : M unit :=
  p <- SharedFence_MakeShared ;;
  result <- RecyclableFence_init env p ;;
  RecyclableFence_destroy p.

(** A device whose presents are suboptimal. *)
Definition suboptimalDevice : Environment :=
  {| vkQueueSubmit := vkQueueSubmit quietDevice;
     vkWaitForFences := vkWaitForFences quietDevice;
     vkGetFenceStatus := vkGetFenceStatus quietDevice;
     vkCreateFence := vkCreateFence quietDevice;
     vkEndCommandBuffer := vkEndCommandBuffer quietDevice;
     vkResetCommandBuffer := vkResetCommandBuffer quietDevice;
     vkQueuePresentKHR := fun _ _ => VK_SUBOPTIMAL_KHR;
     flushToPrimary := flushToPrimary quietDevice;
     allocatePrimary := allocatePrimary quietDevice;
     kInFlightCommandsLimit := 2;
     kMaxFinishedCommandsLimit := 3;
     kMaxCommandProcessorTasksLimit := 4;
     getMaxFenceWaitTimeNs := 1000000000%Z;
     isAsyncCommandBufferResetAndGarbageCleanupEnabled := false |}.

Definition onePresentInfo : VkPresentInfoKHR :=
  {| present_sType := 1000001001%Z; swapchainCount := 1%Z; pSwapchains := 55%Z;
     pImageIndices := 2%Z; waitSemaphoreCount := 0%Z;
     pWaitSemaphore := VK_NULL_HANDLE; pResults := false |}.

(** One window surface whose present is not pending. *)
Definition oneSurfaceState : State :=
  set_swapchainStatus [ {| isPending := false; lastPresentResult := VK_SUCCESS |} ]
    initialState.

(** The events of a present on the worker, in their order. *)
Definition presentEvents (priority : ContextPriority) (info : VkPresentInfoKHR)
    (status : nat) (result : VkResult) (locks : list Mutex) : list Event :=
  [ {| evLocks := mQueueSubmitMutex :: locks;
       evAction := ActQueuePresent priority info |};
    {| evLocks := mQueueSubmitMutex :: locks;
       evAction := ActStoreLastPresentResult status result |};
    {| evLocks := locks; evAction := ActStoreIsPending status false |} ].

(** The task that [enqueuePresent] queues on [oneSurfaceState]. *)
Definition onePresentTask : CommandProcessorTask :=
  {| task_mTask := Present;
     task_mOutsideRenderPassCommandBuffer := VK_NULL_HANDLE;
     task_mRenderPassCommandBuffer := VK_NULL_HANDLE;
     task_mRenderPass := VK_NULL_HANDLE;
     task_mFramebufferOverride := VK_NULL_HANDLE;
     task_mWaitSemaphores := [];
     task_mWaitSemaphoreStageMasks := [];
     task_mSemaphore := VK_NULL_HANDLE;
     task_mExternalFence := None;
     task_mOneOffCommandBuffer := VK_NULL_HANDLE;
     task_mOneOffWaitSemaphore := VK_NULL_HANDLE;
     task_mOneOffWaitSemaphoreStageMask := 0%Z;
     task_mSubmitQueueSerial := QueueSerial_default;
     task_mPriority := Medium;
     task_mProtectionType := InvalidEnum;
     task_mPresentInfo := onePresentInfo;
     task_mSwapchainStatus := 0 |}.

(** [oneSurfaceState] after the present was enqueued. *)
Definition pendingPresentState : State :=
  set_mTaskQueue [onePresentTask]
    (set_swapchainStatus [ {| isPending := true; lastPresentResult := VK_SUCCESS |} ]
       initialState).

(** ** The fence sources of a batch *)

(** A batch has at most one fence source when its internal and its external
    fence are not both set. *)
Definition atMostOneFence (b : CommandBatch) : bool :=
  negb (isSome (mFence b) && isSome (mExternalFence b)).

Definition fenceIsSet (b : CommandBatch) : bool :=
  isSome (mFence b) || isSome (mExternalFence b).

(** The calls that change a batch, and a run of such calls on one batch. *)
Inductive BatchCall :=
| CallSetQueueSerial (serial : QueueSerial)
| CallSetProtectionType (protection : ProtectionType)
| CallSetPrimaryCommands (primary : VkCommandBuffer) (commandPoolAccess : bool)
| CallSetSecondaryCommands (secondary : list VkCommandBuffer)
| CallInitFence
| CallSetExternalFence (externalFence : option SharedExternalFence)
| CallDestroy
| CallRelease (context : Context).

Definition runCall (env : Environment) (c : BatchCall) (b : CommandBatch)
    : M CommandBatch :=
  match c with
  | CallSetQueueSerial serial => setQueueSerial serial b
  | CallSetProtectionType protection => setProtectionType protection b
  | CallSetPrimaryCommands primary pool => setPrimaryCommands primary pool b
  | CallSetSecondaryCommands secondary => setSecondaryCommands secondary b
  | CallInitFence => r <- initFence env b ;; ret (snd r)
  | CallSetExternalFence externalFence => setExternalFence externalFence b
  | CallDestroy => CommandBatch_destroy b
  | CallRelease context => CommandBatch_release env context b
  end.

Fixpoint runCalls (env : Environment) (calls : list BatchCall) (b : CommandBatch)
    : M CommandBatch :=
  match calls with
  | [] => ret b
  | c :: rest => b' <- runCall env c b ;; runCalls env rest b'
  end.

(** [CommandBatch::operator=(CommandBatch &&)] swaps the two batches: the
    pair is the assigned batch and the moved-from one. *)
Definition CommandBatch_assign (this other : CommandBatch)
    : CommandBatch * CommandBatch :=
  (other, this).

(** A postcondition on the value of a call that returns. *)
Definition returns {A} (P : A -> Prop) (r : Outcome A) (s : State) : Prop :=
  match r with
  | Ok a => P a
  | _ => True
  end.

(** A batch that holds the shared fence 0 of the store and an external fence
    as well, in a store with one fence. *)
Definition twoFenceBatch : CommandBatch :=
  {| mQueueSerial := {| qsIndex := 0%N; qsSerial := 1%Z |};
     mProtectionType := Unprotected;
     mPrimaryCommands := VK_NULL_HANDLE;
     mCommandPoolAccess := false;
     mSecondaryCommands := [];
     mFence := Some 0;
     mExternalFence := Some 41%Z |}.

Definition oneFenceBatch : CommandBatch := set_mExternalFence None twoFenceBatch.

Definition oneFenceState : State :=
  set_sharedFences [ {| rfFence := 700%Z; rfRecycler := true; rfRefs := 1 |} ]
    initialState.

Definition submitCalls : list BatchCall :=
  [ CallSetQueueSerial {| qsIndex := 0%N; qsSerial := 1%Z |};
    CallSetProtectionType Unprotected;
    CallSetPrimaryCommands 500%Z true;
    CallSetSecondaryCommands [];
    CallInitFence;
    CallRelease (externalContext 0) ].

(** ** What other threads can see *)

(** The kinds of events that the properties tell apart. *)
Inductive Kind :=
| KPush | KStoreSubmitted | KMove | KPopInFlight | KPopFinished
| KStoreCompleted | KFill | KSubmit | KTask | KFence | KWait | KHandle | KOther.

Definition kind (a : Action) : Kind :=
  match a with
  | ActPushInFlight _ => KPush
  | ActStoreLastSubmitted _ => KStoreSubmitted
  | ActMoveToFinished _ => KMove
  | ActPopInFlight _ => KPopInFlight
  | ActPopFinished _ => KPopFinished
  | ActStoreLastCompleted _ => KStoreCompleted
  | ActFillLastCompleted _ => KFill
  | ActQueueSubmit _ _ _ => KSubmit
  | ActProcessTask _ => KTask
  | ActCreateFence | ActResetFence _ => KFence
  | ActWaitForFence _ _ => KWait
  | ActHandleError _ _ => KHandle
  | _ => KOther
  end.

Definition Kind_eqb (a b : Kind) : bool :=
  match a, b with
  | KPush, KPush | KStoreSubmitted, KStoreSubmitted | KMove, KMove
  | KPopInFlight, KPopInFlight | KPopFinished, KPopFinished
  | KStoreCompleted, KStoreCompleted | KFill, KFill | KSubmit, KSubmit
  | KTask, KTask | KFence, KFence | KWait, KWait | KHandle, KHandle
  | KOther, KOther => true
  | _, _ => false
  end.

(** The kinds of a list. *)
Definition among (ks : list Kind) (k : Kind) : bool :=
  existsb (Kind_eqb k) ks.

(** The part of the command queue that is read without the mutex that
    guards its writes: the serials of the batches in the two rings and the
    two serial trackers. *)
Record View := {
  vInFlight : list QueueSerial;
  vFinished : list QueueSerial;
  vLastSubmitted : list Serial;
  vLastCompleted : list Serial
}.

Definition view (s : State) : View :=
  {| vInFlight := map mQueueSerial (mInFlightCommands s);
     vFinished := map mQueueSerial (mFinishedCommandBatches s);
     vLastSubmitted := mLastSubmittedSerials s;
     vLastCompleted := mLastCompletedSerials s |}.

(** The effect of one store on the view. *)
Definition observe (a : Action) (v : View) : View :=
  match a with
  | ActPushInFlight q =>
      {| vInFlight := vInFlight v ++ [q]; vFinished := vFinished v;
         vLastSubmitted := vLastSubmitted v; vLastCompleted := vLastCompleted v |}
  | ActMoveToFinished _ =>
      {| vInFlight := tail (vInFlight v);
         vFinished := vFinished v ++ firstn 1 (vInFlight v);
         vLastSubmitted := vLastSubmitted v; vLastCompleted := vLastCompleted v |}
  | ActPopInFlight _ =>
      {| vInFlight := tail (vInFlight v); vFinished := vFinished v;
         vLastSubmitted := vLastSubmitted v; vLastCompleted := vLastCompleted v |}
  | ActPopFinished _ =>
      {| vInFlight := vInFlight v; vFinished := tail (vFinished v);
         vLastSubmitted := vLastSubmitted v; vLastCompleted := vLastCompleted v |}
  | ActStoreLastSubmitted q =>
      {| vInFlight := vInFlight v; vFinished := vFinished v;
         vLastSubmitted := <[N.to_nat (qsIndex q) := qsSerial q]> (vLastSubmitted v);
         vLastCompleted := vLastCompleted v |}
  | ActStoreLastCompleted q =>
      {| vInFlight := vInFlight v; vFinished := vFinished v;
         vLastSubmitted := vLastSubmitted v;
         vLastCompleted := <[N.to_nat (qsIndex q) := qsSerial q]> (vLastCompleted v) |}
  | ActFillLastCompleted x =>
      {| vInFlight := vInFlight v; vFinished := vFinished v;
         vLastSubmitted := vLastSubmitted v;
         vLastCompleted := replicate (length (vLastCompleted v)) x |}
  | _ => v
  end.

Definition replay (evs : list Event) (v : View) : View :=
  fold_left (fun v e => observe (evAction e) v) evs v.

(** Every mutex of [L] is in [l]. *)
Definition lockedBy (L l : list Mutex) : Prop :=
  forall m, holds m L = true -> holds m l = true.

(** Between [s] and [s'] an error was handed to a context: to an outside
    one, which shows in the trace, or to the processor, which queues it. *)
Definition flaggedSince (s s' : State) : Prop :=
  (exists errs, errs <> [] /\ mErrors s' = mErrors s ++ errs)
  \/ (exists evs, trace s' = trace s ++ evs
                  /\ Exists (fun e => kind (evAction e) = KHandle) evs).

(** [follows allowed L s s']: from [s] to [s'] the trace has grown by events
    of the allowed kinds, each emitted with the mutexes [L] held; the view is
    the replay of these events; the task queue is the same and the error
    queue has only grown. *)
Definition follows (allowed : Kind -> bool) (L : list Mutex) (s s' : State) : Prop :=
  exists evs,
    trace s' = trace s ++ evs
    /\ Forall (fun e => allowed (kind (evAction e)) = true /\ lockedBy L (evLocks e)) evs
    /\ view s' = replay evs (view s)
    /\ lockedBy L (held s')
    /\ mTaskQueue s' = mTaskQueue s
    /\ (exists errs, mErrors s' = mErrors s ++ errs).

(** The counter of all batches is the sum of the lengths of the two rings. *)
Definition balanced (s : State) : Prop :=
  mNumAllCommands s = length (mInFlightCommands s) + length (mFinishedCommandBatches s).

Definition aborted {A} (r : Outcome A) : bool :=
  match r with
  | Abort _ => true
  | _ => false
  end.

(** A computation is tame when every run follows its start state, a run
    that returns [Stop] has handed an error to a context, and a run that
    returns keeps the counter of all batches in balance. *)
Definition tame (allowed : Kind -> bool) {A} (m : M A) : Prop :=
  forall L s, lockedBy L (held s) ->
    follows allowed L s (snd (m s))
    /\ (fst (m s) = Stop -> flaggedSince s (snd (m s)))
    /\ (aborted (fst (m s)) = false -> balanced s -> balanced (snd (m s))).

(** A context is tame when its error handler is, never returns [Stop] and
    records the error when it returns. *)
Definition tameContext (allowed : Kind -> bool) (context : Context) : Prop :=
  forall code f fn ln,
    tame allowed (handleError context code f fn ln)
    /\ (forall s, fst (handleError context code f fn ln s) <> Stop)
    /\ (forall s, fst (handleError context code f fn ln s) = Ok tt ->
                  flaggedSince s (snd (handleError context code f fn ln s))).

(** ** Observers *)

(** What a thread that holds no mutex can have seen: the view, and the
    serials of the batches that have left the rings. *)
Record Observed := {
  oView : View;
  oGone : list QueueSerial
}.

Definition observeGone (a : Action) (o : Observed) : Observed :=
  {| oView := observe a (oView o);
     oGone := match a with
              | ActPopInFlight _ => oGone o ++ firstn 1 (vInFlight (oView o))
              | ActPopFinished _ => oGone o ++ firstn 1 (vFinished (oView o))
              | _ => oGone o
              end |}.

Definition replayGone (evs : list Event) (o : Observed) : Observed :=
  fold_left (fun o e => observeGone (evAction e) o) evs o.

(** The serial [q] is observed as submitted. *)
Definition seenSubmitted (q : QueueSerial) (o : Observed) : Prop :=
  exists v, serialAt (vLastSubmitted (oView o)) (qsIndex q) = Some v
            /\ (qsSerial q <= v)%Z.

(** The batch with the serial [q] is in the in-flight ring, or it has
    migrated onward: to the finished ring or out of it. *)
Definition seenBatch (q : QueueSerial) (o : Observed) : Prop :=
  In q (vInFlight (oView o)) \/ In q (vFinished (oView o)) \/ In q (oGone o).

(** The events of the threads that do not hold the submit mutex: they
    neither push onto the in-flight ring nor store a last submitted serial. *)
Definition otherThread (e : Event) : Prop :=
  kind (evAction e) <> KPush /\ kind (evAction e) <> KStoreSubmitted.

(** [interleaving l r m]: [m] is a merge of [l] and [r] that keeps the order
    of each. *)
Inductive interleaving {A} : list A -> list A -> list A -> Prop :=
| interleaving_nil : interleaving [] [] []
| interleaving_left e l r m :
    interleaving l r m -> interleaving (e :: l) r (e :: m)
| interleaving_right e l r m :
    interleaving l r m -> interleaving l (e :: r) (e :: m).

(** The kinds of events before the push of a submission. *)
Definition beforePush (k : Kind) : bool :=
  negb (Kind_eqb k KPush) && negb (Kind_eqb k KStoreSubmitted).

(** The kinds of events of a task after its marker. *)
Definition insideTask (k : Kind) : bool := negb (Kind_eqb k KTask).

(** The two stores at the end of a submission, as events. *)
Definition pushEvent (l : list Mutex) (q : QueueSerial) : Event :=
  {| evLocks := l; evAction := ActPushInFlight q |}.

Definition storeSubmittedEvent (l : list Mutex) (q : QueueSerial) : Event :=
  {| evLocks := l; evAction := ActStoreLastSubmitted q |}.

(** The events of the end of a submission: none when it did not get as far
    as the push, else the push of the batch with the serial [qb] and, when
    the run went on, the store of the submitted serial [q] after it. *)
Definition submissionTail (l : list Mutex) (qb q : QueueSerial)
    (tl : list Event) : Prop :=
  tl = [] \/ tl = [pushEvent l qb]
  \/ tl = [pushEvent l qb; storeSubmittedEvent l q].

(** Where a submission is, for an observer [o], when the events [own] of it
    are still to come: the last submitted serials are still those of the
    start, [subs], and the push is to come with the store after it; or the
    push is done, and the batch is in a ring or gone from them. *)
Definition submitting (q : QueueSerial) (subs : list Serial)
    (own : list Event) (o : Observed) : Prop :=
  (vLastSubmitted (oView o) = subs
   /\ exists pre l tl,
        own = pre ++ tl
        /\ Forall (fun e => beforePush (kind (evAction e)) = true) pre
        /\ submissionTail l q q tl)
  \/ (seenBatch q o
      /\ Forall (fun e => kind (evAction e) = KStoreSubmitted) own).

(** A submission of the serial 1 of the index 0, with nothing to submit. *)
Definition firstSerial : QueueSerial := {| qsIndex := 0%N; qsSerial := 1%Z |}.

Definition firstBatch : CommandBatch :=
  {| mQueueSerial := firstSerial;
     mProtectionType := mProtectionType CommandBatch_new;
     mPrimaryCommands := mPrimaryCommands CommandBatch_new;
     mCommandPoolAccess := mCommandPoolAccess CommandBatch_new;
     mSecondaryCommands := mSecondaryCommands CommandBatch_new;
     mFence := None;
     mExternalFence := None |}.

(** The start of an observation. *)
Definition observed (s : State) : Observed := {| oView := view s; oGone := [] |}.

(** ** Counting events *)

Fixpoint countKind (k : Kind) (evs : list Event) : nat :=
  match evs with
  | [] => 0
  | e :: rest =>
      (if Kind_eqb (kind (evAction e)) k then 1 else 0) + countKind k rest
  end.

(** A postcondition on the events since [s]. *)
Definition since {A} (s : State)
    (P : list Event -> Outcome A -> State -> Prop)
    (r : Outcome A) (s' : State) : Prop :=
  exists evs, trace s' = trace s ++ evs /\ P evs r s'.

(** The kinds of events other than the call of the device's submit. *)
Definition noSubmit (k : Kind) : bool := negb (Kind_eqb k KSubmit).

(** The kinds of events other than the submit and the acquiring of a
    fence. *)
Definition noSubmitNoFence (k : Kind) : bool :=
  negb (Kind_eqb k KSubmit) && negb (Kind_eqb k KFence).

(** The condition [needsQueueSubmit] of [submitCommands], on the commands
    state [st] that the batch is extracted from. *)
Definition needsQueueSubmit (st : CommandsState) (signalSemaphore : VkSemaphore)
    (externalFence : option SharedExternalFence) : bool :=
  valid (primaryCommands st)
  || negb (signalSemaphore =? VK_NULL_HANDLE)%Z
  || isSome externalFence
  || negb (match waitSemaphores st with [] => true | _ => false end).

(** What a submission leaves behind when it returns: the batch [b] is the
    youngest of the in-flight ring, and the serial [q] is the last submitted
    one of its index. *)
Definition submitted (b : CommandBatch) (q : QueueSerial) (s : State) : Prop :=
  (exists rest, mInFlightCommands s = rest ++ [b])
  /\ serialAt (mLastSubmittedSerials s) (qsIndex q) = Some (qsSerial q).

(** The events of a call of [queueSubmitLocked] with the submit info
    [info]: at most one call of the device's submit and no fence acquired;
    no submit at all when the info is not filled in; and when the call
    returns, one submit exactly when the info is filled in. *)
Definition submissionEvents (info : VkSubmitInfo) (b : CommandBatch)
    (q : QueueSerial) (evs : list Event) (r : Outcome unit) (s : State) : Prop :=
  countKind KSubmit evs <= 1
  /\ countKind KFence evs = 0
  /\ ((sType info =? VK_STRUCTURE_TYPE_SUBMIT_INFO)%Z = false ->
      countKind KSubmit evs = 0)
  /\ (r = Ok tt ->
      ((sType info =? VK_STRUCTURE_TYPE_SUBMIT_INFO)%Z = true ->
       countKind KSubmit evs = 1)
      /\ submitted b q s).

(** What a call of [submitCommands] does, by whether a submit is needed:
    at most one call of the device's submit; when none is needed, no submit
    and no fence acquired; and when the call returns, one submit exactly
    when one is needed, and a batch with the serial [q] that is the youngest
    of the in-flight ring, with the serial as the last submitted one, the
    batch holding no fence when no submit is needed. *)
Definition submitOutcome (needs : bool) (q : QueueSerial) (evs : list Event)
    (r : Outcome unit) (s : State) : Prop :=
  countKind KSubmit evs <= 1
  /\ (needs = false -> countKind KSubmit evs = 0 /\ countKind KFence evs = 0)
  /\ (r = Ok tt ->
      (countKind KSubmit evs = 1 <-> needs = true)
      /\ exists b, submitted b q s /\ mQueueSerial b = q
                   /\ (needs = false -> fenceIsSet b = false)).

(** ** The guarantees of a submission *)

(** The rings, the counter of all batches and the mutexes held are the
    same. *)
Definition sameQueue (s s' : State) : Prop :=
  mInFlightCommands s' = mInFlightCommands s
  /\ mFinishedCommandBatches s' = mFinishedCommandBatches s
  /\ mNumAllCommands s' = mNumAllCommands s
  /\ held s' = held s.

(** The faults other than a failure of one of the three assertions of
    [queueSubmitLocked] and the exhaustion of the fuel of a loop. *)
Definition tolerated (f : Fault) : bool :=
  match f with
  | AssertionFailed ln =>
      negb ((ln =? 1582)%nat || (ln =? 1586)%nat || (ln =? 1593)%nat)
  | OutOfFuel => false
  | _ => true
  end.

Definition holdsUp {A} (r : Outcome A) : Prop :=
  match r with
  | Abort f => tolerated f = true
  | _ => True
  end.

(** A computation that leaves the rings alone when it returns a value, and
    that aborts with tolerated faults only. *)
Definition keeps {A} (m : M A) : Prop :=
  forall s, holdsUp (fst (m s))
            /\ (forall a, fst (m s) = Ok a -> sameQueue s (snd (m s))).

Definition safeContext (context : Context) : Prop :=
  forall code f fn ln s, holdsUp (fst (handleError context code f fn ln s)).

(** The bounds of the rings: the counter of all batches is in balance and
    neither the in-flight ring nor the counter is over its limit. *)
Definition ringsInBounds (env : Environment) (s : State) : Prop :=
  balanced s
  /\ length (mInFlightCommands s) <= kInFlightCommandsLimit env
  /\ mNumAllCommands s <= kMaxFinishedCommandsLimit env.

(** The two guarantees of [queueSubmitLocked] before the push. *)
Definition readyToPush (env : Environment) (s : State) : Prop :=
  balanced s
  /\ length (mInFlightCommands s) < kInFlightCommandsLimit env
  /\ mNumAllCommands s < kMaxFinishedCommandsLimit env.

(** The oldest batch of the in-flight ring has moved to the finished
    ring. *)
Definition moved (s s' : State) : Prop :=
  exists b rest,
    mInFlightCommands s = b :: rest
    /\ mInFlightCommands s' = rest
    /\ mFinishedCommandBatches s' = mFinishedCommandBatches s ++ [b]
    /\ mNumAllCommands s' = mNumAllCommands s
    /\ held s' = held s.

(** The finished ring has been emptied, and the counter of all batches has
    gone down by the number of its batches. *)
Definition reclaimed (s s' : State) : Prop :=
  mInFlightCommands s' = mInFlightCommands s
  /\ mFinishedCommandBatches s' = []
  /\ mNumAllCommands s' + length (mFinishedCommandBatches s) = mNumAllCommands s
  /\ held s' = held s.

(** The outcome of a step of a submission: no fault but a tolerated one, and
    [R] of the state when the step returns. *)
Definition upheld {A} (R : A -> State -> Prop) (r : Outcome A) (s : State) : Prop :=
  match r with
  | Ok a => R a s
  | Stop => True
  | Abort f => tolerated f = true
  end.

(** A postcondition that accepts every early return and every tolerated
    fault. *)
Definition lenient {A} (Q : Outcome A -> State -> Prop) : Prop :=
  (forall s, Q Stop s) /\ (forall f s, tolerated f = true -> Q (Abort f) s).

(** The oldest batch of the finished ring has been released. *)
Definition popped (s s' : State) : Prop :=
  exists b rest,
    mFinishedCommandBatches s = b :: rest
    /\ mFinishedCommandBatches s' = rest
    /\ mInFlightCommands s' = mInFlightCommands s
    /\ mNumAllCommands s = S (mNumAllCommands s')
    /\ held s' = held s.

(** ** The events of the blocks of a submission *)

(** The kinds of events of an error handler that records the error. *)
Definition handling (k : Kind) : bool := among [KOther; KHandle] k.

(** The kinds of events of the throttling: the wait for the oldest batch,
    the store of its serial as completed and its move to the finished
    ring. *)
Definition throttling (k : Kind) : bool :=
  among [KOther; KHandle; KWait; KStoreCompleted; KMove] k.

(** The kinds of events of the reclaiming: the release of the finished
    batches. *)
Definition reclaiming (k : Kind) : bool :=
  among [KOther; KHandle; KPopFinished] k.

(** The kinds of events of the call of the device. *)
Definition calling (k : Kind) : bool := among [KOther; KHandle; KSubmit] k.

(** An event of one of the kinds [ks], emitted with the mutexes [L] held. *)
Definition under (ks : Kind -> bool) (L : list Mutex) (e : Event) : Prop :=
  ks (kind (evAction e)) = true /\ lockedBy L (evLocks e).

(** The fence that a wait for the batch [b] waits for: the fence of the
    shared store that the batch points to, or its external fence. *)
Definition fenceOf (b : CommandBatch) (s : State) : option VkFence :=
  match mFence b, mExternalFence b with
  | Some p, None =>
      match sharedFences s !! p with
      | Some r => if valid (rfFence r) then Some (rfFence r) else None
      | None => None
      end
  | None, Some e => Some e
  | _, _ => None
  end.

(** The wait of the throttling for the fence [f]. *)
Definition throttleWait (env : Environment) (s : State) (f : VkFence) : Event :=
  {| evLocks := mCmdCompleteMutex :: held s;
     evAction := ActWaitForFence f (getMaxFenceWaitTimeNs env) |}.

(** The events [evs] start with the event [w]. *)
Definition startsWith (w : Event) (evs : list Event) : Prop :=
  exists rest, evs = w :: rest.

(** ** Frames *)

(** A computation that, when it returns a value, leaves the part [proj] of
    the state as it was. *)
Definition preserves {X A} (proj : State -> X) (m : M A) : Prop :=
  forall s a, fst (m s) = Ok a -> proj (snd (m s)) = proj s.

(** A batch with the serial [n] of the index 0 and the external fence
    [500 + n], and a state whose in-flight ring holds two of them: on the
    quiet device the ring is full. *)
Definition fencedBatch (n : Z) : CommandBatch :=
  {| mQueueSerial := {| qsIndex := 0%N; qsSerial := n |};
     mProtectionType := Unprotected;
     mPrimaryCommands := VK_NULL_HANDLE;
     mCommandPoolAccess := false;
     mSecondaryCommands := [];
     mFence := None;
     mExternalFence := Some (500 + n)%Z |}.

Definition fullRingState : State :=
  set_mLastSubmittedSerials [2%Z; kZeroSerial; kZeroSerial; kZeroSerial]
    (set_mNumAllCommands 2
       (set_mInFlightCommands [fencedBatch 1; fencedBatch 2] initialState)).

(** Every kind of event. *)
Definition anyKind (k : Kind) : bool := true.

(** The kinds of the two stores at the end of a submission. *)
Definition publishing (k : Kind) : bool := among [KPush; KStoreSubmitted] k.

(** The events of a call of [queueSubmitLocked] from a state with the
    mutexes [L] held, block by block. *)
Definition submissionBlocks (L : list Mutex) (evs : list Event) : Prop :=
  exists evsT evsR evsD tl,
    evs = evsT ++ evsR ++ evsD ++ tl
    /\ Forall (under throttling (mCmdCompleteMutex :: L)) evsT
    /\ Forall (under reclaiming (mCmdReleaseMutex :: L)) evsR
    /\ Forall (under calling L) evsD
    /\ Forall (under publishing L) tl.

(** The events of a batch that finishes: the store of its serial as
    completed and its move to the finished ring. *)
Definition finishEvents (l : list Mutex) (q : QueueSerial) : list Event :=
  [ {| evLocks := l; evAction := ActStoreLastCompleted q |};
    {| evLocks := l; evAction := ActMoveToFinished q |} ].

(** The wait for the fence of a batch, when it has one. *)
Definition waitEvents (l : list Mutex) (o : option VkFence) (timeout : Z)
    : list Event :=
  match o with
  | Some f => [ {| evLocks := l; evAction := ActWaitForFence f timeout |} ]
  | None => []
  end.

(** The oldest batch of the in-flight ring is ready to finish: its serial
    is valid and of a known index, it has one valid fence or none, and the
    finished ring has room for it. *)
Definition canFinish (env : Environment) (b : CommandBatch) (s : State) : Prop :=
  QueueSerial_valid (mQueueSerial b) = true
  /\ is_Some (serialAt (mLastCompletedSerials s) (qsIndex (mQueueSerial b)))
  /\ length (mFinishedCommandBatches s) < kMaxFinishedCommandsLimit env
  /\ (fenceOf b s = None -> fenceIsSet b = false).

(** A device whose fences are never signalled: every wait times out and
    every query of a fence answers that it is not ready. *)
Definition stalledDevice : Environment :=
  {| vkQueueSubmit := vkQueueSubmit quietDevice;
     vkWaitForFences := fun _ _ _ => VK_TIMEOUT;
     vkGetFenceStatus := fun _ _ => VK_NOT_READY;
     vkCreateFence := vkCreateFence quietDevice;
     vkEndCommandBuffer := vkEndCommandBuffer quietDevice;
     vkResetCommandBuffer := vkResetCommandBuffer quietDevice;
     vkQueuePresentKHR := vkQueuePresentKHR quietDevice;
     flushToPrimary := flushToPrimary quietDevice;
     allocatePrimary := allocatePrimary quietDevice;
     kInFlightCommandsLimit := 2;
     kMaxFinishedCommandsLimit := 3;
     kMaxCommandProcessorTasksLimit := 4;
     getMaxFenceWaitTimeNs := 1000000000%Z;
     isAsyncCommandBufferResetAndGarbageCleanupEnabled := false |}.

(** The query of the fence of a batch, when it has one. *)
Definition queryEvents (l : list Mutex) (o : option VkFence) : list Event :=
  match o with
  | Some f => [ {| evLocks := l; evAction := ActGetFenceStatus f |} ]
  | None => []
  end.

(** The oldest batches of the in-flight ring have moved, in their order, to
    the back of the finished ring. *)
Definition advanced (s s' : State) : Prop :=
  exists done,
    mFinishedCommandBatches s' = mFinishedCommandBatches s ++ done
    /\ mInFlightCommands s = done ++ mInFlightCommands s'
    /\ mNumAllCommands s' = mNumAllCommands s
    /\ held s' = held s.

(** The kinds of events of the recovery from a lost device: the waits for
    the fences, the stores of the completed serials, the pops of the
    in-flight ring and the release of the resources of the batches. *)
Definition recovering (k : Kind) : bool :=
  among [KWait; KStoreCompleted; KPopInFlight; KOther] k.

(** The in-flight ring has been emptied without a move to the finished
    ring, and the counter of all batches has gone down by the number of its
    batches. *)
Definition drained (s s' : State) : Prop :=
  mInFlightCommands s' = []
  /\ mFinishedCommandBatches s' = mFinishedCommandBatches s
  /\ mNumAllCommands s' + length (mInFlightCommands s) = mNumAllCommands s
  /\ held s' = held s.

(** The part of the state that a lost device leaves alone: the fences to
    reuse, the free command buffers, the last submitted serials, the tasks
    and the errors of the processor. *)
Definition bystanders (s : State)
    : list VkFence * list Serial * list CommandProcessorTask * list Error :=
  (mFenceRecycler s, mLastSubmittedSerials s, mTaskQueue s, mErrors s).

(** The part of the command queue that the release of the pools and of the
    recycled fences leaves alone. *)
Definition idleFrame (s s' : State) : Prop :=
  sameQueue s s'
  /\ mLastCompletedSerials s' = mLastCompletedSerials s.

(** The mutexes that [CommandQueue::destroy] takes, itself or in the calls
    it makes. *)
Definition destroyMutexes : list Mutex :=
  [mQueueSubmitMutex; mCmdCompleteMutex; mCmdReleaseMutex; mCmdPoolMutex;
   mRecyclerMutex].

(** The outcome of [CommandQueue::destroy] by the rings and the counter of
    all batches at the entry. *)
Definition destroyOutcome (s : State) : Outcome unit :=
  match mInFlightCommands s, mFinishedCommandBatches s, mNumAllCommands s with
  | _ :: _, _, _ => Abort (AssertionFailed 1236)
  | [], _ :: _, _ => Abort (AssertionFailed 1237)
  | [], [], S _ => Abort (AssertionFailed 1238)
  | [], [], O => Ok tt
  end.

(** The fence of a slot of the store of shared fences, and whether it is
    attached to the recycler. *)
Definition fenceSlot (s : State) (p : SharedFence) : option (VkFence * bool) :=
  match sharedFences s !! p with
  | Some r => Some (rfFence r, rfRecycler r)
  | None => None
  end.

(** A store with one empty fence, detached and with one owner. *)
Definition emptyFenceState (recycled : list VkFence) : State :=
  set_mFenceRecycler recycled
    (set_sharedFences
       [ {| rfFence := VK_NULL_HANDLE; rfRecycler := false; rfRefs := 1 |} ]
       initialState).

(** A task that hands one wait semaphore to the command pool, and a state
    whose task queue holds [n] of them. *)
Definition flushTask (sem : VkSemaphore) : CommandProcessorTask :=
  {| task_mTask := FlushWaitSemaphores;
     task_mOutsideRenderPassCommandBuffer := VK_NULL_HANDLE;
     task_mRenderPassCommandBuffer := VK_NULL_HANDLE;
     task_mRenderPass := VK_NULL_HANDLE;
     task_mFramebufferOverride := VK_NULL_HANDLE;
     task_mWaitSemaphores := [sem];
     task_mWaitSemaphoreStageMasks := [1%Z];
     task_mSemaphore := VK_NULL_HANDLE;
     task_mExternalFence := None;
     task_mOneOffCommandBuffer := VK_NULL_HANDLE;
     task_mOneOffWaitSemaphore := VK_NULL_HANDLE;
     task_mOneOffWaitSemaphoreStageMask := 0%Z;
     task_mSubmitQueueSerial := QueueSerial_default;
     task_mPriority := Medium;
     task_mProtectionType := Unprotected;
     task_mPresentInfo := VkPresentInfoKHR_zero;
     task_mSwapchainStatus := 0 |}.

Definition fullTaskQueueState : State :=
  set_mTaskQueue [flushTask 11%Z; flushTask 12%Z; flushTask 13%Z; flushTask 14%Z]
    initialState.

(** ** The wait for a present *)

(** The loop of [waitForPresentToBeSubmitted]; [remaining] is
    [maxTaskCount - taskCount] and [status] is [swapchainStatus]. *)
Fixpoint drainUntilPresented (env : Environment) (this : Context)
    (remaining : nat) (status : nat) : M unit :=
  match remaining with
  | O => ret tt
  | S n =>
      st <- derefStatus status ;;
      if isPending st then
        (task <- popTask ;;
         processTask env this task ;;
         drainUntilPresented env this n status)
      else ret tt
  end.

(** [CommandProcessor::waitForPresentToBeSubmitted] *)
Definition waitForPresentToBeSubmitted (env : Environment) (this : Context)
    (status : nat) : M unit :=
  st <- derefStatus status ;;
  if negb (isPending st) then ret tt
  else
    lock_guard mTaskDequeueMutex
      (maxTaskCount <- get (fun s => length (mTaskQueue s)) ;;
       drainUntilPresented env this maxTaskCount status ;;
       st <- derefStatus status ;;
       ASSERT 1072 (negb (isPending st))).

(** The present info that [initPresent] keeps of [info]: one swapchain and
    at most one wait semaphore. *)
Definition copiedPresentInfo (info : VkPresentInfoKHR) : VkPresentInfoKHR :=
  {| present_sType := present_sType info;
     swapchainCount := 1%Z;
     pSwapchains := pSwapchains info;
     pImageIndices := pImageIndices info;
     waitSemaphoreCount :=
       if (0 <? waitSemaphoreCount info)%Z then 1%Z else 0%Z;
     pWaitSemaphore :=
       if (0 <? waitSemaphoreCount info)%Z then pWaitSemaphore info
       else VK_NULL_HANDLE;
     pResults := pResults info |}.

(** A result of a present that the processor does not report as an
    error. *)
Definition presentIsFine (result : VkResult) : bool :=
  (result =? VK_ERROR_OUT_OF_DATE_KHR)%Z || (result =? VK_SUBOPTIMAL_KHR)%Z
  || (result =? VK_SUCCESS)%Z.

(** The mutexes that a present takes on its way through the processor. *)
Definition presentMutexes : list Mutex :=
  [mTaskEnqueueMutex; mTaskDequeueMutex; mQueueSubmitMutex; mErrorMutex].

(** The tasks that a list of events shows as run, in their order. *)
Fixpoint tasksRun (evs : list Event) : list CustomTask :=
  match evs with
  | [] => []
  | e :: rest =>
      match evAction e with
      | ActProcessTask t => t :: tasksRun rest
      | _ => tasksRun rest
      end
  end.

(** ** Queue families *)

(** A value of type [uint32_t] after an addition. *)
Definition uint32 (z : Z) : Z := z mod 2 ^ 32.

Definition INT32_MIN : Z := - 2 ^ 31.

(** The two fields of [VkQueueFamilyProperties] that the file reads. *)
Record VkQueueFamilyProperties := {
  queueFlags : Z;
  queueCount : Z
}.

(** [(queueInfo.queueFlags & flags) == flags] *)
Definition hasFlags (flags : Z) (queueInfo : VkQueueFamilyProperties) : bool :=
  (Z.land (queueFlags queueInfo) flags =? flags)%Z.

Section QueueFamilies.

(** [QueueFamily::kInvalidIndex], of the missing header. *)
Variable kInvalidIndex : Z.

(** The loop of [QueueFamily::FindIndex] from the family [familyIndex] on;
    the result is [index] and [count] at the end.  The decrement of
    [matchNumber], an [int32_t], is undefined at its least value. *)
Fixpoint FindIndex_loop (flags : Z) (props : list VkQueueFamilyProperties)
    (familyIndex index count matchNumber : Z) : Outcome (Z * Z) :=
  match props with
  | [] => Ok (index, count)
  | queueInfo :: rest =>
      if hasFlags flags queueInfo then
        if (0 <? queueCount queueInfo)%Z then
          let count := uint32 (count + 1) in
          if (index =? kInvalidIndex)%Z then
            if (matchNumber =? INT32_MIN)%Z then Abort InvalidAccess
            else if (matchNumber =? 0)%Z then
              FindIndex_loop flags rest (uint32 (familyIndex + 1)) familyIndex count
                (matchNumber - 1)
            else
              FindIndex_loop flags rest (uint32 (familyIndex + 1)) index count
                (matchNumber - 1)
          else
            FindIndex_loop flags rest (uint32 (familyIndex + 1)) index count matchNumber
        else Abort (AssertionFailed 1900)
      else
        FindIndex_loop flags rest (uint32 (familyIndex + 1)) index count matchNumber
  end.

(** [QueueFamily::FindIndex]: the index that is returned and the value of
    [*matchCount] at the end. *)
Definition FindIndex (queueFamilyProperties : list VkQueueFamilyProperties)
    (flags : Z) (matchNumber : Z) : Outcome (Z * Z) :=
  FindIndex_loop flags queueFamilyProperties 0 kInvalidIndex 0 matchNumber.

(** The indices of the families that have all the flags, counted from
    [base]. *)
Fixpoint matchingFrom (flags : Z) (base : Z) (props : list VkQueueFamilyProperties)
    : list Z :=
  match props with
  | [] => []
  | queueInfo :: rest =>
      if hasFlags flags queueInfo
      then base :: matchingFrom flags (base + 1) rest
      else matchingFrom flags (base + 1) rest
  end.

(** The match of number [m], counted from zero, or the invalid index when
    there is none. *)
Definition nthMatch (m : Z) (indices : list Z) : Z :=
  if (m <? 0)%Z then kInvalidIndex else nth (Z.to_nat m) indices kInvalidIndex.

End QueueFamilies.

(** Three families: graphics and compute, transfer only, compute only
    (the flag bits 1, 2 and 4 are graphics, compute and transfer). *)
Definition threeFamilies : list VkQueueFamilyProperties :=
  [ {| queueFlags := 3%Z; queueCount := 1%Z |};
    {| queueFlags := 4%Z; queueCount := 2%Z |};
    {| queueFlags := 2%Z; queueCount := 8%Z |} ].

(** ** The map from priorities to device queues *)

(** [QueueAndIndex] and [DeviceQueueMap], of the missing header, by the
    fields that the file writes. *)
Record QueueAndIndex := {
  qi_devicePriority : ContextPriority;
  qi_queue : VkHandle;
  qi_index : Z
}.

Record DeviceQueueMap := {
  mQueueFamilyIndex : Z;
  mIsProtected : bool;
  mQueueAndIndices : ContextPriority -> QueueAndIndex
}.

(** [QueueFamily], by its properties and its index. *)
Record QueueFamily := {
  mProperties : VkQueueFamilyProperties;
  getQueueFamilyIndex : Z
}.

(** [queueFamily.getProperties()->queueCount] *)
Definition getProperties_queueCount (queueFamily : QueueFamily) : Z :=
  queueCount (mProperties queueFamily).

Definition setQueueAndIndex (priority : ContextPriority) (v : QueueAndIndex)
    (m : ContextPriority -> QueueAndIndex) : ContextPriority -> QueueAndIndex :=
  fun p => if ContextPriority_eqb p priority then v else m p.

Section DeviceQueues.

(** The device: [vkGetDeviceQueue] and [vkGetDeviceQueue2] by the family and
    the index of the queue. *)
Variable vkGetDeviceQueue : Z -> Z -> VkHandle.
Variable vkGetDeviceQueue2 : Z -> Z -> VkHandle.

(** [GetDeviceQueue]: the result is [*queue]. *)
Definition GetDeviceQueue (makeProtected : bool) (queueFamilyIndex queueIndex : Z)
    : VkHandle :=
  if makeProtected then vkGetDeviceQueue2 queueFamilyIndex queueIndex
  else vkGetDeviceQueue queueFamilyIndex queueIndex.

(** [DeviceQueueMap::initialize]: the map at the end. *)
Definition DeviceQueueMap_initialize (this : DeviceQueueMap)
    (queueFamily : QueueFamily) (makeProtected : bool) (queueIndex queueCount : Z)
    : Outcome DeviceQueueMap :=
  (* QueueIndexing: *)
  let kQueueIndexMedium := 0%Z in
  let kQueueIndexHigh := 1%Z in
  let kQueueIndexLow := 2%Z in
  if (queueCount =? 0)%Z then Abort (AssertionFailed 1841)
  else if negb (uint32 (queueIndex + queueCount)
                <=? getProperties_queueCount queueFamily)%Z
  then Abort (AssertionFailed 1842)
  else
    let family := getQueueFamilyIndex queueFamily in
    let queues := mQueueAndIndices this in
    let queue := GetDeviceQueue makeProtected family
                   (uint32 (queueIndex + kQueueIndexMedium)) in
    let queues :=
      setQueueAndIndex Medium
        {| qi_devicePriority := Medium; qi_queue := queue;
           qi_index := uint32 (queueIndex + kQueueIndexMedium) |} queues in
    (* If at least 2 queues, High has its own queue *)
    let queues :=
      if (1 <? queueCount)%Z then
        let queue := GetDeviceQueue makeProtected family
                       (uint32 (queueIndex + kQueueIndexHigh)) in
        setQueueAndIndex High
          {| qi_devicePriority := High; qi_queue := queue;
             qi_index := uint32 (queueIndex + kQueueIndexHigh) |} queues
      else setQueueAndIndex High (queues Medium) queues in
    (* If at least 3 queues, Low has its own queue. Adjust Low priority. *)
    let queues :=
      if (2 <? queueCount)%Z then
        let queue := GetDeviceQueue makeProtected family
                       (uint32 (queueIndex + kQueueIndexLow)) in
        setQueueAndIndex Low
          {| qi_devicePriority := Low; qi_queue := queue;
             qi_index := uint32 (queueIndex + kQueueIndexLow) |} queues
      else setQueueAndIndex Low (queues Medium) queues in
    Ok {| mQueueFamilyIndex := family;
          mIsProtected := makeProtected;
          mQueueAndIndices := queues |}.

End DeviceQueues.

(** A device whose queue handles tell the family and the index, a family
    with two queues, and a map that is not initialised. *)
Definition numberedQueue (family queueIndex : Z) : VkHandle :=
  (1000 + 10 * family + queueIndex)%Z.

Definition twoQueueFamily : QueueFamily :=
  {| mProperties := {| queueFlags := 3%Z; queueCount := 2%Z |};
     getQueueFamilyIndex := 0%Z |}.

Definition emptyQueueMap : DeviceQueueMap :=
  {| mQueueFamilyIndex := 0%Z;
     mIsProtected := false;
     mQueueAndIndices := fun p =>
       {| qi_devicePriority := p; qi_queue := VK_NULL_HANDLE; qi_index := 0%Z |} |}.

(** ** Whether the queue is busy *)

(** The loop of [CommandQueue::isBusy] from the index [i] on, for [count]
    indices.  The two arrays are read without a lock; an index outside them
    is an invalid access. *)
Fixpoint isBusy_from (count : nat) (i : nat) : M bool :=
  match count with
  | O => ret false
  | S n =>
      submitted <- get (fun s => serialAt (mLastSubmittedSerials s) (N.of_nat i)) ;;
      completed <- get (fun s => serialAt (mLastCompletedSerials s) (N.of_nat i)) ;;
      match submitted, completed with
      | Some a, Some b =>
          if (b <? a)%Z then ret true else isBusy_from n (S i)
      | _, _ => abort InvalidAccess
      end
  end.

(** [CommandQueue::isBusy]; [maxIndex] is the largest queue serial index
    ever allocated, which the renderer knows. *)
Definition isBusy (maxIndex : nat) : M bool :=
  isBusy_from (S maxIndex) 0.

(** Every serial of the use has an index of at most [maxIndex]. *)
Definition withinIndex (maxIndex : nat) (use : ResourceUse) : Prop :=
  Forall (fun q => N.to_nat (qsIndex q) <= maxIndex) use.

(** ** Finishing a resource use *)

(** The loop of [CommandQueue::finishResourceUse].  The fence can be
    signalled for the wait and not ready for the query any number of times,
    so the rounds are bounded by the fuel. *)
Fixpoint finishLoop (env : Environment) (fuel : nat) (context : Context)
    (use : ResourceUse) (timeout : Z) : M unit :=
  match fuel with
  | O => abort OutOfFuel
  | S n =>
      e <- inFlightEmpty ;;
      finished <- hasResourceUseFinished use ;;
      if negb e && negb finished then
        (finished <- checkOneCommandBatchLocked env context ;;
         (if negb finished then
            front <- inFlightFront ;;
            ANGLE_VK_TRY context
              (waitFenceUnlocked env front timeout mCmdCompleteMutex)
              "finishResourceUse" 1337
          else ret tt) ;;
         finishLoop env n context use timeout)
      else ret tt
  end.

(** [CommandQueue::finishResourceUse] *)
Definition finishResourceUse (env : Environment) (fuel : nat) (context : Context)
    (use : ResourceUse) (timeout : Z) : M unit :=
  lock_guard mCmdCompleteMutex
    (finishLoop env fuel context use timeout ;;
     (* Check the rest of the commands in case they are also finished. *)
     checkCompletedCommandsLocked env context) ;;
  finished <- hasResourceUseFinished use ;;
  ASSERT 1344 finished ;;
  e <- finishedEmpty ;;
  if negb e then releaseFinishedCommandsAndCleanupGarbage env context
  else ret tt.

(** A wait for the fence [f] with the mutexes [l] held. *)
Definition waitEvent (l : list Mutex) (f : VkFence) (timeout : Z) : Event :=
  {| evLocks := l; evAction := ActWaitForFence f timeout |}.

Definition queryEvent (l : list Mutex) (f : VkFence) : Event :=
  {| evLocks := l; evAction := ActGetFenceStatus f |}.

(** The oldest batch in flight has the external fence [f], the device does
    not signal [f], and the use is submitted and not finished. *)
Definition stalledOn (env : Environment) (use : ResourceUse) (timeout : Z)
    (b : CommandBatch) (f : VkFence) (s : State) : Prop :=
  (exists rest, mInFlightCommands s = b :: rest)
  /\ mFence b = None /\ mExternalFence b = Some f
  /\ mFinishedCommandBatches s = []
  /\ holds mCmdCompleteMutex (held s) = false
  /\ serialsReached (mLastSubmittedSerials s) use = true
  /\ serialsReached (mLastCompletedSerials s) use = false
  /\ (forall t, vkGetFenceStatus env t f = VK_NOT_READY)
  /\ (forall t, vkWaitForFences env t f timeout = VK_TIMEOUT).

(** ** The release of a batch *)

(** A batch that [CommandBatch::release] takes alone: its serial is valid
    and completed, its primary buffer came from the pool broker, and its
    fence, when it has one of its own, is valid, attached to the recycler
    and held by the batch only. *)
Definition soleOwner (s : State) (b : CommandBatch) : bool :=
  match mFence b with
  | None => true
  | Some p =>
      match sharedFences s !! p with
      | Some r => valid (rfFence r) && rfRecycler r && (rfRefs r =? 1)%nat
      | None => false
      end
  end.

Definition releasable (s : State) (b : CommandBatch) : bool :=
  QueueSerial_valid (mQueueSerial b)
  && queueSerialReached (mQueueSerial b) (mLastCompletedSerials s)
  && (negb (valid (mPrimaryCommands b)) || mCommandPoolAccess b)
  && soleOwner s b.

(** The events of [CommandBatch::release] under the mutexes [locks]: the
    primary buffer is collected under the mutex of the pool and the
    secondary buffers are released.  In the loop of
    [releaseFinishedCommandsLocked] the batch is popped after that. *)
Definition releaseEvents (locks : list Mutex) (b : CommandBatch) : list Event :=
  (if valid (mPrimaryCommands b)
   then [ {| evLocks := mCmdPoolMutex :: locks;
             evAction := ActCollectCommandBuffer (mProtectionType b)
                           (mPrimaryCommands b) |} ]
   else [])
  ++ match mSecondaryCommands b with
     | [] => []
     | cmds => [ {| evLocks := locks;
                    evAction := ActReleaseSecondaryCommandBuffers cmds |} ]
     end.

Definition reclaimEvents (locks : list Mutex) (l : list CommandBatch) : list Event :=
  flat_map (fun b => releaseEvents locks b
                     ++ [ {| evLocks := locks;
                             evAction := ActPopFinished (mQueueSerial b) |} ]) l.

(** The primary buffers of the batches that go to the pool of a protection
    type, and the fences of the batches that go to the recycler. *)
Definition collectedPrimaries (protection : ProtectionType)
    (l : list CommandBatch) : list VkCommandBuffer :=
  map mPrimaryCommands
    (List.filter (fun b => valid (mPrimaryCommands b)
                           && ProtectionType_eqb (mProtectionType b) protection) l).

Definition ownFence (s : State) (b : CommandBatch) : list VkFence :=
  match mFence b with
  | Some p =>
      match sharedFences s !! p with
      | Some r => [rfFence r]
      | None => []
      end
  | None => []
  end.

Definition recycledFences (s : State) (l : list CommandBatch) : list VkFence :=
  flat_map (ownFence s) l.

(** The finished ring can be released without an error: the thread holds
    neither the mutex of the pool nor that of the recycler, the counter of
    all batches covers the ring, every batch is releasable, no two batches
    share a fence, and the device resets every buffer. *)
Definition releasableRing (env : Environment) (s : State) : Prop :=
  holds mCmdPoolMutex (held s) = false
  /\ holds mRecyclerMutex (held s) = false
  /\ length (mFinishedCommandBatches s) <= mNumAllCommands s
  /\ forallb (releasable s) (mFinishedCommandBatches s) = true
  /\ NoDup (omap mFence (mFinishedCommandBatches s))
  /\ (forall t c, vkResetCommandBuffer env t c = VK_SUCCESS).

(** A finished batch with a primary buffer, secondary buffers and the fence
    in the slot [p]. *)
Definition finishedBatch (n : Z) (protection : ProtectionType)
    (secondary : list VkCommandBuffer) (p : SharedFence) : CommandBatch :=
  {| mQueueSerial := {| qsIndex := 0%N; qsSerial := n |};
     mProtectionType := protection;
     mPrimaryCommands := (40 + n)%Z;
     mCommandPoolAccess := true;
     mSecondaryCommands := secondary;
     mFence := Some p;
     mExternalFence := None |}.

(** Three finished batches: two with buffers and fences of their own, one
    with an external fence only. *)
Definition finishedRingState : State :=
  set_mNumAllCommands 3
    (set_mFinishedCommandBatches
       [finishedBatch 1 Unprotected [51%Z; 52%Z] 0;
        finishedBatch 2 Protected [] 1;
        fencedBatch 3]
       (set_sharedFences
          [ {| rfFence := 601%Z; rfRecycler := true; rfRefs := 1 |};
            {| rfFence := 602%Z; rfRecycler := true; rfRefs := 1 |} ]
          (set_mLastCompletedSerials [3%Z; 0%Z; 0%Z; 0%Z] initialState))).

(** ** Running the tasks of the queue *)

(** The first [k] tasks of the queue, run the way the loops that drain the
    queue on the calling thread run them: the front task is moved out of the
    queue and processed, [k] times over. *)
Fixpoint runTasks (env : Environment) (this : Context) (k : nat) : M unit :=
  match k with
  | O => ret tt
  | S n => task <- popTask ;; processTask env this task ;; runTasks env this n
  end.

(** A task that submits the commands of the serial [n] of the index zero. *)
Definition submitTask (n : Z) : CommandProcessorTask :=
  {| task_mTask := FlushAndQueueSubmit;
     task_mOutsideRenderPassCommandBuffer := VK_NULL_HANDLE;
     task_mRenderPassCommandBuffer := VK_NULL_HANDLE;
     task_mRenderPass := VK_NULL_HANDLE;
     task_mFramebufferOverride := VK_NULL_HANDLE;
     task_mWaitSemaphores := [];
     task_mWaitSemaphoreStageMasks := [];
     task_mSemaphore := VK_NULL_HANDLE;
     task_mExternalFence := None;
     task_mOneOffCommandBuffer := VK_NULL_HANDLE;
     task_mOneOffWaitSemaphore := VK_NULL_HANDLE;
     task_mOneOffWaitSemaphoreStageMask := 0%Z;
     task_mSubmitQueueSerial := {| qsIndex := 0%N; qsSerial := n |};
     task_mPriority := Medium;
     task_mProtectionType := Unprotected;
     task_mPresentInfo := VkPresentInfoKHR_zero;
     task_mSwapchainStatus := 0 |}.

(** A task queue of two submissions and a flush of a wait semaphore. *)
Definition submitQueueState : State :=
  set_mTaskQueue [submitTask 1; submitTask 2; flushTask 11%Z] initialState.

(** ** A submission that goes through *)

(** The device does what a submission asks of it: it ends the primary
    buffer, creates a valid fence and takes the submission. *)
Definition obligingDevice (env : Environment) : Prop :=
  (forall t c, vkEndCommandBuffer env t c = VK_SUCCESS)
  /\ (forall t, fst (vkCreateFence env t) = VK_SUCCESS
                /\ valid (snd (vkCreateFence env t)) = true)
  /\ (forall t info f, vkQueueSubmit env t info f = VK_SUCCESS).

(** The state lets a submission through without a wait: the thread holds
    none of the three mutexes that [submitCommands] takes, the serial and
    the protection type are valid, the index of the serial is one of the
    tracker, both rings have room, the commands state of the pair passes
    the assertions on it, the fence that the recycler would hand out is
    valid, and so is the external fence. *)
Definition submittable (env : Environment) (protection : ProtectionType)
    (priority : ContextPriority) (externalFence : option SharedExternalFence)
    (q : QueueSerial) (s : State) : Prop :=
  holds mQueueSubmitMutex (held s) = false
  /\ holds mCmdPoolMutex (held s) = false
  /\ holds mRecyclerMutex (held s) = false
  /\ QueueSerial_valid q = true
  /\ ProtectionType_eqb protection InvalidEnum = false
  /\ is_Some (serialAt (mLastSubmittedSerials s) (qsIndex q))
  /\ length (mInFlightCommands s) < kInFlightCommandsLimit env
  /\ mNumAllCommands s < kMaxFinishedCommandsLimit env
  /\ (valid (primaryCommands (mCommandsStateMap s priority protection)) = false ->
      secondaryCommands (mCommandsStateMap s priority protection) = [])
  /\ length (waitSemaphores (mCommandsStateMap s priority protection))
     = length (waitSemaphoreStageMasks (mCommandsStateMap s priority protection))
  /\ match mFenceRecycler s with
     | f :: _ => valid f = true
     | [] => True
     end
  /\ match externalFence with
     | Some e => valid e = true
     | None => True
     end.

(** * Properties *)

(** ** Running the monad *)

Lemma bind_Ok {A B} (m : M A) (k : A -> M B) s a s' :
  m s = (Ok a, s') -> bind m k s = k a s'.
Proof. intros H. unfold bind. rewrite H. reflexivity. Qed.

Lemma bind_Stop {A B} (m : M A) (k : A -> M B) s s' :
  m s = (Stop, s') -> bind m k s = (Stop, s').
Proof. intros H. unfold bind. rewrite H. reflexivity. Qed.

Lemma bind_Abort {A B} (m : M A) (k : A -> M B) s f s' :
  m s = (Abort f, s') -> bind m k s = (Abort f, s').
Proof. intros H. unfold bind. rewrite H. reflexivity. Qed.

Lemma unhold_head m l : unhold m (m :: l) = l.
Proof. simpl. destruct m; reflexivity. Qed.

Lemma state_eta s :
  Build_State (mInFlightCommands s) (mFinishedCommandBatches s) (mNumAllCommands s)
    (mLastSubmittedSerials s) (mLastCompletedSerials s) (mFenceRecycler s)
    (sharedFences s) (mCommandsStateMap s) (mPrimaryCommandPoolMap s)
    (mTaskQueue s) (mErrors s) (mNeedCommandsAndGarbageCleanup s)
    (swapchainStatus s) (held s) (trace s) = s.
Proof. destruct s; reflexivity. Qed.

(** ** Rules of the weakest precondition *)

Lemma wp_ret {A} (a : A) s Q : Q (Ok a) s -> wp (ret a) s Q.
Proof. exact (fun H => H). Qed.

Lemma wp_bind {A B} (m : M A) (k : A -> M B) s Q :
  wp m s (andThen k Q) -> wp (bind m k) s Q.
Proof.
  unfold wp, andThen, bind. destruct (m s) as [[a| |f] s']; simpl; auto.
Qed.

Lemma wp_get {A} (f : State -> A) s Q : Q (Ok (f s)) s -> wp (get f) s Q.
Proof. exact (fun H => H). Qed.

Lemma wp_modify (f : State -> State) s Q : Q (Ok tt) (f s) -> wp (modify f) s Q.
Proof. exact (fun H => H). Qed.

Lemma wp_emit a s Q :
  Q (Ok tt) (set_trace (trace s ++ [ {| evLocks := held s; evAction := a |} ]) s) ->
  wp (emit a) s Q.
Proof. exact (fun H => H). Qed.

Lemma wp_ask {A} (oracle : list Event -> A) a s Q :
  Q (Ok (oracle (trace s)))
    (set_trace (trace s ++ [ {| evLocks := held s; evAction := a |} ]) s) ->
  wp (ask oracle a) s Q.
Proof. exact (fun H => H). Qed.

Lemma wp_stop {A} s (Q : Outcome A -> State -> Prop) : Q Stop s -> wp stop s Q.
Proof. exact (fun H => H). Qed.

Lemma wp_abort {A} f s (Q : Outcome A -> State -> Prop) :
  Q (Abort f) s -> wp (abort f) s Q.
Proof. exact (fun H => H). Qed.

Lemma wp_ASSERT ln c s Q :
  (c = true -> Q (Ok tt) s) ->
  (c = false -> Q (Abort (AssertionFailed ln)) s) ->
  wp (ASSERT ln c) s Q.
Proof. destruct c; intros H1 H2; [apply H1 | apply H2]; reflexivity. Qed.

Lemma wp_lock m s Q :
  (holds m (held s) = true -> Q (Abort SelfDeadlock) s) ->
  (holds m (held s) = false -> Q (Ok tt) (set_held (m :: held s) s)) ->
  wp (lock m) s Q.
Proof.
  unfold wp, lock. destruct (holds m (held s)); intros H1 H2;
    [apply H1 | apply H2]; reflexivity.
Qed.

Lemma wp_unlock m s Q :
  Q (Ok tt) (set_held (unhold m (held s)) s) -> wp (unlock m) s Q.
Proof. exact (fun H => H). Qed.

Lemma wp_lock_guard {A} m (body : M A) s Q :
  (holds m (held s) = true -> Q (Abort SelfDeadlock) s) ->
  (holds m (held s) = false ->
   wp body (set_held (m :: held s) s) (released m Q)) ->
  wp (lock_guard m body) s Q.
Proof.
  unfold wp, lock_guard, lock, released.
  destruct (holds m (held s)); intros H1 H2; [apply H1; reflexivity|].
  specialize (H2 eq_refl).
  destruct (body (set_held (m :: held s) s)) as [[a| |f] s2]; exact H2.
Qed.

Lemma wp_ignoreResult (m : M unit) s Q :
  wp m s (fun r s' => match r with Stop => Q (Ok tt) s' | _ => Q r s' end) ->
  wp (ignoreResult m) s Q.
Proof.
  unfold wp, ignoreResult. destruct (m s) as [[a| |f] s']; simpl; auto.
Qed.

Lemma wp_onStop {A} (cleanup : M unit) (m : M A) s Q :
  wp m s (fun r s' =>
            match r with
            | Stop => wp cleanup s' (fun r' s'' =>
                        match r' with
                        | Abort f => Q (Abort f) s''
                        | _ => Q Stop s''
                        end)
            | _ => Q r s'
            end) ->
  wp (onStop cleanup m) s Q.
Proof.
  unfold wp, onStop. destruct (m s) as [[a| |f] s']; simpl; auto.
  destruct (cleanup s') as [[a| |f] s'']; simpl; auto.
Qed.

Lemma wp_conseq {A} (m : M A) s (Q Q' : Outcome A -> State -> Prop) :
  wp m s Q -> (forall r s', Q r s' -> Q' r s') -> wp m s Q'.
Proof. unfold wp. auto. Qed.

Lemma wp_eq {A} (m : M A) s r s' (Q : Outcome A -> State -> Prop) :
  m s = (r, s') -> Q r s' -> wp m s Q.
Proof. unfold wp. intros ->. auto. Qed.

Lemma wp_elim {A} (m : M A) s (Q : Outcome A -> State -> Prop) :
  wp m s Q -> Q (fst (m s)) (snd (m s)).
Proof. exact (fun H => H). Qed.

Lemma wp_run {A} (m : M A) s r s' :
  wp m s (fun r0 s0 => r0 = r /\ s0 = s') -> m s = (r, s').
Proof. unfold wp. destruct (m s). simpl. intros [-> ->]. reflexivity. Qed.

(** The projections of an updated state. *)
Ltac ssimpl :=
  cbn [mInFlightCommands mFinishedCommandBatches mNumAllCommands
       mLastSubmittedSerials mLastCompletedSerials mFenceRecycler sharedFences
       mCommandsStateMap mPrimaryCommandPoolMap mTaskQueue mErrors
       mNeedCommandsAndGarbageCleanup swapchainStatus held trace
       set_mInFlightCommands set_mFinishedCommandBatches set_mNumAllCommands
       set_mLastSubmittedSerials set_mLastCompletedSerials set_mFenceRecycler
       set_sharedFences set_mCommandsStateMap set_mPrimaryCommandPoolMap
       set_mTaskQueue set_mErrors set_mNeedCommandsAndGarbageCleanup
       set_swapchainStatus set_held set_trace fst snd
       andThen released] in *.

(** One step of symbolic execution. *)
Ltac wp_step :=
  lazymatch goal with
  | |- wp (bind _ _) _ _ => apply wp_bind
  | |- wp (ret _) _ _ => apply wp_ret
  | |- wp (get _) _ _ => apply wp_get
  | |- wp (modify _) _ _ => apply wp_modify
  | |- wp (emit _) _ _ => apply wp_emit
  | |- wp (ask _ _) _ _ => apply wp_ask
  | |- wp stop _ _ => apply wp_stop
  | |- wp (abort _) _ _ => apply wp_abort
  | |- wp UNREACHABLE _ _ => apply wp_abort
  | |- wp (unlock _) _ _ => apply wp_unlock
  | |- wp (ignoreResult _) _ _ => apply wp_ignoreResult
  | |- wp (onStop _ _) _ _ => apply wp_onStop
  | |- andThen _ _ _ _ => unfold andThen at 1
  | |- released _ _ _ _ => unfold released at 1
  end; ssimpl.

Ltac wp_steps := repeat wp_step.

(** Case analysis on the condition of a branch. *)
Ltac wp_case :=
  lazymatch goal with
  | |- wp (if ?c then _ else _) _ _ => destruct c eqn:?
  | |- wp (match ?x with _ => _ end) _ _ => destruct x eqn:?
  end; ssimpl.

(** ** Waiting for an unsubmitted use *)

(** C10: [waitForResourceUseToFinishWithUserTimeout] on a use that is not
    observed as submitted returns [Continue] with [*result = VK_TIMEOUT];
    the only event is the warning, so no fence is waited on, and the rings
    and the serial trackers are as before. *)
Theorem waitForResourceUseToFinishWithUserTimeout_unsubmitted
    env fuel context use timeout s :
  serialsReached (mLastSubmittedSerials s) use = false ->
  let r := waitForResourceUseToFinishWithUserTimeout env fuel context use timeout s in
  fst r = Ok VK_TIMEOUT
  /\ trace (snd r) = trace s ++ [ {| evLocks := held s; evAction := ActWarn |} ]
  /\ mInFlightCommands (snd r) = mInFlightCommands s
  /\ mFinishedCommandBatches (snd r) = mFinishedCommandBatches s
  /\ mNumAllCommands (snd r) = mNumAllCommands s
  /\ mLastSubmittedSerials (snd r) = mLastSubmittedSerials s
  /\ mLastCompletedSerials (snd r) = mLastCompletedSerials s
  /\ sharedFences (snd r) = sharedFences s
  /\ held (snd r) = held s.
Proof.
  intros H r. subst r.
  unfold waitForResourceUseToFinishWithUserTimeout, hasResourceUseSubmitted, bind, get.
  rewrite H. simpl. repeat split; reflexivity.
Qed.

Lemma waitForResourceUseToFinishWithUserTimeout_unsubmitted_witness :
  let use := [ {| qsIndex := 0%N; qsSerial := 7%Z |} ] in
  let r := waitForResourceUseToFinishWithUserTimeout quietDevice 5
             (externalContext 0) use 1000%Z initialState in
  fst r = Ok VK_TIMEOUT
  /\ trace (snd r) = [ {| evLocks := []; evAction := ActWarn |} ]
  /\ mInFlightCommands (snd r) = []
  /\ mFinishedCommandBatches (snd r) = mFinishedCommandBatches initialState
  /\ mNumAllCommands (snd r) = 0
  /\ mLastSubmittedSerials (snd r) = mLastSubmittedSerials initialState
  /\ mLastCompletedSerials (snd r) = mLastCompletedSerials initialState
  /\ sharedFences (snd r) = []
  /\ held (snd r) = [].
Proof.
  apply (waitForResourceUseToFinishWithUserTimeout_unsubmitted quietDevice 5
           (externalContext 0) [ {| qsIndex := 0%N; qsSerial := 7%Z |} ]
           1000%Z initialState).
  reflexivity.
Defined.

(** ** The deferred error queue *)

Lemma error_eta err :
  {| errorCode := errorCode err; file := file err;
     function := function err; line := line err |} = err.
Proof. destruct err; reflexivity. Qed.

Lemma loop_S fuel (body : M bool) :
  loop (S fuel) body = (c <- body ;; if c then loop fuel body else ret tt).
Proof. reflexivity. Qed.

Lemma wp_handleError_external id code f fn ln s Q :
  Q (Ok tt) (set_trace (trace s ++ [ handled id (held s)
                {| errorCode := code; file := f; function := fn; line := ln |} ]) s) ->
  wp (handleError (externalContext id) code f fn ln) s Q.
Proof. exact (fun H => H). Qed.

(** The loop of [checkAndPopPendingError] hands the pending errors to the
    context in their order and leaves the queue empty. *)
Lemma popErrors_loop id errs : forall s Q,
  mErrors s = errs ->
  Q (Ok tt) (set_trace (trace s ++ map (handled id (held s)) errs) (set_mErrors [] s)) ->
  wp (loop (S (length errs))
        (errs <- get mErrors ;;
         match errs with
         | [] => ret false
         | err :: rest =>
             modify (set_mErrors rest) ;;
             handleError (externalContext id)
               (errorCode err) (file err) (function err) (line err) ;;
             ret true
         end)) s Q.
Proof.
  induction errs as [|err rest IH]; intros s Q Hs HQ.
  - cbn [length]. rewrite loop_S. wp_steps. rewrite Hs. wp_steps.
    rewrite app_nil_r in HQ. destruct s; simpl in *; subst; exact HQ.
  - cbn [length]. rewrite loop_S. wp_steps. rewrite Hs. wp_steps.
    apply wp_handleError_external. wp_steps.
    rewrite error_eta.
    apply IH; [reflexivity|]. ssimpl.
    rewrite <- app_assoc. exact HQ.
Qed.

(** C6: [checkAndPopPendingError] on an empty error queue returns [Continue]
    and changes nothing; on pending errors it hands every record, in order,
    to the error handler of the caller's context, leaves the queue empty and
    returns [Stop], and the next call returns [Continue]. *)
Theorem checkAndPopPendingError_spec id s :
  holds mErrorMutex (held s) = false ->
  (mErrors s = [] -> checkAndPopPendingError (externalContext id) s = (Ok tt, s))
  /\ (mErrors s <> [] ->
      let s' := snd (checkAndPopPendingError (externalContext id) s) in
      fst (checkAndPopPendingError (externalContext id) s) = Stop
      /\ mErrors s' = []
      /\ trace s' = trace s ++ map (handled id (mErrorMutex :: held s)) (mErrors s)
      /\ held s' = held s
      /\ mTaskQueue s' = mTaskQueue s
      /\ checkAndPopPendingError (externalContext id) s' = (Ok tt, s')).
Proof.
  intros Hheld.
  assert (Hempty : forall s0, holds mErrorMutex (held s0) = false -> mErrors s0 = [] ->
                     checkAndPopPendingError (externalContext id) s0 = (Ok tt, s0)).
  { intros s0 Hh He. apply wp_run. unfold checkAndPopPendingError.
    apply wp_lock_guard; [congruence|intros _].
    wp_steps. rewrite He. wp_steps. rewrite unhold_head.
    split; [reflexivity|]. destruct s0; reflexivity. }
  split; [apply Hempty; assumption|].
  intros Hne.
  assert (Hrun : checkAndPopPendingError (externalContext id) s
                 = (Stop, set_trace (trace s ++ map (handled id (mErrorMutex :: held s))
                                                  (mErrors s))
                            (set_mErrors [] s))).
  { apply wp_run. unfold checkAndPopPendingError.
    apply wp_lock_guard; [congruence|intros _].
    wp_steps. destruct (mErrors s) as [|e rest] eqn:He; [congruence|].
    wp_steps. rewrite <- He.
    apply popErrors_loop; [reflexivity|]. wp_steps.
    rewrite unhold_head. split; [reflexivity|].
    destruct s; reflexivity. }
  rewrite Hrun. cbn [fst snd]. ssimpl. repeat split; try reflexivity.
  apply Hempty; ssimpl; [assumption|reflexivity].
Qed.

Lemma checkAndPopPendingError_spec_witness :
  let s := set_mErrors [someError; someError] initialState in
  (mErrors s = [] -> checkAndPopPendingError (externalContext 3) s = (Ok tt, s))
  /\ (mErrors s <> [] ->
      let s' := snd (checkAndPopPendingError (externalContext 3) s) in
      fst (checkAndPopPendingError (externalContext 3) s) = Stop
      /\ mErrors s' = []
      /\ trace s' = trace s ++ map (handled 3 (mErrorMutex :: held s)) (mErrors s)
      /\ held s' = held s
      /\ mTaskQueue s' = mTaskQueue s
      /\ checkAndPopPendingError (externalContext 3) s' = (Ok tt, s')).
Proof.
  apply (checkAndPopPendingError_spec 3 (set_mErrors [someError; someError] initialState)).
  reflexivity.
Defined.

(** ** The fence recycler *)

(** The claim C9 as it is written, for every state of the recycler, fails
    on the empty free list.  Nothing is fetched there:
    [RecyclableFence::init] creates a fence instead, and
    [RecyclableFence::destroy] recycles the created fence, so the round trip
    makes the free list grow from zero to one.  The only event is the
    creation of the fence. *)
Lemma initThenDestroy_empty_grows :
  let s := initialState in
  let r := initThenDestroy quietDevice s in
  mFenceRecycler s = []
  /\ fst r = Ok tt
  /\ trace (snd r) = [ {| evLocks := []; evAction := ActCreateFence |} ]
  /\ mFenceRecycler (snd r) = [700%Z]
  /\ length (mFenceRecycler (snd r)) <> length (mFenceRecycler s).
Proof. repeat split. discriminate. Qed.

(** C9, amended: on a free list that is not empty, whose head is a valid
    fence as every recycled fence is, the round trip fetches the head and
    resets it in [RecyclableFence::init] and recycles it in
    [RecyclableFence::destroy]: the free list is what it was, so its size is
    unchanged, and the reset of the fetched fence under the mutex of the
    recycler is the only event. *)
Theorem initThenDestroy_nonempty env s fence rest :
  holds mRecyclerMutex (held s) = false ->
  mFenceRecycler s = fence :: rest ->
  valid fence = true ->
  let r := initThenDestroy env s in
  fst r = Ok tt
  /\ mFenceRecycler (snd r) = mFenceRecycler s
  /\ length (mFenceRecycler (snd r)) = length (mFenceRecycler s)
  /\ trace (snd r) = trace s ++ [ {| evLocks := mRecyclerMutex :: held s;
                                     evAction := ActResetFence fence |} ].
Proof.
  intros Hh He Hv r.
  assert (Hrun : wp (initThenDestroy env) s
            (fun o s' => o = Ok tt /\ mFenceRecycler s' = mFenceRecycler s
               /\ trace s' = trace s ++ [ {| evLocks := mRecyclerMutex :: held s;
                                     evAction := ActResetFence fence |} ])).
  { unfold initThenDestroy, SharedFence_MakeShared. wp_steps.
    unfold RecyclableFence_init, deref. wp_steps.
    rewrite list_lookup_middle by reflexivity. wp_steps.
    apply wp_ASSERT; intros Hx; [clear Hx|discriminate Hx]. wp_steps.
    apply wp_ASSERT; intros Hx; [clear Hx|discriminate Hx]. wp_steps.
    unfold FenceRecycler_fetch. wp_steps.
    apply wp_ASSERT; intros Hx; [clear Hx|discriminate Hx]. wp_steps.
    apply wp_lock_guard; [ssimpl; congruence|]. intros _.
    unfold Recycler_empty, Recycler_fetch. wp_steps. rewrite He. cbn [negb].
    wp_steps. rewrite He. wp_steps. unfold store. wp_steps.
    rewrite Hv. cbn [negb]. wp_steps.
    unfold RecyclableFence_destroy, deref. wp_steps.
    rewrite list_lookup_insert_eq by (rewrite length_insert, length_app; cbn [length]; lia).
    wp_steps. cbn [set_rfRecycler set_rfFence rfFence rfRecycler rfRefs].
    rewrite Hv. unfold FenceRecycler_recycle.
    apply wp_bind, wp_lock_guard; [ssimpl; rewrite unhold_head; congruence|]. intros _.
    unfold Recycler_recycle. wp_steps. rewrite ?unhold_head, ?He.
    repeat split; reflexivity. }
  apply wp_elim in Hrun. subst r. destruct Hrun as (H1 & H2 & H3).
  repeat split; try assumption. rewrite H2. reflexivity.
Qed.

Lemma initThenDestroy_nonempty_witness :
  let s := set_mFenceRecycler [700%Z; 701%Z] initialState in
  let r := initThenDestroy quietDevice s in
  fst r = Ok tt
  /\ mFenceRecycler (snd r) = mFenceRecycler s
  /\ length (mFenceRecycler (snd r)) = length (mFenceRecycler s)
  /\ trace (snd r) = trace s ++ [ {| evLocks := mRecyclerMutex :: held s;
                                     evAction := ActResetFence 700%Z |} ].
Proof.
  apply (initThenDestroy_nonempty quietDevice
           (set_mFenceRecycler [700%Z; 701%Z] initialState) 700%Z [701%Z]);
    reflexivity.
Defined.

(** ** Present *)

(** [CommandProcessor::present] stores the result of the device call in the
    status and clears [isPending] after that. *)
Lemma present_spec env priority info status st s :
  holds mQueueSubmitMutex (held s) = false ->
  swapchainCount info = 1%Z ->
  pResults info = false ->
  swapchainStatus s !! status = Some st ->
  isPending st = true ->
  let result := vkQueuePresentKHR env (trace s) info in
  present env priority info status s
  = (Ok result,
     set_trace (trace s ++ presentEvents priority info status result (held s))
       (set_swapchainStatus
          (<[status := {| isPending := false; lastPresentResult := result |}]>
             (swapchainStatus s)) s)).
Proof.
  intros Hh Hc Hr Hst Hp result. apply wp_run. unfold present.
  wp_steps. rewrite Hc. apply wp_ASSERT; [intros _|discriminate]. wp_steps.
  rewrite Hr. apply wp_ASSERT; [intros _|discriminate]. wp_steps.
  unfold queuePresent. apply wp_lock_guard; [congruence|intros _].
  wp_steps. unfold storeLastPresentResult, derefStatus. wp_steps.
  rewrite Hst. wp_steps. rewrite unhold_head.
  unfold derefStatus. wp_steps.
  assert (Hlt : status < length (swapchainStatus s)) by (eapply lookup_lt_Some; eauto).
  rewrite list_lookup_insert_eq by assumption. wp_steps.
  rewrite Hp. apply wp_ASSERT; [intros _|discriminate]. wp_steps.
  unfold storeIsPending, derefStatus. wp_steps.
  rewrite list_lookup_insert_eq by assumption. wp_steps.
  rewrite list_insert_insert_eq.
  split; [reflexivity|].
  unfold presentEvents. rewrite <- !app_assoc. reflexivity.
Qed.

(** C7: the worker's handling of a [Present] task whose device result is
    [VK_ERROR_OUT_OF_DATE_KHR] or [VK_SUBOPTIMAL_KHR] calls no error handler
    and leaves the error queue as it was; the result is stored in
    [lastPresentResult], and the store that clears [isPending] comes after
    it.  [enqueuePresent] has set [isPending] before it queued the task. *)
Theorem present_nonfatal_result env this :
  (forall priority info status st s,
      holds mTaskEnqueueMutex (held s) = false ->
      length (mTaskQueue s) < kMaxCommandProcessorTasksLimit env ->
      swapchainStatus s !! status = Some st ->
      isPending st = false ->
      present_sType info <> 0%Z ->
      swapchainCount info = 1%Z ->
      (waitSemaphoreCount info <= 1)%Z ->
      let r := enqueuePresent env this priority info status s in
      fst r = Ok tt
      /\ swapchainStatus (snd r) !! status
         = Some {| isPending := true; lastPresentResult := VK_SUCCESS |}
      /\ (exists task,
             mTaskQueue (snd r) = mTaskQueue s ++ [task]
             /\ task_mTask task = Present
             /\ task_mSwapchainStatus task = status
             /\ task_mPriority task = priority
             /\ swapchainCount (task_mPresentInfo task) = 1%Z
             /\ pResults (task_mPresentInfo task) = pResults info)
      /\ mErrors (snd r) = mErrors s)
  /\ (forall task st s,
      task_mTask task = Present ->
      holds mQueueSubmitMutex (held s) = false ->
      swapchainCount (task_mPresentInfo task) = 1%Z ->
      pResults (task_mPresentInfo task) = false ->
      swapchainStatus s !! task_mSwapchainStatus task = Some st ->
      isPending st = true ->
      let started :=
        trace s ++ [ {| evLocks := held s; evAction := ActProcessTask Present |} ] in
      let result := vkQueuePresentKHR env started (task_mPresentInfo task) in
      result = VK_ERROR_OUT_OF_DATE_KHR \/ result = VK_SUBOPTIMAL_KHR ->
      let r := processTask env this task s in
      fst r = Ok tt
      /\ mErrors (snd r) = mErrors s
      /\ swapchainStatus (snd r) !! task_mSwapchainStatus task
         = Some {| isPending := false; lastPresentResult := result |}
      /\ trace (snd r)
         = started ++ presentEvents (task_mPriority task) (task_mPresentInfo task)
                        (task_mSwapchainStatus task) result (held s)).
Proof.
  split.
  - intros priority info status st s Hh Hlen Hst Hp Hty Hc Hw r.
    assert (Hlt : status < length (swapchainStatus s)) by (eapply lookup_lt_Some; eauto).
    assert (Hfull : (kMaxCommandProcessorTasksLimit env <=? length (mTaskQueue s)) = false)
      by (apply Nat.leb_gt; exact Hlen).
    subst r. unfold enqueuePresent. apply wp_elim.
    unfold derefStatus. wp_steps. rewrite Hst. wp_steps.
    rewrite Hp. apply wp_ASSERT; [intros _|discriminate]. wp_steps.
    unfold storeIsPending, derefStatus. wp_steps. rewrite Hst. wp_steps.
    unfold storeLastPresentResult, derefStatus. wp_steps.
    rewrite list_lookup_insert_eq by assumption. wp_steps.
    rewrite list_insert_insert_eq.
    unfold initPresent, copyPresentInfo. wp_steps.
    destruct (present_sType info =? 0)%Z eqn:Hz; [apply Z.eqb_eq in Hz; congruence|].
    rewrite Hc. cbn [Z.ltb Z.compare Z.eqb Pos.eqb]. wp_steps.
    apply wp_ASSERT; [intros _|discriminate]. wp_steps.
    assert (Hwait : wp (if (0 <? waitSemaphoreCount info)%Z
                        then ASSERT 231 (waitSemaphoreCount info =? 1)%Z else ret tt)
                      (set_trace
                         (trace s ++
                          [ {| evLocks := held s; evAction := ActStoreIsPending status true |};
                            {| evLocks := held s;
                               evAction := ActStoreLastPresentResult status VK_SUCCESS |} ])
                         (set_swapchainStatus
                            (<[status := {| isPending := true;
                                            lastPresentResult := VK_SUCCESS |}]>
                               (swapchainStatus s)) s))
                      (fun o s' => o = Ok tt /\ s' =
                         set_trace
                           (trace s ++
                            [ {| evLocks := held s; evAction := ActStoreIsPending status true |};
                              {| evLocks := held s;
                                 evAction := ActStoreLastPresentResult status VK_SUCCESS |} ])
                           (set_swapchainStatus
                              (<[status := {| isPending := true;
                                              lastPresentResult := VK_SUCCESS |}]>
                                 (swapchainStatus s)) s))).
    { destruct (0 <? waitSemaphoreCount info)%Z eqn:Hpos.
      - apply wp_ASSERT; [intros _; split; reflexivity|].
        intros Hne. apply Z.ltb_lt in Hpos. apply Z.eqb_neq in Hne. lia.
      - wp_steps. split; reflexivity. }
    rewrite <- app_assoc. cbn [app].
    eapply wp_conseq; [exact Hwait|]. clear Hwait.
    intros o s' [-> ->]. wp_steps.
    unfold queueCommand.
    apply wp_lock_guard; [ssimpl; congruence|intros _].
    unfold taskQueueFull. wp_steps. rewrite Hfull. wp_steps.
    unfold pushTask, taskQueueFull. wp_steps. rewrite Hfull.
    apply wp_ASSERT; [intros _|discriminate]. wp_steps.
    rewrite list_lookup_insert_eq by assumption.
    repeat split; try reflexivity.
    eexists. repeat split; reflexivity.
  - intros task st s Ht Hh Hc Hr Hst Hp started result Hres r.
    subst r. unfold processTask, dispatchTask. rewrite Ht. apply wp_elim.
    wp_steps.
    eapply wp_eq.
    { eapply present_spec with (st := st); ssimpl; eauto. }
    ssimpl. fold started. fold result.
    assert (Hcond : negb (result =? VK_ERROR_OUT_OF_DATE_KHR)%Z
                    && negb (result =? VK_SUBOPTIMAL_KHR)%Z
                    && negb (result =? VK_SUCCESS)%Z = false).
    { destruct Hres as [-> | ->]; reflexivity. }
    rewrite Hcond. wp_steps.
    assert (Hlt : task_mSwapchainStatus task < length (swapchainStatus s))
      by (eapply lookup_lt_Some; eauto).
    rewrite list_lookup_insert_eq by assumption.
    repeat split; reflexivity.
Qed.

Lemma present_nonfatal_result_witness :
  (let r := enqueuePresent suboptimalDevice (CommandProcessor_this suboptimalDevice 1)
              Medium onePresentInfo 0 oneSurfaceState in
   fst r = Ok tt
   /\ swapchainStatus (snd r) !! 0
      = Some {| isPending := true; lastPresentResult := VK_SUCCESS |}
   /\ (exists task,
          mTaskQueue (snd r) = mTaskQueue oneSurfaceState ++ [task]
          /\ task_mTask task = Present
          /\ task_mSwapchainStatus task = 0
          /\ task_mPriority task = Medium
          /\ swapchainCount (task_mPresentInfo task) = 1%Z
          /\ pResults (task_mPresentInfo task) = pResults onePresentInfo)
   /\ mErrors (snd r) = mErrors oneSurfaceState)
  /\ (let r := processTask suboptimalDevice (CommandProcessor_this suboptimalDevice 1)
                 onePresentTask pendingPresentState in
      fst r = Ok tt
      /\ mErrors (snd r) = []
      /\ swapchainStatus (snd r) !! 0
         = Some {| isPending := false; lastPresentResult := VK_SUBOPTIMAL_KHR |}
      /\ trace (snd r)
         = {| evLocks := []; evAction := ActProcessTask Present |}
           :: presentEvents Medium onePresentInfo 0 VK_SUBOPTIMAL_KHR []).
Proof.
  split.
  - apply (proj1 (present_nonfatal_result suboptimalDevice
                    (CommandProcessor_this suboptimalDevice 1))
             Medium onePresentInfo 0
             {| isPending := false; lastPresentResult := VK_SUCCESS |} oneSurfaceState).
    + reflexivity.
    + simpl. lia.
    + reflexivity.
    + reflexivity.
    + discriminate.
    + reflexivity.
    + discriminate.
  - apply (proj2 (present_nonfatal_result suboptimalDevice
                    (CommandProcessor_this suboptimalDevice 1))
             onePresentTask
             {| isPending := true; lastPresentResult := VK_SUCCESS |} pendingPresentState).
    + reflexivity.
    + reflexivity.
    + reflexivity.
    + reflexivity.
    + reflexivity.
    + reflexivity.
    + right. reflexivity.
Defined.

(** ** The fence sources of a batch *)

Lemma wp_returns_bind {A B} (m : M A) (k : A -> M B) s (P : B -> Prop) :
  (forall a s', wp (k a) s' (returns P)) -> wp (bind m k) s (returns P).
Proof.
  intros H. apply wp_bind. unfold wp at 1. unfold andThen.
  destruct (m s) as [[a| |f] s']; simpl; auto.
Qed.

Lemma wp_returns_ASSERT {B} ln c (k : unit -> M B) s (P : B -> Prop) :
  (c = true -> wp (k tt) s (returns P)) -> wp (bind (ASSERT ln c) k) s (returns P).
Proof.
  intros H. apply wp_bind. apply wp_ASSERT; intros Hc; [|exact I].
  unfold andThen. auto.
Qed.

Lemma wp_returns_ret {A} (a : A) s (P : A -> Prop) : P a -> wp (ret a) s (returns P).
Proof. exact (fun H => H). Qed.

(** [hasFence] changes nothing; it returns whether a fence is set or it
    aborts. *)
Lemma hasFence_run b s :
  hasFence b s = (Ok (fenceIsSet b), s)
  \/ exists f, hasFence b s = (Abort f, s).
Proof.
  cbv [hasFence fenceIsSet bind ASSERT deref get ret abort].
  destruct (mExternalFence b), (mFence b) as [p|]; simpl; eauto.
  destruct (sharedFences s !! p) as [r|]; simpl; eauto.
  destruct (valid (rfFence r)); simpl; eauto.
Qed.

Lemma hasFence_returns b s (P : bool -> Prop) :
  P (fenceIsSet b) -> wp (hasFence b) s (returns P).
Proof.
  intros H. unfold wp.
  destruct (hasFence_run b s) as [-> | [f ->]]; simpl; auto.
Qed.

Lemma fence_unset b :
  fenceIsSet b = false -> mFence b = None /\ mExternalFence b = None.
Proof.
  unfold fenceIsSet. destruct (mFence b), (mExternalFence b); simpl; intros H;
    try discriminate; auto.
Qed.

Lemma initFence_one env b s :
  wp (initFence env b) s (returns (fun r => atMostOneFence (snd r) = true)).
Proof.
  unfold initFence. apply wp_bind. unfold wp at 1.
  destruct (hasFence_run b s) as [-> | [f ->]]; simpl; auto.
  apply wp_returns_ASSERT. intros Hc. apply negb_true_iff in Hc.
  destruct (fence_unset b Hc) as [Hf He].
  apply wp_returns_bind; intros fence s1.
  apply wp_returns_bind; intros result s2.
  destruct (result =? VK_SUCCESS)%Z.
  - apply wp_returns_bind; intros r s3.
    apply wp_returns_ASSERT; intros _. apply wp_returns_ret.
    unfold atMostOneFence. simpl. rewrite He. reflexivity.
  - apply wp_returns_bind; intros r s3. apply wp_returns_ret.
    unfold atMostOneFence. simpl. rewrite Hf. reflexivity.
Qed.

Lemma setExternalFence_one e b s :
  wp (setExternalFence e b) s (returns (fun b' => atMostOneFence b' = true)).
Proof.
  unfold setExternalFence. apply wp_bind. unfold wp at 1.
  destruct (hasFence_run b s) as [-> | [f ->]]; simpl; auto.
  apply wp_returns_ASSERT. intros Hc. apply negb_true_iff in Hc.
  destruct (fence_unset b Hc) as [Hf He].
  apply wp_returns_ret. unfold atMostOneFence. simpl. rewrite Hf. reflexivity.
Qed.

Lemma destroy_one b s :
  wp (CommandBatch_destroy b) s (returns (fun b' => atMostOneFence b' = true)).
Proof.
  unfold CommandBatch_destroy.
  apply wp_returns_bind; intros b1 s1.
  apply wp_returns_bind; intros b2 s2.
  apply wp_returns_bind; intros b3 s3.
  apply wp_returns_ret. unfold atMostOneFence. simpl.
  rewrite andb_false_r. reflexivity.
Qed.

Lemma release_one env context b s :
  wp (CommandBatch_release env context b) s
    (returns (fun b' => atMostOneFence b' = true)).
Proof.
  unfold CommandBatch_release.
  apply wp_returns_bind; intros b1 s1.
  apply wp_returns_bind; intros b2 s2.
  apply wp_returns_bind; intros b3 s3.
  apply wp_returns_ret. unfold atMostOneFence. simpl.
  rewrite andb_false_r. reflexivity.
Qed.

Lemma runCall_one env c b s :
  atMostOneFence b = true ->
  wp (runCall env c b) s (returns (fun b' => atMostOneFence b' = true)).
Proof.
  intros Hb. destruct c; cbn [runCall].
  - unfold setQueueSerial. apply wp_returns_ASSERT; intros _.
    apply wp_returns_ASSERT; intros _. apply wp_returns_ret. exact Hb.
  - unfold setProtectionType. apply wp_returns_ASSERT; intros _.
    apply wp_returns_ASSERT; intros _. apply wp_returns_ret. exact Hb.
  - unfold setPrimaryCommands. apply wp_returns_ASSERT; intros _.
    apply wp_returns_ASSERT; intros _. apply wp_returns_ASSERT; intros _.
    apply wp_returns_ret. exact Hb.
  - unfold setSecondaryCommands. apply wp_returns_ASSERT; intros _.
    apply wp_returns_ret. exact Hb.
  - apply wp_bind. eapply wp_conseq; [apply initFence_one|].
    intros [[result b']| |f] s'; simpl; auto.
  - apply setExternalFence_one.
  - apply destroy_one.
  - apply release_one.
Qed.

Lemma runCalls_one env calls : forall b s,
  atMostOneFence b = true ->
  wp (runCalls env calls b) s (returns (fun b' => atMostOneFence b' = true)).
Proof.
  induction calls as [|c rest IH]; intros b s Hb; cbn [runCalls].
  - exact Hb.
  - apply wp_bind. eapply wp_conseq; [apply runCall_one; exact Hb|].
    intros [b'| |f] s'; simpl; auto.
Qed.

(** C8: a batch has at most one fence source at all times.  Whatever calls
    are made on a newly constructed batch, the batch they return has not
    both an internal and an external fence, and a move assignment keeps
    this for both batches.  [initFence] and [setExternalFence] on a batch
    whose fence is set never return and change nothing: where [hasFence]
    answers, their own assertion fails.  [hasFence] on a batch with both
    fences fails its first assertion. *)
Theorem batch_has_at_most_one_fence env :
  atMostOneFence CommandBatch_new = true
  /\ (forall calls s b' s',
        runCalls env calls CommandBatch_new s = (Ok b', s') ->
        atMostOneFence b' = true)
  /\ (forall this other,
        atMostOneFence this = true -> atMostOneFence other = true ->
        atMostOneFence (fst (CommandBatch_assign this other)) = true
        /\ atMostOneFence (snd (CommandBatch_assign this other)) = true)
  /\ (forall b s,
        fenceIsSet b = true ->
        (exists f, initFence env b s = (Abort f, s))
        /\ (hasFence b s = (Ok true, s) ->
            initFence env b s = (Abort (AssertionFailed 465), s)))
  /\ (forall externalFence b s,
        fenceIsSet b = true ->
        (exists f, setExternalFence externalFence b s = (Abort f, s))
        /\ (hasFence b s = (Ok true, s) ->
            setExternalFence externalFence b s = (Abort (AssertionFailed 478), s)))
  /\ (forall b s,
        atMostOneFence b = false ->
        hasFence b s = (Abort (AssertionFailed 500), s)).
Proof.
  split; [reflexivity|].
  split.
  { intros calls s b' s' Hrun.
    pose proof (runCalls_one env calls CommandBatch_new s eq_refl) as H.
    unfold wp in H. rewrite Hrun in H. exact H. }
  split.
  { intros this other Ht Ho. split; assumption. }
  split.
  { intros b s Hset. split.
    - unfold initFence, bind.
      destruct (hasFence_run b s) as [-> | [f ->]]; simpl; eauto.
      rewrite Hset. simpl. eauto.
    - intros H. unfold initFence, bind. rewrite H. reflexivity. }
  split.
  { intros e b s Hset. split.
    - unfold setExternalFence, bind.
      destruct (hasFence_run b s) as [-> | [f ->]]; simpl; eauto.
      rewrite Hset. simpl. eauto.
    - intros H. unfold setExternalFence, bind. rewrite H. reflexivity. }
  intros b s Hb. unfold atMostOneFence in Hb. apply negb_false_iff in Hb.
  apply andb_true_iff in Hb. destruct Hb as [Hf He].
  unfold hasFence, bind, ASSERT. rewrite Hf, He. reflexivity.
Qed.

Lemma batch_has_at_most_one_fence_witness :
  (exists b' s',
      runCalls quietDevice submitCalls CommandBatch_new initialState = (Ok b', s')
      /\ atMostOneFence b' = true)
  /\ (atMostOneFence (fst (CommandBatch_assign CommandBatch_new oneFenceBatch)) = true
      /\ atMostOneFence (snd (CommandBatch_assign CommandBatch_new oneFenceBatch)) = true)
  /\ ((exists f, initFence quietDevice oneFenceBatch oneFenceState = (Abort f, oneFenceState))
      /\ (hasFence oneFenceBatch oneFenceState = (Ok true, oneFenceState) ->
          initFence quietDevice oneFenceBatch oneFenceState
          = (Abort (AssertionFailed 465), oneFenceState)))
  /\ ((exists f, setExternalFence (Some 41%Z) oneFenceBatch oneFenceState
                 = (Abort f, oneFenceState))
      /\ (hasFence oneFenceBatch oneFenceState = (Ok true, oneFenceState) ->
          setExternalFence (Some 41%Z) oneFenceBatch oneFenceState
          = (Abort (AssertionFailed 478), oneFenceState)))
  /\ hasFence twoFenceBatch oneFenceState = (Abort (AssertionFailed 500), oneFenceState).
Proof.
  split.
  { eexists. eexists. split; [vm_compute; reflexivity|].
    eapply (proj1 (proj2 (batch_has_at_most_one_fence quietDevice))
              submitCalls initialState).
    vm_compute. reflexivity. }
  split.
  { apply (proj1 (proj2 (proj2 (batch_has_at_most_one_fence quietDevice)))
             CommandBatch_new oneFenceBatch); reflexivity. }
  split.
  { apply (proj1 (proj2 (proj2 (proj2 (batch_has_at_most_one_fence quietDevice))))
             oneFenceBatch oneFenceState). reflexivity. }
  split.
  { apply (proj1 (proj2 (proj2 (proj2 (proj2 (batch_has_at_most_one_fence quietDevice)))))
             (Some 41%Z) oneFenceBatch oneFenceState). reflexivity. }
  apply (proj2 (proj2 (proj2 (proj2 (proj2 (batch_has_at_most_one_fence quietDevice)))))
           twoFenceBatch oneFenceState). reflexivity.
Defined.

(** ** Tame computations *)

Lemma holds_unhold x m l : Mutex_eqb x m = false -> holds x (unhold m l) = holds x l.
Proof.
  intros Hx. induction l as [|y l IH]; simpl; [reflexivity|].
  destruct (Mutex_eqb m y) eqn:Hm.
  - assert (Mutex_eqb x y = false) by (destruct x, m, y; simpl in *; congruence).
    rewrite H. reflexivity.
  - simpl. rewrite IH. reflexivity.
Qed.

Lemma Mutex_eqb_refl m : Mutex_eqb m m = true.
Proof. destruct m; reflexivity. Qed.

Lemma Mutex_eqb_eq a b : Mutex_eqb a b = true -> a = b.
Proof. destruct a, b; simpl; congruence. Qed.

Lemma lockedBy_cons L l m : lockedBy L l -> lockedBy L (m :: l).
Proof. intros H x Hx. simpl. rewrite (H x Hx). apply orb_true_r. Qed.

Lemma lockedBy_unhold L l m :
  holds m L = false -> lockedBy L l -> lockedBy L (unhold m l).
Proof.
  intros Hm H x Hx. rewrite holds_unhold; [apply H; exact Hx|].
  destruct (Mutex_eqb x m) eqn:E; [|reflexivity].
  apply Mutex_eqb_eq in E. subst. congruence.
Qed.

Lemma lockedBy_refl l : lockedBy l l.
Proof. intros m H. exact H. Qed.

Lemma not_held_outside L l m : lockedBy L l -> holds m l = false -> holds m L = false.
Proof.
  intros H Hm. destruct (holds m L) eqn:E; [|reflexivity].
  rewrite (H m E) in Hm. discriminate.
Qed.

Lemma replay_app evs1 evs2 v : replay (evs1 ++ evs2) v = replay evs2 (replay evs1 v).
Proof. unfold replay. apply fold_left_app. Qed.

Lemma follows_refl allowed L s : lockedBy L (held s) -> follows allowed L s s.
Proof.
  intros H. exists []. rewrite app_nil_r. repeat split; auto.
  exists []. rewrite app_nil_r. reflexivity.
Qed.

Lemma follows_trans allowed L s1 s2 s3 :
  follows allowed L s1 s2 -> follows allowed L s2 s3 -> follows allowed L s1 s3.
Proof.
  intros (e1 & Ht1 & Hf1 & Hv1 & Hl1 & Hq1 & x1 & Hx1)
         (e2 & Ht2 & Hf2 & Hv2 & Hl2 & Hq2 & x2 & Hx2).
  exists (e1 ++ e2). repeat split.
  - rewrite Ht2, Ht1, app_assoc. reflexivity.
  - apply Forall_app. split; assumption.
  - rewrite Hv2, Hv1, replay_app. reflexivity.
  - assumption.
  - congruence.
  - exists (x1 ++ x2). rewrite Hx2, Hx1, app_assoc. reflexivity.
Qed.

Lemma follows_locked allowed L s s' : follows allowed L s s' -> lockedBy L (held s').
Proof. intros (? & ? & ? & ? & H & ?). exact H. Qed.

(** A change of the state outside the trace, the view, the held mutexes and
    the two queues. *)
Lemma follows_data allowed L s s' :
  lockedBy L (held s) ->
  trace s' = trace s -> view s' = view s -> held s' = held s ->
  mTaskQueue s' = mTaskQueue s -> mErrors s' = mErrors s ->
  follows allowed L s s'.
Proof.
  intros H Ht Hv Hh Hq He. exists []. rewrite app_nil_r. repeat split; auto.
  - rewrite Hh. exact H.
  - exists []. rewrite app_nil_r. exact He.
Qed.

Lemma follows_held allowed L s l :
  lockedBy L (held s) -> lockedBy L l -> follows allowed L s (set_held l s).
Proof.
  intros H Hl. exists []. rewrite app_nil_r. repeat split; auto.
  exists []. rewrite app_nil_r. reflexivity.
Qed.

Lemma follows_weaken (a1 a2 : Kind -> bool) L s s' :
  (forall k, a1 k = true -> a2 k = true) ->
  follows a1 L s s' -> follows a2 L s s'.
Proof.
  intros Hsub (evs & Ht & Hf & Hrest). exists evs. split; [exact Ht|].
  split; [|exact Hrest].
  eapply Forall_impl; [exact Hf|]. intros e [Hk Hl]. split; auto.
Qed.

Lemma flagged_then allowed L s s1 s2 :
  flaggedSince s s1 -> follows allowed L s1 s2 -> flaggedSince s s2.
Proof.
  intros Hfl (evs & Ht & _ & _ & _ & _ & errs & He).
  destruct Hfl as [(x & Hx & Hfl) | (x & Hx & Hfl)].
  - left. exists (x ++ errs). split.
    + destruct x; [congruence|discriminate].
    + rewrite He, Hfl, app_assoc. reflexivity.
  - right. exists (x ++ evs). split.
    + rewrite Ht, Hx, app_assoc. reflexivity.
    + apply Exists_app. left. exact Hfl.
Qed.

Lemma flagged_after allowed L s s1 s2 :
  follows allowed L s s1 -> flaggedSince s1 s2 -> flaggedSince s s2.
Proof.
  intros (evs & Ht & _ & _ & _ & _ & errs & He) Hfl.
  destruct Hfl as [(x & Hx & Hfl) | (x & Hx & Hfl)].
  - left. exists (errs ++ x). split.
    + destruct errs, x; try discriminate; congruence.
    + rewrite Hfl, He, app_assoc. reflexivity.
  - right. exists (evs ++ x). split.
    + rewrite Hx, Ht, app_assoc. reflexivity.
    + apply Exists_app. right. exact Hfl.
Qed.

Lemma balanced_data s s' :
  view s' = view s -> mNumAllCommands s' = mNumAllCommands s ->
  balanced s -> balanced s'.
Proof.
  unfold balanced, view. intros Hv Hn Hb. injection Hv as H1 H2 _ _.
  apply (f_equal (@length _)) in H1. apply (f_equal (@length _)) in H2.
  rewrite !length_map in H1, H2. lia.
Qed.

Lemma tame_weaken (a1 a2 : Kind -> bool) {A} (m : M A) :
  (forall k, a1 k = true -> a2 k = true) -> tame a1 m -> tame a2 m.
Proof.
  intros Hsub Hm L s HL. destruct (Hm L s HL) as (Hf & Hs & Hb).
  split; [|split; assumption].
  eapply follows_weaken; eauto.
Qed.

Lemma tame_ext allowed {A} (m m' : M A) :
  (forall s, m s = m' s) -> tame allowed m -> tame allowed m'.
Proof. intros He Hm L s HL. rewrite <- He. apply Hm. exact HL. Qed.

Section Tame.

Variable allowed : Kind -> bool.

Lemma tame_ret {A} (a : A) : tame allowed (ret a).
Proof.
  intros L s HL. split; [apply follows_refl; exact HL|].
  split; [discriminate|auto].
Qed.

Lemma tame_get {A} (f : State -> A) : tame allowed (get f).
Proof.
  intros L s HL. split; [apply follows_refl; exact HL|].
  split; [discriminate|auto].
Qed.

Lemma tame_abort {A} f : tame allowed (@abort A f).
Proof.
  intros L s HL. split; [apply follows_refl; exact HL|].
  split; discriminate.
Qed.

Lemma tame_ASSERT ln c : tame allowed (ASSERT ln c).
Proof. destruct c; [apply tame_ret|apply tame_abort]. Qed.

Lemma tame_modify (g : State -> State) :
  (forall s, trace (g s) = trace s /\ view (g s) = view s /\ held (g s) = held s
             /\ mTaskQueue (g s) = mTaskQueue s /\ mErrors (g s) = mErrors s
             /\ mNumAllCommands (g s) = mNumAllCommands s) ->
  tame allowed (modify g).
Proof.
  intros Hg L s HL. destruct (Hg s) as (Ht & Hv & Hh & Hq & He & Hn).
  split; [apply follows_data; assumption|].
  split; [discriminate|]. intros _. apply balanced_data; assumption.
Qed.

Lemma follows_emit L s a :
  lockedBy L (held s) ->
  allowed (kind a) = true ->
  (forall v, observe a v = v) ->
  follows allowed L s
    (set_trace (trace s ++ [ {| evLocks := held s; evAction := a |} ]) s).
Proof.
  intros HL Ha Hv. exists [ {| evLocks := held s; evAction := a |} ].
  repeat split; auto.
  - cbn [replay fold_left evAction]. rewrite Hv. reflexivity.
  - exists []. rewrite app_nil_r. reflexivity.
Qed.

Lemma tame_emit a :
  allowed (kind a) = true -> (forall v, observe a v = v) -> tame allowed (emit a).
Proof.
  intros Ha Hv L s HL. split; [apply follows_emit; assumption|].
  split; [discriminate|auto].
Qed.

Lemma tame_ask {A} (oracle : list Event -> A) a :
  allowed (kind a) = true -> (forall v, observe a v = v) -> tame allowed (ask oracle a).
Proof.
  intros Ha Hv L s HL. split; [apply follows_emit; assumption|].
  split; [discriminate|auto].
Qed.

Lemma tame_bind {A B} (m : M A) (k : A -> M B) :
  tame allowed m -> (forall a, tame allowed (k a)) -> tame allowed (bind m k).
Proof.
  intros Hm Hk L s HL. destruct (Hm L s HL) as (Hf & Hs & Hb). unfold bind.
  destruct (m s) as [[a| |f] s1]; cbn [fst snd aborted] in *.
  - destruct (Hk a L s1 (follows_locked _ _ _ _ Hf)) as (Hf2 & Hs2 & Hb2).
    split; [eapply follows_trans; eauto|]. split; [|auto].
    intros Hst. apply (flagged_after allowed L s s1); auto.
  - split; auto.
  - split; [exact Hf|]. split; discriminate.
Qed.

Lemma tame_lock_guard {A} m (body : M A) :
  tame allowed body -> tame allowed (lock_guard m body).
Proof.
  intros Hb L s HL. unfold lock_guard, lock.
  destruct (holds m (held s)) eqn:Hm; cbn [fst snd].
  { split; [apply follows_refl; exact HL|]. split; discriminate. }
  assert (HmL : holds m L = false) by (eapply not_held_outside; eauto).
  assert (HL1 : lockedBy L (held (set_held (m :: held s) s)))
    by (apply lockedBy_cons; exact HL).
  destruct (Hb L _ HL1) as (Hf & Hs & Hbal).
  assert (H0 : follows allowed L s (set_held (m :: held s) s))
    by (apply follows_held; [exact HL|apply lockedBy_cons; exact HL]).
  assert (Hout : forall s2, follows allowed L (set_held (m :: held s) s) s2 ->
                   follows allowed L s2 (set_held (unhold m (held s2)) s2)).
  { intros s2 Hf2. apply follows_held; [eapply follows_locked; eauto|].
    apply lockedBy_unhold; [exact HmL|eapply follows_locked; eauto]. }
  destruct (body (set_held (m :: held s) s)) as [[a| |f] s2];
    cbn [fst snd aborted] in *.
  - split; [exact (follows_trans _ _ _ _ _ H0 (follows_trans _ _ _ _ _ Hf (Hout s2 Hf)))|].
    split; [discriminate|]. intros _ Hbs. specialize (Hbal eq_refl).
    unfold balanced in *. ssimpl. auto.
  - split; [exact (follows_trans _ _ _ _ _ H0 (follows_trans _ _ _ _ _ Hf (Hout s2 Hf)))|].
    split.
    + intros _. apply (flagged_then allowed L s s2); [|apply Hout; exact Hf].
      apply (flagged_after allowed L s (set_held (m :: held s) s)); [exact H0|].
      apply Hs. reflexivity.
    + intros _ Hbs. specialize (Hbal eq_refl).
      unfold balanced in *. ssimpl. auto.
  - split; [eapply follows_trans; eauto|]. split; discriminate.
Qed.

Lemma tame_ignoreResult (m : M unit) : tame allowed m -> tame allowed (ignoreResult m).
Proof.
  intros Hm L s HL. destruct (Hm L s HL) as (Hf & Hs & Hb). unfold ignoreResult.
  destruct (m s) as [[a| |f] s1]; cbn [fst snd aborted] in *;
    (split; [exact Hf|]); split; auto; discriminate.
Qed.

Lemma tame_onStop {A} (cleanup : M unit) (m : M A) :
  tame allowed m -> tame allowed cleanup -> tame allowed (onStop cleanup m).
Proof.
  intros Hm Hc L s HL. destruct (Hm L s HL) as (Hf & Hs & Hb). unfold onStop.
  destruct (m s) as [[a| |f] s1]; cbn [fst snd aborted] in *.
  - split; [exact Hf|]. split; [discriminate|exact Hb].
  - destruct (Hc L s1 (follows_locked _ _ _ _ Hf)) as (Hf2 & Hs2 & Hb2).
    assert (Hfl : flaggedSince s (snd (cleanup s1)))
      by (apply (flagged_then allowed L s s1); [apply Hs; reflexivity|exact Hf2]).
    destruct (cleanup s1) as [[a| |f] s2]; cbn [fst snd aborted] in *;
      (split; [eapply follows_trans; eauto|]); split; auto; discriminate.
  - split; [exact Hf|]. split; discriminate.
Qed.

Lemma tame_loop fuel (body : M bool) : tame allowed body -> tame allowed (loop fuel body).
Proof.
  intros Hb. induction fuel as [|n IH]; cbn [loop].
  - apply tame_abort.
  - apply tame_bind; [exact Hb|]. intros [|]; [exact IH|apply tame_ret].
Qed.

Lemma tame_forEach {A} (l : list A) (body : A -> M unit) :
  (forall x, tame allowed (body x)) -> tame allowed (forEach l body).
Proof.
  intros Hb. induction l as [|x l IH]; cbn [forEach].
  - apply tame_ret.
  - apply tame_bind; [apply Hb|]. intros _. exact IH.
Qed.

Lemma tame_VK_TRY context (command : M VkResult) fn ln :
  tameContext allowed context -> tame allowed command ->
  tame allowed (ANGLE_VK_TRY context command fn ln).
Proof.
  intros Hctx Hc. unfold ANGLE_VK_TRY. apply tame_bind; [exact Hc|].
  intros result. destruct (result =? VK_SUCCESS)%Z; [apply tame_ret|].
  destruct (Hctx result thisFile fn ln) as (Hh & Hns & Hfl).
  intros L s HL. destruct (Hh L s HL) as (Hf & Hs & Hb). unfold bind, stop.
  specialize (Hns s). specialize (Hfl s).
  destruct (handleError context result thisFile fn ln s) as [[[]| |f] s1];
    cbn [fst snd aborted] in *.
  - split; [exact Hf|]. split; [|exact Hb]. intros _. apply Hfl. reflexivity.
  - congruence.
  - split; [exact Hf|]. split; discriminate.
Qed.

(** A store to a serial tracker together with its event. *)
Lemma tame_store {B} (g : State -> State) a (rest : M B) :
  (forall s, trace (g s) = trace s /\ held (g s) = held s
             /\ mTaskQueue (g s) = mTaskQueue s /\ mErrors (g s) = mErrors s
             /\ view (g s) = observe a (view s)
             /\ mNumAllCommands (g s) = mNumAllCommands s
             /\ mInFlightCommands (g s) = mInFlightCommands s
             /\ mFinishedCommandBatches (g s) = mFinishedCommandBatches s) ->
  allowed (kind a) = true ->
  tame allowed rest ->
  tame allowed (modify g ;; emit a ;; rest).
Proof.
  intros Hg Ha Hrest L s HL.
  destruct (Hg s) as (Ht & Hh & Hq & He & Hv & Hn & Hi & Hfi).
  set (s1 := set_trace (trace (g s) ++ [ {| evLocks := held (g s); evAction := a |} ]) (g s)).
  assert (H1 : follows allowed L s s1).
  { exists [ {| evLocks := held (g s); evAction := a |} ]. subst s1.
    split; [ssimpl; rewrite Ht; reflexivity|].
    split; [repeat constructor; cbn; [exact Ha|rewrite Hh; exact HL]|].
    split; [cbn [replay fold_left evAction]; rewrite <- Hv; reflexivity|].
    split; [ssimpl; rewrite Hh; exact HL|].
    split; [ssimpl; exact Hq|].
    exists []. rewrite app_nil_r. ssimpl. exact He. }
  destruct (Hrest L s1 (follows_locked _ _ _ _ H1)) as (Hf & Hs & Hb).
  change ((modify g ;; emit a ;; rest) s) with (rest s1).
  split; [eapply follows_trans; eauto|].
  split; [intros Hst; apply (flagged_after allowed L s s1); auto|].
  intros Hna Hbal. apply Hb; [exact Hna|].
  unfold balanced in *. subst s1. ssimpl. rewrite Hn, Hi, Hfi. exact Hbal.
Qed.

Lemma tame_store_last (g : State -> State) a :
  (forall s, trace (g s) = trace s /\ held (g s) = held s
             /\ mTaskQueue (g s) = mTaskQueue s /\ mErrors (g s) = mErrors s
             /\ view (g s) = observe a (view s)
             /\ mNumAllCommands (g s) = mNumAllCommands s
             /\ mInFlightCommands (g s) = mInFlightCommands s
             /\ mFinishedCommandBatches (g s) = mFinishedCommandBatches s) ->
  allowed (kind a) = true ->
  tame allowed (modify g ;; emit a).
Proof.
  intros Hg Ha L s HL.
  destruct (tame_store g a (ret tt) Hg Ha (tame_ret tt) L s HL) as (Hf & Hs & Hb).
  split; [exact Hf|]. split; [discriminate|exact Hb].
Qed.

End Tame.

Lemma map_tail {A B} (f : A -> B) l : map f (tail l) = tail (map f l).
Proof. destruct l; reflexivity. Qed.

(** Structural steps of a tameness proof. *)
Ltac tame_leaf :=
  lazymatch goal with
  | |- tame _ (ret _) => apply tame_ret
  | |- tame _ (get _) => apply tame_get
  | |- tame _ (abort _) => apply tame_abort
  | |- tame _ UNREACHABLE => apply tame_abort
  | |- tame _ (ASSERT _ _) => apply tame_ASSERT
  | |- tame _ (modify _) =>
      apply tame_modify; intros; repeat split; reflexivity
  | |- tame _ (emit _) =>
      apply tame_emit; [cbn [kind]; assumption | intros; reflexivity]
  | |- tame _ (ask _ _) =>
      apply tame_ask; [cbn [kind]; assumption | intros; reflexivity]
  end.

Ltac tame_step :=
  lazymatch goal with
  | |- tame _ (bind _ _) => apply tame_bind; [|intros]
  | |- tame _ (lock_guard _ _) => apply tame_lock_guard
  | |- tame _ (loop _ _) => apply tame_loop
  | |- tame _ (forEach _ _) => apply tame_forEach; intros
  | |- tame _ (onStop _ _) => apply tame_onStop
  | |- tame _ (ignoreResult _) => apply tame_ignoreResult
  | |- tame _ (ANGLE_VK_TRY _ _ _ _) => apply tame_VK_TRY; [assumption|]
  | |- tame _ (if ?c then _ else _) => destruct c
  | |- tame _ (match ?x with _ => _ end) => destruct x
  | |- tame _ _ => tame_leaf
  end.

Create HintDb tame discriminated.

Ltac tame_auto := repeat first [tame_step | solve [eauto with tame]].

Ltac tame_view := intros; repeat split; reflexivity.

Section TameFunctions.

Variable env : Environment.
Variable allowed : Kind -> bool.
Hypothesis allowed_other : allowed KOther = true.
Hypothesis allowed_completed : allowed KStoreCompleted = true.
Hypothesis allowed_fill : allowed KFill = true.
Hypothesis allowed_move : allowed KMove = true.
Hypothesis allowed_popFinished : allowed KPopFinished = true.
Hypothesis allowed_popInFlight : allowed KPopInFlight = true.
Hypothesis allowed_wait : allowed KWait = true.
Hypothesis allowed_fence : allowed KFence = true.
Hypothesis allowed_push : allowed KPush = true.
Hypothesis allowed_submitted : allowed KStoreSubmitted = true.
Hypothesis allowed_submit : allowed KSubmit = true.

Lemma tame_setLastCompleted q : tame allowed (setLastCompleted q).
Proof.
  unfold setLastCompleted. apply tame_bind; [apply tame_get|]. intros l.
  destruct (serialAt l (qsIndex q)); [|apply tame_abort].
  apply tame_store_last; [tame_view|exact allowed_completed].
Qed.

Lemma tame_setLastSubmitted q : tame allowed (setLastSubmitted q).
Proof.
  unfold setLastSubmitted. apply tame_bind; [apply tame_get|]. intros l.
  destruct (serialAt l (qsIndex q)); [|apply tame_abort].
  apply tame_store_last; [tame_view|exact allowed_submitted].
Qed.

Lemma tame_fillLastCompleted x : tame allowed (fillLastCompleted x).
Proof.
  unfold fillLastCompleted. apply tame_store_last; [tame_view|exact allowed_fill].
Qed.

Lemma tame_inFlightFront : tame allowed inFlightFront.
Proof. unfold inFlightFront. tame_auto. Qed.

Lemma tame_finishedFront : tame allowed finishedFront.
Proof. unfold finishedFront. tame_auto. Qed.

Lemma tame_pushInFlightBatchLocked b : tame allowed (pushInFlightBatchLocked env b).
Proof.
  intros L s HL. unfold pushInFlightBatchLocked, inFlightFull.
  cbv [bind modify get emit ASSERT ret abort]. ssimpl.
  destruct (kInFlightCommandsLimit env <=? length (mInFlightCommands s)); cbn [negb fst snd].
  - split; [apply follows_data; auto|]. split; discriminate.
  - split; [|split; [discriminate|]].
    + exists [ {| evLocks := held s; evAction := ActPushInFlight (mQueueSerial b) |} ].
      ssimpl. split; [reflexivity|].
      split; [repeat constructor; cbn; auto|].
      split; [unfold view; cbn; rewrite map_app; reflexivity|].
      split; [exact HL|]. split; [reflexivity|].
      exists []. rewrite app_nil_r. reflexivity.
    + intros _. unfold balanced. ssimpl. rewrite length_app. cbn. lia.
Qed.

Lemma tame_moveInFlightBatchToFinishedQueueLocked :
  tame allowed (moveInFlightBatchToFinishedQueueLocked env).
Proof.
  intros L s HL. unfold moveInFlightBatchToFinishedQueueLocked, finishedFull, inFlightFront.
  cbv [bind modify get emit ASSERT ret abort]. ssimpl.
  destruct (kMaxFinishedCommandsLimit env <=? length (mFinishedCommandBatches s));
    cbn [negb fst snd].
  { split; [apply follows_refl; exact HL|]. split; discriminate. }
  destruct (mInFlightCommands s) as [|b rest] eqn:Hi; cbn [fst snd].
  { split; [apply follows_refl; exact HL|]. split; discriminate. }
  split; [|split; [discriminate|]].
  - exists [ {| evLocks := held s; evAction := ActMoveToFinished (mQueueSerial b) |} ].
    ssimpl. split; [reflexivity|].
    split; [repeat constructor; cbn; auto|].
    split; [unfold view; cbn; rewrite Hi, map_app; reflexivity|].
    split; [exact HL|]. split; [reflexivity|].
    exists []. rewrite app_nil_r. reflexivity.
  - intros _. unfold balanced. ssimpl. rewrite Hi, length_app. cbn. lia.
Qed.

Lemma tame_popFinishedBatchLocked : tame allowed popFinishedBatchLocked.
Proof.
  intros L s HL. unfold popFinishedBatchLocked, finishedFront.
  cbv [bind modify get emit ASSERT ret abort]. ssimpl.
  destruct (mFinishedCommandBatches s) as [|b rest] eqn:Hi; cbn [fst snd].
  { split; [apply follows_refl; exact HL|]. split; discriminate. }
  rewrite ?Hi. cbn [tail].
  assert (Hf : follows allowed L s
                 (set_trace (trace s ++ [ {| evLocks := held s;
                                             evAction := ActPopFinished (mQueueSerial b) |} ])
                    (set_mFinishedCommandBatches rest s))).
  { exists [ {| evLocks := held s; evAction := ActPopFinished (mQueueSerial b) |} ].
    ssimpl. split; [reflexivity|].
    split; [repeat constructor; cbn; auto|].
    split; [unfold view; cbn; rewrite Hi; reflexivity|].
    split; [exact HL|]. split; [reflexivity|].
    exists []. rewrite app_nil_r. reflexivity. }
  destruct (0 <? mNumAllCommands s); cbn [fst snd].
  - split; [|split; [discriminate|]].
    + eapply follows_trans; [exact Hf|]. apply follows_data; try reflexivity.
      exact (follows_locked _ _ _ _ Hf).
    + intros _. unfold balanced. ssimpl. rewrite Hi. cbn. lia.
  - split; [exact Hf|]. split; discriminate.
Qed.

Lemma tame_popInFlightBatchLocked : tame allowed popInFlightBatchLocked.
Proof.
  intros L s HL. unfold popInFlightBatchLocked, inFlightFront.
  cbv [bind modify get emit ASSERT ret abort]. ssimpl.
  destruct (mInFlightCommands s) as [|b rest] eqn:Hi; cbn [fst snd].
  { split; [apply follows_refl; exact HL|]. split; discriminate. }
  rewrite ?Hi. cbn [tail].
  assert (Hf : follows allowed L s
                 (set_trace (trace s ++ [ {| evLocks := held s;
                                             evAction := ActPopInFlight (mQueueSerial b) |} ])
                    (set_mInFlightCommands rest s))).
  { exists [ {| evLocks := held s; evAction := ActPopInFlight (mQueueSerial b) |} ].
    ssimpl. split; [reflexivity|].
    split; [repeat constructor; cbn; auto|].
    split; [unfold view; cbn; rewrite Hi; reflexivity|].
    split; [exact HL|]. split; [reflexivity|].
    exists []. rewrite app_nil_r. reflexivity. }
  destruct (0 <? mNumAllCommands s); cbn [fst snd].
  - split; [|split; [discriminate|]].
    + eapply follows_trans; [exact Hf|]. apply follows_data; try reflexivity.
      exact (follows_locked _ _ _ _ Hf).
    + intros _. unfold balanced. ssimpl. rewrite Hi. cbn. lia.
  - split; [exact Hf|]. split; discriminate.
Qed.

Lemma tame_deref p : tame allowed (deref p).
Proof. unfold deref. tame_auto. Qed.

Lemma tame_store_fence p r : tame allowed (store p r).
Proof. unfold store. tame_auto. Qed.

Hint Resolve tame_setLastCompleted tame_setLastSubmitted tame_fillLastCompleted
  tame_inFlightFront tame_finishedFront tame_pushInFlightBatchLocked
  tame_moveInFlightBatchToFinishedQueueLocked
  tame_popFinishedBatchLocked tame_popInFlightBatchLocked tame_deref
  tame_store_fence : tame.

Lemma tame_hasFence b : tame allowed (hasFence b).
Proof. unfold hasFence. tame_auto. Qed.
Hint Resolve tame_hasFence : tame.

Lemma tame_theFence b : tame allowed (theFence b).
Proof. unfold theFence. tame_auto. Qed.
Hint Resolve tame_theFence : tame.

Lemma tame_getFenceHandle b : tame allowed (getFenceHandle b).
Proof. unfold getFenceHandle. tame_auto. Qed.
Hint Resolve tame_getFenceHandle : tame.

Lemma tame_getFenceStatus b : tame allowed (getFenceStatus env b).
Proof. unfold getFenceStatus. tame_auto. Qed.

Lemma tame_waitFence b t : tame allowed (waitFence env b t).
Proof. unfold waitFence. tame_auto. Qed.

Lemma tame_getQueueSerial b : tame allowed (getQueueSerial b).
Proof. unfold getQueueSerial. tame_auto. Qed.

Hint Resolve tame_getFenceStatus tame_waitFence tame_getQueueSerial : tame.

Lemma tame_onCommandBatchFinishedLocked b :
  tame allowed (onCommandBatchFinishedLocked env b).
Proof. unfold onCommandBatchFinishedLocked. tame_auto. Qed.
Hint Resolve tame_onCommandBatchFinishedLocked : tame.

Lemma tame_FenceRecycler_recycle f : tame allowed (FenceRecycler_recycle f).
Proof. unfold FenceRecycler_recycle, Recycler_recycle. tame_auto. Qed.
Hint Resolve tame_FenceRecycler_recycle : tame.

Lemma tame_FenceRecycler_fetch f : tame allowed (FenceRecycler_fetch f).
Proof. unfold FenceRecycler_fetch, Recycler_fetch, Recycler_empty. tame_auto. Qed.
Hint Resolve tame_FenceRecycler_fetch : tame.

Lemma tame_RecyclableFence_destroy p : tame allowed (RecyclableFence_destroy p).
Proof. unfold RecyclableFence_destroy. tame_auto. Qed.
Hint Resolve tame_RecyclableFence_destroy : tame.

Lemma tame_RecyclableFence_init p : tame allowed (RecyclableFence_init env p).
Proof. unfold RecyclableFence_init. tame_auto. Qed.

Lemma tame_SharedFence_MakeShared : tame allowed SharedFence_MakeShared.
Proof. unfold SharedFence_MakeShared. tame_auto. Qed.

Lemma tame_RecyclableFence_detachRecycler p :
  tame allowed (RecyclableFence_detachRecycler p).
Proof. unfold RecyclableFence_detachRecycler. tame_auto. Qed.

Lemma tame_SharedFence_reset p : tame allowed (SharedFence_reset p).
Proof. unfold SharedFence_reset. tame_auto. Qed.

Lemma tame_SharedFence_copy p : tame allowed (SharedFence_copy p).
Proof. unfold SharedFence_copy. tame_auto. Qed.

Lemma tame_set_pool p l : tame allowed (set_pool p l).
Proof. unfold set_pool. tame_auto. Qed.

Lemma tame_set_state pr pt c : tame allowed (set_state pr pt c).
Proof. unfold set_state. tame_auto. Qed.

Lemma tame_destroyPrimaryCommandBuffer p :
  tame allowed (destroyPrimaryCommandBuffer p).
Proof. unfold destroyPrimaryCommandBuffer. tame_auto. Qed.

Lemma tame_releaseCommandBuffers b : tame allowed (releaseCommandBuffers b).
Proof. unfold releaseCommandBuffers. tame_auto. Qed.

Hint Resolve tame_RecyclableFence_init tame_SharedFence_MakeShared
  tame_RecyclableFence_detachRecycler tame_SharedFence_reset
  tame_SharedFence_copy tame_set_pool tame_set_state
  tame_destroyPrimaryCommandBuffer tame_releaseCommandBuffers : tame.

Lemma tame_CommandBatch_destroy b : tame allowed (CommandBatch_destroy b).
Proof. unfold CommandBatch_destroy. tame_auto. Qed.
Hint Resolve tame_CommandBatch_destroy : tame.

Lemma tame_destroyScoped b : tame allowed (destroyScoped b).
Proof. unfold destroyScoped. tame_auto. Qed.

Lemma tame_initFence b : tame allowed (initFence env b).
Proof. unfold initFence. tame_auto. Qed.

Lemma tame_setQueueSerial q b : tame allowed (setQueueSerial q b).
Proof. unfold setQueueSerial. tame_auto. Qed.

Lemma tame_setProtectionType p b : tame allowed (setProtectionType p b).
Proof. unfold setProtectionType. tame_auto. Qed.

Lemma tame_setPrimaryCommands p a b : tame allowed (setPrimaryCommands p a b).
Proof. unfold setPrimaryCommands. tame_auto. Qed.

Lemma tame_setSecondaryCommands l b : tame allowed (setSecondaryCommands l b).
Proof. unfold setSecondaryCommands. tame_auto. Qed.

Lemma tame_setExternalFence e b : tame allowed (setExternalFence e b).
Proof. unfold setExternalFence. tame_auto. Qed.

Lemma tame_InitializeSubmitInfo i c l1 l2 sem :
  tame allowed (InitializeSubmitInfo i c l1 l2 sem).
Proof. unfold InitializeSubmitInfo. tame_auto. Qed.

Lemma tame_flushWaitSemaphores p pr l1 l2 :
  tame allowed (CommandPoolAccess_flushWaitSemaphores p pr l1 l2).
Proof. unfold CommandPoolAccess_flushWaitSemaphores. tame_auto. Qed.

Lemma tame_derefStatus p : tame allowed (derefStatus p).
Proof. unfold derefStatus. tame_auto. Qed.
Hint Resolve tame_derefStatus : tame.

Lemma tame_storeLastPresentResult p r : tame allowed (storeLastPresentResult p r).
Proof. unfold storeLastPresentResult. tame_auto. Qed.

Lemma tame_storeIsPending p b : tame allowed (storeIsPending p b).
Proof. unfold storeIsPending. tame_auto. Qed.

Hint Resolve tame_destroyScoped tame_initFence tame_setQueueSerial
  tame_setProtectionType tame_setPrimaryCommands tame_setSecondaryCommands
  tame_setExternalFence tame_InitializeSubmitInfo tame_flushWaitSemaphores
  tame_storeLastPresentResult tame_storeIsPending : tame.

Lemma tame_queuePresent pr info p : tame allowed (queuePresent env pr info p).
Proof. unfold queuePresent. tame_auto. Qed.
Hint Resolve tame_queuePresent : tame.

Lemma tame_present pr info p : tame allowed (present env pr info p).
Proof. unfold present. tame_auto. Qed.

Section WithContext.

Variable context : Context.
Hypothesis context_tame : tameContext allowed context.

Lemma tame_PersistentCommandPool_collect p b :
  tame allowed (PersistentCommandPool_collect env context p b).
Proof. unfold PersistentCommandPool_collect. tame_auto. Qed.
Hint Resolve tame_PersistentCommandPool_collect : tame.

Lemma tame_collectPrimaryCommandBuffer p b :
  tame allowed (collectPrimaryCommandBuffer env context p b).
Proof. unfold collectPrimaryCommandBuffer. tame_auto. Qed.
Hint Resolve tame_collectPrimaryCommandBuffer : tame.

Lemma tame_CommandBatch_release b :
  tame allowed (CommandBatch_release env context b).
Proof. unfold CommandBatch_release. tame_auto. Qed.
Hint Resolve tame_CommandBatch_release : tame.

Lemma tame_checkOneCommandBatchLocked :
  tame allowed (checkOneCommandBatchLocked env context).
Proof. unfold checkOneCommandBatchLocked, inFlightEmpty. tame_auto. Qed.

Lemma tame_finishOneCommandBatchLocked t :
  tame allowed (finishOneCommandBatchLocked env context t).
Proof. unfold finishOneCommandBatchLocked, inFlightEmpty. tame_auto. Qed.

Lemma tame_releaseFinishedCommandsLocked :
  tame allowed (releaseFinishedCommandsLocked env context).
Proof. unfold releaseFinishedCommandsLocked, finishedEmpty. tame_auto. Qed.

Hint Resolve tame_checkOneCommandBatchLocked tame_finishOneCommandBatchLocked
  tame_releaseFinishedCommandsLocked : tame.

Lemma tame_throttleInFlight : tame allowed (throttleInFlight env context).
Proof. unfold throttleInFlight, inFlightFull. tame_auto. Qed.

Lemma tame_reserveFinished : tame allowed (reserveFinished env context).
Proof. unfold reserveFinished. tame_auto. Qed.

Lemma tame_deviceSubmit pr info b : tame allowed (deviceSubmit env context pr info b).
Proof. unfold deviceSubmit. tame_auto. Qed.

Hint Resolve tame_throttleInFlight tame_reserveFinished tame_deviceSubmit : tame.

Lemma tame_queueSubmitLocked pr info b q :
  tame allowed (queueSubmitLocked env context pr info b q).
Proof. unfold queueSubmitLocked. tame_auto. Qed.
Hint Resolve tame_queueSubmitLocked : tame.

Lemma tame_getCommandsAndWaitSemaphores pt pr b :
  tame allowed (getCommandsAndWaitSemaphores env context pt pr b).
Proof. unfold getCommandsAndWaitSemaphores. tame_auto. Qed.
Hint Resolve tame_getCommandsAndWaitSemaphores : tame.

Lemma tame_submitCommands pt pr sem ext q :
  tame allowed (submitCommands env context pt pr sem ext q).
Proof. unfold submitCommands. tame_auto. Qed.

Lemma tame_queueSubmitOneOff pt pr c sem mask pol q :
  tame allowed (queueSubmitOneOff env context pt pr c sem mask pol q).
Proof. unfold queueSubmitOneOff. tame_auto. Qed.

Lemma tame_ensurePrimaryCommandBufferValidLocked pt pr :
  tame allowed (ensurePrimaryCommandBufferValidLocked env context pt pr).
Proof. unfold ensurePrimaryCommandBufferValidLocked. tame_auto. Qed.
Hint Resolve tame_ensurePrimaryCommandBufferValidLocked : tame.

Lemma tame_flushCommands pt pr h :
  tame allowed (CommandPoolAccess_flushCommands env context pt pr h).
Proof. unfold CommandPoolAccess_flushCommands. tame_auto. Qed.

End WithContext.

End TameFunctions.

(** ** Contexts *)

Lemma tameContext_external allowed id :
  allowed KHandle = true -> tameContext allowed (externalContext id).
Proof.
  intros Ha code f fn ln. cbn [handleError externalContext].
  split; [apply tame_emit; [exact Ha|intros; reflexivity]|].
  split; [discriminate|].
  intros s _. right. eexists. split; [reflexivity|].
  constructor. reflexivity.
Qed.

Lemma lock_guard_held {A} m (body : M A) s :
  holds m (held s) = true -> lock_guard m body s = (Abort SelfDeadlock, s).
Proof. intros H. unfold lock_guard, lock. rewrite H. reflexivity. Qed.

(** [CommandProcessor::handleDeviceLost] locks the enqueue mutex and calls
    [waitForAllWorkToBeSubmitted], which locks it again: the call never
    returns, and nothing but the first lock has happened. *)
Lemma CommandProcessor_handleDeviceLost_deadlocks env this s :
  CommandProcessor_handleDeviceLost env this s = (Abort SelfDeadlock, s)
  \/ CommandProcessor_handleDeviceLost env this s
     = (Abort SelfDeadlock, set_held (mTaskEnqueueMutex :: held s) s).
Proof.
  destruct (holds mTaskEnqueueMutex (held s)) eqn:Hh.
  - left. apply lock_guard_held. exact Hh.
  - right. unfold CommandProcessor_handleDeviceLost, lock_guard, lock.
    rewrite Hh. unfold bind, ignoreResult, waitForAllWorkToBeSubmitted.
    rewrite lock_guard_held; [reflexivity|]. ssimpl. reflexivity.
Qed.

Lemma tame_CommandProcessor_handleDeviceLost allowed env this :
  tame allowed (CommandProcessor_handleDeviceLost env this).
Proof.
  intros L s HL.
  destruct (CommandProcessor_handleDeviceLost_deadlocks env this s) as [-> | ->];
    cbn [fst snd aborted].
  - split; [apply follows_refl; exact HL|]. split; discriminate.
  - split; [apply follows_held; [exact HL|apply lockedBy_cons; exact HL]|].
    split; discriminate.
Qed.

Lemma tame_pushError allowed e :
  tame allowed (modify (fun s => set_mErrors (mErrors s ++ [e]) s)).
Proof.
  intros L s HL. cbv [modify]. cbn [fst snd aborted].
  split; [|split; [discriminate|auto]].
  exists []. rewrite app_nil_r. ssimpl. repeat split; auto.
  exists [e]. reflexivity.
Qed.

Lemma tame_CommandProcessor_handleError allowed env this code f fn ln :
  allowed KOther = true ->
  tame allowed (CommandProcessor_handleError env this code f fn ln).
Proof.
  intros Ha. unfold CommandProcessor_handleError.
  apply tame_bind; [apply tame_ASSERT|]. intros _.
  apply tame_bind.
  - destruct (code =? VK_ERROR_DEVICE_LOST)%Z; [|apply tame_ret].
    apply tame_bind; [apply tame_emit; [exact Ha|intros; reflexivity]|].
    intros _. apply tame_CommandProcessor_handleDeviceLost.
  - intros _. apply tame_lock_guard. apply tame_pushError.
Qed.

(** A run of the processor's error handler never stops, and one that
    returns has queued the error. *)
Lemma CommandProcessor_handleError_result env this code f fn ln s :
  wp (CommandProcessor_handleError env this code f fn ln) s
     (fun r s' => r <> Stop
                  /\ (r = Ok tt -> exists errs, errs <> []
                                     /\ mErrors s' = mErrors s ++ errs)).
Proof.
  unfold CommandProcessor_handleError. apply wp_bind.
  apply wp_ASSERT; intros Hc; [|split; discriminate].
  cbn [andThen]. apply wp_bind.
  destruct (code =? VK_ERROR_DEVICE_LOST)%Z.
  - apply wp_bind, wp_emit. cbn [andThen]. unfold wp.
    match goal with
    | |- context [CommandProcessor_handleDeviceLost env this ?s1] =>
        destruct (CommandProcessor_handleDeviceLost_deadlocks env this s1) as [-> | ->]
    end; cbn [fst snd andThen]; split; discriminate.
  - apply wp_ret. cbn [andThen].
    apply wp_lock_guard; intros Hh; [split; discriminate|].
    apply wp_modify. unfold released. ssimpl. split; [discriminate|].
    intros _. eexists. split; [|reflexivity]. discriminate.
Qed.

Lemma tameContext_processor allowed env fuel :
  allowed KOther = true -> tameContext allowed (CommandProcessor_this env fuel).
Proof.
  intros Ha code f fn ln. destruct fuel as [|n]; cbn [CommandProcessor_this handleError].
  - split; [apply tame_abort|]. split; discriminate.
  - split; [apply tame_CommandProcessor_handleError; exact Ha|].
    split; intros s.
    + exact (proj1 (CommandProcessor_handleError_result env _ code f fn ln s)).
    + intros Hok. left.
      exact (proj2 (CommandProcessor_handleError_result env _ code f fn ln s) Hok).
Qed.

(** ** The order of the push and of the store of the submitted serial *)

Lemma wp_tame {A} allowed L (m : M A) s (Q : Outcome A -> State -> Prop) :
  tame allowed m -> lockedBy L (held s) ->
  (forall r s', follows allowed L s s' ->
                (r = Stop -> flaggedSince s s') ->
                (aborted r = false -> balanced s -> balanced s') ->
                Q r s') ->
  wp m s Q.
Proof.
  intros Hm HL HQ. destruct (Hm L s HL) as (Hf & Hs & Hb).
  unfold wp. apply HQ; assumption.
Qed.

Lemma bind_assoc {A B C} (m : M A) (f : A -> M B) (g : B -> M C) s :
  bind (bind m f) g s = bind m (fun a => bind (f a) g) s.
Proof.
  unfold bind. destruct (m s) as [[a| |x] s1]; [|reflexivity|reflexivity].
  destruct (f a s1) as [[b| |x] s2]; reflexivity.
Qed.

(** The end of [queueSubmitLocked]: the push, then the store. *)
Lemma push_then_store env b q s :
  let r := (pushInFlightBatchLocked env b ;; setLastSubmitted q)%cmd s in
  exists tl,
    trace (snd r) = trace s ++ tl
    /\ submissionTail (held s) (mQueueSerial b) q tl
    /\ (fst r = Ok tt <-> length tl = 2)
    /\ view (snd r) = replay tl (view s)
    /\ held (snd r) = held s
    /\ mTaskQueue (snd r) = mTaskQueue s
    /\ mErrors (snd r) = mErrors s.
Proof.
  unfold pushInFlightBatchLocked, setLastSubmitted, inFlightFull, serialAt.
  cbv [bind modify get emit ASSERT ret abort]. ssimpl.
  destruct (kInFlightCommandsLimit env <=? length (mInFlightCommands s))%nat;
    cbn [negb fst snd]; ssimpl.
  - exists []. rewrite app_nil_r. repeat split; auto; try discriminate.
    left. reflexivity.
  - destruct (mLastSubmittedSerials s !! N.to_nat (qsIndex q)) eqn:Hi;
      cbn [fst snd]; ssimpl.
    + exists [pushEvent (held s) (mQueueSerial b);
              storeSubmittedEvent (held s) q].
      rewrite <- app_assoc. repeat split; auto.
      * right. right. reflexivity.
      * unfold view. ssimpl. cbn. rewrite map_app. reflexivity.
    + exists [pushEvent (held s) (mQueueSerial b)].
      repeat split; auto; try discriminate.
      * right. left. reflexivity.
      * unfold view. ssimpl. cbn. rewrite map_app. reflexivity.
Qed.

Section SubmissionShape.

Variable env : Environment.
Variable allowed : Kind -> bool.
Hypothesis allowed_other : allowed KOther = true.
Hypothesis allowed_completed : allowed KStoreCompleted = true.
Hypothesis allowed_move : allowed KMove = true.
Hypothesis allowed_popFinished : allowed KPopFinished = true.
Hypothesis allowed_wait : allowed KWait = true.
Hypothesis allowed_submit : allowed KSubmit = true.
Variable context : Context.
Hypothesis context_tame : tameContext allowed context.

Lemma tame_beforePush pr info b :
  tame allowed (throttleInFlight env context ;;
                reserveFinished env context ;;
                deviceSubmit env context pr info b)%cmd.
Proof.
  apply tame_bind; [apply tame_throttleInFlight; assumption|]. intros _.
  apply tame_bind; [apply tame_reserveFinished; assumption|]. intros _.
  apply tame_deviceSubmit; assumption.
Qed.

Lemma queueSubmitLocked_split pr info b q s :
  queueSubmitLocked env context pr info b q s
  = ((throttleInFlight env context ;;
      reserveFinished env context ;;
      deviceSubmit env context pr info b) ;;
     (pushInFlightBatchLocked env b ;; setLastSubmitted q))%cmd s.
Proof.
  unfold queueSubmitLocked. cbv [bind].
  destruct (throttleInFlight env context s) as [[[]| |x] s1]; [|reflexivity|reflexivity].
  destruct (reserveFinished env context s1) as [[[]| |x] s2]; [|reflexivity|reflexivity].
  destruct (deviceSubmit env context pr info b s2) as [[[]| |x] s3]; reflexivity.
Qed.

(** The events of a run of [queueSubmitLocked]: events of the allowed kinds,
    then the push and the store. *)
Lemma queueSubmitLocked_shape pr info b q L s :
  lockedBy L (held s) ->
  let r := queueSubmitLocked env context pr info b q s in
  exists pre l tl,
    trace (snd r) = trace s ++ pre ++ tl
    /\ Forall (fun e => allowed (kind (evAction e)) = true
                        /\ lockedBy L (evLocks e)) pre
    /\ lockedBy L l
    /\ submissionTail l (mQueueSerial b) q tl
    /\ (fst r = Ok tt <-> length tl = 2)
    /\ view (snd r) = replay (pre ++ tl) (view s)
    /\ mTaskQueue (snd r) = mTaskQueue s
    /\ (exists errs, mErrors (snd r) = mErrors s ++ errs).
Proof.
  intros HL. cbv zeta. rewrite queueSubmitLocked_split.
  destruct (tame_beforePush pr info b L s HL)
    as ((pre & Ht & Hall & Hv & Hl & Hq & Herr) & _ & _).
  destruct ((throttleInFlight env context ;; reserveFinished env context ;;
             deviceSubmit env context pr info b)%cmd s) as [[[]| |x] s1] eqn:Hp;
    [rewrite (bind_Ok _ _ _ _ _ Hp) | rewrite (bind_Stop _ _ _ _ Hp)
     | rewrite (bind_Abort _ _ _ _ _ Hp)];
    cbn [fst snd] in *.
  - destruct (push_then_store env b q s1)
      as (tl & Ht2 & Htl & Hok & Hv2 & Hh2 & Hq2 & He2).
    exists pre, (held s1), tl. repeat split; auto.
    + rewrite Ht2, Ht, app_assoc. reflexivity.
    + apply Hok.
    + apply Hok.
    + rewrite Hv2, Hv, replay_app. reflexivity.
    + congruence.
    + rewrite He2. exact Herr.
  - exists pre, (held s1), []. rewrite app_nil_r.
    repeat split; auto; try discriminate. left. reflexivity.
  - exists pre, (held s1), []. rewrite app_nil_r.
    repeat split; auto; try discriminate. left. reflexivity.
Qed.

End SubmissionShape.

(** A batch that an observer has seen in a ring, or gone from them, stays
    so. *)
Lemma seenBatch_step q a o : seenBatch q o -> seenBatch q (observeGone a o).
Proof.
  unfold seenBatch. destruct o as [[fl fin ls lc] gone].
  intros Hs. destruct a; cbn in *; try exact Hs.
  - (* push *)
    destruct Hs as [H | H]; [left; apply in_or_app; auto | right; exact H].
  - (* move *)
    destruct fl as [|x fl]; cbn in *; [rewrite app_nil_r; exact Hs|].
    destruct Hs as [[H | H] | [H | H]]; auto.
    + right. left. apply in_or_app. right. left. exact H.
    + right. left. apply in_or_app. auto.
  - (* pop of the in-flight ring *)
    destruct fl as [|x fl]; cbn in *; [rewrite app_nil_r; exact Hs|].
    destruct Hs as [[H | H] | [H | H]]; auto.
    + right. right. apply in_or_app. right. left. exact H.
    + right. right. apply in_or_app. auto.
  - (* pop of the finished ring *)
    destruct fin as [|x fin]; cbn in *; [rewrite app_nil_r; exact Hs|].
    destruct Hs as [H | [[H | H] | H]]; auto.
    + right. right. apply in_or_app. right. left. exact H.
    + right. right. apply in_or_app. auto.
Qed.

Lemma lastSubmitted_step a o :
  kind a <> KStoreSubmitted ->
  vLastSubmitted (oView (observeGone a o)) = vLastSubmitted (oView o).
Proof. destruct a; cbn; congruence. Qed.

Lemma beforePush_not_store k : beforePush k = true -> k <> KStoreSubmitted.
Proof. intros H ->. discriminate H. Qed.

Lemma submitting_own q subs e own o :
  submitting q subs (e :: own) o ->
  submitting q subs own (observeGone (evAction e) o).
Proof.
  intros [[Hsub (pre & l & tl & Hown & Hpre & Htl)] | [Hseen Hall]].
  - destruct pre as [|e' pre]; cbn [app] in Hown.
    + right. destruct Htl as [-> | [-> | ->]]; [discriminate Hown| |];
        injection Hown as -> ->; cbn [evAction pushEvent].
      * split; [|constructor]. left. cbn. apply in_or_app. right. left. reflexivity.
      * split; [|repeat constructor]. left. cbn. apply in_or_app. right. left.
        reflexivity.
    + injection Hown as -> ->.
      pose proof (Forall_inv Hpre) as He. pose proof (Forall_inv_tail Hpre) as Hpre'.
      left. split.
      * rewrite lastSubmitted_step; [exact Hsub|].
        apply beforePush_not_store. exact He.
      * exists pre, l, tl. auto.
  - right. split; [apply seenBatch_step; exact Hseen|].
    exact (Forall_inv_tail Hall).
Qed.

Lemma submitting_other q subs e own o :
  otherThread e ->
  submitting q subs own o ->
  submitting q subs own (observeGone (evAction e) o).
Proof.
  intros [_ Hns] [[Hsub Hown] | [Hseen Hall]].
  - left. split; [|exact Hown]. rewrite lastSubmitted_step; assumption.
  - right. split; [apply seenBatch_step; exact Hseen|exact Hall].
Qed.

(** An observer of a submission of a serial that was not submitted at the
    start: whatever the other threads do in between, when it sees the serial
    as submitted, it finds the batch. *)
Lemma submitting_observers q subs own others merged :
  ~ (exists v, serialAt subs (qsIndex q) = Some v /\ (qsSerial q <= v)%Z) ->
  interleaving own others merged ->
  Forall otherThread others ->
  forall o k,
    submitting q subs own o ->
    seenSubmitted q (replayGone (firstn k merged) o) ->
    seenBatch q (replayGone (firstn k merged) o).
Proof.
  intros Hnot Hi. induction Hi as [|e l r m Hi IH|e l r m Hi IH]; intros Ho o k Hs.
  - assert (firstn k (@nil Event) = []) as -> by (destruct k; reflexivity).
    cbn [replayGone fold_left]. intros Hseen.
    destruct Hs as [[Hsub _] | [Hb _]]; [|exact Hb].
    exfalso. apply Hnot. unfold seenSubmitted in Hseen. rewrite Hsub in Hseen.
    exact Hseen.
  - destruct k as [|k]; cbn [firstn replayGone fold_left].
    + intros Hseen. destruct Hs as [[Hsub _] | [Hb _]]; [|exact Hb].
      exfalso. apply Hnot. unfold seenSubmitted in Hseen. rewrite Hsub in Hseen.
      exact Hseen.
    + apply (IH Ho). apply submitting_own. exact Hs.
  - pose proof (Forall_inv Ho) as He. pose proof (Forall_inv_tail Ho) as Ho'.
    destruct k as [|k]; cbn [firstn replayGone fold_left].
    + intros Hseen. destruct Hs as [[Hsub _] | [Hb _]]; [|exact Hb].
      exfalso. apply Hnot. unfold seenSubmitted in Hseen. rewrite Hsub in Hseen.
      exact Hseen.
    + apply (IH Ho'). apply submitting_other; assumption.
Qed.

(** C1: in [queueSubmitLocked] the batch is pushed onto the in-flight ring
    before the last submitted serial is advanced to the serial of the batch.
    The events of a run are events that neither push nor store a submitted
    serial, then the push, then the store, and the run returns exactly when
    both are done.  Consequently, for a serial that was not yet submitted at
    the start, and however the events of the threads that do not submit are
    merged with those of the run, an observer that sees the last submitted
    serial at or past the serial of the batch finds the batch in the
    in-flight ring, or in the finished ring, or released from it. *)
Theorem queueSubmitLocked_push_before_store env context pr info b q s :
  tameContext beforePush context ->
  mQueueSerial b = q ->
  ~ seenSubmitted q (observed s) ->
  let r := queueSubmitLocked env context pr info b q s in
  exists pre l tl,
    trace (snd r) = trace s ++ pre ++ tl
    /\ Forall (fun e => beforePush (kind (evAction e)) = true) pre
    /\ submissionTail l q q tl
    /\ (fst r = Ok tt <-> length tl = 2)
    /\ view (snd r) = replay (pre ++ tl) (view s)
    /\ forall others merged k,
         Forall otherThread others ->
         interleaving (pre ++ tl) others merged ->
         let o := replayGone (firstn k merged) (observed s) in
         seenSubmitted q o -> seenBatch q o.
Proof.
  intros Hc Hq Hnot. cbv zeta.
  destruct (queueSubmitLocked_shape env beforePush eq_refl eq_refl eq_refl
              eq_refl eq_refl eq_refl context Hc pr info b q [] s)
    as (pre & l & tl & Ht & Hpre & _ & Htl & Hok & Hv & _).
  { intros m Hm. discriminate Hm. }
  rewrite Hq in Htl.
  assert (Hpre' : Forall (fun e => beforePush (kind (evAction e)) = true) pre).
  { eapply Forall_impl; [exact Hpre|]. intros e [He _]. exact He. }
  exists pre, l, tl. repeat split; auto; try apply Hok.
  intros others merged k Ho Hi.
  apply (submitting_observers q (mLastSubmittedSerials s) (pre ++ tl) others merged);
    auto.
  left. split; [reflexivity|]. exists pre, l, tl. auto.
Qed.

Lemma queueSubmitLocked_push_before_store_witness :
  let r := queueSubmitLocked quietDevice (externalContext 0) Medium
             VkSubmitInfo_zero firstBatch firstSerial initialState in
  exists pre l tl,
    trace (snd r) = trace initialState ++ pre ++ tl
    /\ Forall (fun e => beforePush (kind (evAction e)) = true) pre
    /\ submissionTail l firstSerial firstSerial tl
    /\ (fst r = Ok tt <-> length tl = 2)
    /\ view (snd r) = replay (pre ++ tl) (view initialState)
    /\ forall others merged k,
         Forall otherThread others ->
         interleaving (pre ++ tl) others merged ->
         let o := replayGone (firstn k merged) (observed initialState) in
         seenSubmitted firstSerial o -> seenBatch firstSerial o.
Proof.
  apply (queueSubmitLocked_push_before_store quietDevice (externalContext 0)
           Medium VkSubmitInfo_zero firstBatch firstSerial initialState).
  - apply tameContext_external. reflexivity.
  - reflexivity.
  - intros (v & Hv & Hle). vm_compute in Hv. injection Hv as <-.
    apply Hle. reflexivity.
Defined.

(** ** Events since a state *)

Lemma countKind_app k evs1 evs2 :
  countKind k (evs1 ++ evs2) = countKind k evs1 + countKind k evs2.
Proof.
  induction evs1 as [|e evs1 IH]; [reflexivity|].
  cbn [app countKind]. rewrite IH. apply Nat.add_assoc.
Qed.

Lemma countKind_none (allowed : Kind -> bool) k evs :
  allowed k = false ->
  Forall (fun e => allowed (kind (evAction e)) = true) evs ->
  countKind k evs = 0.
Proof.
  intros Hk Hall. induction Hall as [|e evs He Hall IH]; [reflexivity|].
  cbn [countKind].
  destruct (Kind_eqb (kind (evAction e)) k) eqn:Heq; [|exact IH].
  exfalso. destruct (kind (evAction e)), k; try discriminate Heq; congruence.
Qed.

Lemma wp_since_bind {A B} (m : M A) (k : A -> M B) s
    (P : list Event -> Outcome B -> State -> Prop) :
  wp m s (since s (fun evs1 r1 s1 =>
            match r1 with
            | Ok a => wp (k a) s1 (since s1 (fun evs2 => P (evs1 ++ evs2)))
            | Stop => P evs1 Stop s1
            | Abort f => P evs1 (Abort f) s1
            end)) ->
  wp (bind m k) s (since s P).
Proof.
  intros H. apply wp_bind. unfold wp in *.
  destruct (m s) as [[a| |f] s1]; cbn [fst snd andThen] in *;
    destruct H as (evs1 & Ht1 & H).
  - unfold wp in *. destruct H as (evs2 & Ht2 & H).
    exists (evs1 ++ evs2). split; [|exact H].
    rewrite Ht2, Ht1, app_assoc. reflexivity.
  - exists evs1. auto.
  - exists evs1. auto.
Qed.

Lemma wp_since_conseq {A} (m : M A) s
    (P P' : list Event -> Outcome A -> State -> Prop) :
  wp m s (since s P) -> (forall evs r s', P evs r s' -> P' evs r s') ->
  wp m s (since s P').
Proof.
  unfold wp, since. intros (evs & Ht & H) HP. exists evs. auto.
Qed.

Lemma wp_since_pure {A} (m : M A) s
    (P : list Event -> Outcome A -> State -> Prop) :
  wp m s (fun r s' => s' = s /\ P [] r s) -> wp m s (since s P).
Proof.
  unfold wp, since. intros [Hs H]. exists []. rewrite app_nil_r, Hs. auto.
Qed.

Lemma wp_and {A} (m : M A) s (Q1 Q2 : Outcome A -> State -> Prop) :
  wp m s Q1 -> wp m s Q2 -> wp m s (fun r s' => Q1 r s' /\ Q2 r s').
Proof. unfold wp. auto. Qed.

(** A tame computation, by its events and its value. *)
Lemma wp_since_tame {A} allowed (m : M A) s (V : A -> Prop)
    (P : list Event -> Outcome A -> State -> Prop) :
  tame allowed m ->
  wp m s (returns V) ->
  (forall evs r s',
     Forall (fun e => allowed (kind (evAction e)) = true) evs ->
     returns V r s' -> P evs r s') ->
  wp m s (since s P).
Proof.
  intros Hm Hv HP. destruct (Hm [] s) as ((evs & Ht & Hall & _) & _).
  { intros x Hx. discriminate Hx. }
  unfold wp in *. exists evs. split; [exact Ht|]. apply HP; [|exact Hv].
  eapply Forall_impl; [exact Hall|]. intros e [He _]. exact He.
Qed.

Lemma wp_returns_any {A} (m : M A) s : wp m s (returns (fun _ => True)).
Proof. unfold wp, returns. destruct (fst (m s)); exact I. Qed.

Lemma wp_since_ret {A} (a : A) s (P : list Event -> Outcome A -> State -> Prop) :
  P [] (Ok a) s -> wp (ret a) s (since s P).
Proof. intros H. apply wp_since_pure. split; [reflexivity|exact H]. Qed.

Lemma wp_since_ASSERT ln c s (P : list Event -> Outcome unit -> State -> Prop) :
  (c = true -> P [] (Ok tt) s) ->
  (c = false -> P [] (Abort (AssertionFailed ln)) s) ->
  wp (ASSERT ln c) s (since s P).
Proof.
  intros H1 H2. apply wp_since_pure. apply wp_ASSERT; intros Hc; split; auto.
Qed.

Lemma wp_since_emit a s (P : list Event -> Outcome unit -> State -> Prop) :
  P [ {| evLocks := held s; evAction := a |} ] (Ok tt)
    (set_trace (trace s ++ [ {| evLocks := held s; evAction := a |} ]) s) ->
  wp (emit a) s (since s P).
Proof. intros H. apply wp_emit. eexists. split; [reflexivity|exact H]. Qed.

Lemma wp_since_ask {A} (oracle : list Event -> A) a s
    (P : list Event -> Outcome A -> State -> Prop) :
  P [ {| evLocks := held s; evAction := a |} ] (Ok (oracle (trace s)))
    (set_trace (trace s ++ [ {| evLocks := held s; evAction := a |} ]) s) ->
  wp (ask oracle a) s (since s P).
Proof. intros H. apply wp_ask. eexists. split; [reflexivity|exact H]. Qed.

Lemma wp_since_onStop {A} (cleanup : M unit) (m : M A) s
    (P : list Event -> Outcome A -> State -> Prop) :
  wp m s (since s (fun evs1 r1 s1 =>
            match r1 with
            | Stop => wp cleanup s1 (since s1 (fun evs2 r2 s2 =>
                        match r2 with
                        | Abort f => P (evs1 ++ evs2) (Abort f) s2
                        | _ => P (evs1 ++ evs2) Stop s2
                        end))
            | _ => P evs1 r1 s1
            end)) ->
  wp (onStop cleanup m) s (since s P).
Proof.
  unfold wp, since, onStop.
  destruct (m s) as [[a| |f] s1]; cbn [fst snd]; intros (evs1 & Ht1 & H).
  - exists evs1. auto.
  - destruct H as (evs2 & Ht2 & H).
    destruct (cleanup s1) as [[[]| |f] s2]; cbn [fst snd] in *;
      exists (evs1 ++ evs2); (split; [rewrite Ht2, Ht1, app_assoc; reflexivity|exact H]).
  - exists evs1. auto.
Qed.

Lemma no_events evs : Forall (fun e : Event => false = true) evs -> evs = [].
Proof. intros H. destruct evs as [|e evs]; [reflexivity|]. inversion H. discriminate. Qed.

Lemma quiet_counts evs :
  Forall (fun e => noSubmitNoFence (kind (evAction e)) = true) evs ->
  countKind KSubmit evs = 0 /\ countKind KFence evs = 0.
Proof.
  intros H. split; apply (countKind_none noSubmitNoFence); auto.
Qed.

Lemma tameContext_weaken (a1 a2 : Kind -> bool) context :
  (forall k, a1 k = true -> a2 k = true) ->
  tameContext a1 context -> tameContext a2 context.
Proof.
  intros Hsub Hc code f fn ln. destruct (Hc code f fn ln) as (Ht & Hns & Hfl).
  split; [eapply tame_weaken; eauto|]. split; assumption.
Qed.

(** The end of a submission that returns: the batch is the youngest of the
    in-flight ring and its serial is the last submitted one. *)
Lemma push_then_store_done env b q s :
  let r := (pushInFlightBatchLocked env b ;; setLastSubmitted q)%cmd s in
  fst r = Ok tt ->
  mInFlightCommands (snd r) = mInFlightCommands s ++ [b]
  /\ serialAt (mLastSubmittedSerials (snd r)) (qsIndex q) = Some (qsSerial q).
Proof.
  unfold pushInFlightBatchLocked, setLastSubmitted, inFlightFull, serialAt.
  cbv [bind modify get emit ASSERT ret abort]. ssimpl.
  destruct (kInFlightCommandsLimit env <=? length (mInFlightCommands s))%nat;
    cbn [negb fst snd]; ssimpl; [discriminate|].
  destruct (mLastSubmittedSerials s !! N.to_nat (qsIndex q)) eqn:Hi;
    cbn [fst snd]; ssimpl; [|discriminate].
  intros _. split; [reflexivity|].
  apply list_lookup_insert_eq. eapply lookup_lt_Some. exact Hi.
Qed.

Lemma submissionTail_counts l qb q tl :
  submissionTail l qb q tl ->
  countKind KSubmit tl = 0 /\ countKind KFence tl = 0.
Proof. intros [-> | [-> | ->]]; split; reflexivity. Qed.

Section SubmissionEvents.

Variable env : Environment.
Variable context : Context.
Hypothesis context_quiet : tameContext noSubmitNoFence context.

Lemma wp_since_quiet {A} (m : M A) s
    (P : list Event -> Outcome A -> State -> Prop) :
  tame noSubmitNoFence m ->
  (forall evs r s',
     countKind KSubmit evs = 0 -> countKind KFence evs = 0 -> P evs r s') ->
  wp m s (since s P).
Proof.
  intros Hm HP. apply (wp_since_tame noSubmitNoFence m s (fun _ => True));
    [exact Hm|apply wp_returns_any|].
  intros evs r s' Hall _. destruct (quiet_counts evs Hall). auto.
Qed.

Lemma deviceSubmit_events pr info b s :
  wp (deviceSubmit env context pr info b) s
     (since s (fun evs r s' =>
        countKind KSubmit evs <= 1
        /\ countKind KFence evs = 0
        /\ ((sType info =? VK_STRUCTURE_TYPE_SUBMIT_INFO)%Z = false ->
            countKind KSubmit evs = 0)
        /\ (r = Ok tt ->
            (sType info =? VK_STRUCTURE_TYPE_SUBMIT_INFO)%Z = true ->
            countKind KSubmit evs = 1))).
Proof.
  unfold deviceSubmit.
  destruct (sType info =? VK_STRUCTURE_TYPE_SUBMIT_INFO)%Z eqn:Hty.
  2:{ apply wp_since_ret. repeat split; auto. discriminate. }
  apply wp_since_bind.
  apply (wp_since_tame (fun _ => false) _ s (fun _ => True));
    [apply tame_getFenceHandle|apply wp_returns_any|].
  intros evs [fence| |x] s1 Hno _; rewrite (no_events evs Hno);
    [|repeat split; auto; discriminate..].
  apply wp_since_bind. apply wp_since_ASSERT; intros Hf;
    [|repeat split; auto; discriminate].
  apply wp_since_bind. unfold ANGLE_VK_TRY. apply wp_since_bind.
  apply wp_since_ask.
  match goal with
  | |- context [vkQueueSubmit env ?t ?i ?f] => generalize (vkQueueSubmit env t i f)
  end.
  intros result. destruct (result =? VK_SUCCESS)%Z.
  - apply wp_since_ret. cbn [app].
    destruct (mExternalFence b).
    + apply wp_since_emit. cbn. repeat split; auto; discriminate.
    + apply wp_since_ret. cbn. repeat split; auto; discriminate.
  - apply wp_since_bind. apply wp_since_quiet.
    { exact (proj1 (context_quiet result thisFile _ 1602)). }
    intros evs2 r s2 H1 H2.
    destruct r as [[]| |x];
      [unfold stop; apply wp_since_pure; split; [reflexivity|]| |];
      cbn [fst snd app]; rewrite ?app_nil_r;
      cbn [countKind evAction kind Kind_eqb]; rewrite H1, H2;
      repeat split; auto; discriminate.
Qed.

Lemma wp_push_then_store b q s :
  wp (pushInFlightBatchLocked env b ;; setLastSubmitted q)%cmd s
     (since s (fun evs r s' =>
        countKind KSubmit evs = 0 /\ countKind KFence evs = 0
        /\ r <> Stop /\ (r = Ok tt -> submitted b q s'))).
Proof.
  destruct (push_then_store env b q s) as (tl & Ht & Htl & Hok & _).
  pose proof (push_then_store_done env b q s) as Hdone. cbv zeta in Hdone.
  unfold wp, since. exists tl. split; [exact Ht|].
  destruct (submissionTail_counts _ _ _ _ Htl) as [H1 H2].
  split; [exact H1|]. split; [exact H2|]. split.
  - intros Hst.
    destruct Htl as [-> | [-> | ->]]; revert Hst;
      unfold pushInFlightBatchLocked, setLastSubmitted, inFlightFull, serialAt;
      cbv [bind modify get emit ASSERT ret abort]; ssimpl;
      destruct (kInFlightCommandsLimit env <=? length (mInFlightCommands s))%nat;
      cbn [negb fst snd]; ssimpl; try discriminate;
      destruct (mLastSubmittedSerials s !! N.to_nat (qsIndex q));
      cbn [fst snd]; discriminate.
  - intros Hr. destruct (Hdone Hr) as [Hin Hsub]. split; [|exact Hsub].
    eexists. exact Hin.
Qed.

Ltac count_solve :=
  rewrite ?countKind_app;
  repeat match goal with
         | |- _ /\ _ => split
         end;
  intros; try discriminate; try lia.

Lemma submission_events pr info b q s :
  wp (onStop (destroyScoped b)
        (queueSubmitLocked env context pr info b q)) s
     (since s (submissionEvents info b q)).
Proof.
  assert (Hclean : forall evs0 s0,
             countKind KSubmit evs0 <= 1 -> countKind KFence evs0 = 0 ->
             ((sType info =? VK_STRUCTURE_TYPE_SUBMIT_INFO)%Z = false ->
              countKind KSubmit evs0 = 0) ->
             wp (destroyScoped b) s0
               (since s0 (fun evs2 r2 s2 =>
                  match r2 with
                  | Abort f => submissionEvents info b q (evs0 ++ evs2) (Abort f) s2
                  | _ => submissionEvents info b q (evs0 ++ evs2) Stop s2
                  end))).
  { intros evs0 s0 Ha Hb Hc. apply wp_since_quiet.
    - apply tame_destroyScoped; reflexivity.
    - intros evs2 r2 s2 H1 H2. unfold submissionEvents.
      destruct r2 as [[]| |x]; count_solve; try (specialize (Hc ltac:(assumption)); lia). }
  apply wp_since_onStop. unfold queueSubmitLocked.
  apply wp_since_bind. apply wp_since_quiet.
  { apply tame_throttleInFlight; try reflexivity. exact context_quiet. }
  intros evs1 r1 s1 Ha1 Hb1.
  destruct r1 as [[]| |x];
    [|apply Hclean; intros; lia|unfold submissionEvents; count_solve].
  apply wp_since_bind. apply wp_since_quiet.
  { apply tame_reserveFinished; try reflexivity. exact context_quiet. }
  intros evs2 r2 s2 Ha2 Hb2.
  destruct r2 as [[]| |x];
    [|apply Hclean; rewrite ?countKind_app; intros; lia
     |unfold submissionEvents; count_solve].
  apply wp_since_bind.
  eapply wp_since_conseq; [apply deviceSubmit_events|].
  intros evs3 r3 s3 (Ha3 & Hb3 & Hc3 & Hd3).
  destruct r3 as [[]| |x];
    [|apply Hclean; rewrite ?countKind_app; intros; try lia;
      specialize (Hc3 ltac:(assumption)); lia
     |unfold submissionEvents; count_solve;
      try (specialize (Hc3 ltac:(assumption)); lia)].
  eapply wp_since_conseq; [apply wp_push_then_store|].
  intros evs4 r4 s4 (Ha4 & Hb4 & Hns & Hd4).
  destruct r4 as [[]| |x]; [| exfalso; apply Hns; reflexivity |].
  - unfold submissionEvents. rewrite !countKind_app.
    split; [lia|]. split; [lia|]. split.
    + intros Hty. specialize (Hc3 Hty). lia.
    + intros _. split; [|apply Hd4; reflexivity].
      intros Hty. specialize (Hd3 eq_refl Hty). lia.
  - unfold submissionEvents.
    count_solve; try (specialize (Hc3 ltac:(assumption)); lia).
Qed.

End SubmissionEvents.

(** ** The values of the steps of a submission *)

Lemma wp_returns_bind_val {A B} (m : M A) (k : A -> M B) s
    (V : A -> Prop) (P : B -> Prop) :
  wp m s (returns V) ->
  (forall a s', V a -> wp (k a) s' (returns P)) ->
  wp (bind m k) s (returns P).
Proof.
  intros Hm Hk. apply wp_bind. unfold wp in *. unfold andThen.
  destruct (m s) as [[a| |f] s']; cbn [fst snd returns] in *; auto.
  exact (Hk a s' Hm).
Qed.

Lemma wp_returns_onStop {A} (cleanup : M unit) (m : M A) s (P : A -> Prop) :
  wp m s (returns P) -> wp (onStop cleanup m) s (returns P).
Proof.
  unfold wp, onStop. destruct (m s) as [[a| |f] s']; cbn [fst snd returns]; auto.
  intros _. destruct (cleanup s') as [[[]| |f] s'']; exact I.
Qed.

Lemma wp_returns_lock_guard {A} mu (body : M A) s (P : A -> Prop) :
  wp body (set_held (mu :: held s) s) (returns P) ->
  wp (lock_guard mu body) s (returns P).
Proof.
  intros H. apply wp_lock_guard; intros _; [exact I|].
  unfold wp in *. unfold released.
  destruct (fst (body (set_held (mu :: held s) s))); exact H.
Qed.

(** The setters of a batch change nothing but the batch. *)
Lemma setQueueSerial_run q b s :
  wp (setQueueSerial q b) s
     (fun r s' => s' = s /\ returns (fun b' => b' = set_mQueueSerial q b) r s').
Proof.
  unfold setQueueSerial. wp_steps.
  apply wp_ASSERT; intros _; [|split; [reflexivity|exact I]]. cbn [andThen].
  wp_steps. apply wp_ASSERT; intros _; [|split; [reflexivity|exact I]].
  cbn [andThen]. apply wp_ret. split; reflexivity.
Qed.

Lemma setProtectionType_run p b s :
  wp (setProtectionType p b) s
     (fun r s' => s' = s /\ returns (fun b' => b' = set_mProtectionType p b) r s').
Proof.
  unfold setProtectionType. wp_steps.
  apply wp_ASSERT; intros _; [|split; [reflexivity|exact I]]. cbn [andThen].
  wp_steps. apply wp_ASSERT; intros _; [|split; [reflexivity|exact I]].
  cbn [andThen]. apply wp_ret. split; reflexivity.
Qed.

(** What [getCommandsAndWaitSemaphores] hands out: the primary buffer and
    the wait semaphores of the commands state, in the batch it was given. *)
Lemma getCommandsAndWaitSemaphores_returns env context pt pr b s :
  wp (getCommandsAndWaitSemaphores env context pt pr b) s
     (returns (fun got =>
        mPrimaryCommands (fst got) = primaryCommands (mCommandsStateMap s pr pt)
        /\ fst (snd got) = waitSemaphores (mCommandsStateMap s pr pt)
        /\ mQueueSerial (fst got) = mQueueSerial b
        /\ mFence (fst got) = mFence b
        /\ mExternalFence (fst got) = mExternalFence b)).
Proof.
  unfold getCommandsAndWaitSemaphores. apply wp_returns_lock_guard.
  apply wp_bind, wp_get. ssimpl. cbn [andThen].
  apply wp_returns_ASSERT. intros _.
  apply wp_returns_bind. intros _ s1.
  unfold setPrimaryCommands, setSecondaryCommands.
  apply wp_returns_bind_val with
    (V := fun b' => mPrimaryCommands b' = primaryCommands (mCommandsStateMap s pr pt)
                    /\ mQueueSerial b' = mQueueSerial b
                    /\ mFence b' = mFence b
                    /\ mExternalFence b' = mExternalFence b).
  { apply wp_returns_ASSERT. intros _. apply wp_returns_ASSERT. intros _.
    apply wp_returns_ASSERT. intros _. apply wp_returns_ret. repeat split. }
  intros b1 s2 (Hp & Hq & Hf & He).
  apply wp_returns_bind_val with
    (V := fun b' => mPrimaryCommands b' = primaryCommands (mCommandsStateMap s pr pt)
                    /\ mQueueSerial b' = mQueueSerial b
                    /\ mFence b' = mFence b
                    /\ mExternalFence b' = mExternalFence b).
  { apply wp_returns_ASSERT. intros _. apply wp_returns_ret. repeat split; assumption. }
  intros b2 s3 (Hp2 & Hq2 & Hf2 & He2).
  apply wp_returns_bind. intros _ s4. apply wp_returns_ret.
  cbn [fst snd]. repeat split; assumption.
Qed.

Lemma initFence_returns env b s :
  wp (initFence env b) s (returns (fun r => mQueueSerial (snd r) = mQueueSerial b)).
Proof.
  unfold initFence.
  apply wp_returns_bind. intros h s1. apply wp_returns_bind. intros _ s2.
  apply wp_returns_bind. intros fence s3. apply wp_returns_bind. intros result s4.
  destruct (result =? VK_SUCCESS)%Z.
  - apply wp_returns_bind. intros r s5. apply wp_returns_bind. intros _ s6.
    apply wp_returns_ret. reflexivity.
  - apply wp_returns_bind. intros _ s5. apply wp_returns_ret. reflexivity.
Qed.

Lemma setExternalFence_returns e b s :
  wp (setExternalFence e b) s
     (returns (fun b' => mQueueSerial b' = mQueueSerial b)).
Proof.
  unfold setExternalFence.
  apply wp_returns_bind. intros h s1. apply wp_returns_bind. intros _ s2.
  apply wp_returns_ret. reflexivity.
Qed.

Lemma submitOutcome_quiet needs q evs r s :
  countKind KSubmit evs = 0 -> countKind KFence evs = 0 -> r <> Ok tt ->
  submitOutcome needs q evs r s.
Proof.
  intros H1 H2 Hr. unfold submitOutcome. split; [lia|]. split; [auto|].
  intros H. contradiction.
Qed.

(** The events and the outcome of every run of [submitCommands], by
    whether a submit is needed. *)
Lemma submitCommands_outcome env context pt pr signal ext q s :
  tameContext noSubmitNoFence context ->
  let needs := needsQueueSubmit (mCommandsStateMap s pr pt) signal ext in
  let r := submitCommands env context pt pr signal ext q s in
  exists evs,
    trace (snd r) = trace s ++ evs /\ submitOutcome needs q evs (fst r) (snd r).
Proof.
  intros Hc. cbv zeta.
  set (needs := needsQueueSubmit (mCommandsStateMap s pr pt) signal ext).
  change (wp (submitCommands env context pt pr signal ext q) s
            (since s (submitOutcome needs q))).
  unfold submitCommands. apply wp_lock_guard; intros Hh.
  { exists []. rewrite app_nil_r. split; [reflexivity|].
    apply submitOutcome_quiet; [reflexivity|reflexivity|discriminate]. }
  set (s0 := set_held (mQueueSubmitMutex :: held s) s).
  eapply wp_conseq with (Q := since s0 (submitOutcome needs q)).
  2:{ intros r s' (evs & Ht & HP). unfold released.
      destruct r as [[]| |x]; exists evs; (split; [exact Ht|exact HP]). }
  apply wp_since_bind. apply wp_since_pure.
  eapply wp_conseq; [apply setQueueSerial_run|].
  intros r1 s1 [-> Hv1]. split; [reflexivity|].
  destruct r1 as [b1| |x];
    [|apply submitOutcome_quiet; [reflexivity|reflexivity|discriminate]..].
  cbn [returns] in Hv1. subst b1.
  apply wp_since_bind. apply wp_since_pure.
  eapply wp_conseq; [apply setProtectionType_run|].
  intros r2 s2 [-> Hv2]. split; [reflexivity|].
  destruct r2 as [b2| |x];
    [|apply submitOutcome_quiet; [reflexivity|reflexivity|discriminate]..].
  cbn [returns] in Hv2. subst b2. cbn [app].
  set (b2 := set_mProtectionType pt (set_mQueueSerial q CommandBatch_new)).
  apply wp_since_bind. apply wp_since_onStop.
  eapply (wp_since_tame noSubmitNoFence).
  { apply tame_getCommandsAndWaitSemaphores; try reflexivity. exact Hc. }
  { apply getCommandsAndWaitSemaphores_returns. }
  intros evsA rA sA HallA Hval. destruct (quiet_counts evsA HallA) as [HA1 HA2].
  destruct rA as [got| |x].
  3:{ apply submitOutcome_quiet; [assumption|assumption|discriminate]. }
  2:{ apply wp_since_quiet; [apply tame_destroyScoped; reflexivity|].
      intros evs2 r2 s2 H1 H2.
      destruct r2 as [[]| |x]; apply submitOutcome_quiet;
        rewrite ?countKind_app; try lia; discriminate. }
  cbn [returns] in Hval. destruct Hval as (Hp & Hw & Hq & Hf & He).
  assert (Hneeds : valid (mPrimaryCommands (fst got))
                   || negb (signal =? VK_NULL_HANDLE)%Z || isSome ext
                   || negb (match fst (snd got) with [] => true | _ => false end)
                   = needs).
  { unfold needs, needsQueueSubmit. rewrite Hp, Hw. reflexivity. }
  rewrite Hneeds. clearbody needs. clear Hneeds.
  destruct needs.
  - (* a submit is needed *)
    apply wp_since_bind.
    apply (wp_since_tame noSubmit _ _
             (fun p => sType (fst p) = VK_STRUCTURE_TYPE_SUBMIT_INFO
                       /\ mQueueSerial (snd p) = q)).
    { assert (Hc' : tameContext noSubmit context).
      { apply (tameContext_weaken noSubmitNoFence); [|exact Hc].
        intros k Hk. destruct k; try reflexivity; discriminate Hk. }
      apply tame_bind; [apply tame_InitializeSubmitInfo|]. intros info.
      apply tame_bind; [|intros; apply tame_ret].
      destruct (negb (isSome ext)); [|apply tame_setExternalFence].
      apply tame_bind; [apply tame_initFence; reflexivity|]. intros r0.
      apply tame_bind; [|intros; apply tame_ret].
      apply tame_onStop; [|apply tame_destroyScoped; reflexivity].
      apply tame_VK_TRY; [exact Hc'|apply tame_ret]. }
    { unfold InitializeSubmitInfo.
      apply wp_returns_bind_val with
        (V := fun i => sType i = VK_STRUCTURE_TYPE_SUBMIT_INFO).
      { apply wp_returns_ASSERT. intros _. apply wp_returns_ASSERT. intros _.
        apply wp_returns_ret. reflexivity. }
      intros info s1 Hinfo.
      apply wp_returns_bind_val with
        (V := fun b' => mQueueSerial b' = q).
      { destruct (negb (isSome ext)).
        - apply wp_returns_bind_val with
            (V := fun r0 => mQueueSerial (snd r0) = q).
          { eapply wp_conseq; [apply initFence_returns|].
            intros [r0| |x] s2; cbn [returns]; [|auto..].
            intros ->. exact Hq. }
          intros r0 s2 Hr0. apply wp_returns_bind. intros _ s3.
          apply wp_returns_ret. exact Hr0.
        - eapply wp_conseq; [apply setExternalFence_returns|].
          intros [r0| |x] s2; cbn [returns]; [|auto..].
          intros ->. exact Hq. }
      intros b' s2 Hb'. apply wp_returns_ret. cbn [fst snd].
      split; [|exact Hb'].
      destruct (ProtectionType_eqb pt Protected && valid (mPrimaryCommands (fst got)));
        exact Hinfo. }
    intros evsB rB sB HallB HvalB.
    pose proof (countKind_none noSubmit KSubmit evsB eq_refl HallB) as HB1.
    destruct rB as [p| |x].
    2:{ unfold submitOutcome. rewrite !countKind_app.
        split; [lia|]. split; discriminate. }
    2:{ unfold submitOutcome. rewrite !countKind_app.
        split; [lia|]. split; discriminate. }
    cbn [returns] in HvalB. destruct HvalB as [Hty Hqp].
    eapply wp_since_conseq; [apply submission_events; exact Hc|].
    intros evsC rC sC (Hle & Hfe & Hno & Hok).
    unfold submitOutcome. rewrite !countKind_app.
    split; [lia|]. split; [discriminate|].
    intros HrC. destruct (Hok HrC) as [Hone Hsub].
    split.
    + split; [reflexivity|]. intros _. rewrite Hone; [lia|].
      rewrite Hty. reflexivity.
    + exists (snd p). split; [exact Hsub|]. split; [exact Hqp|discriminate].
  - (* no submit is needed *)
    apply wp_since_bind. apply wp_since_ret. cbn [fst snd].
    eapply wp_since_conseq; [apply submission_events; exact Hc|].
    intros evsC rC sC (Hle & Hfe & Hno & Hok). specialize (Hno eq_refl).
    unfold submitOutcome. rewrite !countKind_app. cbn [countKind].
    split; [lia|]. split; [intros _; lia|].
    intros HrC. destruct (Hok HrC) as [_ Hsub].
    split.
    + split; [lia|discriminate].
    + exists (fst got). split; [exact Hsub|]. split; [exact Hq|].
      intros _. unfold fenceIsSet. rewrite Hf, He. reflexivity.
Qed.

(** ** Computations that keep the rings *)

Lemma sameQueue_refl s : sameQueue s s.
Proof. repeat split. Qed.

Lemma sameQueue_trans s1 s2 s3 :
  sameQueue s1 s2 -> sameQueue s2 s3 -> sameQueue s1 s3.
Proof.
  intros (A1 & B1 & C1 & D1) (A2 & B2 & C2 & D2).
  repeat split; congruence.
Qed.

Lemma keeps_ret {A} (a : A) : keeps (ret a).
Proof. intros s. split; [exact I|]. intros _ _. apply sameQueue_refl. Qed.

Lemma keeps_get {A} (f : State -> A) : keeps (get f).
Proof. intros s. split; [exact I|]. intros _ _. apply sameQueue_refl. Qed.

Lemma keeps_stop {A} : keeps (@stop A).
Proof. intros s. split; [exact I|]. discriminate. Qed.

Lemma keeps_abort {A} f : tolerated f = true -> keeps (@abort A f).
Proof. intros H s. split; [exact H|]. discriminate. Qed.

Lemma keeps_ASSERT ln c :
  tolerated (AssertionFailed ln) = true -> keeps (ASSERT ln c).
Proof.
  intros H s. unfold ASSERT. destruct c.
  - split; [exact I|]. intros _ _. apply sameQueue_refl.
  - split; [exact H|]. discriminate.
Qed.

Lemma keeps_modify (f : State -> State) :
  (forall s, sameQueue s (f s)) -> keeps (modify f).
Proof. intros H s. split; [exact I|]. intros _ _. apply H. Qed.

Lemma keeps_emit a : keeps (emit a).
Proof. intros s. split; [exact I|]. intros _ _. repeat split. Qed.

Lemma keeps_ask {A} (oracle : list Event -> A) a : keeps (ask oracle a).
Proof. intros s. split; [exact I|]. intros _ _. repeat split. Qed.

Lemma keeps_bind {A B} (m : M A) (k : A -> M B) :
  keeps m -> (forall a, keeps (k a)) -> keeps (bind m k).
Proof.
  intros Hm Hk s. destruct (Hm s) as [Hu Hs]. unfold bind.
  destruct (m s) as [[a| |f] s1]; cbn [fst snd] in *.
  - destruct (Hk a s1) as [Hu2 Hs2]. split; [exact Hu2|].
    intros b Hb. eapply sameQueue_trans; [apply (Hs a); reflexivity|].
    apply (Hs2 b). exact Hb.
  - split; [exact I|]. discriminate.
  - split; [exact Hu|]. discriminate.
Qed.

Lemma keeps_lock_guard {A} mu (body : M A) :
  keeps body -> keeps (lock_guard mu body).
Proof.
  intros Hb s. unfold lock_guard, lock.
  destruct (holds mu (held s)); cbn [fst snd].
  { split; [reflexivity|]. discriminate. }
  destruct (Hb (set_held (mu :: held s) s)) as [Hu Hs].
  destruct (body (set_held (mu :: held s) s)) as [[a| |f] s1]; cbn [fst snd] in *.
  - split; [exact I|]. intros _ _.
    destruct (Hs a eq_refl) as (H1 & H2 & H3 & H4).
    cbn in H1, H2, H3, H4.
    repeat split; ssimpl; auto. rewrite H4. apply unhold_head.
  - split; [exact I|]. discriminate.
  - split; [exact Hu|]. discriminate.
Qed.

Lemma keeps_onStop {A} (cleanup : M unit) (m : M A) :
  keeps m -> keeps cleanup -> keeps (onStop cleanup m).
Proof.
  intros Hm Hc s. destruct (Hm s) as [Hu Hs]. unfold onStop.
  destruct (m s) as [[a| |f] s1]; cbn [fst snd] in *.
  - split; [exact I|]. exact Hs.
  - destruct (Hc s1) as [Hu2 _].
    destruct (cleanup s1) as [[[]| |f] s2]; cbn [fst snd] in *;
      (split; [first [assumption | exact I]|discriminate]).
  - split; [exact Hu|]. discriminate.
Qed.

Lemma keeps_VK_TRY context (command : M VkResult) fn ln :
  safeContext context -> keeps command ->
  keeps (ANGLE_VK_TRY context command fn ln).
Proof.
  intros Hctx Hc. unfold ANGLE_VK_TRY. apply keeps_bind; [exact Hc|].
  intros result. destruct (result =? VK_SUCCESS)%Z; [apply keeps_ret|].
  intros s. pose proof (Hctx result thisFile fn ln s) as Hh. unfold bind, stop.
  destruct (handleError context result thisFile fn ln s) as [[[]| |f] s2];
    cbn [fst snd] in *; (split; [first [assumption | exact I]|discriminate]).
Qed.

Lemma wp_keeps {A} (m : M A) s (Q : Outcome A -> State -> Prop) :
  keeps m ->
  (forall r s', holdsUp r -> (forall a, r = Ok a -> sameQueue s s') -> Q r s') ->
  wp m s Q.
Proof. intros Hm HQ. destruct (Hm s) as [Hu Hs]. unfold wp. apply HQ; assumption. Qed.

Ltac keeps_leaf :=
  lazymatch goal with
  | |- keeps (ret _) => apply keeps_ret
  | |- keeps (get _) => apply keeps_get
  | |- keeps stop => apply keeps_stop
  | |- keeps (abort _) => apply keeps_abort; reflexivity
  | |- keeps UNREACHABLE => apply keeps_abort; reflexivity
  | |- keeps (ASSERT _ _) => apply keeps_ASSERT; reflexivity
  | |- keeps (modify _) => apply keeps_modify; intros; repeat split
  | |- keeps (emit _) => apply keeps_emit
  | |- keeps (ask _ _) => apply keeps_ask
  end.

Ltac keeps_step :=
  lazymatch goal with
  | |- keeps (bind _ _) => apply keeps_bind; [|intros]
  | |- keeps (lock_guard _ _) => apply keeps_lock_guard
  | |- keeps (onStop _ _) => apply keeps_onStop
  | |- keeps (ANGLE_VK_TRY _ _ _ _) => apply keeps_VK_TRY; [assumption|]
  | |- keeps (if ?c then _ else _) => destruct c
  | |- keeps (match ?x with _ => _ end) => destruct x
  | |- keeps _ => keeps_leaf
  end.

Create HintDb keeps discriminated.

Ltac keeps_auto := repeat first [keeps_step | solve [eauto with keeps]].

Section KeepsFunctions.

Variable env : Environment.

Lemma keeps_deref p : keeps (deref p).
Proof. unfold deref. keeps_auto. Qed.

Lemma keeps_store p r : keeps (store p r).
Proof. unfold store. keeps_auto. Qed.

Lemma keeps_inFlightFront : keeps inFlightFront.
Proof. unfold inFlightFront. keeps_auto. Qed.

Lemma keeps_finishedFront : keeps finishedFront.
Proof. unfold finishedFront. keeps_auto. Qed.

Hint Resolve keeps_deref keeps_store keeps_inFlightFront keeps_finishedFront : keeps.

Lemma keeps_hasFence b : keeps (hasFence b).
Proof. unfold hasFence. keeps_auto. Qed.
Hint Resolve keeps_hasFence : keeps.

Lemma keeps_theFence b : keeps (theFence b).
Proof. unfold theFence. keeps_auto. Qed.
Hint Resolve keeps_theFence : keeps.

Lemma keeps_getFenceHandle b : keeps (getFenceHandle b).
Proof. unfold getFenceHandle. keeps_auto. Qed.

Lemma keeps_waitFence b t : keeps (waitFence env b t).
Proof. unfold waitFence. keeps_auto. Qed.

Lemma keeps_getQueueSerial b : keeps (getQueueSerial b).
Proof. unfold getQueueSerial. keeps_auto. Qed.

Lemma keeps_setLastCompleted q : keeps (setLastCompleted q).
Proof. unfold setLastCompleted. keeps_auto. Qed.

Hint Resolve keeps_getFenceHandle keeps_waitFence keeps_getQueueSerial
  keeps_setLastCompleted : keeps.

Lemma keeps_FenceRecycler_recycle f : keeps (FenceRecycler_recycle f).
Proof. unfold FenceRecycler_recycle, Recycler_recycle. keeps_auto. Qed.
Hint Resolve keeps_FenceRecycler_recycle : keeps.

Lemma keeps_RecyclableFence_destroy p : keeps (RecyclableFence_destroy p).
Proof. unfold RecyclableFence_destroy. keeps_auto. Qed.
Hint Resolve keeps_RecyclableFence_destroy : keeps.

Lemma keeps_RecyclableFence_detachRecycler p :
  keeps (RecyclableFence_detachRecycler p).
Proof. unfold RecyclableFence_detachRecycler. keeps_auto. Qed.

Lemma keeps_SharedFence_reset p : keeps (SharedFence_reset p).
Proof. unfold SharedFence_reset. keeps_auto. Qed.

Lemma keeps_set_pool p l : keeps (set_pool p l).
Proof. unfold set_pool. keeps_auto. Qed.

Lemma keeps_destroyPrimaryCommandBuffer p : keeps (destroyPrimaryCommandBuffer p).
Proof. unfold destroyPrimaryCommandBuffer. keeps_auto. Qed.

Lemma keeps_releaseCommandBuffers b : keeps (releaseCommandBuffers b).
Proof. unfold releaseCommandBuffers. keeps_auto. Qed.

Hint Resolve keeps_RecyclableFence_detachRecycler keeps_SharedFence_reset
  keeps_set_pool keeps_destroyPrimaryCommandBuffer keeps_releaseCommandBuffers
  : keeps.

Lemma keeps_CommandBatch_destroy b : keeps (CommandBatch_destroy b).
Proof. unfold CommandBatch_destroy. keeps_auto. Qed.
Hint Resolve keeps_CommandBatch_destroy : keeps.

Lemma keeps_destroyScoped b : keeps (destroyScoped b).
Proof. unfold destroyScoped. keeps_auto. Qed.

Variable context : Context.
Hypothesis context_safe : safeContext context.

Lemma keeps_PersistentCommandPool_collect p b :
  keeps (PersistentCommandPool_collect env context p b).
Proof. unfold PersistentCommandPool_collect. keeps_auto. Qed.
Hint Resolve keeps_PersistentCommandPool_collect : keeps.

Lemma keeps_collectPrimaryCommandBuffer p b :
  keeps (collectPrimaryCommandBuffer env context p b).
Proof. unfold collectPrimaryCommandBuffer. keeps_auto. Qed.
Hint Resolve keeps_collectPrimaryCommandBuffer : keeps.

Lemma keeps_CommandBatch_release b : keeps (CommandBatch_release env context b).
Proof. unfold CommandBatch_release. keeps_auto. Qed.

Lemma keeps_deviceSubmit pr info b : keeps (deviceSubmit env context pr info b).
Proof. unfold deviceSubmit. keeps_auto. Qed.

End KeepsFunctions.

(** ** The effect of the throttling and of the reclaiming on the rings *)

Lemma wp_keeps_bind {A B} (m : M A) (k : A -> M B) s (R : B -> State -> Prop) :
  keeps m ->
  (forall a s1, sameQueue s s1 -> wp (k a) s1 (upheld R)) ->
  wp (bind m k) s (upheld R).
Proof.
  intros Hm Hk. apply wp_bind. apply wp_keeps; [exact Hm|].
  intros r s1 Hu Hs. destruct r as [a| |f]; cbn [andThen upheld].
  - apply Hk. apply (Hs a). reflexivity.
  - exact I.
  - exact Hu.
Qed.

Lemma wp_keeps_last {A} (m : M A) s (R : A -> State -> Prop) :
  keeps m -> (forall a s', sameQueue s s' -> R a s') -> wp m s (upheld R).
Proof.
  intros Hm HR. apply wp_keeps; [exact Hm|]. intros r s' Hu Hs.
  destruct r as [a| |f]; cbn [upheld]; [|exact I|exact Hu].
  apply HR. apply (Hs a). reflexivity.
Qed.

Lemma wp_upheld_ASSERT {B} ln c (k : unit -> M B) s (R : B -> State -> Prop) :
  tolerated (AssertionFailed ln) = true ->
  (c = true -> wp (k tt) s (upheld R)) ->
  wp (bind (ASSERT ln c) k) s (upheld R).
Proof.
  intros Ht Hk. apply wp_bind. apply wp_ASSERT; intros Hc; cbn [andThen upheld].
  - apply Hk. exact Hc.
  - exact Ht.
Qed.

Lemma upheld_impl {A} (R R' : A -> State -> Prop) (r : Outcome A) s :
  (forall a, R a s -> R' a s) -> upheld R r s -> upheld R' r s.
Proof. intros H. destruct r as [a| |f]; cbn [upheld]; auto. Qed.

Lemma moveInFlightBatchToFinishedQueueLocked_effect env s :
  wp (moveInFlightBatchToFinishedQueueLocked env) s (upheld (fun _ => moved s)).
Proof.
  unfold moveInFlightBatchToFinishedQueueLocked, finishedFull, inFlightFront.
  cbv [wp bind get ASSERT modify emit ret abort].
  destruct (kMaxFinishedCommandsLimit env <=? length (mFinishedCommandBatches s))%nat;
    cbn [negb fst snd upheld]; [reflexivity|].
  destruct (mInFlightCommands s) as [|b rest] eqn:Hi; cbn [fst snd upheld];
    [reflexivity|].
  exists b, rest. ssimpl. rewrite Hi. repeat split.
Qed.

Lemma moved_after s s1 s' : sameQueue s s1 -> moved s1 s' -> moved s s'.
Proof.
  intros (A1 & B1 & C1 & D1) (b & rest & Hi & Hi' & Hf & Hn & Hh).
  exists b, rest. repeat split; congruence.
Qed.

Section Backpressure.

Variable env : Environment.
Variable context : Context.
Hypothesis context_safe : safeContext context.

Lemma finishOneCommandBatchLocked_effect timeout s :
  wp (finishOneCommandBatchLocked env context timeout) s
     (upheld (fun _ => moved s)).
Proof.
  unfold finishOneCommandBatchLocked, inFlightEmpty, onCommandBatchFinishedLocked.
  apply wp_bind, wp_get. cbn [andThen].
  apply wp_upheld_ASSERT; [reflexivity|]. intros _.
  apply wp_keeps_bind; [apply keeps_inFlightFront|]. intros b s1 H1.
  apply wp_keeps_bind; [apply keeps_hasFence|]. intros h s2 H2.
  apply wp_keeps_bind.
  { destruct h; [|apply keeps_ret].
    apply keeps_VK_TRY; [exact context_safe|apply keeps_waitFence]. }
  intros _ s3 H3.
  apply wp_keeps_bind; [apply keeps_getQueueSerial|]. intros q s4 H4.
  apply wp_keeps_bind; [apply keeps_setLastCompleted|]. intros _ s5 H5.
  eapply wp_conseq; [apply moveInFlightBatchToFinishedQueueLocked_effect|].
  intros r s'. apply upheld_impl. intros _. apply moved_after.
  repeat (eapply sameQueue_trans; [eassumption|]). apply sameQueue_refl.
Qed.

Lemma lenient_upheld {A} (R : A -> State -> Prop) : lenient (upheld R).
Proof. split; [intros; exact I|intros f s H; exact H]. Qed.

Lemma lenient_andThen {A B} (k : A -> M B) Q : lenient Q -> lenient (andThen k Q).
Proof. intros [H1 H2]. split; [exact H1|exact H2]. Qed.

Lemma wp_keeps_then {A B} (m : M A) (k : A -> M B) s Q :
  keeps m -> lenient Q ->
  (forall a s1, sameQueue s s1 -> wp (k a) s1 Q) ->
  wp (bind m k) s Q.
Proof.
  intros Hm [HQ1 HQ2] Hk. apply wp_bind. apply wp_keeps; [exact Hm|].
  intros r s1 Hu Hs. destruct r as [a| |f]; cbn [andThen].
  - apply Hk. apply (Hs a). reflexivity.
  - apply HQ1.
  - apply HQ2. exact Hu.
Qed.

Lemma popFinishedBatchLocked_effect s :
  wp popFinishedBatchLocked s (upheld (fun _ => popped s)).
Proof.
  unfold popFinishedBatchLocked, finishedFront.
  cbv [wp bind get ASSERT modify emit ret abort].
  destruct (mFinishedCommandBatches s) as [|b rest] eqn:Hf; cbn [fst snd upheld];
    [reflexivity|].
  ssimpl. destruct (mNumAllCommands s) as [|n] eqn:Hn; cbn [Nat.ltb Nat.leb fst snd upheld];
    [reflexivity|].
  exists b, rest. ssimpl. rewrite Hf, Hn. repeat split.
Qed.

Lemma popped_after s s1 s' : sameQueue s s1 -> popped s1 s' -> popped s s'.
Proof.
  intros (A1 & B1 & C1 & D1) (b & rest & Hf & Hf' & Hi & Hn & Hh).
  exists b, rest. repeat split; congruence.
Qed.

(** The loop of [releaseFinishedCommandsLocked] empties the finished ring,
    and its fuel is enough. *)
Lemma releaseFinishedCommandsLocked_loop n : forall s,
  length (mFinishedCommandBatches s) < n ->
  wp (loop n
        (e <- finishedEmpty ;;
         if e then ret false
         else
           (batch <- finishedFront ;;
            q <- getQueueSerial batch ;;
            completed <- get mLastCompletedSerials ;;
            ASSERT 1752 (queueSerialReached q completed) ;;
            CommandBatch_release env context batch ;;
            popFinishedBatchLocked ;;
            ret true))%cmd) s
     (upheld (fun _ => reclaimed s)).
Proof.
  induction n as [|n IH]; intros s Hlen; [lia|].
  cbn [loop]. apply wp_bind. unfold finishedEmpty at 1. apply wp_bind, wp_get.
  cbn [andThen].
  destruct (mFinishedCommandBatches s) as [|b0 rest0] eqn:Hf.
  { apply wp_ret. cbn [andThen]. apply wp_ret. cbn [upheld].
    unfold reclaimed. rewrite Hf. cbn [length]. repeat split. lia. }
  apply wp_keeps_then; [apply keeps_finishedFront|apply lenient_andThen, lenient_upheld|]. intros b s1 H1.
  apply wp_keeps_then; [apply keeps_getQueueSerial|apply lenient_andThen, lenient_upheld|]. intros q s2 H2.
  apply wp_keeps_then; [apply keeps_get|apply lenient_andThen, lenient_upheld|]. intros c s3 H3.
  apply wp_keeps_then; [apply keeps_ASSERT; reflexivity|apply lenient_andThen, lenient_upheld|]. intros _ s4 H4.
  apply wp_keeps_then;
    [apply keeps_CommandBatch_release; exact context_safe|apply lenient_andThen, lenient_upheld|].
  intros _ s5 H5.
  assert (H05 : sameQueue s s5).
  { repeat (eapply sameQueue_trans; [eassumption|]). apply sameQueue_refl. }
  apply wp_bind.
  eapply wp_conseq; [apply popFinishedBatchLocked_effect|].
  intros r s6 Hp. destruct r as [[]| |f]; cbn [andThen upheld] in *;
    [|exact I|exact Hp].
  apply popped_after with (s := s) in Hp; [|exact H05].
  destruct Hp as (b' & rest' & Hf0 & Hf6 & Hi6 & Hn6 & Hh6).
  apply wp_ret. cbn [andThen].
  eapply wp_conseq; [apply IH|].
  { rewrite Hf6. rewrite Hf0 in Hf. injection Hf as _ ->.
    cbn [length] in Hlen. lia. }
  intros r s7. apply upheld_impl. intros _ (Hi7 & Hf7 & Hn7 & Hh7).
  assert (Hrest : rest' = rest0) by congruence.
  unfold reclaimed. rewrite Hf6 in Hn7. rewrite Hf. cbn [length].
  repeat split; try congruence. rewrite <- Hrest. lia.
Qed.

Hypothesis capacity_positive : 0 < kInFlightCommandsLimit env.
Hypothesis capacity_ordered :
  kInFlightCommandsLimit env <= kMaxFinishedCommandsLimit env.

(** After the throttling the in-flight ring is not full: the assertion of
    line 1582 does not fail. *)
Lemma throttleInFlight_effect s :
  ringsInBounds env s ->
  wp (throttleInFlight env context) s
     (upheld (fun _ s' =>
        balanced s'
        /\ length (mInFlightCommands s') < kInFlightCommandsLimit env
        /\ mNumAllCommands s' = mNumAllCommands s
        /\ held s' = held s)).
Proof.
  intros (Hbal & Hlen & Hnum). unfold throttleInFlight, inFlightFull.
  apply wp_bind, wp_get. cbn [andThen]. apply wp_bind.
  destruct (kInFlightCommandsLimit env <=? length (mInFlightCommands s))%nat eqn:Hfull.
  - apply wp_lock_guard; intros Hh; [reflexivity|].
    apply wp_bind, wp_get. ssimpl. rewrite Hfull. cbn [andThen].
    eapply wp_conseq; [apply finishOneCommandBatchLocked_effect|].
    intros r s' Hm.
    destruct r as [[]| |f]; unfold released; cbn [andThen upheld] in *;
      [|exact I|exact Hm].
    destruct Hm as (b & rest & Hi & Hi' & Hf & Hn & Hheld).
    cbn in Hi, Hf, Hn, Hheld.
    apply wp_bind, wp_get. ssimpl. cbn [andThen].
    assert (Hlt : length rest < kInFlightCommandsLimit env).
    { rewrite Hi in Hlen. cbn [length] in Hlen. lia. }
    rewrite Hi'.
    assert ((kInFlightCommandsLimit env <=? length rest)%nat = false) as ->
      by (apply Nat.leb_gt; exact Hlt).
    apply wp_ASSERT; intros Hc; [|discriminate Hc].
    cbn [upheld]. unfold balanced in *. ssimpl.
    rewrite ?Hi', ?Hf, ?Hn, ?Hheld.
    split; [|split; [exact Hlt|split; [reflexivity|apply unhold_head]]].
    rewrite Hi in Hbal. rewrite length_app. cbn [length] in *. lia.
  - apply wp_ret. cbn [andThen]. apply wp_bind, wp_get. rewrite Hfull.
    cbn [andThen]. apply wp_ASSERT; intros Hc; [|discriminate Hc].
    cbn [upheld]. apply Nat.leb_gt in Hfull. auto.
Qed.

(** After the reclaiming the counter of all batches is below the capacity
    of the finished ring: the assertions of the lines 1586 and 1593 do not
    fail. *)
Lemma reserveFinished_effect s :
  balanced s ->
  length (mInFlightCommands s) < kInFlightCommandsLimit env ->
  mNumAllCommands s <= kMaxFinishedCommandsLimit env ->
  wp (reserveFinished env context) s
     (upheld (fun _ s' =>
        readyToPush env s'
        /\ held s' = held s
        /\ (mNumAllCommands s = kMaxFinishedCommandsLimit env ->
            mFinishedCommandBatches s' = []))).
Proof.
  intros Hbal Hlen Hnum. unfold reserveFinished, releaseFinishedCommandsLocked.
  apply wp_bind, wp_get. cbn [andThen]. apply wp_bind.
  apply wp_ASSERT; intros Hc; [|apply Nat.leb_gt in Hc; lia].
  cbn [andThen]. apply wp_bind.
  destruct (mNumAllCommands s =? kMaxFinishedCommandsLimit env)%nat eqn:Heq.
  - apply wp_lock_guard; intros Hh; [reflexivity|].
    apply wp_bind, wp_get. ssimpl. cbn [andThen].
    eapply wp_conseq; [apply releaseFinishedCommandsLocked_loop; ssimpl; lia|].
    intros r s' Hr.
    destruct r as [[]| |f]; unfold released; cbn [andThen upheld] in *;
      [|exact I|exact Hr].
    destruct Hr as (Hi & Hf & Hn & Hheld). cbn in Hi, Hn, Hheld.
    apply wp_bind, wp_get. ssimpl. cbn [andThen].
    unfold balanced in Hbal.
    assert (Hlt : mNumAllCommands s' < kMaxFinishedCommandsLimit env) by lia.
    assert ((mNumAllCommands s' <? kMaxFinishedCommandsLimit env)%nat = true) as ->
      by (apply Nat.ltb_lt; exact Hlt).
    apply wp_ASSERT; intros Hc2; [|discriminate Hc2].
    cbn [upheld]. unfold readyToPush, balanced. ssimpl.
    rewrite Hi, Hf, Hheld. cbn [length].
    repeat split; try lia; auto; apply unhold_head.
  - apply wp_ret. cbn [andThen]. apply wp_bind, wp_get. cbn [andThen].
    apply Nat.eqb_neq in Heq.
    assert ((mNumAllCommands s <? kMaxFinishedCommandsLimit env)%nat = true) as ->
      by (apply Nat.ltb_lt; lia).
    apply wp_ASSERT; intros Hc2; [|discriminate Hc2].
    cbn [upheld]. unfold readyToPush. repeat split; auto; try lia.
Qed.

(** The first three blocks of [queueSubmitLocked], from a state whose rings
    are in bounds: no assertion of the guarantees fails, the fuel of the
    loop is enough, and when the blocks return the batch can be pushed. *)
Lemma beforePush_effect pr info b s :
  ringsInBounds env s ->
  wp (throttleInFlight env context ;;
      reserveFinished env context ;;
      deviceSubmit env context pr info b)%cmd s
     (upheld (fun _ s' =>
        readyToPush env s'
        /\ held s' = held s
        /\ (mNumAllCommands s = kMaxFinishedCommandsLimit env ->
            mFinishedCommandBatches s' = []))).
Proof.
  intros Hin. pose proof Hin as (Hbal & Hlen & Hnum).
  apply wp_bind.
  eapply wp_conseq; [apply throttleInFlight_effect; exact Hin|].
  intros r1 s1 H1. destruct r1 as [[]| |f]; cbn [andThen upheld] in *;
    [|exact I|exact H1].
  destruct H1 as (Hbal1 & Hlen1 & Hnum1 & Hheld1).
  apply wp_bind.
  eapply wp_conseq; [apply reserveFinished_effect; auto; lia|].
  intros r2 s2 H2. destruct r2 as [[]| |f]; cbn [andThen upheld] in *;
    [|exact I|exact H2].
  destruct H2 as ((Hbal2 & Hlen2 & Hnum2) & Hheld2 & Hfin2).
  apply wp_keeps_last; [apply keeps_deviceSubmit; exact context_safe|].
  intros _ s3 (Hi3 & Hf3 & Hn3 & Hh3).
  unfold readyToPush, balanced in *. rewrite Hi3, Hf3, Hn3, Hh3.
  repeat split; auto; try congruence.
  intros Hfull. apply Hfin2. congruence.
Qed.

End Backpressure.

(** ** The events of the throttling and of the reclaiming *)

Lemma wp_since_tame_locked {A} allowed L (m : M A) s
    (P : list Event -> Outcome A -> State -> Prop) :
  tame allowed m -> lockedBy L (held s) ->
  (forall evs r s', Forall (under allowed L) evs -> lockedBy L (held s') ->
                    P evs r s') ->
  wp m s (since s P).
Proof.
  intros Hm HL HP. destruct (Hm L s HL) as ((evs & Ht & Hall & _ & Hl & _) & _).
  unfold wp, since. exists evs. split; [exact Ht|]. apply HP; assumption.
Qed.

Lemma wp_since_lock_guard_tame {A} allowed mu (body : M A) s
    (P : list Event -> Outcome A -> State -> Prop) :
  tame allowed body ->
  (forall evs r s', Forall (under allowed (mu :: held s)) evs -> P evs r s') ->
  wp (lock_guard mu body) s (since s P).
Proof.
  intros Hb HP. unfold wp, since, lock_guard, lock.
  destruct (holds mu (held s)); cbn [fst snd].
  { exists []. rewrite app_nil_r. split; [reflexivity|]. apply HP. constructor. }
  destruct (Hb (mu :: held s) (set_held (mu :: held s) s) (lockedBy_refl _))
    as ((evs & Ht & Hall & _) & _).
  destruct (body (set_held (mu :: held s) s)) as [[a| |f] s2]; cbn [fst snd] in *;
    exists evs; (split; [exact Ht|apply HP; exact Hall]).
Qed.

Lemma since_and {A} s (P P' : list Event -> Outcome A -> State -> Prop) r s' :
  since s P r s' -> since s P' r s' ->
  since s (fun evs r s' => P evs r s' /\ P' evs r s') r s'.
Proof.
  intros (evs & Ht & HP) (evs' & Ht' & HP'). exists evs. split; [exact Ht|].
  split; [exact HP|]. rewrite Ht in Ht'. apply app_inv_head in Ht'.
  rewrite Ht'. exact HP'.
Qed.

Lemma under_weaken (a1 a2 : Kind -> bool) L1 L2 evs :
  (forall k, a1 k = true -> a2 k = true) ->
  lockedBy L2 L1 ->
  Forall (under a1 L1) evs -> Forall (under a2 L2) evs.
Proof.
  intros Hk HL H. eapply Forall_impl; [exact H|].
  intros e [H1 H2]. split; [auto|]. intros m Hm. apply H2. apply HL. exact Hm.
Qed.

Section BlockEvents.

Variable env : Environment.
Variable context : Context.
Hypothesis context_tame : tameContext handling context.

Lemma throttling_context : tameContext throttling context.
Proof.
  apply (tameContext_weaken handling); [|exact context_tame].
  intros k Hk. destruct k; try reflexivity; discriminate Hk.
Qed.

Lemma reclaiming_context : tameContext reclaiming context.
Proof.
  apply (tameContext_weaken handling); [|exact context_tame].
  intros k Hk. destruct k; try reflexivity; discriminate Hk.
Qed.

Lemma calling_context : tameContext calling context.
Proof.
  apply (tameContext_weaken handling); [|exact context_tame].
  intros k Hk. destruct k; try reflexivity; discriminate Hk.
Qed.

(** Every event of the throttling is emitted under the complete mutex. *)
Lemma throttleInFlight_events s :
  wp (throttleInFlight env context) s
     (since s (fun evs _ _ =>
        Forall (under throttling (mCmdCompleteMutex :: held s)) evs)).
Proof.
  unfold throttleInFlight, inFlightFull.
  apply wp_since_bind. apply wp_since_pure. apply wp_get. split; [reflexivity|].
  apply wp_since_bind.
  destruct (kInFlightCommandsLimit env <=? length (mInFlightCommands s))%nat.
  - apply (wp_since_lock_guard_tame throttling).
    { apply tame_bind; [apply tame_get|]. intros full.
      destruct full; [|apply tame_ret].
      apply tame_finishOneCommandBatchLocked; try reflexivity.
      exact throttling_context. }
    intros evs r s1 Hall. cbn [app].
    destruct r as [[]| |f]; [|exact Hall|exact Hall].
    apply wp_since_bind. apply wp_since_pure. apply wp_get.
    split; [reflexivity|]. apply wp_since_ASSERT; intros _;
      rewrite !app_nil_r; exact Hall.
  - apply wp_since_ret. cbn [app].
    apply wp_since_bind. apply wp_since_pure. apply wp_get.
    split; [reflexivity|]. apply wp_since_ASSERT; intros _; constructor.
Qed.

(** Every event of the reclaiming is emitted under the release mutex. *)
Lemma reserveFinished_events s :
  wp (reserveFinished env context) s
     (since s (fun evs _ _ =>
        Forall (under reclaiming (mCmdReleaseMutex :: held s)) evs)).
Proof.
  unfold reserveFinished.
  apply wp_since_bind. apply wp_since_pure. apply wp_get. split; [reflexivity|].
  apply wp_since_bind. apply wp_since_ASSERT; intros _; [|constructor].
  apply wp_since_bind.
  destruct (mNumAllCommands s =? kMaxFinishedCommandsLimit env)%nat.
  - apply (wp_since_lock_guard_tame reclaiming).
    { apply tame_releaseFinishedCommandsLocked; try reflexivity.
      exact reclaiming_context. }
    intros evs r s1 Hall. cbn [app].
    destruct r as [[]| |f]; [|exact Hall|exact Hall].
    apply wp_since_bind. apply wp_since_pure. apply wp_get.
    split; [reflexivity|]. apply wp_since_ASSERT; intros _;
      rewrite !app_nil_r; exact Hall.
  - apply wp_since_ret. cbn [app].
    apply wp_since_bind. apply wp_since_pure. apply wp_get.
    split; [reflexivity|]. apply wp_since_ASSERT; intros _; constructor.
Qed.

Lemma startsWith_app w evs evs2 : startsWith w evs -> startsWith w (evs ++ evs2).
Proof. intros [rest ->]. exists (rest ++ evs2). reflexivity. Qed.

Lemma fenceOf_hasFence b s f : fenceOf b s = Some f -> hasFence b s = (Ok true, s).
Proof.
  unfold fenceOf. cbv [hasFence bind ASSERT deref get ret abort isSome].
  destruct (mFence b) as [p|], (mExternalFence b) as [e|]; try discriminate;
    cbn [negb orb andb fst snd]; [|reflexivity].
  destruct (sharedFences s !! p) as [r|]; [|discriminate].
  destruct (valid (rfFence r)); [reflexivity|discriminate].
Qed.

Lemma fenceOf_theFence b s f : fenceOf b s = Some f -> theFence b s = (Ok f, s).
Proof.
  unfold fenceOf. cbv [theFence bind deref get ret abort].
  destruct (mFence b) as [p|], (mExternalFence b) as [e|]; try discriminate.
  - destruct (sharedFences s !! p) as [r|]; [|discriminate].
    destruct (valid (rfFence r)); [|discriminate]. intros [= <-]. reflexivity.
  - intros [= <-]. reflexivity.
Qed.

Lemma wp_since_run {A} (m : M A) s a
    (P : list Event -> Outcome A -> State -> Prop) :
  m s = (Ok a, s) -> P [] (Ok a) s -> wp m s (since s P).
Proof.
  intros Hm HP. unfold wp, since. rewrite Hm. exists []. rewrite app_nil_r. auto.
Qed.

Lemma wp_since_lock_guard {A} mu (body : M A) s
    (P : list Event -> Outcome A -> State -> Prop) :
  holds mu (held s) = false ->
  wp body (set_held (mu :: held s) s)
     (since (set_held (mu :: held s) s)
        (fun evs r s' =>
           match r with
           | Abort f => P evs (Abort f) s'
           | _ => P evs r (set_held (unhold mu (held s')) s')
           end)) ->
  wp (lock_guard mu body) s (since s P).
Proof.
  intros Hh. unfold wp, since, lock_guard, lock. rewrite Hh.
  destruct (body (set_held (mu :: held s) s)) as [[a| |f] s2]; cbn [fst snd];
    intros (evs & Ht & HP); exists evs; auto.
Qed.

(** When the in-flight ring is full and its oldest batch has a fence, the
    throttling starts with the wait for this fence, bounded by the maximal
    wait of the renderer, under the complete mutex and the mutexes held at
    entry. *)
Lemma throttleInFlight_waits s b rest f :
  mInFlightCommands s = b :: rest ->
  kInFlightCommandsLimit env <= length (mInFlightCommands s) ->
  holds mCmdCompleteMutex (held s) = false ->
  fenceOf b s = Some f ->
  wp (throttleInFlight env context) s
     (since s (fun evs _ _ => startsWith (throttleWait env s f) evs)).
Proof.
  intros Hi Hfull Hh Hf. apply Nat.leb_le in Hfull.
  unfold throttleInFlight, inFlightFull.
  apply wp_since_bind. apply wp_since_pure. apply wp_get. split; [reflexivity|].
  rewrite Hfull. apply wp_since_bind. apply wp_since_lock_guard; [exact Hh|].
  set (s0 := set_held (mCmdCompleteMutex :: held s) s).
  apply wp_since_bind. apply wp_since_pure. apply wp_get. split; [reflexivity|].
  change (mInFlightCommands s0) with (mInFlightCommands s). rewrite Hfull.
  unfold finishOneCommandBatchLocked, inFlightEmpty.
  apply wp_since_bind. apply wp_since_pure. apply wp_get. split; [reflexivity|].
  change (mInFlightCommands s0) with (mInFlightCommands s). rewrite Hi.
  apply wp_since_bind. apply wp_since_ASSERT; intros Hc; [|discriminate Hc].
  apply wp_since_bind. apply (wp_since_run _ _ b).
  { unfold inFlightFront. cbv [bind get]. cbn [fst snd].
    change (mInFlightCommands s0) with (mInFlightCommands s). rewrite Hi.
    reflexivity. }
  apply wp_since_bind. apply (wp_since_run _ _ true).
  { apply (fenceOf_hasFence b s0 f). exact Hf. }
  apply wp_since_bind. unfold ANGLE_VK_TRY, waitFence.
  apply wp_since_bind. apply wp_since_bind. apply (wp_since_run _ _ true).
  { apply (fenceOf_hasFence b s0 f). exact Hf. }
  apply wp_since_bind. apply wp_since_ASSERT; intros Hc2; [|discriminate Hc2].
  apply wp_since_bind. apply (wp_since_run _ _ f).
  { apply (fenceOf_theFence b s0 f). exact Hf. }
  apply wp_since_ask. cbn [app].
  destruct (vkWaitForFences env (trace s0) f (getMaxFenceWaitTimeNs env)
            =? VK_SUCCESS)%Z.
  - apply wp_since_ret.
    apply (wp_since_tame throttling _ _ (fun _ => True));
      [apply tame_onCommandBatchFinishedLocked; reflexivity
      |apply wp_returns_any|].
    intros evs0 r s1 _ _.
    destruct r as [[]| |x]; [|eexists; reflexivity..].
    apply wp_since_bind. apply wp_since_pure. apply wp_get.
    split; [reflexivity|].
    apply wp_since_ASSERT; intros _; eexists; reflexivity.
  - apply wp_since_bind.
    apply (wp_since_tame handling _ _ (fun _ => True));
      [exact (proj1 (context_tame _ _ _ _))|apply wp_returns_any|].
    intros evs0 r s1 _ _.
    destruct r as [[]| |x]; [|eexists; reflexivity..].
    apply wp_since_pure. unfold stop, wp. cbn [fst snd].
    split; [reflexivity|]. eexists; reflexivity.
Qed.

End BlockEvents.

(** ** Computations that leave a part of the state alone *)

Section Preserves.

Context {X : Type}.
Variable proj : State -> X.
Hypothesis proj_trace : forall t s, proj (set_trace t s) = proj s.
Hypothesis proj_held : forall l s, proj (set_held l s) = proj s.

Lemma preserves_ret {A} (a : A) : preserves proj (ret a).
Proof. intros s a' _. reflexivity. Qed.

Lemma preserves_get {A} (f : State -> A) : preserves proj (get f).
Proof. intros s a' _. reflexivity. Qed.

Lemma preserves_stop {A} : preserves proj (@stop A).
Proof. intros s a H. discriminate H. Qed.

Lemma preserves_abort {A} f : preserves proj (@abort A f).
Proof. intros s a H. discriminate H. Qed.

Lemma preserves_ASSERT ln c : preserves proj (ASSERT ln c).
Proof. intros s a H. unfold ASSERT in *. destruct c; [reflexivity|discriminate H]. Qed.

Lemma preserves_modify (f : State -> State) :
  (forall s, proj (f s) = proj s) -> preserves proj (modify f).
Proof. intros H s a _. apply H. Qed.

Lemma preserves_emit a : preserves proj (emit a).
Proof. intros s a' _. apply proj_trace. Qed.

Lemma preserves_ask {A} (oracle : list Event -> A) a : preserves proj (ask oracle a).
Proof. intros s a' _. apply proj_trace. Qed.

Lemma preserves_bind {A B} (m : M A) (k : A -> M B) :
  preserves proj m -> (forall a, preserves proj (k a)) -> preserves proj (bind m k).
Proof.
  intros Hm Hk s b. pose proof (Hm s) as H1. unfold bind.
  destruct (m s) as [[a| |f] s1]; cbn [fst snd] in *; try discriminate.
  intros Hb. rewrite (Hk a s1 b Hb). apply (H1 a). reflexivity.
Qed.

Lemma preserves_lock_guard {A} mu (body : M A) :
  preserves proj body -> preserves proj (lock_guard mu body).
Proof.
  intros Hb s a. unfold lock_guard, lock.
  destruct (holds mu (held s)); cbn [fst snd]; [discriminate|].
  pose proof (Hb (set_held (mu :: held s) s)) as H1.
  destruct (body (set_held (mu :: held s) s)) as [[a'| |f] s1]; cbn [fst snd] in *;
    try discriminate.
  intros _. rewrite proj_held, (H1 a' eq_refl). apply proj_held.
Qed.

Lemma preserves_onStop {A} (cleanup : M unit) (m : M A) :
  preserves proj m -> preserves proj (onStop cleanup m).
Proof.
  intros Hm s a. pose proof (Hm s) as H1. unfold onStop.
  destruct (m s) as [[a'| |f] s1]; cbn [fst snd] in *.
  - intros _. apply (H1 a'). reflexivity.
  - destruct (cleanup s1) as [[[]| |f] s2]; discriminate.
  - discriminate.
Qed.

Lemma preserves_VK_TRY context (command : M VkResult) fn ln :
  preserves proj command -> preserves proj (ANGLE_VK_TRY context command fn ln).
Proof.
  intros Hc. unfold ANGLE_VK_TRY. apply preserves_bind; [exact Hc|].
  intros result. destruct (result =? VK_SUCCESS)%Z; [apply preserves_ret|].
  intros s a. unfold bind, stop.
  destruct (handleError context result thisFile fn ln s) as [[[]| |f] s2];
    discriminate.
Qed.

Lemma preserves_loop n (body : M bool) :
  preserves proj body -> preserves proj (loop n body).
Proof.
  intros Hb. induction n as [|n IH]; cbn [loop]; [apply preserves_abort|].
  apply preserves_bind; [exact Hb|]. intros c.
  destruct c; [exact IH|apply preserves_ret].
Qed.

Lemma preserves_forEach {A} (l : list A) (body : A -> M unit) :
  (forall a, preserves proj (body a)) -> preserves proj (forEach l body).
Proof.
  intros Hb. induction l as [|x l IH]; cbn [forEach]; [apply preserves_ret|].
  apply preserves_bind; [apply Hb|]. intros _. exact IH.
Qed.

End Preserves.

Lemma wp_preserves {X A} (proj : State -> X) (m : M A) s
    (Q : Outcome A -> State -> Prop) :
  preserves proj m ->
  (forall r s', (forall a, r = Ok a -> proj s' = proj s) -> Q r s') ->
  wp m s Q.
Proof. intros Hm HQ. unfold wp. apply HQ. intros a Ha. exact (Hm s a Ha). Qed.

Ltac frame_rewrite :=
  intros; ssimpl;
  repeat match goal with
         | H : forall _ _, ?p (_ _ _) = ?p _ |- _ => rewrite H
         end;
  reflexivity.

Ltac preserves_leaf :=
  lazymatch goal with
  | |- preserves _ (ret _) => apply preserves_ret
  | |- preserves _ (get _) => apply preserves_get
  | |- preserves _ stop => apply preserves_stop
  | |- preserves _ (abort _) => apply preserves_abort
  | |- preserves _ UNREACHABLE => apply preserves_abort
  | |- preserves _ (ASSERT _ _) => apply preserves_ASSERT
  | |- preserves _ (modify _) => apply preserves_modify; frame_rewrite
  | |- preserves _ (emit _) => apply preserves_emit; frame_rewrite
  | |- preserves _ (ask _ _) => apply preserves_ask; frame_rewrite
  end.

Ltac preserves_step :=
  lazymatch goal with
  | |- preserves _ (bind _ _) => apply preserves_bind; [|intros]
  | |- preserves _ (lock_guard _ _) => apply preserves_lock_guard; [frame_rewrite|]
  | |- preserves _ (loop _ _) => apply preserves_loop
  | |- preserves _ (forEach _ _) => apply preserves_forEach; intros
  | |- preserves _ (onStop _ _) => apply preserves_onStop
  | |- preserves _ (ANGLE_VK_TRY _ _ _ _) => apply preserves_VK_TRY
  | |- preserves _ (if ?c then _ else _) => destruct c
  | |- preserves _ (match ?x with _ => _ end) => destruct x
  | |- preserves _ _ => preserves_leaf
  end.

Create HintDb preserves discriminated.

Ltac preserves_auto := repeat first [preserves_step | solve [eauto with preserves]].

(** ** A submission that goes through *)

Lemma wp_onStop_returns {A} (cleanup : M unit) (m : M A) s
    (Q : Outcome A -> State -> Prop) :
  wp m s (fun r s' => match r with Ok a => Q (Ok a) s' | _ => False end) ->
  wp (onStop cleanup m) s Q.
Proof.
  intros H. apply wp_onStop. eapply wp_conseq; [exact H|].
  intros [a| |f] s'; [auto|contradiction..].
Qed.

(** The extraction of the commands of a pair that passes the assertions,
    on a device that ends the primary buffer. *)
Lemma wp_getCommandsAndWaitSemaphores env context pt pr b s
    (Q : Outcome (CommandBatch * (list VkSemaphore * list VkPipelineStageFlags))
         -> State -> Prop) :
  holds mCmdPoolMutex (held s) = false ->
  (valid (primaryCommands (mCommandsStateMap s pr pt)) = false ->
   secondaryCommands (mCommandsStateMap s pr pt) = []) ->
  (forall t c, vkEndCommandBuffer env t c = VK_SUCCESS) ->
  valid (mPrimaryCommands b) = false ->
  mCommandPoolAccess b = false ->
  mSecondaryCommands b = [] ->
  (forall s',
     held s' = held s ->
     mFenceRecycler s' = mFenceRecycler s ->
     sharedFences s' = sharedFences s ->
     mInFlightCommands s' = mInFlightCommands s ->
     mNumAllCommands s' = mNumAllCommands s ->
     mLastSubmittedSerials s' = mLastSubmittedSerials s ->
     Q (Ok (set_mSecondaryCommands (secondaryCommands (mCommandsStateMap s pr pt))
              (set_mCommandPoolAccess true
                 (set_mPrimaryCommands (primaryCommands (mCommandsStateMap s pr pt)) b)),
            (waitSemaphores (mCommandsStateMap s pr pt),
             waitSemaphoreStageMasks (mCommandsStateMap s pr pt)))) s') ->
  wp (getCommandsAndWaitSemaphores env context pt pr b) s Q.
Proof.
  intros Hh Hsec Hdev Hb1 Hb2 Hb3 HQ. unfold getCommandsAndWaitSemaphores.
  apply wp_lock_guard; [congruence|]. intros _. wp_steps.
  set (st := mCommandsStateMap s pr pt) in *.
  assert (H1191 : valid (primaryCommands st)
                  || match secondaryCommands st with [] => true | _ => false end = true).
  { destruct (valid (primaryCommands st)); [reflexivity|]. rewrite Hsec; reflexivity. }
  rewrite H1191. apply wp_ASSERT; intros Hx; [clear Hx|discriminate Hx]. wp_steps.
  unfold setPrimaryCommands, setSecondaryCommands, set_state, ANGLE_VK_TRY.
  destruct (valid (primaryCommands st)) eqn:Hv.
  - wp_steps. rewrite Hdev. cbn [Z.eqb VK_SUCCESS]. wp_steps.
    rewrite Hb1, Hb2. cbn [negb andb].
    repeat (apply wp_ASSERT; intros Hx; [clear Hx|discriminate Hx]; wp_steps).
    cbn [mSecondaryCommands set_mCommandPoolAccess set_mPrimaryCommands].
    rewrite Hb3.
    repeat (apply wp_ASSERT; intros Hx; [clear Hx|discriminate Hx]; wp_steps).
    apply HQ; ssimpl; rewrite ?unhold_head; reflexivity.
  - wp_steps. rewrite Hb1, Hb2. cbn [negb andb].
    repeat (apply wp_ASSERT; intros Hx; [clear Hx|discriminate Hx]; wp_steps).
    cbn [mSecondaryCommands set_mCommandPoolAccess set_mPrimaryCommands].
    rewrite Hb3.
    repeat (apply wp_ASSERT; intros Hx; [clear Hx|discriminate Hx]; wp_steps).
    apply HQ; ssimpl; rewrite ?unhold_head; reflexivity.
Qed.

(** A batch without a fence gets one of its own, from the recycler or from
    the device. *)
Lemma wp_initFence env b s (Q : Outcome (VkResult * CommandBatch) -> State -> Prop) :
  mFence b = None -> mExternalFence b = None ->
  holds mRecyclerMutex (held s) = false ->
  (forall t, fst (vkCreateFence env t) = VK_SUCCESS
             /\ valid (snd (vkCreateFence env t)) = true) ->
  match mFenceRecycler s with f :: _ => valid f = true | [] => True end ->
  (forall s' p r,
     sharedFences s' !! p = Some r ->
     valid (rfFence r) = true ->
     held s' = held s ->
     mInFlightCommands s' = mInFlightCommands s ->
     mNumAllCommands s' = mNumAllCommands s ->
     mLastSubmittedSerials s' = mLastSubmittedSerials s ->
     Q (Ok (VK_SUCCESS, set_mFence (Some p) b)) s') ->
  wp (initFence env b) s Q.
Proof.
  intros Hf He Hh Hdev Hrec HQ. unfold initFence, hasFence. rewrite Hf, He.
  cbn [isSome negb orb]. wp_steps.
  apply wp_ASSERT; intros Hx; [clear Hx|discriminate Hx]. wp_steps.
  apply wp_ASSERT; intros Hx; [clear Hx|discriminate Hx]. wp_steps.
  unfold SharedFence_MakeShared. wp_steps.
  unfold RecyclableFence_init, deref. wp_steps.
  rewrite list_lookup_middle by reflexivity. wp_steps.
  apply wp_ASSERT; intros Hx; [clear Hx|discriminate Hx]. wp_steps.
  apply wp_ASSERT; intros Hx; [clear Hx|discriminate Hx]. wp_steps.
  unfold FenceRecycler_fetch. wp_steps.
  apply wp_ASSERT; intros Hx; [clear Hx|discriminate Hx]. wp_steps.
  apply wp_lock_guard; [ssimpl; congruence|]. intros _.
  unfold Recycler_empty, Recycler_fetch, store. wp_steps.
  destruct (mFenceRecycler s) as [|f rest] eqn:Hr; cbn [negb].
  - wp_steps. cbn [rfFence]. change (valid VK_NULL_HANDLE) with false. cbn [negb].
    wp_steps.
    destruct (Hdev (trace s)) as [Hc1 Hc2]. rewrite Hc1. cbn [Z.eqb VK_SUCCESS negb].
    wp_steps. rewrite Hc2.
    apply wp_ASSERT; intros Hx; [clear Hx|discriminate Hx]. wp_steps.
    cbn [Z.eqb VK_SUCCESS]. wp_steps.
    rewrite !list_insert_insert_eq.
    rewrite list_lookup_insert_eq by (rewrite length_app; cbn [length]; lia).
    wp_steps. cbn [set_rfRecycler set_rfFence rfFence]. rewrite Hc2.
    apply wp_ASSERT; intros Hx; [clear Hx|discriminate Hx]. wp_steps.
    eapply HQ; ssimpl; rewrite ?unhold_head; try reflexivity.
    + apply list_lookup_insert_eq. rewrite length_app. cbn [length]. lia.
    + exact Hc2.
  - wp_steps. rewrite Hr. wp_steps. rewrite Hrec. cbn [negb]. wp_steps.
    cbn [Z.eqb VK_SUCCESS]. wp_steps.
    rewrite !list_insert_insert_eq.
    rewrite list_lookup_insert_eq by (rewrite length_app; cbn [length]; lia).
    wp_steps. cbn [set_rfRecycler set_rfFence rfFence]. rewrite Hrec.
    apply wp_ASSERT; intros Hx; [clear Hx|discriminate Hx]. wp_steps.
    eapply HQ; ssimpl; rewrite ?unhold_head; try reflexivity.
    + apply list_lookup_insert_eq. rewrite length_app. cbn [length]. lia.
    + exact Hrec.
Qed.

(** A submission into rings with room, of a batch whose fence is at hand
    when the info is filled in: nothing is waited for, the device takes the
    submission, and the batch is pushed before its serial is stored. *)
Lemma wp_queueSubmitLocked_room env context pr info b q s
    (Q : Outcome unit -> State -> Prop) :
  length (mInFlightCommands s) < kInFlightCommandsLimit env ->
  mNumAllCommands s < kMaxFinishedCommandsLimit env ->
  is_Some (serialAt (mLastSubmittedSerials s) (qsIndex q)) ->
  (forall t i f, vkQueueSubmit env t i f = VK_SUCCESS) ->
  ((sType info =? VK_STRUCTURE_TYPE_SUBMIT_INFO)%Z = true ->
   exists f, fenceOf b s = Some f /\ valid f = true) ->
  (forall s',
     mInFlightCommands s' = mInFlightCommands s ++ [b] ->
     mNumAllCommands s' = S (mNumAllCommands s) ->
     mLastSubmittedSerials s'
     = <[N.to_nat (qsIndex q) := qsSerial q]> (mLastSubmittedSerials s) ->
     held s' = held s ->
     Q (Ok tt) s') ->
  wp (queueSubmitLocked env context pr info b q) s Q.
Proof.
  intros Hroom Hcount [v Hidx] Hdev Hfence HQ.
  unfold queueSubmitLocked, throttleInFlight, reserveFinished, inFlightFull.
  assert (Hfull : (kInFlightCommandsLimit env <=? length (mInFlightCommands s))%nat = false)
    by (apply Nat.leb_gt; exact Hroom).
  assert (Hle : (mNumAllCommands s <=? kMaxFinishedCommandsLimit env)%nat = true)
    by (apply Nat.leb_le; lia).
  assert (Hne : (mNumAllCommands s =? kMaxFinishedCommandsLimit env)%nat = false)
    by (apply Nat.eqb_neq; lia).
  assert (Hlt : (mNumAllCommands s <? kMaxFinishedCommandsLimit env)%nat = true)
    by (apply Nat.ltb_lt; exact Hcount).
  wp_steps. rewrite Hfull. wp_steps. rewrite Hfull. cbn [negb].
  apply wp_ASSERT; intros Hx; [clear Hx|discriminate Hx]. wp_steps.
  rewrite Hle. apply wp_ASSERT; intros Hx; [clear Hx|discriminate Hx]. wp_steps.
  rewrite Hne. wp_steps. rewrite Hlt.
  apply wp_ASSERT; intros Hx; [clear Hx|discriminate Hx]. wp_steps.
  assert (Hpush : forall s1,
            mInFlightCommands s1 = mInFlightCommands s ->
            mNumAllCommands s1 = mNumAllCommands s ->
            mLastSubmittedSerials s1 = mLastSubmittedSerials s ->
            held s1 = held s ->
            wp (pushInFlightBatchLocked env b ;; setLastSubmitted q) s1 Q).
  { intros s1 E1 E2 E3 E4. unfold pushInFlightBatchLocked, inFlightFull, setLastSubmitted.
    wp_steps. rewrite E1, Hfull. cbn [negb].
    apply wp_ASSERT; intros Hx; [clear Hx|discriminate Hx]. wp_steps.
    rewrite E3, Hidx. wp_steps. apply HQ; ssimpl; congruence. }
  unfold deviceSubmit.
  destruct (sType info =? VK_STRUCTURE_TYPE_SUBMIT_INFO)%Z eqn:Hty.
  - destruct (Hfence eq_refl) as (f & Hf & Hvf).
    unfold getFenceHandle. apply wp_bind, wp_bind.
    eapply wp_eq; [apply (fenceOf_hasFence _ _ _ Hf)|]. cbn [andThen].
    apply wp_bind, wp_ASSERT; intros Hx; [clear Hx|discriminate Hx]. cbn [andThen].
    eapply wp_eq; [apply (fenceOf_theFence _ _ _ Hf)|]. cbn [andThen].
    unfold valid in Hvf. rewrite Hvf.
    apply wp_bind, wp_ASSERT; intros Hx; [clear Hx|discriminate Hx]. cbn [andThen].
    unfold ANGLE_VK_TRY. apply wp_bind, wp_bind, wp_ask. cbn [andThen].
    rewrite Hdev. cbn [Z.eqb VK_SUCCESS]. apply wp_ret. cbn [andThen].
    destruct (mExternalFence b) as [e|].
    + apply wp_emit. cbn [andThen]. apply Hpush; reflexivity.
    + apply wp_ret. cbn [andThen]. apply Hpush; reflexivity.
  - apply wp_ret. cbn [andThen]. apply Hpush; reflexivity.
Qed.

(** On a device that obliges, a submission that the state lets through
    returns with its batch pushed and its serial stored. *)
Lemma submitCommands_returns env context pt pr signal ext q s :
  obligingDevice env ->
  submittable env pt pr ext q s ->
  wp (submitCommands env context pt pr signal ext q) s
     (fun r s' =>
        r = Ok tt
        /\ exists b,
             mInFlightCommands s' = mInFlightCommands s ++ [b]
             /\ mQueueSerial b = q
             /\ mPrimaryCommands b = primaryCommands (mCommandsStateMap s pr pt)
             /\ fenceIsSet b = needsQueueSubmit (mCommandsStateMap s pr pt) signal ext
             /\ mNumAllCommands s' = S (mNumAllCommands s)
             /\ mLastSubmittedSerials s'
                = <[N.to_nat (qsIndex q) := qsSerial q]> (mLastSubmittedSerials s)
             /\ held s' = held s).
Proof.
  intros (Dend & Dcreate & Dsubmit)
         (Hm1 & Hm2 & Hm3 & Hq & Hpt & Hidx & Hroom & Hcount & Hsec & Hlen & Hrec & Hext).
  unfold submitCommands. apply wp_lock_guard; [congruence|]. intros _.
  unfold setQueueSerial, setProtectionType. rewrite Hq, Hpt.
  cbn [CommandBatch_new mQueueSerial mProtectionType set_mQueueSerial].
  apply wp_bind, wp_bind. apply wp_ASSERT; intros Hx; [clear Hx|discriminate Hx].
  cbn [andThen]. apply wp_bind.
  apply wp_ASSERT; intros Hx; [clear Hx|discriminate Hx]. cbn [andThen].
  apply wp_ret. cbn [andThen].
  apply wp_bind, wp_bind. apply wp_ASSERT; intros Hx; [clear Hx|discriminate Hx].
  cbn [andThen]. apply wp_bind.
  apply wp_ASSERT; intros Hx; [clear Hx|discriminate Hx]. cbn [andThen].
  apply wp_ret. cbn [andThen].
  apply wp_bind, wp_onStop_returns.
  apply wp_getCommandsAndWaitSemaphores; ssimpl; try assumption; try reflexivity.
  intros s1 A1 A2 A3 A4 A5 A6. cbn [andThen fst snd].
  set (st := mCommandsStateMap s pr pt) in *.
  set (b1 := set_mSecondaryCommands (secondaryCommands st)
               (set_mCommandPoolAccess true
                  (set_mPrimaryCommands (primaryCommands st)
                     (set_mProtectionType pt (set_mQueueSerial q CommandBatch_new))))).
  change (mPrimaryCommands b1) with (primaryCommands st).
  change (valid (primaryCommands st) || negb (signal =? VK_NULL_HANDLE)%Z
          || isSome ext
          || negb match waitSemaphores st with [] => true | _ => false end)
    with (needsQueueSubmit st signal ext).
  assert (Hend : forall info b s2,
            ((sType info =? VK_STRUCTURE_TYPE_SUBMIT_INFO)%Z = true ->
             exists f, fenceOf b s2 = Some f /\ valid f = true) ->
            mQueueSerial b = q ->
            mPrimaryCommands b = primaryCommands st ->
            fenceIsSet b = needsQueueSubmit st signal ext ->
            held s2 = held s1 ->
            mInFlightCommands s2 = mInFlightCommands s1 ->
            mNumAllCommands s2 = mNumAllCommands s1 ->
            mLastSubmittedSerials s2 = mLastSubmittedSerials s1 ->
            wp (onStop (destroyScoped b)
                  (queueSubmitLocked env context pr info b q)) s2
               (released mQueueSubmitMutex
                  (fun r s' =>
                     r = Ok tt
                     /\ exists b,
                          mInFlightCommands s' = mInFlightCommands s ++ [b]
                          /\ mQueueSerial b = q
                          /\ mPrimaryCommands b = primaryCommands st
                          /\ fenceIsSet b = needsQueueSubmit st signal ext
                          /\ mNumAllCommands s' = S (mNumAllCommands s)
                          /\ mLastSubmittedSerials s'
                             = <[N.to_nat (qsIndex q) := qsSerial q]>
                                 (mLastSubmittedSerials s)
                          /\ held s' = held s))).
  { intros info b s2 Hfence B1 B2 B3 E1 E2 E3 E4. apply wp_onStop_returns.
    apply wp_queueSubmitLocked_room; try assumption; try congruence.
    intros s3 F1 F2 F3 F4. cbn [released]. ssimpl. split; [reflexivity|].
    exists b. rewrite F1, F2, F3, F4, E1, E2, E3, E4, A1, A4, A5, A6. ssimpl.
    rewrite unhold_head. repeat split; assumption. }
  apply wp_bind.
  destruct (needsQueueSubmit st signal ext) eqn:Hneeds.
  - unfold InitializeSubmitInfo. cbn [VkSubmitInfo_zero signalSemaphoreCount Z.eqb].
    apply wp_bind, wp_bind.
    apply wp_ASSERT; intros Hx; [clear Hx|discriminate Hx]. cbn [andThen].
    apply wp_bind. rewrite Hlen, Nat.eqb_refl.
    apply wp_ASSERT; intros Hx; [clear Hx|discriminate Hx]. cbn [andThen].
    apply wp_ret. cbn [andThen]. apply wp_bind.
    assert (Hty : forall info0 : VkSubmitInfo,
              sType info0 = VK_STRUCTURE_TYPE_SUBMIT_INFO ->
              sType (if ProtectionType_eqb pt Protected && valid (primaryCommands st)
                     then set_protectedSubmit true info0 else info0)
              = VK_STRUCTURE_TYPE_SUBMIT_INFO).
    { intros info0 H0.
      destruct (ProtectionType_eqb pt Protected && valid (primaryCommands st));
        exact H0. }
    destruct ext as [e|]; cbn [isSome negb].
    + unfold setExternalFence, hasFence.
      cbn [b1 mFence mExternalFence set_mSecondaryCommands set_mCommandPoolAccess
           set_mPrimaryCommands set_mProtectionType set_mQueueSerial CommandBatch_new
           isSome negb orb].
      apply wp_bind, wp_bind.
      apply wp_ASSERT; intros Hx; [clear Hx|discriminate Hx]. cbn [andThen].
      apply wp_bind, wp_ret. cbn [andThen]. apply wp_ret. cbn [andThen negb].
      apply wp_bind.
      apply wp_ASSERT; intros Hx; [clear Hx|discriminate Hx]. cbn [andThen].
      apply wp_ret. cbn [andThen]. apply wp_ret. cbn [andThen fst snd].
      apply Hend; try reflexivity.
      intros _. exists e. split; [reflexivity|exact Hext].
    + apply wp_bind. apply wp_initFence; try reflexivity; try assumption.
      { rewrite A1. cbn [holds Mutex_eqb orb]. exact Hm3. }
      { rewrite A2. exact Hrec. }
      intros s2 p r G1 G2 G3 G4 G5 G6. cbn [andThen fst snd].
      apply wp_bind, wp_onStop_returns. unfold ANGLE_VK_TRY.
      apply wp_bind, wp_ret. cbn [andThen Z.eqb VK_SUCCESS]. apply wp_ret.
      cbn [andThen]. apply wp_ret. cbn [andThen]. apply wp_ret. cbn [andThen fst snd].
      apply Hend; try reflexivity; try assumption.
      intros _. exists (rfFence r). split; [|exact G2].
      unfold fenceOf. cbn [mFence mExternalFence set_mFence b1 set_mSecondaryCommands
           set_mCommandPoolAccess set_mPrimaryCommands set_mProtectionType
           set_mQueueSerial CommandBatch_new].
      rewrite G1, G2. reflexivity.
  - apply wp_ret. cbn [andThen fst snd]. apply Hend; try reflexivity.
    discriminate.
Qed.

Lemma quietDevice_obliging : obligingDevice quietDevice.
Proof. repeat split. Qed.

(** C4: [submitCommands] calls the device's submit at most once, and only
    when a submit is needed: when the commands state the batch is extracted
    from has a valid primary command buffer, or a signal semaphore or an
    external fence was given, or the wait semaphores of the state are not
    empty.  A call that returns has called it exactly when it is needed.  A
    submission that needs none calls no submit and acquires no fence, and
    when it returns its batch, with the serial of the submission and without
    a fence, is the youngest of the in-flight ring and its serial is the
    last submitted one.  And the call does return when the device obliges
    and the state lets the submission through without a wait: a batch with
    the serial of the submission and the primary buffer of the commands
    state has been made and pushed behind the batches of the in-flight
    ring, the counter of all batches has gone up by one, the serial is the
    last submitted one of its index, the device's submit has been called
    once when a submit is needed and not at all when none is, and the batch
    holds a fence exactly when a submit is needed. *)
Theorem submitCommands_submits_when_needed env context pt pr signal ext q s :
  tameContext noSubmitNoFence context ->
  let needs := needsQueueSubmit (mCommandsStateMap s pr pt) signal ext in
  let r := submitCommands env context pt pr signal ext q s in
  exists evs,
    trace (snd r) = trace s ++ evs
    /\ submitOutcome needs q evs (fst r) (snd r)
    /\ (obligingDevice env -> submittable env pt pr ext q s ->
        fst r = Ok tt
        /\ countKind KSubmit evs = (if needs then 1 else 0)
        /\ exists b,
             mInFlightCommands (snd r) = mInFlightCommands s ++ [b]
             /\ mQueueSerial b = q
             /\ mPrimaryCommands b = primaryCommands (mCommandsStateMap s pr pt)
             /\ fenceIsSet b = needs
             /\ mNumAllCommands (snd r) = S (mNumAllCommands s)
             /\ mLastSubmittedSerials (snd r)
                = <[N.to_nat (qsIndex q) := qsSerial q]> (mLastSubmittedSerials s)
             /\ held (snd r) = held s).
Proof.
  intros Hc needs r.
  destruct (submitCommands_outcome env context pt pr signal ext q s Hc)
    as (evs & Ht & Hout).
  exists evs. split; [exact Ht|]. split; [exact Hout|].
  intros Hdev Hs.
  pose proof (wp_elim _ _ _ (submitCommands_returns env context pt pr signal ext q s Hdev Hs))
    as (Hok & b & Hb).
  split; [exact Hok|]. split; [|exists b; exact Hb].
  destruct Hout as (Hle & _ & Hret). destruct (Hret Hok) as [Hiff _].
  fold needs in Hiff. destruct needs.
  - apply Hiff. reflexivity.
  - destruct (countKind KSubmit evs) as [|[|n]] eqn:Hn; [reflexivity| |lia].
    destruct Hiff as [Hiff _]. discriminate (Hiff eq_refl).
Qed.

Lemma submitCommands_submits_when_needed_witness :
  let pushed (signal : VkSemaphore) :=
    let s := initialState in
    let needs := needsQueueSubmit (mCommandsStateMap s Medium Unprotected) signal None in
    let r := submitCommands quietDevice (externalContext 0) Unprotected Medium
               signal None firstSerial s in
    exists evs,
      trace (snd r) = trace s ++ evs
      /\ submitOutcome needs firstSerial evs (fst r) (snd r)
      /\ fst r = Ok tt
      /\ countKind KSubmit evs = (if needs then 1 else 0)
      /\ exists b,
           mInFlightCommands (snd r) = mInFlightCommands s ++ [b]
           /\ mQueueSerial b = firstSerial
           /\ mPrimaryCommands b
              = primaryCommands (mCommandsStateMap s Medium Unprotected)
           /\ fenceIsSet b = needs
           /\ mNumAllCommands (snd r) = S (mNumAllCommands s)
           /\ mLastSubmittedSerials (snd r)
              = <[N.to_nat (qsIndex firstSerial) := qsSerial firstSerial]>
                  (mLastSubmittedSerials s)
           /\ held (snd r) = held s in
  needsQueueSubmit (mCommandsStateMap initialState Medium Unprotected)
    VK_NULL_HANDLE None = false
  /\ pushed VK_NULL_HANDLE
  /\ needsQueueSubmit (mCommandsStateMap initialState Medium Unprotected)
       77%Z None = true
  /\ pushed 77%Z.
Proof.
  assert (Hs : submittable quietDevice Unprotected Medium None firstSerial initialState).
  { repeat split; try reflexivity.
    - eexists. reflexivity.
    - vm_compute. lia.
    - vm_compute. lia. }
  assert (Hc : tameContext noSubmitNoFence (externalContext 0))
    by (apply tameContext_external; reflexivity).
  cbv zeta. split; [reflexivity|]. split; [|split; [reflexivity|]].
  - destruct (submitCommands_submits_when_needed quietDevice (externalContext 0)
                Unprotected Medium VK_NULL_HANDLE None firstSerial initialState Hc)
      as (evs & Ht & Hout & Hgo).
    destruct (Hgo quietDevice_obliging Hs) as (Hok & Hn & Hb).
    exists evs. split; [exact Ht|]. split; [exact Hout|]. split; [exact Hok|].
    split; [exact Hn|exact Hb].
  - destruct (submitCommands_submits_when_needed quietDevice (externalContext 0)
                Unprotected Medium 77%Z None firstSerial initialState Hc)
      as (evs & Ht & Hout & Hgo).
    destruct (Hgo quietDevice_obliging Hs) as (Hok & Hn & Hb).
    exists evs. split; [exact Ht|]. split; [exact Hout|]. split; [exact Hok|].
    split; [exact Hn|exact Hb].
Defined.

(** ** Device loss in the processor *)

(** X1: [CommandProcessor::handleDeviceLost] never returns.  It locks the
    enqueue mutex and calls [waitForAllWorkToBeSubmitted], whose first step
    locks the same mutex again; the mutex is not recursive.  No event has
    happened by then: no task is run and [CommandQueue::handleDeviceLost] is
    not reached.  So [CommandProcessor::handleError] with the code of a lost
    device warns and never gets to queue the error. *)
Theorem CommandProcessor_handleDeviceLost_never_returns env this s :
  (let r := CommandProcessor_handleDeviceLost env this s in
   fst r = Abort SelfDeadlock
   /\ trace (snd r) = trace s
   /\ mTaskQueue (snd r) = mTaskQueue s
   /\ mInFlightCommands (snd r) = mInFlightCommands s)
  /\ (forall f fn ln,
        let r := CommandProcessor_handleError env this VK_ERROR_DEVICE_LOST f fn ln s in
        fst r = Abort SelfDeadlock
        /\ mErrors (snd r) = mErrors s
        /\ trace (snd r) = trace s ++ [ {| evLocks := held s; evAction := ActWarn |} ]).
Proof.
  split.
  - cbv zeta.
    destruct (CommandProcessor_handleDeviceLost_deadlocks env this s) as [-> | ->];
      repeat split.
  - intros f fn ln. cbv zeta.
    change (wp (CommandProcessor_handleError env this VK_ERROR_DEVICE_LOST f fn ln) s
              (fun r s' =>
                 r = Abort SelfDeadlock /\ mErrors s' = mErrors s
                 /\ trace s' = trace s ++ [ {| evLocks := held s; evAction := ActWarn |} ])).
    unfold CommandProcessor_handleError. apply wp_bind.
    apply wp_ASSERT; intros Hc; [|discriminate Hc]. cbn [andThen].
    apply wp_bind. rewrite Z.eqb_refl. apply wp_bind, wp_emit. cbn [andThen].
    unfold wp.
    match goal with
    | |- context [CommandProcessor_handleDeviceLost env this ?s1] =>
        destruct (CommandProcessor_handleDeviceLost_deadlocks env this s1) as [-> | ->]
    end; cbn [fst snd andThen]; repeat split.
Qed.

(** ** From the error handler of the processor to a caller *)

Lemma set_held_same s : set_held (held s) s = s.
Proof. destruct s; reflexivity. Qed.

(** X2: an error other than a lost device that the worker hands to
    [CommandProcessor::handleError] goes to the back of the error queue and
    nothing else changes; the next [checkAndPopPendingError] hands the
    queued errors to the caller's context in the order they were queued,
    this one last, empties the queue and returns [Stop]. *)
Theorem handleError_then_checkAndPopPendingError env this id code f fn ln s :
  code <> VK_SUCCESS ->
  code <> VK_ERROR_DEVICE_LOST ->
  holds mErrorMutex (held s) = false ->
  let err := {| errorCode := code; file := f; function := fn; line := ln |} in
  let queued := CommandProcessor_handleError env this code f fn ln s in
  let popped := checkAndPopPendingError (externalContext id) (snd queued) in
  queued = (Ok tt, set_mErrors (mErrors s ++ [err]) s)
  /\ fst popped = Stop
  /\ mErrors (snd popped) = []
  /\ trace (snd popped)
     = trace s ++ map (handled id (mErrorMutex :: held s)) (mErrors s ++ [err]).
Proof.
  intros Hok Hlost Hheld. cbv zeta.
  assert (Hq : CommandProcessor_handleError env this code f fn ln s
               = (Ok tt, set_mErrors (mErrors s ++ [ {| errorCode := code; file := f;
                                                        function := fn; line := ln |} ]) s)).
  { apply wp_run. unfold CommandProcessor_handleError. apply wp_bind.
    apply wp_ASSERT; intros Hc.
    2:{ apply negb_false_iff, Z.eqb_eq in Hc. contradiction. }
    cbn [andThen]. apply wp_bind.
    destruct (code =? VK_ERROR_DEVICE_LOST)%Z eqn:Hl;
      [apply Z.eqb_eq in Hl; contradiction|].
    apply wp_ret. cbn [andThen].
    apply wp_lock_guard; [congruence|intros _]. apply wp_modify.
    unfold released. ssimpl. rewrite unhold_head. split; [reflexivity|].
    destruct s; reflexivity. }
  rewrite Hq. cbn [snd]. split; [reflexivity|].
  set (s1 := set_mErrors _ s).
  assert (Hrun : checkAndPopPendingError (externalContext id) s1
                 = (Stop, set_trace (trace s1 ++ map (handled id (mErrorMutex :: held s1))
                                                  (mErrors s1))
                            (set_mErrors [] s1))).
  { apply wp_run. unfold checkAndPopPendingError.
    apply wp_lock_guard; [subst s1; ssimpl; congruence|intros _].
    wp_steps. destruct (mErrors s1) as [|e rest] eqn:He.
    { subst s1. ssimpl. destruct (mErrors s); discriminate He. }
    wp_steps. rewrite <- He.
    apply popErrors_loop; [reflexivity|]. wp_steps.
    rewrite unhold_head. split; [reflexivity|].
    destruct s1; reflexivity. }
  rewrite Hrun. cbn [fst snd]. subst s1. ssimpl. repeat split.
Qed.

Lemma handleError_then_checkAndPopPendingError_witness :
  let s := initialState in
  let err := {| errorCode := (-1)%Z; file := thisFile; function := "f"%string;
                line := 7 |} in
  let queued := CommandProcessor_handleError quietDevice (externalContext 0)
                  (-1)%Z thisFile "f"%string 7 s in
  let popped := checkAndPopPendingError (externalContext 1) (snd queued) in
  queued = (Ok tt, set_mErrors (mErrors s ++ [err]) s)
  /\ fst popped = Stop
  /\ mErrors (snd popped) = []
  /\ trace (snd popped)
     = trace s ++ map (handled 1 (mErrorMutex :: held s)) (mErrors s ++ [err]).
Proof.
  apply (handleError_then_checkAndPopPendingError quietDevice (externalContext 0) 1
           (-1)%Z thisFile "f"%string 7 initialState).
  - discriminate.
  - discriminate.
  - reflexivity.
Defined.

(** ** The bounds of the rings across a submission *)

Lemma externalContext_safe id : safeContext (externalContext id).
Proof. intros code f fn ln s. exact I. Qed.

(** X3: [queueSubmitLocked] keeps the rings in bounds.  From a state whose
    counter of all batches is the sum of the lengths of the two rings, with
    neither the in-flight ring nor the counter over its capacity, and with
    an in-flight capacity that is positive and at most the finished
    capacity: none of the assertions of the lines 1582, 1586 and 1593 fails,
    the loop that releases the finished batches ends, and when the call
    returns the bounds hold again, the batch is the youngest of the
    in-flight ring, its serial is the last submitted one and the mutexes
    held are those of the entry. *)
Theorem queueSubmitLocked_keeps_bounds env context pr info b q s :
  safeContext context ->
  0 < kInFlightCommandsLimit env ->
  kInFlightCommandsLimit env <= kMaxFinishedCommandsLimit env ->
  ringsInBounds env s ->
  let r := queueSubmitLocked env context pr info b q s in
  fst r <> Abort (AssertionFailed 1582)
  /\ fst r <> Abort (AssertionFailed 1586)
  /\ fst r <> Abort (AssertionFailed 1593)
  /\ fst r <> Abort OutOfFuel
  /\ (fst r = Ok tt ->
      ringsInBounds env (snd r) /\ submitted b q (snd r) /\ held (snd r) = held s).
Proof.
  intros Hsafe Hpos Hord Hin. cbv zeta.
  assert (H : wp (queueSubmitLocked env context pr info b q) s
                (upheld (fun _ s' =>
                   ringsInBounds env s' /\ submitted b q s' /\ held s' = held s))).
  { unfold wp. rewrite queueSubmitLocked_split.
    change (wp ((throttleInFlight env context ;; reserveFinished env context ;;
                 deviceSubmit env context pr info b) ;;
                (pushInFlightBatchLocked env b ;; setLastSubmitted q))%cmd s
              (upheld (fun _ s' =>
                 ringsInBounds env s' /\ submitted b q s' /\ held s' = held s))).
    apply wp_bind.
    eapply wp_conseq; [apply (beforePush_effect env context Hsafe Hpos Hord); exact Hin|].
    intros r1 s1 H1. destruct r1 as [[]| |f]; cbn [andThen upheld] in *;
      [|exact I|exact H1].
    destruct H1 as ((Hbal & Hlen & Hnum) & Hheld & _).
    unfold pushInFlightBatchLocked, setLastSubmitted, inFlightFull, serialAt.
    cbv [wp bind modify get emit ASSERT ret abort]. ssimpl.
    assert ((kInFlightCommandsLimit env <=? length (mInFlightCommands s1))%nat = false)
      as -> by (apply Nat.leb_gt; exact Hlen).
    cbn [negb fst snd]. ssimpl.
    destruct (mLastSubmittedSerials s1 !! N.to_nat (qsIndex q)) eqn:Hi;
      cbn [fst snd upheld]; [|reflexivity].
    unfold ringsInBounds, balanced, submitted, serialAt in *. ssimpl.
    rewrite length_app. cbn [length].
    repeat split; try lia; auto.
    - eexists. reflexivity.
    - apply list_lookup_insert_eq. eapply lookup_lt_Some. exact Hi. }
  unfold wp in H.
  destruct (fst (queueSubmitLocked env context pr info b q s)) as [[]| |f];
    cbn [upheld] in H.
  - split; [discriminate|]. split; [discriminate|]. split; [discriminate|].
    split; [discriminate|]. intros _. exact H.
  - split; [discriminate|]. split; [discriminate|]. split; [discriminate|].
    split; discriminate.
  - split; [intros [= ->]; discriminate H|].
    split; [intros [= ->]; discriminate H|].
    split; [intros [= ->]; discriminate H|].
    split; [intros [= ->]; discriminate H|discriminate].
Qed.

Lemma queueSubmitLocked_keeps_bounds_witness :
  let r := queueSubmitLocked quietDevice (externalContext 0) Medium
             VkSubmitInfo_zero firstBatch firstSerial initialState in
  fst r <> Abort (AssertionFailed 1582)
  /\ fst r <> Abort (AssertionFailed 1586)
  /\ fst r <> Abort (AssertionFailed 1593)
  /\ fst r <> Abort OutOfFuel
  /\ (fst r = Ok tt ->
      ringsInBounds quietDevice (snd r) /\ submitted firstBatch firstSerial (snd r)
      /\ held (snd r) = held initialState).
Proof.
  apply (queueSubmitLocked_keeps_bounds quietDevice (externalContext 0) Medium
           VkSubmitInfo_zero firstBatch firstSerial initialState).
  - apply externalContext_safe.
  - vm_compute. lia.
  - vm_compute. lia.
  - repeat split; vm_compute; lia.
Defined.

(** ** The throttling of a submission *)

Lemma tame_afterThrottle env context pr info b q :
  tameContext anyKind context ->
  tame anyKind (reserveFinished env context ;;
                deviceSubmit env context pr info b ;;
                pushInFlightBatchLocked env b ;;
                setLastSubmitted q)%cmd.
Proof.
  intros Hc.
  apply tame_bind; [apply tame_reserveFinished; try reflexivity; exact Hc|]. intros _.
  apply tame_bind; [apply tame_deviceSubmit; try reflexivity; exact Hc|]. intros _.
  apply tame_bind; [apply tame_pushInFlightBatchLocked; reflexivity|]. intros _.
  apply tame_setLastSubmitted; reflexivity.
Qed.

(** X4: when the in-flight ring is full and its oldest batch has a fence,
    the first thing [queueSubmitLocked] does to the device is to wait for
    this fence, for at most the maximal fence wait time of the renderer.
    The wait is made with the complete mutex taken and with every mutex of
    the entry still held: the submit mutex of the caller is not released
    for it. *)
Theorem queueSubmitLocked_waits_for_oldest env context pr info b q s b0 rest f :
  tameContext handling context ->
  mInFlightCommands s = b0 :: rest ->
  kInFlightCommandsLimit env <= length (mInFlightCommands s) ->
  holds mCmdCompleteMutex (held s) = false ->
  fenceOf b0 s = Some f ->
  exists evs,
    trace (snd (queueSubmitLocked env context pr info b q s))
    = trace s ++ {| evLocks := mCmdCompleteMutex :: held s;
                    evAction := ActWaitForFence f (getMaxFenceWaitTimeNs env) |} :: evs.
Proof.
  intros Hc Hi Hfull Hh Hf.
  assert (H : wp (queueSubmitLocked env context pr info b q) s
                (since s (fun evs _ _ => startsWith (throttleWait env s f) evs))).
  { unfold queueSubmitLocked. apply wp_since_bind.
    eapply wp_since_conseq;
      [apply (throttleInFlight_waits env context Hc s b0 rest f); assumption|].
    intros evs1 r1 s1 Hst. destruct r1 as [[]| |x]; [|exact Hst|exact Hst].
    apply (wp_since_tame anyKind _ _ (fun _ => True)).
    - apply tame_afterThrottle.
      apply (tameContext_weaken handling); [reflexivity|exact Hc].
    - apply wp_returns_any.
    - intros evs2 r2 s2 _ _. apply startsWith_app. exact Hst. }
  destruct H as (evs & Ht & rest' & ->). exists rest'. exact Ht.
Qed.

Lemma queueSubmitLocked_waits_for_oldest_witness :
  exists evs,
    trace (snd (queueSubmitLocked quietDevice (externalContext 0) Medium
                  VkSubmitInfo_zero (fencedBatch 3)
                  {| qsIndex := 0%N; qsSerial := 3%Z |} fullRingState))
    = trace fullRingState
      ++ {| evLocks := mCmdCompleteMutex :: held fullRingState;
            evAction := ActWaitForFence 501%Z (getMaxFenceWaitTimeNs quietDevice) |}
         :: evs.
Proof.
  apply (queueSubmitLocked_waits_for_oldest quietDevice (externalContext 0) Medium
           VkSubmitInfo_zero (fencedBatch 3) {| qsIndex := 0%N; qsSerial := 3%Z |}
           fullRingState (fencedBatch 1) [fencedBatch 2] 501%Z).
  - apply tameContext_external. reflexivity.
  - reflexivity.
  - vm_compute. lia.
  - reflexivity.
  - reflexivity.
Defined.

(** ** The mutexes of a submission *)

Lemma lockedBy_cons_both L l m : lockedBy L l -> lockedBy (m :: L) (m :: l).
Proof.
  intros H x Hx. cbn [holds] in *. apply orb_true_iff in Hx.
  apply orb_true_iff. destruct Hx as [Hx | Hx]; [left; exact Hx|right; apply H; exact Hx].
Qed.

Lemma wp_since_both {A} (m : M A) s
    (P P' : list Event -> Outcome A -> State -> Prop) :
  wp m s (since s P) -> wp m s (since s P') ->
  wp m s (since s (fun evs r s' => P evs r s' /\ P' evs r s')).
Proof. unfold wp. apply since_and. Qed.

Lemma submissionTail_under L l qb q tl :
  lockedBy L l -> submissionTail l qb q tl -> Forall (under publishing L) tl.
Proof.
  intros HL [-> | [-> | ->]]; repeat constructor; exact HL.
Qed.

(** X5: the events of [queueSubmitLocked] come in four blocks.  Those of the
    throttling (the wait for the oldest batch, the store of its serial as
    completed, its move to the finished ring) are all emitted under the
    complete mutex; those of the reclaiming (the release of the finished
    batches) under the release mutex; then come those of the call of the
    device and the two stores that publish the batch.  Every event is
    emitted with the mutexes of the entry still held. *)
Theorem queueSubmitLocked_blocks env context pr info b q s :
  tameContext handling context ->
  exists evs,
    trace (snd (queueSubmitLocked env context pr info b q s)) = trace s ++ evs
    /\ submissionBlocks (held s) evs.
Proof.
  intros Hc.
  change (wp (queueSubmitLocked env context pr info b q) s
            (since s (fun evs _ _ => submissionBlocks (held s) evs))).
  unfold queueSubmitLocked. apply wp_since_bind.
  eapply wp_since_conseq.
  { apply wp_since_both.
    - apply (throttleInFlight_events env context Hc s).
    - apply (wp_since_tame_locked throttling (held s)
               (throttleInFlight env context) s
               (fun _ _ s' => lockedBy (held s) (held s'))).
      + apply tame_throttleInFlight; try reflexivity.
        apply (throttling_context _ Hc).
      + apply lockedBy_refl.
      + intros evs r s' _ Hl. exact Hl. }
  intros evsT r1 s1 [HT Hl1].
  assert (Hstop : forall evsR evsD tl,
             Forall (under reclaiming (mCmdReleaseMutex :: held s)) evsR ->
             Forall (under calling (held s)) evsD ->
             Forall (under publishing (held s)) tl ->
             submissionBlocks (held s) (evsT ++ evsR ++ evsD ++ tl)).
  { intros evsR evsD tl HR HD Htl. exists evsT, evsR, evsD, tl. auto. }
  destruct r1 as [[]| |x];
    [|rewrite <- (app_nil_r evsT); apply (Hstop [] [] []); constructor..].
  apply wp_since_bind.
  eapply wp_since_conseq.
  { apply wp_since_both.
    - apply (reserveFinished_events env context Hc s1).
    - apply (wp_since_tame_locked reclaiming (held s)
               (reserveFinished env context) s1
               (fun _ _ s' => lockedBy (held s) (held s'))).
      + apply tame_reserveFinished; try reflexivity.
        apply (reclaiming_context _ Hc).
      + exact Hl1.
      + intros evs r s' _ Hl. exact Hl. }
  intros evsR r2 s2 [HR Hl2].
  assert (HR' : Forall (under reclaiming (mCmdReleaseMutex :: held s)) evsR).
  { eapply under_weaken; [| |exact HR]; [auto|].
    apply lockedBy_cons_both. exact Hl1. }
  destruct r2 as [[]| |x];
    [|rewrite <- (app_nil_r evsR); apply (Hstop evsR [] []); auto; constructor..].
  apply wp_since_bind.
  apply (wp_since_tame_locked calling (held s)).
  { apply tame_deviceSubmit; try reflexivity. apply (calling_context _ Hc). }
  { exact Hl2. }
  intros evsD r3 s3 HD Hl3.
  destruct r3 as [[]| |x];
    [|rewrite <- (app_nil_r evsD); apply (Hstop evsR evsD []); auto; constructor..].
  destruct (push_then_store env b q s3) as (tl & Ht & Htl & _).
  unfold wp, since. exists tl. split; [exact Ht|].
  apply Hstop; auto. eapply submissionTail_under; [exact Hl3|exact Htl].
Qed.

Lemma queueSubmitLocked_blocks_witness :
  exists evs,
    trace (snd (queueSubmitLocked quietDevice (externalContext 0) Medium
                  VkSubmitInfo_zero (fencedBatch 3)
                  {| qsIndex := 0%N; qsSerial := 3%Z |} fullRingState))
    = trace fullRingState ++ evs
    /\ submissionBlocks (held fullRingState) evs.
Proof.
  apply (queueSubmitLocked_blocks quietDevice (externalContext 0) Medium
           VkSubmitInfo_zero (fencedBatch 3) {| qsIndex := 0%N; qsSerial := 3%Z |}
           fullRingState).
  apply tameContext_external. reflexivity.
Defined.

(** ** What the functions of the queue leave alone *)

Section PreservesFunctions.

Variable env : Environment.
Context {X : Type}.
Variable proj : State -> X.
Hypothesis proj_trace : forall t s, proj (set_trace t s) = proj s.
Hypothesis proj_held : forall l s, proj (set_held l s) = proj s.
Hypothesis proj_fences : forall v s, proj (set_sharedFences v s) = proj s.
Hypothesis proj_recycler : forall v s, proj (set_mFenceRecycler v s) = proj s.
Hypothesis proj_pools : forall v s, proj (set_mPrimaryCommandPoolMap v s) = proj s.
Hypothesis proj_states : forall v s, proj (set_mCommandsStateMap v s) = proj s.
Hypothesis proj_inFlight : forall v s, proj (set_mInFlightCommands v s) = proj s.
Hypothesis proj_finished : forall v s, proj (set_mFinishedCommandBatches v s) = proj s.
Hypothesis proj_numAll : forall v s, proj (set_mNumAllCommands v s) = proj s.
Hypothesis proj_completed : forall v s, proj (set_mLastCompletedSerials v s) = proj s.
Hypothesis proj_submitted : forall v s, proj (set_mLastSubmittedSerials v s) = proj s.

Lemma preserves_deref p : preserves proj (deref p).
Proof. unfold deref. preserves_auto. Qed.

Lemma preserves_store p r : preserves proj (store p r).
Proof. unfold store. preserves_auto. Qed.

Lemma preserves_inFlightFront : preserves proj inFlightFront.
Proof. unfold inFlightFront. preserves_auto. Qed.

Lemma preserves_finishedFront : preserves proj finishedFront.
Proof. unfold finishedFront. preserves_auto. Qed.

Hint Resolve preserves_deref preserves_store preserves_inFlightFront
  preserves_finishedFront : preserves.

Lemma preserves_hasFence b : preserves proj (hasFence b).
Proof. unfold hasFence. preserves_auto. Qed.
Hint Resolve preserves_hasFence : preserves.

Lemma preserves_theFence b : preserves proj (theFence b).
Proof. unfold theFence. preserves_auto. Qed.
Hint Resolve preserves_theFence : preserves.

Lemma preserves_getFenceHandle b : preserves proj (getFenceHandle b).
Proof. unfold getFenceHandle. preserves_auto. Qed.

Lemma preserves_getFenceStatus b : preserves proj (getFenceStatus env b).
Proof. unfold getFenceStatus. preserves_auto. Qed.

Lemma preserves_waitFence b t : preserves proj (waitFence env b t).
Proof. unfold waitFence. preserves_auto. Qed.

Lemma preserves_getQueueSerial b : preserves proj (getQueueSerial b).
Proof. unfold getQueueSerial. preserves_auto. Qed.

Lemma preserves_setLastCompleted q : preserves proj (setLastCompleted q).
Proof. unfold setLastCompleted. preserves_auto. Qed.

Lemma preserves_setLastSubmitted q : preserves proj (setLastSubmitted q).
Proof. unfold setLastSubmitted. preserves_auto. Qed.

Hint Resolve preserves_getFenceHandle preserves_getFenceStatus preserves_waitFence
  preserves_getQueueSerial preserves_setLastCompleted preserves_setLastSubmitted
  : preserves.

Lemma preserves_FenceRecycler_recycle f : preserves proj (FenceRecycler_recycle f).
Proof. unfold FenceRecycler_recycle, Recycler_recycle. preserves_auto. Qed.
Hint Resolve preserves_FenceRecycler_recycle : preserves.

Lemma preserves_RecyclableFence_destroy p : preserves proj (RecyclableFence_destroy p).
Proof. unfold RecyclableFence_destroy. preserves_auto. Qed.
Hint Resolve preserves_RecyclableFence_destroy : preserves.

Lemma preserves_RecyclableFence_detachRecycler p :
  preserves proj (RecyclableFence_detachRecycler p).
Proof. unfold RecyclableFence_detachRecycler. preserves_auto. Qed.

Lemma preserves_SharedFence_reset p : preserves proj (SharedFence_reset p).
Proof. unfold SharedFence_reset. preserves_auto. Qed.

Lemma preserves_set_pool p l : preserves proj (set_pool p l).
Proof. unfold set_pool. preserves_auto. Qed.

Lemma preserves_set_state pr pt c : preserves proj (set_state pr pt c).
Proof. unfold set_state. preserves_auto. Qed.

Lemma preserves_destroyPrimaryCommandBuffer p :
  preserves proj (destroyPrimaryCommandBuffer p).
Proof. unfold destroyPrimaryCommandBuffer. preserves_auto. Qed.

Lemma preserves_releaseCommandBuffers b : preserves proj (releaseCommandBuffers b).
Proof. unfold releaseCommandBuffers. preserves_auto. Qed.

Hint Resolve preserves_RecyclableFence_detachRecycler preserves_SharedFence_reset
  preserves_set_pool preserves_set_state preserves_destroyPrimaryCommandBuffer
  preserves_releaseCommandBuffers : preserves.

Lemma preserves_CommandBatch_destroy b : preserves proj (CommandBatch_destroy b).
Proof. unfold CommandBatch_destroy. preserves_auto. Qed.

Lemma preserves_PersistentCommandPool_collect context p b :
  preserves proj (PersistentCommandPool_collect env context p b).
Proof. unfold PersistentCommandPool_collect. preserves_auto. Qed.
Hint Resolve preserves_PersistentCommandPool_collect : preserves.

Lemma preserves_collectPrimaryCommandBuffer context p b :
  preserves proj (collectPrimaryCommandBuffer env context p b).
Proof. unfold collectPrimaryCommandBuffer. preserves_auto. Qed.
Hint Resolve preserves_collectPrimaryCommandBuffer : preserves.

Lemma preserves_CommandBatch_release context b :
  preserves proj (CommandBatch_release env context b).
Proof. unfold CommandBatch_release. preserves_auto. Qed.

Lemma preserves_moveInFlightBatchToFinishedQueueLocked :
  preserves proj (moveInFlightBatchToFinishedQueueLocked env).
Proof.
  unfold moveInFlightBatchToFinishedQueueLocked, finishedFull. preserves_auto.
Qed.

Lemma preserves_popFinishedBatchLocked : preserves proj popFinishedBatchLocked.
Proof. unfold popFinishedBatchLocked. preserves_auto. Qed.

Lemma preserves_popInFlightBatchLocked : preserves proj popInFlightBatchLocked.
Proof. unfold popInFlightBatchLocked. preserves_auto. Qed.

Hint Resolve preserves_CommandBatch_destroy preserves_CommandBatch_release
  preserves_moveInFlightBatchToFinishedQueueLocked preserves_popFinishedBatchLocked
  preserves_popInFlightBatchLocked : preserves.

Lemma preserves_onCommandBatchFinishedLocked b :
  preserves proj (onCommandBatchFinishedLocked env b).
Proof. unfold onCommandBatchFinishedLocked. preserves_auto. Qed.
Hint Resolve preserves_onCommandBatchFinishedLocked : preserves.

Lemma preserves_checkOneCommandBatchLocked context :
  preserves proj (checkOneCommandBatchLocked env context).
Proof. unfold checkOneCommandBatchLocked, inFlightEmpty. preserves_auto. Qed.

Lemma preserves_finishOneCommandBatchLocked context t :
  preserves proj (finishOneCommandBatchLocked env context t).
Proof. unfold finishOneCommandBatchLocked, inFlightEmpty. preserves_auto. Qed.

Lemma preserves_releaseFinishedCommandsLocked context :
  preserves proj (releaseFinishedCommandsLocked env context).
Proof. unfold releaseFinishedCommandsLocked, finishedEmpty. preserves_auto. Qed.

Hint Resolve preserves_checkOneCommandBatchLocked
  preserves_finishOneCommandBatchLocked preserves_releaseFinishedCommandsLocked
  : preserves.

Lemma preserves_checkCompletedCommandsLocked context :
  preserves proj (checkCompletedCommandsLocked env context).
Proof. unfold checkCompletedCommandsLocked, inFlightEmpty. preserves_auto. Qed.

Lemma preserves_destroyFences l : preserves proj (destroyFences l).
Proof.
  induction l as [|f l IH]; cbn [destroyFences]; [apply preserves_ret|].
  apply preserves_bind; [apply preserves_emit; exact proj_trace|]. intros _. exact IH.
Qed.
Hint Resolve preserves_destroyFences : preserves.

Lemma preserves_FenceRecycler_destroy : preserves proj FenceRecycler_destroy.
Proof. unfold FenceRecycler_destroy. preserves_auto. Qed.

Lemma preserves_destroyCommandsState pr pt : preserves proj (destroyCommandsState pr pt).
Proof. unfold destroyCommandsState. preserves_auto. Qed.
Hint Resolve preserves_destroyCommandsState : preserves.

Lemma preserves_CommandPoolAccess_destroy : preserves proj CommandPoolAccess_destroy.
Proof. unfold CommandPoolAccess_destroy. preserves_auto. Qed.

End PreservesFunctions.

(** ** The release of the finished batches *)

(** The second half of [CommandBatch::release]: the secondary buffers are
    released and the fence goes back to the recycler. *)
Lemma wp_release_fence b s (Q : Outcome CommandBatch -> State -> Prop) :
  soleOwner s b = true ->
  holds mRecyclerMutex (held s) = false ->
  (forall b' s',
     trace s' = trace s
                ++ match mSecondaryCommands b with
                   | [] => []
                   | cmds => [ {| evLocks := held s;
                                  evAction := ActReleaseSecondaryCommandBuffers cmds |} ]
                   end ->
     mPrimaryCommandPoolMap s' = mPrimaryCommandPoolMap s ->
     mFenceRecycler s' = ownFence s b ++ mFenceRecycler s ->
     (forall p, mFence b <> Some p -> sharedFences s' !! p = sharedFences s !! p) ->
     mFinishedCommandBatches s' = mFinishedCommandBatches s ->
     mNumAllCommands s' = mNumAllCommands s ->
     mLastCompletedSerials s' = mLastCompletedSerials s ->
     held s' = held s ->
     Q (Ok b') s') ->
  wp (b1 <- releaseCommandBuffers b ;;
      b2 <- match mFence b1 with
            | Some p => SharedFence_reset p ;; ret (set_mFence None b1)
            | None => ret b1
            end ;;
      ret (set_mExternalFence None b2)) s Q.
Proof.
  intros Hown Hf HQ. unfold soleOwner, ownFence in *.
  assert (Hfence : forall b1 s1,
    mFence b1 = mFence b -> sharedFences s1 = sharedFences s ->
    mFenceRecycler s1 = mFenceRecycler s -> held s1 = held s ->
    (forall b' s',
       trace s' = trace s1 ->
       mPrimaryCommandPoolMap s' = mPrimaryCommandPoolMap s1 ->
       mFenceRecycler s' = ownFence s b ++ mFenceRecycler s ->
       (forall p, mFence b <> Some p -> sharedFences s' !! p = sharedFences s !! p) ->
       mFinishedCommandBatches s' = mFinishedCommandBatches s1 ->
       mNumAllCommands s' = mNumAllCommands s1 ->
       mLastCompletedSerials s' = mLastCompletedSerials s1 ->
       held s' = held s ->
       Q (Ok b') s') ->
    wp (b2 <- match mFence b1 with
              | Some p => SharedFence_reset p ;; ret (set_mFence None b1)
              | None => ret b1
              end ;;
        ret (set_mExternalFence None b2)) s1 Q).
  { intros b1 s1 E1 E2 E3 E4 HQ1. rewrite E1. unfold ownFence in HQ1.
    destruct (mFence b) as [p|].
    - destruct (sharedFences s !! p) as [r|] eqn:Hl; [|discriminate Hown].
      apply andb_true_iff in Hown as [Hown Hrefs].
      apply andb_true_iff in Hown as [Hval Hrec].
      apply Nat.eqb_eq in Hrefs.
      unfold SharedFence_reset, deref, store. wp_steps. rewrite E2, Hl. wp_steps.
      rewrite Hrefs. cbn [Nat.leb pred].
      unfold RecyclableFence_destroy, deref, store. wp_steps.
      rewrite list_lookup_insert_eq by (rewrite E2; eapply lookup_lt_Some; exact Hl).
      wp_steps. cbn [set_rfRefs rfFence rfRecycler]. rewrite Hval, Hrec.
      unfold FenceRecycler_recycle.
      apply wp_bind, wp_lock_guard; [ssimpl; congruence|]. intros _.
      unfold Recycler_recycle. wp_steps.
      apply HQ1; ssimpl; rewrite ?unhold_head; try reflexivity; try congruence.
      + rewrite E3. reflexivity.
      + intros p' Hp'. assert (p <> p') by congruence.
        rewrite !list_lookup_insert_ne by assumption. rewrite E2. reflexivity.
    - wp_steps. apply HQ1; try reflexivity; try congruence; try exact E3. }
  unfold releaseCommandBuffers. apply wp_bind.
  destruct (mSecondaryCommands b) as [|c cmds] eqn:Hs.
  - apply wp_ret. cbn [andThen]. apply Hfence; try reflexivity.
    intros b' s' T1 T2 T3 T4 T5 T6 T7 T8. apply HQ; try assumption.
    rewrite app_nil_r. exact T1.
  - apply wp_bind, wp_emit. cbn [andThen]. apply wp_ret. cbn [andThen].
    apply Hfence; try reflexivity.
    intros b' s' T1 T2 T3 T4 T5 T6 T7 T8. apply HQ; assumption.
Qed.

Lemma wp_CommandBatch_release env context b s
    (Q : Outcome CommandBatch -> State -> Prop) :
  releasable s b = true ->
  holds mCmdPoolMutex (held s) = false ->
  holds mRecyclerMutex (held s) = false ->
  (forall t c, vkResetCommandBuffer env t c = VK_SUCCESS) ->
  (forall b' s',
     trace s' = trace s ++ releaseEvents (held s) b ->
     (forall pt, mPrimaryCommandPoolMap s' pt
                 = collectedPrimaries pt [b] ++ mPrimaryCommandPoolMap s pt) ->
     mFenceRecycler s' = ownFence s b ++ mFenceRecycler s ->
     (forall p, mFence b <> Some p -> sharedFences s' !! p = sharedFences s !! p) ->
     mFinishedCommandBatches s' = mFinishedCommandBatches s ->
     mNumAllCommands s' = mNumAllCommands s ->
     mLastCompletedSerials s' = mLastCompletedSerials s ->
     held s' = held s ->
     Q (Ok b') s') ->
  wp (CommandBatch_release env context b) s Q.
Proof.
  intros Hr Hp Hf Hdev HQ. unfold releasable in Hr.
  apply andb_true_iff in Hr as [Hr Hown]. apply andb_true_iff in Hr as [Hr Hacc].
  unfold CommandBatch_release, releaseEvents, collectedPrimaries in *.
  cbn [List.filter map] in HQ.
  match goal with
  | |- wp (bind _ ?k0) _ _ => set (k := k0)
  end.
  apply wp_bind.
  destruct (valid (mPrimaryCommands b)) eqn:Hv.
  - cbn [negb orb] in Hacc. rewrite Hacc.
    apply wp_bind, wp_ASSERT; intros Hx; [clear Hx|discriminate Hx]. cbn [andThen].
    unfold collectPrimaryCommandBuffer. apply wp_bind. rewrite Hv.
    apply wp_bind, wp_ASSERT; intros Hx; [clear Hx|discriminate Hx]. cbn [andThen].
    apply wp_lock_guard; [congruence|]. intros _.
    unfold PersistentCommandPool_collect, ANGLE_VK_TRY. wp_steps.
    rewrite Hdev. cbn [Z.eqb VK_SUCCESS]. wp_steps. unfold set_pool. wp_steps.
    rewrite unhold_head. subst k. cbv beta.
    apply wp_release_fence; ssimpl; try assumption.
    intros b' s' T1 T2 T3 T4 T5 T6 T7 T8. ssimpl.
    apply HQ; try assumption.
    + rewrite T1, <- app_assoc. reflexivity.
    + intros pt. rewrite T2. cbn [andb].
      destruct pt, (mProtectionType b); reflexivity.
  - apply wp_ret. cbn [andThen]. subst k. cbv beta.
    apply wp_release_fence; try assumption.
    intros b' s' T1 T2 T3 T4 T5 T6 T7 T8.
    apply HQ; try assumption. intros pt. rewrite T2. reflexivity.
Qed.

Lemma collectedPrimaries_cons pt b l :
  rev (collectedPrimaries pt (b :: l))
  = rev (collectedPrimaries pt l) ++ collectedPrimaries pt [b].
Proof.
  unfold collectedPrimaries. cbn [List.filter].
  destruct (valid (mPrimaryCommands b) && ProtectionType_eqb (mProtectionType b) pt);
    cbn [map rev]; [reflexivity|rewrite app_nil_r; reflexivity].
Qed.

Lemma recycledFences_cons s b l :
  rev (recycledFences s (b :: l)) = rev (recycledFences s l) ++ ownFence s b.
Proof.
  unfold recycledFences. cbn [flat_map]. rewrite rev_app_distr. f_equal.
  unfold ownFence. destruct (mFence b) as [p|]; [|reflexivity].
  destruct (sharedFences s !! p); reflexivity.
Qed.

(** The batches that do not share the fence of a released batch are as
    releasable after its release as before. *)
Lemma releasable_frame s s' b rest :
  mLastCompletedSerials s' = mLastCompletedSerials s ->
  (forall p, mFence b <> Some p -> sharedFences s' !! p = sharedFences s !! p) ->
  NoDup (omap mFence (b :: rest)) ->
  forallb (releasable s') rest = forallb (releasable s) rest
  /\ recycledFences s' rest = recycledFences s rest
  /\ NoDup (omap mFence rest).
Proof.
  intros Hc Hl Hnd.
  assert (Hnot : forall p, p ∈ omap mFence rest -> mFence b <> Some p).
  { intros p Hin Hb. cbn in Hnd. rewrite Hb in Hnd.
    apply NoDup_cons in Hnd as [Hnd _]. exact (Hnd Hin). }
  assert (Hnd' : NoDup (omap mFence rest)).
  { cbn in Hnd. destruct (mFence b); [apply NoDup_cons in Hnd as [_ Hnd]|]; exact Hnd. }
  split; [|split; [|exact Hnd']].
  - clear Hnd Hnd'. induction rest as [|b2 rest IH]; [reflexivity|].
    cbn [forallb]. rewrite IH.
    2:{ intros p Hin. apply Hnot. cbn. destruct (mFence b2); [right|]; exact Hin. }
    f_equal. unfold releasable, soleOwner. rewrite Hc.
    destruct (mFence b2) as [p|] eqn:Hb2; [|reflexivity].
    rewrite Hl; [reflexivity|]. apply Hnot. cbn. rewrite Hb2. left.
  - clear Hnd Hnd'. unfold recycledFences.
    induction rest as [|b2 rest IH]; [reflexivity|].
    cbn [flat_map]. rewrite IH.
    2:{ intros p Hin. apply Hnot. cbn. destruct (mFence b2); [right|]; exact Hin. }
    f_equal. unfold ownFence.
    destruct (mFence b2) as [p|] eqn:Hb2; [|reflexivity].
    rewrite Hl; [reflexivity|]. apply Hnot. cbn. rewrite Hb2. left.
Qed.

Lemma wp_popFinishedBatchLocked b rest m s (Q : Outcome unit -> State -> Prop) :
  mFinishedCommandBatches s = b :: rest ->
  mNumAllCommands s = S m ->
  Q (Ok tt)
    (set_mNumAllCommands m
       (set_trace (trace s ++ [ {| evLocks := held s;
                                   evAction := ActPopFinished (mQueueSerial b) |} ])
          (set_mFinishedCommandBatches rest s))) ->
  wp popFinishedBatchLocked s Q.
Proof.
  intros Hf Hn HQ. unfold popFinishedBatchLocked, finishedFront. wp_steps.
  rewrite Hf. wp_steps. rewrite Hn. cbn [Nat.ltb Nat.leb].
  apply wp_ASSERT; intros Hx; [clear Hx|discriminate Hx]. wp_steps.
  rewrite Hf. exact HQ.
Qed.

Lemma reclaim_loop env context :
  (forall t c, vkResetCommandBuffer env t c = VK_SUCCESS) ->
  forall bs n s,
  mFinishedCommandBatches s = bs ->
  length bs < n ->
  holds mCmdPoolMutex (held s) = false ->
  holds mRecyclerMutex (held s) = false ->
  length bs <= mNumAllCommands s ->
  forallb (releasable s) bs = true ->
  NoDup (omap mFence bs) ->
  wp (loop n
        (e <- finishedEmpty ;;
         if e then ret false
         else
           (batch <- finishedFront ;;
            q <- getQueueSerial batch ;;
            completed <- get mLastCompletedSerials ;;
            ASSERT 1752 (queueSerialReached q completed) ;;
            CommandBatch_release env context batch ;;
            popFinishedBatchLocked ;;
            ret true))%cmd) s
     (fun r s' =>
        r = Ok tt
        /\ trace s' = trace s ++ reclaimEvents (held s) bs
        /\ (forall pt, mPrimaryCommandPoolMap s' pt
                       = rev (collectedPrimaries pt bs) ++ mPrimaryCommandPoolMap s pt)
        /\ mFenceRecycler s' = rev (recycledFences s bs) ++ mFenceRecycler s).
Proof.
  intros Hdev.
  induction bs as [|b rest IH]; intros n s Hfin Hlen Hp Hf Hn Hall Hnd;
    (destruct n as [|n]; [cbn [length] in Hlen; lia|]).
  - cbn [loop]. unfold finishedEmpty. wp_steps. rewrite Hfin. wp_steps.
    rewrite !app_nil_r. repeat split.
  - cbn [loop]. apply wp_bind. unfold finishedEmpty at 1. apply wp_bind, wp_get.
    cbn [andThen]. rewrite Hfin.
    cbn [forallb] in Hall. apply andb_true_iff in Hall as [Hb Hrest].
    pose proof Hb as Hb'. unfold releasable in Hb'.
    apply andb_true_iff in Hb' as [Hb' _]. apply andb_true_iff in Hb' as [Hb' _].
    apply andb_true_iff in Hb' as [Hval Hreached].
    unfold finishedFront at 1. apply wp_bind, wp_bind, wp_get. cbn [andThen].
    rewrite Hfin. apply wp_ret. cbn [andThen].
    unfold getQueueSerial. apply wp_bind, wp_bind. rewrite Hval.
    apply wp_ASSERT; intros Hx; [clear Hx|discriminate Hx]. cbn [andThen].
    apply wp_ret. cbn [andThen]. apply wp_bind, wp_get. cbn [andThen].
    rewrite Hreached. apply wp_bind.
    apply wp_ASSERT; intros Hx; [clear Hx|discriminate Hx]. cbn [andThen].
    apply wp_bind. apply wp_CommandBatch_release; try assumption.
    intros b' s1 T1 T2 T3 T4 T5 T6 T7 T8. cbn [andThen].
    cbn [length] in Hn, Hlen.
    destruct (mNumAllCommands s) as [|m] eqn:Hm; [lia|].
    apply wp_bind.
    apply (wp_popFinishedBatchLocked b rest m); [congruence|congruence|].
    cbn [andThen]. apply wp_ret. cbn [andThen].
    destruct (releasable_frame s s1 b rest T7 T4 Hnd) as (F1 & F2 & F3).
    eapply wp_conseq.
    { apply IH; ssimpl; try reflexivity; try congruence; try lia.
      - rewrite <- Hrest, <- F1. unfold releasable, soleOwner. ssimpl. reflexivity.
      }
    intros r s2 (R1 & R2 & R3 & R4). ssimpl.
    split; [exact R1|]. split; [|split].
    + rewrite R2, T1, T8. unfold reclaimEvents. cbn [flat_map].
      rewrite <- !app_assoc. reflexivity.
    + intros pt. rewrite R3, T2, collectedPrimaries_cons, <- app_assoc. reflexivity.
    + rewrite R4, T3, recycledFences_cons, <- app_assoc. f_equal.
      rewrite <- F2. unfold recycledFences, ownFence. ssimpl. reflexivity.
Qed.

(** X6: [releaseFinishedCommandsLocked] releases every batch of the finished
    ring.  Its loop ends on every run, and when it returns the finished ring
    is empty, the counter of all batches has gone down by the number of
    batches that were in it, and the in-flight ring, the serial trackers and
    the mutexes held are as before.  On a ring that can be released it does
    return, and every batch has gone through [CommandBatch::release] and has
    then been popped, in the order of the ring: the events are the
    collection of the primary buffer, the release of the secondary buffers
    and the pop of each batch in turn, the primary buffers are on the pools
    of their protection types and the fences of the batches are on the
    recycler, the youngest first. *)
Theorem releaseFinishedCommandsLocked_reclaims env context s :
  safeContext context ->
  let r := releaseFinishedCommandsLocked env context s in
  fst r <> Abort OutOfFuel
  /\ (fst r = Ok tt ->
      mFinishedCommandBatches (snd r) = []
      /\ mNumAllCommands (snd r) + length (mFinishedCommandBatches s)
         = mNumAllCommands s
      /\ mInFlightCommands (snd r) = mInFlightCommands s
      /\ mLastCompletedSerials (snd r) = mLastCompletedSerials s
      /\ mLastSubmittedSerials (snd r) = mLastSubmittedSerials s
      /\ held (snd r) = held s)
  /\ (releasableRing env s ->
      fst r = Ok tt
      /\ trace (snd r)
         = trace s ++ reclaimEvents (held s) (mFinishedCommandBatches s)
      /\ (forall protection,
            mPrimaryCommandPoolMap (snd r) protection
            = rev (collectedPrimaries protection (mFinishedCommandBatches s))
              ++ mPrimaryCommandPoolMap s protection)
      /\ mFenceRecycler (snd r)
         = rev (recycledFences s (mFinishedCommandBatches s)) ++ mFenceRecycler s).
Proof.
  intros Hsafe. cbv zeta.
  assert (H : wp (releaseFinishedCommandsLocked env context) s
                (upheld (fun _ => reclaimed s))).
  { unfold releaseFinishedCommandsLocked. apply wp_bind, wp_get. cbn [andThen].
    apply (releaseFinishedCommandsLocked_loop env context Hsafe). lia. }
  assert (Hc : preserves mLastCompletedSerials (releaseFinishedCommandsLocked env context))
    by (apply preserves_releaseFinishedCommandsLocked; intros; reflexivity).
  assert (Hs : preserves mLastSubmittedSerials (releaseFinishedCommandsLocked env context))
    by (apply preserves_releaseFinishedCommandsLocked; intros; reflexivity).
  assert (Hgood : releasableRing env s ->
            wp (releaseFinishedCommandsLocked env context) s
              (fun r s' =>
                 r = Ok tt
                 /\ trace s' = trace s ++ reclaimEvents (held s) (mFinishedCommandBatches s)
                 /\ (forall pt, mPrimaryCommandPoolMap s' pt
                       = rev (collectedPrimaries pt (mFinishedCommandBatches s))
                         ++ mPrimaryCommandPoolMap s pt)
                 /\ mFenceRecycler s'
                    = rev (recycledFences s (mFinishedCommandBatches s))
                      ++ mFenceRecycler s)).
  { intros (G1 & G2 & G3 & G4 & G5 & G6).
    unfold releaseFinishedCommandsLocked. apply wp_bind, wp_get. cbn [andThen].
    apply (reclaim_loop env context G6); try assumption; try reflexivity. lia. }
  specialize (Hc s). specialize (Hs s). unfold wp in H, Hgood.
  destruct (releaseFinishedCommandsLocked env context s) as [[[]| |f] s'];
    cbn [fst snd upheld] in *.
  - split; [discriminate|]. split; [|exact Hgood]. intros _.
    destruct H as (Hi & Hf & Hn & Hh).
    repeat split; auto; [apply (Hc tt)|apply (Hs tt)]; reflexivity.
  - split; [discriminate|]. split; [discriminate|exact Hgood].
  - split; [intros [= ->]; discriminate H|]. split; [discriminate|exact Hgood].
Qed.

Lemma releaseFinishedCommandsLocked_reclaims_witness :
  let s := finishedRingState in
  let r := releaseFinishedCommandsLocked quietDevice (externalContext 0) s in
  fst r = Ok tt
  /\ mFinishedCommandBatches (snd r) = []
  /\ mNumAllCommands (snd r) + length (mFinishedCommandBatches s) = mNumAllCommands s
  /\ trace (snd r)
     = trace s ++ reclaimEvents (held s) (mFinishedCommandBatches s)
  /\ (forall protection,
        mPrimaryCommandPoolMap (snd r) protection
        = rev (collectedPrimaries protection (mFinishedCommandBatches s))
          ++ mPrimaryCommandPoolMap s protection)
  /\ mFenceRecycler (snd r)
     = rev (recycledFences s (mFinishedCommandBatches s)) ++ mFenceRecycler s.
Proof.
  destruct (releaseFinishedCommandsLocked_reclaims quietDevice (externalContext 0)
              finishedRingState (externalContext_safe 0)) as (_ & Hret & Hgood).
  assert (Hring : releasableRing quietDevice finishedRingState).
  { repeat split; try reflexivity.
    change (NoDup [0; 1]). apply (bool_decide_unpack _). reflexivity. }
  destruct (Hgood Hring) as (Hok & Ht & Hpool & Hrec).
  destruct (Hret Hok) as (Hf & Hn & _).
  repeat split; assumption.
Defined.

(** ** Finishing the oldest batch *)

Lemma hasFence_none b s : fenceIsSet b = false -> hasFence b s = (Ok false, s).
Proof.
  unfold fenceIsSet. cbv [hasFence bind ASSERT deref get ret abort isSome].
  destruct (mFence b), (mExternalFence b); try discriminate. reflexivity.
Qed.

Lemma fenceOf_fenceIsSet b s f : fenceOf b s = Some f -> fenceIsSet b = true.
Proof.
  unfold fenceOf, fenceIsSet.
  destruct (mFence b), (mExternalFence b); try discriminate; reflexivity.
Qed.

Lemma state_ext s1 s2 :
  mInFlightCommands s1 = mInFlightCommands s2 ->
  mFinishedCommandBatches s1 = mFinishedCommandBatches s2 ->
  mNumAllCommands s1 = mNumAllCommands s2 ->
  mLastSubmittedSerials s1 = mLastSubmittedSerials s2 ->
  mLastCompletedSerials s1 = mLastCompletedSerials s2 ->
  mFenceRecycler s1 = mFenceRecycler s2 ->
  sharedFences s1 = sharedFences s2 ->
  mCommandsStateMap s1 = mCommandsStateMap s2 ->
  mPrimaryCommandPoolMap s1 = mPrimaryCommandPoolMap s2 ->
  mTaskQueue s1 = mTaskQueue s2 ->
  mErrors s1 = mErrors s2 ->
  mNeedCommandsAndGarbageCleanup s1 = mNeedCommandsAndGarbageCleanup s2 ->
  swapchainStatus s1 = swapchainStatus s2 ->
  held s1 = held s2 ->
  trace s1 = trace s2 ->
  s1 = s2.
Proof. destruct s1, s2; cbn; intros; subst; reflexivity. Qed.

(** The goal holds of a state that is the state of [H], field by field. *)
Ltac same_state H :=
  match goal with
  | |- ?Q _ ?s1 =>
      match type of H with
      | _ _ ?s2 =>
          replace s1 with s2;
          [exact H
          |apply state_ext; ssimpl; rewrite <- ?app_assoc; try reflexivity]
      end
  end.

(** The end of a batch that has finished. *)
Lemma onCommandBatchFinishedLocked_run env b rest s (Q : Outcome unit -> State -> Prop) :
  mInFlightCommands s = b :: rest ->
  QueueSerial_valid (mQueueSerial b) = true ->
  is_Some (serialAt (mLastCompletedSerials s) (qsIndex (mQueueSerial b))) ->
  length (mFinishedCommandBatches s) < kMaxFinishedCommandsLimit env ->
  Q (Ok tt)
    (set_trace (trace s ++ finishEvents (held s) (mQueueSerial b))
       (set_mInFlightCommands rest
          (set_mFinishedCommandBatches (mFinishedCommandBatches s ++ [b])
             (set_mLastCompletedSerials
                (<[N.to_nat (qsIndex (mQueueSerial b)) := qsSerial (mQueueSerial b)]>
                   (mLastCompletedSerials s)) s)))) ->
  wp (onCommandBatchFinishedLocked env b) s Q.
Proof.
  intros Hi Hv [v Hx] Hroom HQ.
  unfold onCommandBatchFinishedLocked, getQueueSerial. wp_steps.
  apply wp_ASSERT; intros Hc; [|congruence]. wp_steps.
  unfold setLastCompleted. wp_steps. rewrite Hx. wp_steps.
  unfold moveInFlightBatchToFinishedQueueLocked, finishedFull. wp_steps.
  assert ((kMaxFinishedCommandsLimit env <=? length (mFinishedCommandBatches s))%nat
          = false) as -> by (apply Nat.leb_gt; exact Hroom).
  apply wp_ASSERT; intros Hc2; [|discriminate Hc2]. wp_steps.
  unfold inFlightFront. wp_steps. rewrite Hi. wp_steps. cbn [tail].
  unfold finishEvents in HQ. same_state HQ. rewrite Hi. reflexivity.
Qed.

(** X7: [finishOneCommandBatchLocked] on a batch that is ready to finish.
    When the batch has a fence and the wait for it succeeds, or when it has
    no fence, the call returns: the batch has moved from the front of the
    in-flight ring to the back of the finished ring, its serial is the last
    completed one of its index, and the counter of all batches, the last
    submitted serials and the mutexes held are as before.  The events are
    the wait, if any, bounded by the timeout given, the store of the
    completed serial and the move. *)
Theorem finishOneCommandBatchLocked_finishes env context timeout s b rest :
  mInFlightCommands s = b :: rest ->
  canFinish env b s ->
  (forall f, fenceOf b s = Some f ->
             vkWaitForFences env (trace s) f timeout = VK_SUCCESS) ->
  let r := finishOneCommandBatchLocked env context timeout s in
  fst r = Ok tt
  /\ mInFlightCommands (snd r) = rest
  /\ mFinishedCommandBatches (snd r) = mFinishedCommandBatches s ++ [b]
  /\ mNumAllCommands (snd r) = mNumAllCommands s
  /\ serialAt (mLastCompletedSerials (snd r)) (qsIndex (mQueueSerial b))
     = Some (qsSerial (mQueueSerial b))
  /\ mLastSubmittedSerials (snd r) = mLastSubmittedSerials s
  /\ held (snd r) = held s
  /\ trace (snd r)
     = trace s ++ waitEvents (held s) (fenceOf b s) timeout
               ++ finishEvents (held s) (mQueueSerial b).
Proof.
  intros Hi (Hv & Hx & Hroom & Hnone) Hwait. cbv zeta.
  change (wp (finishOneCommandBatchLocked env context timeout) s
            (fun r s' =>
               r = Ok tt
               /\ mInFlightCommands s' = rest
               /\ mFinishedCommandBatches s' = mFinishedCommandBatches s ++ [b]
               /\ mNumAllCommands s' = mNumAllCommands s
               /\ serialAt (mLastCompletedSerials s') (qsIndex (mQueueSerial b))
                  = Some (qsSerial (mQueueSerial b))
               /\ mLastSubmittedSerials s' = mLastSubmittedSerials s
               /\ held s' = held s
               /\ trace s' = trace s ++ waitEvents (held s) (fenceOf b s) timeout
                                     ++ finishEvents (held s) (mQueueSerial b))).
  assert (Hlook : forall l : list Serial, is_Some (serialAt l (qsIndex (mQueueSerial b))) ->
            serialAt (<[N.to_nat (qsIndex (mQueueSerial b)) := qsSerial (mQueueSerial b)]> l)
              (qsIndex (mQueueSerial b)) = Some (qsSerial (mQueueSerial b))).
  { intros l [v Hl]. apply list_lookup_insert_eq. eapply lookup_lt_Some. exact Hl. }
  unfold finishOneCommandBatchLocked, inFlightEmpty, inFlightFront.
  wp_steps. rewrite Hi. apply wp_ASSERT; intros Hc; [|discriminate Hc].
  wp_steps. rewrite Hi. wp_steps.
  destruct (fenceOf b s) as [f|] eqn:Hf.
  - eapply wp_eq; [apply (fenceOf_hasFence b s f Hf)|]. wp_steps.
    unfold ANGLE_VK_TRY, waitFence. wp_steps.
    eapply wp_eq; [apply (fenceOf_hasFence b s f Hf)|]. wp_steps.
    apply wp_ASSERT; intros Hc2; [|discriminate Hc2]. wp_steps.
    eapply wp_eq; [apply (fenceOf_theFence b s f Hf)|]. wp_steps.
    rewrite (Hwait f eq_refl). cbn [Z.eqb VK_SUCCESS]. wp_steps.
    apply (onCommandBatchFinishedLocked_run env b rest); ssimpl; auto.
    rewrite <- app_assoc. repeat split; auto.
  - eapply wp_eq; [apply (hasFence_none b s (Hnone eq_refl))|]. wp_steps.
    apply (onCommandBatchFinishedLocked_run env b rest); ssimpl; auto.
    repeat split; auto.
Qed.

Lemma finishOneCommandBatchLocked_finishes_witness :
  let s := fullRingState in
  let b := fencedBatch 1 in
  let r := finishOneCommandBatchLocked quietDevice (externalContext 0) 1000%Z s in
  fst r = Ok tt
  /\ mInFlightCommands (snd r) = [fencedBatch 2]
  /\ mFinishedCommandBatches (snd r) = mFinishedCommandBatches s ++ [b]
  /\ mNumAllCommands (snd r) = mNumAllCommands s
  /\ serialAt (mLastCompletedSerials (snd r)) (qsIndex (mQueueSerial b))
     = Some (qsSerial (mQueueSerial b))
  /\ mLastSubmittedSerials (snd r) = mLastSubmittedSerials s
  /\ held (snd r) = held s
  /\ trace (snd r)
     = trace s ++ waitEvents (held s) (fenceOf b s) 1000%Z
               ++ finishEvents (held s) (mQueueSerial b).
Proof.
  apply (finishOneCommandBatchLocked_finishes quietDevice (externalContext 0) 1000%Z
           fullRingState (fencedBatch 1) [fencedBatch 2]).
  - reflexivity.
  - repeat split; try reflexivity.
    + eexists. reflexivity.
    + vm_compute. lia.
    + intros H. discriminate H.
  - intros f _. reflexivity.
Defined.

Lemma wp_run_eq {A} (m : M A) s (x : Outcome A * State) :
  wp m s (fun r0 s0 => (r0, s0) = x) -> m s = x.
Proof. unfold wp. destruct (m s). auto. Qed.

(** X8: [finishOneCommandBatchLocked] when the wait for the fence of the
    oldest batch does not succeed (a time-out, a lost device).  Only the
    wait has happened when the result is handed to the error handler of the
    context: the batch has not moved and its serial is not stored as
    completed.  The call then returns [Stop], or does not return when the
    handler does not; it never returns [Continue]. *)
Theorem finishOneCommandBatchLocked_wait_fails env context timeout s b rest f :
  mInFlightCommands s = b :: rest ->
  fenceOf b s = Some f ->
  vkWaitForFences env (trace s) f timeout <> VK_SUCCESS ->
  let result := vkWaitForFences env (trace s) f timeout in
  let waited :=
    set_trace (trace s ++ [ {| evLocks := held s;
                               evAction := ActWaitForFence f timeout |} ]) s in
  finishOneCommandBatchLocked env context timeout s
  = (handleError context result thisFile "finishOneCommandBatchLocked" 1728 ;;
     stop)%cmd waited
  /\ fst (finishOneCommandBatchLocked env context timeout s) <> Ok tt.
Proof.
  intros Hi Hf Hfail. cbv zeta.
  set (waited := set_trace _ s).
  set (result := vkWaitForFences env (trace s) f timeout) in *.
  assert (Heq : finishOneCommandBatchLocked env context timeout s
                = (handleError context result thisFile "finishOneCommandBatchLocked" 1728 ;;
                   stop)%cmd waited).
  { apply wp_run_eq.
    unfold finishOneCommandBatchLocked, inFlightEmpty, inFlightFront.
    wp_steps. rewrite Hi. apply wp_ASSERT; intros Hc; [|discriminate Hc].
    wp_steps. rewrite Hi. wp_steps.
    eapply wp_eq; [apply (fenceOf_hasFence b s f Hf)|]. wp_steps.
    unfold ANGLE_VK_TRY, waitFence. wp_steps.
    eapply wp_eq; [apply (fenceOf_hasFence b s f Hf)|]. wp_steps.
    apply wp_ASSERT; intros Hc2; [|discriminate Hc2]. wp_steps.
    eapply wp_eq; [apply (fenceOf_theFence b s f Hf)|]. wp_steps.
    fold result. fold waited.
    destruct (result =? VK_SUCCESS)%Z eqn:He; [apply Z.eqb_eq in He; contradiction|].
    apply wp_bind. unfold wp, bind, stop.
    destruct (handleError context result thisFile "finishOneCommandBatchLocked" 1728
                waited) as [[[]| |x] s2]; cbn [fst snd andThen]; reflexivity. }
  split; [exact Heq|]. rewrite Heq. unfold bind, stop.
  destruct (handleError context result thisFile "finishOneCommandBatchLocked" 1728
              waited) as [[[]| |x] s2]; discriminate.
Qed.

Lemma finishOneCommandBatchLocked_wait_fails_witness :
  let env := stalledDevice in
  let s := fullRingState in
  let result := vkWaitForFences env (trace s) 501%Z 1000%Z in
  let waited :=
    set_trace (trace s ++ [ {| evLocks := held s;
                               evAction := ActWaitForFence 501%Z 1000%Z |} ]) s in
  finishOneCommandBatchLocked env (externalContext 0) 1000%Z s
  = (handleError (externalContext 0) result thisFile "finishOneCommandBatchLocked" 1728 ;;
     stop)%cmd waited
  /\ fst (finishOneCommandBatchLocked env (externalContext 0) 1000%Z s) <> Ok tt.
Proof.
  apply (finishOneCommandBatchLocked_wait_fails stalledDevice (externalContext 0)
           1000%Z fullRingState (fencedBatch 1) [fencedBatch 2] 501%Z).
  - reflexivity.
  - reflexivity.
  - vm_compute. discriminate.
Defined.

(** ** Checking the oldest batch *)

(** X9: [checkOneCommandBatchLocked] on the oldest batch of the in-flight
    ring.  When the fence of the batch is not ready the call answers that
    the batch has not finished, and nothing has changed but for the query of
    the fence.  When the batch is ready to finish and its fence, if it has
    one, is signalled, the call answers that the batch has finished: the
    batch has moved to the back of the finished ring and its serial is the
    last completed one of its index. *)
Theorem checkOneCommandBatchLocked_checks env context s b rest :
  mInFlightCommands s = b :: rest ->
  let r := checkOneCommandBatchLocked env context s in
  (forall f, fenceOf b s = Some f ->
             vkGetFenceStatus env (trace s) f = VK_NOT_READY ->
             r = (Ok false,
                  set_trace (trace s ++ queryEvents (held s) (Some f)) s))
  /\ (canFinish env b s ->
      (forall f, fenceOf b s = Some f ->
                 vkGetFenceStatus env (trace s) f = VK_SUCCESS) ->
      fst r = Ok true
      /\ mInFlightCommands (snd r) = rest
      /\ mFinishedCommandBatches (snd r) = mFinishedCommandBatches s ++ [b]
      /\ mNumAllCommands (snd r) = mNumAllCommands s
      /\ serialAt (mLastCompletedSerials (snd r)) (qsIndex (mQueueSerial b))
         = Some (qsSerial (mQueueSerial b))
      /\ trace (snd r)
         = trace s ++ queryEvents (held s) (fenceOf b s)
                   ++ finishEvents (held s) (mQueueSerial b)).
Proof.
  intros Hi. cbv zeta. split.
  - intros f Hf Hnot. apply wp_run.
    unfold checkOneCommandBatchLocked, inFlightEmpty, inFlightFront.
    wp_steps. rewrite Hi. apply wp_ASSERT; intros Hc; [|discriminate Hc].
    wp_steps. rewrite Hi. wp_steps.
    eapply wp_eq; [apply (fenceOf_hasFence b s f Hf)|]. wp_steps.
    unfold getFenceStatus. wp_steps.
    eapply wp_eq; [apply (fenceOf_hasFence b s f Hf)|]. wp_steps.
    apply wp_ASSERT; intros Hc2; [|discriminate Hc2]. wp_steps.
    eapply wp_eq; [apply (fenceOf_theFence b s f Hf)|]. wp_steps.
    rewrite Hnot. cbn [Z.eqb VK_NOT_READY Pos.eqb]. wp_steps.
    split; reflexivity.
  - intros (Hv & Hx & Hroom & Hnone) Hready.
    change (wp (checkOneCommandBatchLocked env context) s
              (fun r s' =>
                 r = Ok true
                 /\ mInFlightCommands s' = rest
                 /\ mFinishedCommandBatches s' = mFinishedCommandBatches s ++ [b]
                 /\ mNumAllCommands s' = mNumAllCommands s
                 /\ serialAt (mLastCompletedSerials s') (qsIndex (mQueueSerial b))
                    = Some (qsSerial (mQueueSerial b))
                 /\ trace s' = trace s ++ queryEvents (held s) (fenceOf b s)
                                       ++ finishEvents (held s) (mQueueSerial b))).
    assert (Hlook : serialAt
              (<[N.to_nat (qsIndex (mQueueSerial b)) := qsSerial (mQueueSerial b)]>
                 (mLastCompletedSerials s))
              (qsIndex (mQueueSerial b)) = Some (qsSerial (mQueueSerial b))).
    { destruct Hx as [v Hl]. apply list_lookup_insert_eq.
      eapply lookup_lt_Some. exact Hl. }
    unfold checkOneCommandBatchLocked, inFlightEmpty, inFlightFront.
    wp_steps. rewrite Hi. apply wp_ASSERT; intros Hc; [|discriminate Hc].
    wp_steps. rewrite Hi. wp_steps.
    destruct (fenceOf b s) as [f|] eqn:Hf.
    + eapply wp_eq; [apply (fenceOf_hasFence b s f Hf)|]. wp_steps.
      unfold getFenceStatus. wp_steps.
      eapply wp_eq; [apply (fenceOf_hasFence b s f Hf)|]. wp_steps.
      apply wp_ASSERT; intros Hc2; [|discriminate Hc2]. wp_steps.
      eapply wp_eq; [apply (fenceOf_theFence b s f Hf)|]. wp_steps.
      rewrite (Hready f eq_refl). cbn [Z.eqb VK_SUCCESS VK_NOT_READY].
      unfold ANGLE_VK_TRY. wp_steps. cbn [Z.eqb VK_SUCCESS]. wp_steps.
      apply (onCommandBatchFinishedLocked_run env b rest); ssimpl; auto.
      wp_steps. rewrite <- app_assoc. repeat split; auto.
    + eapply wp_eq; [apply (hasFence_none b s (Hnone eq_refl))|]. wp_steps.
      apply (onCommandBatchFinishedLocked_run env b rest); ssimpl; auto.
      wp_steps. repeat split; auto.
Qed.

Lemma checkOneCommandBatchLocked_checks_witness :
  let s := fullRingState in
  let b := fencedBatch 1 in
  let r := checkOneCommandBatchLocked stalledDevice (externalContext 0) s in
  (forall f, fenceOf b s = Some f ->
             vkGetFenceStatus stalledDevice (trace s) f = VK_NOT_READY ->
             r = (Ok false,
                  set_trace (trace s ++ queryEvents (held s) (Some f)) s))
  /\ (canFinish stalledDevice b s ->
      (forall f, fenceOf b s = Some f ->
                 vkGetFenceStatus stalledDevice (trace s) f = VK_SUCCESS) ->
      fst r = Ok true
      /\ mInFlightCommands (snd r) = [fencedBatch 2]
      /\ mFinishedCommandBatches (snd r) = mFinishedCommandBatches s ++ [b]
      /\ mNumAllCommands (snd r) = mNumAllCommands s
      /\ serialAt (mLastCompletedSerials (snd r)) (qsIndex (mQueueSerial b))
         = Some (qsSerial (mQueueSerial b))
      /\ trace (snd r)
         = trace s ++ queryEvents (held s) (fenceOf b s)
                   ++ finishEvents (held s) (mQueueSerial b)).
Proof.
  apply (checkOneCommandBatchLocked_checks stalledDevice (externalContext 0)
           fullRingState (fencedBatch 1) [fencedBatch 2]).
  reflexivity.
Defined.

(** ** The check of the completed batches *)

#[local] Hint Resolve keeps_hasFence keeps_theFence keeps_deref keeps_store
  keeps_inFlightFront keeps_finishedFront : keeps.

Lemma keeps_getFenceStatus env b : keeps (getFenceStatus env b).
Proof. unfold getFenceStatus. keeps_auto. Qed.

Lemma checkOneCommandBatchLocked_effect env context s :
  safeContext context ->
  wp (checkOneCommandBatchLocked env context) s
     (upheld (fun (done : bool) s' =>
                if done then moved s s' else sameQueue s s')).
Proof.
  intros Hsafe.
  assert (Hfin : forall b s1, sameQueue s s1 ->
            wp (onCommandBatchFinishedLocked env b ;; ret true)%cmd s1
               (upheld (fun (done : bool) s' =>
                          if done then moved s s' else sameQueue s s'))).
  { intros b s1 H1. unfold onCommandBatchFinishedLocked.
    apply wp_bind.
    apply wp_keeps_then;
      [apply keeps_getQueueSerial|apply lenient_andThen, lenient_upheld|].
    intros q s2 H2.
    apply wp_keeps_then;
      [apply keeps_setLastCompleted|apply lenient_andThen, lenient_upheld|].
    intros _ s3 H3.
    eapply wp_conseq; [apply moveInFlightBatchToFinishedQueueLocked_effect|].
    intros r s' Hm. destruct r as [[]| |f]; cbn [andThen upheld] in *;
      [|exact I|exact Hm].
    apply wp_ret. cbn [upheld]. eapply moved_after; [|exact Hm].
    repeat (eapply sameQueue_trans; [eassumption|]). apply sameQueue_refl. }
  unfold checkOneCommandBatchLocked, inFlightEmpty.
  apply wp_bind, wp_get. cbn [andThen].
  apply wp_upheld_ASSERT; [reflexivity|]. intros _.
  apply wp_keeps_bind; [apply keeps_inFlightFront|]. intros b s1 H1.
  apply wp_keeps_bind; [apply keeps_hasFence|]. intros h s2 H2.
  assert (H02 : sameQueue s s2) by (eapply sameQueue_trans; eassumption).
  destruct h; [|apply Hfin; exact H02].
  apply wp_keeps_bind; [apply keeps_getFenceStatus|]. intros status s3 H3.
  assert (H03 : sameQueue s s3) by (eapply sameQueue_trans; eassumption).
  destruct (status =? VK_NOT_READY)%Z.
  { apply wp_ret. cbn [upheld]. exact H03. }
  apply wp_keeps_bind; [apply keeps_VK_TRY; [exact Hsafe|apply keeps_ret]|].
  intros _ s4 H4. apply Hfin. eapply sameQueue_trans; eassumption.
Qed.

Lemma advanced_refl s : advanced s s.
Proof. exists []. rewrite app_nil_r. repeat split. Qed.

Lemma moved_advanced s s1 s2 : moved s s1 -> advanced s1 s2 -> advanced s s2.
Proof.
  intros (b & rest & Hi & Hi1 & Hf1 & Hn1 & Hh1) (done & Hf2 & Hi2 & Hn2 & Hh2).
  exists (b :: done). rewrite Hf2, Hf1, <- app_assoc. cbn [app].
  repeat split; congruence.
Qed.

(** The loop of [checkCompletedCommandsLocked] moves batches from the front
    of the in-flight ring only, and its fuel is enough. *)
Lemma checkCompletedCommandsLocked_loop env context :
  safeContext context ->
  forall n s,
  length (mInFlightCommands s) < n ->
  wp (loop n
        (e <- inFlightEmpty ;;
         if e then ret false
         else checkOneCommandBatchLocked env context)%cmd) s
     (upheld (fun _ => advanced s)).
Proof.
  intros Hsafe. induction n as [|n IH]; intros s Hlen; [lia|].
  cbn [loop]. apply wp_bind. unfold inFlightEmpty at 1. apply wp_bind, wp_get.
  cbn [andThen].
  destruct (mInFlightCommands s) as [|b0 rest0] eqn:Hi.
  { apply wp_ret. cbn [andThen]. apply wp_ret. cbn [upheld]. apply advanced_refl. }
  eapply wp_conseq; [apply (checkOneCommandBatchLocked_effect env context s Hsafe)|].
  intros r s1 Hr. destruct r as [done| |f]; cbn [andThen upheld] in *;
    [|exact I|exact Hr].
  destruct done.
  - eapply wp_conseq; [apply IH|].
    + destruct Hr as (b & rest & Hi0 & Hi1 & _). rewrite Hi1.
      rewrite Hi in Hi0. injection Hi0 as _ <-. cbn [length] in Hlen. lia.
    + intros r s2. apply upheld_impl. intros _. apply moved_advanced. exact Hr.
  - apply wp_ret. cbn [upheld]. destruct Hr as (A1 & B1 & C1 & D1).
    exists []. rewrite app_nil_r. cbn [app]. repeat split; congruence.
Qed.

(** X10: [checkCompletedCommandsLocked] moves batches from the front of the
    in-flight ring to the back of the finished ring and nothing else: its
    loop ends, and when it returns the finished ring is the one before
    followed by the batches that left the in-flight ring, in their order;
    the counter of all batches, the last submitted serials and the mutexes
    held are as before. *)
Theorem checkCompletedCommandsLocked_advances env context s :
  safeContext context ->
  let r := checkCompletedCommandsLocked env context s in
  fst r <> Abort OutOfFuel
  /\ (fst r = Ok tt ->
      advanced s (snd r)
      /\ mLastSubmittedSerials (snd r) = mLastSubmittedSerials s).
Proof.
  intros Hsafe. cbv zeta.
  assert (H : wp (checkCompletedCommandsLocked env context) s
                (upheld (fun _ => advanced s))).
  { unfold checkCompletedCommandsLocked. apply wp_bind, wp_get. cbn [andThen].
    apply (checkCompletedCommandsLocked_loop env context Hsafe). lia. }
  assert (Hs : preserves mLastSubmittedSerials (checkCompletedCommandsLocked env context))
    by (apply preserves_checkCompletedCommandsLocked; intros; reflexivity).
  specialize (Hs s). unfold wp in H.
  destruct (checkCompletedCommandsLocked env context s) as [[[]| |f] s'];
    cbn [fst snd upheld] in *.
  - split; [discriminate|]. intros _. split; [exact H|apply (Hs tt); reflexivity].
  - split; discriminate.
  - split; [intros [= ->]; discriminate H|discriminate].
Qed.

Lemma checkCompletedCommandsLocked_advances_witness :
  let s := fullRingState in
  let r := checkCompletedCommandsLocked quietDevice (externalContext 0) s in
  fst r <> Abort OutOfFuel
  /\ (fst r = Ok tt ->
      advanced s (snd r)
      /\ mLastSubmittedSerials (snd r) = mLastSubmittedSerials s).
Proof.
  apply (checkCompletedCommandsLocked_advances quietDevice (externalContext 0)
           fullRingState).
  apply externalContext_safe.
Defined.

(** ** The recovery from a lost device *)

Lemma popInFlightBatchLocked_effect s :
  wp popInFlightBatchLocked s
     (upheld (fun _ s' =>
        exists b rest,
          mInFlightCommands s = b :: rest
          /\ mInFlightCommands s' = rest
          /\ mFinishedCommandBatches s' = mFinishedCommandBatches s
          /\ mNumAllCommands s = S (mNumAllCommands s')
          /\ held s' = held s)).
Proof.
  unfold popInFlightBatchLocked, inFlightFront.
  cbv [wp bind get ASSERT modify emit ret abort].
  destruct (mInFlightCommands s) as [|b rest] eqn:Hf; cbn [fst snd upheld];
    [reflexivity|].
  ssimpl. destruct (mNumAllCommands s) as [|n] eqn:Hn; cbn [Nat.ltb Nat.leb fst snd upheld];
    [reflexivity|].
  exists b, rest. ssimpl. rewrite ?Hf, ?Hn. repeat split.
Qed.

(** The loop of [CommandQueue::handleDeviceLost] empties the in-flight ring,
    and its fuel is enough. *)
Lemma CommandQueue_handleDeviceLost_loop env n : forall s,
  length (mInFlightCommands s) < n ->
  wp (loop n
        (e <- inFlightEmpty ;;
         if e then ret false
         else
           (batch <- inFlightFront ;;
            h <- hasFence batch ;;
            (if h then
               status <- waitFence env batch (getMaxFenceWaitTimeNs env) ;;
               ASSERT 1284 ((status =? VK_SUCCESS)%Z || (status =? VK_ERROR_DEVICE_LOST)%Z)
             else ret tt) ;;
            q <- getQueueSerial batch ;;
            setLastCompleted q ;;
            CommandBatch_destroy batch ;;
            popInFlightBatchLocked ;;
            ret true))%cmd) s
     (upheld (fun _ => drained s)).
Proof.
  induction n as [|n IH]; intros s Hlen; [lia|].
  cbn [loop]. apply wp_bind. unfold inFlightEmpty at 1. apply wp_bind, wp_get.
  cbn [andThen].
  destruct (mInFlightCommands s) as [|b0 rest0] eqn:Hi.
  { apply wp_ret. cbn [andThen]. apply wp_ret. cbn [upheld].
    unfold drained. rewrite Hi. cbn [length]. repeat split. lia. }
  apply wp_keeps_then; [apply keeps_inFlightFront|apply lenient_andThen, lenient_upheld|].
  intros b s1 H1.
  apply wp_keeps_then; [apply keeps_hasFence|apply lenient_andThen, lenient_upheld|].
  intros h s2 H2.
  apply wp_keeps_then; [|apply lenient_andThen, lenient_upheld|].
  { destruct h; [|apply keeps_ret].
    apply keeps_bind; [apply keeps_waitFence|]. intros status.
    apply keeps_ASSERT. reflexivity. }
  intros _ s3 H3.
  apply wp_keeps_then; [apply keeps_getQueueSerial|apply lenient_andThen, lenient_upheld|].
  intros q s4 H4.
  apply wp_keeps_then; [apply keeps_setLastCompleted|apply lenient_andThen, lenient_upheld|].
  intros _ s5 H5.
  apply wp_keeps_then; [apply keeps_CommandBatch_destroy|apply lenient_andThen, lenient_upheld|].
  intros _ s6 H6.
  assert (H06 : sameQueue s s6).
  { repeat (eapply sameQueue_trans; [eassumption|]). apply sameQueue_refl. }
  apply wp_bind.
  eapply wp_conseq; [apply popInFlightBatchLocked_effect|].
  intros r s7 Hp. destruct r as [[]| |f]; cbn [andThen upheld] in *;
    [|exact I|exact Hp].
  destruct H06 as (A6 & B6 & C6 & D6).
  destruct Hp as (b' & rest' & Hi6 & Hi7 & Hf7 & Hn7 & Hh7).
  assert (Hrest : rest' = rest0) by congruence.
  apply wp_ret. cbn [andThen].
  eapply wp_conseq; [apply IH|].
  { rewrite Hi7, Hrest. cbn [length] in Hlen. lia. }
  intros r s8. apply upheld_impl. intros _ (Hi8 & Hf8 & Hn8 & Hh8).
  unfold drained. rewrite Hi. cbn [length]. rewrite Hi7, Hrest in Hn8.
  repeat split; try congruence. lia.
Qed.

Lemma wp_upheld_lock_guard {A} mu (body : M A) s (R : A -> State -> Prop) :
  (holds mu (held s) = false ->
   wp body (set_held (mu :: held s) s)
      (upheld (fun a s' => R a (set_held (unhold mu (held s')) s')))) ->
  wp (lock_guard mu body) s (upheld R).
Proof.
  intros Hb. apply wp_lock_guard; [intros _; reflexivity|].
  intros Hh. eapply wp_conseq; [apply Hb; exact Hh|].
  intros [a| |f] s'; cbn [released upheld]; auto.
Qed.

Lemma CommandQueue_handleDeviceLost_effect env s :
  wp (CommandQueue_handleDeviceLost env) s (upheld (fun _ => drained s)).
Proof.
  unfold CommandQueue_handleDeviceLost.
  apply wp_upheld_lock_guard. intros H1.
  apply wp_upheld_lock_guard. ssimpl. intros H2.
  apply wp_upheld_lock_guard. ssimpl. intros H3.
  apply wp_bind, wp_get. cbn [andThen].
  eapply wp_conseq; [apply CommandQueue_handleDeviceLost_loop; ssimpl; lia|].
  intros r s'. apply upheld_impl. intros _ (Hi & Hf & Hn & Hh).
  ssimpl. unfold drained. ssimpl. rewrite Hh. ssimpl.
  rewrite !unhold_head. repeat split; assumption.
Qed.

(** A batch that is destroyed does not give its fence back to the
    recycler: the recycler is detached first. *)
Lemma detach_then_reset_bystanders {B} p (k : M B) :
  preserves bystanders k ->
  preserves bystanders
    (RecyclableFence_detachRecycler p ;; SharedFence_reset p ;; k)%cmd.
Proof.
  intros Hk s a.
  change (wp (RecyclableFence_detachRecycler p ;; SharedFence_reset p ;; k)%cmd s
            (fun r s' => r = Ok a -> bystanders s' = bystanders s)).
  unfold RecyclableFence_detachRecycler, deref. wp_steps.
  destruct (sharedFences s !! p) as [r|] eqn:Hp; [|wp_steps; discriminate].
  assert (Hlt : p < length (sharedFences s)) by (eapply lookup_lt_Some; exact Hp).
  wp_steps. unfold store. wp_steps.
  unfold SharedFence_reset, deref. wp_steps.
  rewrite list_lookup_insert_eq by exact Hlt. wp_steps. unfold store. wp_steps.
  assert (Hend : forall s1, bystanders s1 = bystanders s ->
            wp k s1 (fun r0 s' => r0 = Ok a -> bystanders s' = bystanders s)).
  { intros s1 H1 Ha. rewrite <- H1. exact (Hk s1 a Ha). }
  destruct (rfRefs (set_rfRecycler false r) <=? 1)%nat;
    [|wp_steps; apply Hend; reflexivity].
  unfold RecyclableFence_destroy, deref. wp_steps.
  rewrite list_lookup_insert_eq by (rewrite length_insert; exact Hlt).
  wp_steps. cbn [rfFence rfRecycler set_rfRefs set_rfRecycler].
  destruct (valid (rfFence r)); wp_steps; [|apply Hend; reflexivity].
  unfold store. wp_steps. apply Hend. reflexivity.
Qed.

Lemma preserves_bystanders_CommandBatch_destroy b :
  preserves bystanders (CommandBatch_destroy b).
Proof.
  unfold CommandBatch_destroy.
  apply preserves_bind.
  { destruct (valid (mPrimaryCommands b)); [|apply preserves_ret].
    apply preserves_bind; [apply preserves_ASSERT|]. intros _.
    apply preserves_bind; [|intros; apply preserves_ret].
    apply preserves_destroyPrimaryCommandBuffer; intros; reflexivity. }
  intros b1. apply preserves_bind;
    [apply preserves_releaseCommandBuffers; intros; reflexivity|].
  intros b2. apply preserves_bind; [|intros; apply preserves_ret].
  destruct (mFence b2) as [p|]; [|apply preserves_ret].
  apply detach_then_reset_bystanders. apply preserves_ret.
Qed.

Lemma preserves_bystanders_handleDeviceLost env :
  preserves bystanders (CommandQueue_handleDeviceLost env).
Proof.
  assert (Ht : forall t s, bystanders (set_trace t s) = bystanders s)
    by (intros; reflexivity).
  assert (Hh : forall l s, bystanders (set_held l s) = bystanders s)
    by (intros; reflexivity).
  unfold CommandQueue_handleDeviceLost.
  do 3 (apply preserves_lock_guard; [exact Hh|]).
  apply preserves_bind; [apply preserves_get|]. intros n.
  apply preserves_loop.
  apply preserves_bind; [apply preserves_get|]. intros e.
  destruct e; [apply preserves_ret|].
  apply preserves_bind; [apply preserves_inFlightFront|]. intros b.
  apply preserves_bind; [apply preserves_hasFence|]. intros h.
  apply preserves_bind.
  { destruct h; [|apply preserves_ret].
    apply preserves_bind; [apply preserves_waitFence; intros; reflexivity|].
    intros status. apply preserves_ASSERT. }
  intros _. apply preserves_bind; [apply preserves_getQueueSerial|]. intros q.
  apply preserves_bind; [apply preserves_setLastCompleted; intros; reflexivity|].
  intros _.
  apply preserves_bind; [apply preserves_bystanders_CommandBatch_destroy|].
  intros _.
  apply preserves_bind; [apply preserves_popInFlightBatchLocked; intros; reflexivity|].
  intros _. apply preserves_ret.
Qed.

Lemma tame_handleDeviceLost_loop env n :
  tame recovering
    (loop n
        (e <- inFlightEmpty ;;
         if e then ret false
         else
           (batch <- inFlightFront ;;
            h <- hasFence batch ;;
            (if h then
               status <- waitFence env batch (getMaxFenceWaitTimeNs env) ;;
               ASSERT 1284 ((status =? VK_SUCCESS)%Z || (status =? VK_ERROR_DEVICE_LOST)%Z)
             else ret tt) ;;
            q <- getQueueSerial batch ;;
            setLastCompleted q ;;
            CommandBatch_destroy batch ;;
            popInFlightBatchLocked ;;
            ret true))%cmd).
Proof.
  apply tame_loop.
  apply tame_bind; [apply tame_get|]. intros e.
  destruct e; [apply tame_ret|].
  apply tame_bind; [apply tame_inFlightFront|]. intros b.
  apply tame_bind; [apply tame_hasFence|]. intros h.
  apply tame_bind.
  { destruct h; [|apply tame_ret].
    apply tame_bind; [apply tame_waitFence; reflexivity|]. intros status.
    apply tame_ASSERT. }
  intros _. apply tame_bind; [apply tame_getQueueSerial|]. intros q.
  apply tame_bind; [apply tame_setLastCompleted; reflexivity|]. intros _.
  apply tame_bind; [apply tame_CommandBatch_destroy; reflexivity|]. intros _.
  apply tame_bind; [apply tame_popInFlightBatchLocked; reflexivity|]. intros _.
  apply tame_ret.
Qed.

Lemma wp_since_held {A} mu (body : M A) s
    (P : list Event -> Outcome A -> State -> Prop) :
  holds mu (held s) = true ->
  P [] (Abort SelfDeadlock) s ->
  wp (lock_guard mu body) s (since s P).
Proof.
  intros Hh HP. eapply wp_eq; [apply lock_guard_held; exact Hh|].
  exists []. rewrite app_nil_r. auto.
Qed.

Lemma CommandQueue_handleDeviceLost_events env s :
  wp (CommandQueue_handleDeviceLost env) s
     (since s (fun evs _ _ =>
        Forall (under recovering
                  (mCmdReleaseMutex :: mCmdCompleteMutex :: mQueueSubmitMutex
                     :: held s)) evs)).
Proof.
  unfold CommandQueue_handleDeviceLost.
  destruct (holds mQueueSubmitMutex (held s)) eqn:H1;
    [apply wp_since_held; [exact H1|constructor]|].
  apply wp_since_lock_guard; [exact H1|].
  destruct (holds mCmdCompleteMutex (held (set_held (mQueueSubmitMutex :: held s) s)))
    eqn:H2.
  { apply wp_since_held; [exact H2|constructor]. }
  apply wp_since_lock_guard; [exact H2|]. ssimpl.
  eapply wp_conseq.
  { apply (wp_since_lock_guard_tame recovering) with
      (P := fun evs _ _ =>
              Forall (under recovering
                        (mCmdReleaseMutex :: mCmdCompleteMutex :: mQueueSubmitMutex
                           :: held s)) evs).
    - apply tame_bind; [apply tame_get|]. intros n. apply tame_handleDeviceLost_loop.
    - intros evs r s' H. exact H. }
  intros r s' (evs & Ht & H). exists evs. split; [exact Ht|].
  destruct r; exact H.
Qed.


(** X12: a wait that neither succeeds nor reports the loss of the device
    stops the recovery.  When the oldest batch in flight has a fence and
    the wait for it answers anything but [VK_SUCCESS] and
    [VK_ERROR_DEVICE_LOST], [CommandQueue::handleDeviceLost] fails the
    assertion of line 1284 right after this wait: no batch has been
    destroyed or popped and no serial has been stored as completed. *)
Theorem CommandQueue_handleDeviceLost_wait_fails env s b rest f :
  mInFlightCommands s = b :: rest ->
  fenceOf b s = Some f ->
  holds mQueueSubmitMutex (held s) = false ->
  holds mCmdCompleteMutex (held s) = false ->
  holds mCmdReleaseMutex (held s) = false ->
  vkWaitForFences env (trace s) f (getMaxFenceWaitTimeNs env) <> VK_SUCCESS ->
  vkWaitForFences env (trace s) f (getMaxFenceWaitTimeNs env) <> VK_ERROR_DEVICE_LOST ->
  let r := CommandQueue_handleDeviceLost env s in
  fst r = Abort (AssertionFailed 1284)
  /\ trace (snd r)
     = trace s
       ++ waitEvents (mCmdReleaseMutex :: mCmdCompleteMutex :: mQueueSubmitMutex
                        :: held s) (Some f) (getMaxFenceWaitTimeNs env)
  /\ mInFlightCommands (snd r) = mInFlightCommands s
  /\ mNumAllCommands (snd r) = mNumAllCommands s
  /\ mLastCompletedSerials (snd r) = mLastCompletedSerials s.
Proof.
  intros Hi Hf H1 H2 H3 Hok Hlost. cbv zeta.
  change (wp (CommandQueue_handleDeviceLost env) s
            (fun r s' =>
               r = Abort (AssertionFailed 1284)
               /\ trace s'
                  = trace s
                    ++ waitEvents (mCmdReleaseMutex :: mCmdCompleteMutex
                                     :: mQueueSubmitMutex :: held s) (Some f)
                         (getMaxFenceWaitTimeNs env)
               /\ mInFlightCommands s' = mInFlightCommands s
               /\ mNumAllCommands s' = mNumAllCommands s
               /\ mLastCompletedSerials s' = mLastCompletedSerials s)).
  unfold CommandQueue_handleDeviceLost.
  apply wp_lock_guard; intros Hh1; [congruence|].
  apply wp_lock_guard; ssimpl; intros Hh2.
  { cbn [holds Mutex_eqb orb] in Hh2. congruence. }
  apply wp_lock_guard; ssimpl; intros Hh3.
  { cbn [holds Mutex_eqb orb] in Hh3. congruence. }
  wp_steps. rewrite Hi. cbn [length loop]. unfold inFlightEmpty, inFlightFront.
  wp_steps. rewrite Hi. wp_steps. rewrite Hi. wp_steps.
  eapply wp_eq; [apply (fenceOf_hasFence b _ f); exact Hf|]. wp_steps.
  unfold waitFence. wp_steps.
  eapply wp_eq; [apply (fenceOf_hasFence b _ f); exact Hf|]. wp_steps.
  apply wp_ASSERT; intros Hc; [|discriminate Hc]. wp_steps.
  eapply wp_eq; [apply (fenceOf_theFence b _ f); exact Hf|]. wp_steps.
  apply wp_ASSERT; intros Hc2.
  { apply orb_true_iff in Hc2. destruct Hc2 as [Hc2|Hc2];
      apply Z.eqb_eq in Hc2; contradiction. }
  wp_steps. repeat split; first [reflexivity | exact Hi].
Qed.

Lemma CommandQueue_handleDeviceLost_wait_fails_witness :
  let s := fullRingState in
  let r := CommandQueue_handleDeviceLost stalledDevice s in
  fst r = Abort (AssertionFailed 1284)
  /\ trace (snd r)
     = trace s
       ++ waitEvents (mCmdReleaseMutex :: mCmdCompleteMutex :: mQueueSubmitMutex
                        :: held s) (Some 501%Z) (getMaxFenceWaitTimeNs stalledDevice)
  /\ mInFlightCommands (snd r) = mInFlightCommands s
  /\ mNumAllCommands (snd r) = mNumAllCommands s
  /\ mLastCompletedSerials (snd r) = mLastCompletedSerials s.
Proof.
  apply (CommandQueue_handleDeviceLost_wait_fails stalledDevice fullRingState
           (fencedBatch 1) [fencedBatch 2] 501%Z);
    first [reflexivity | discriminate].
Defined.

(** ** The destruction of the command queue *)

Lemma idleFrame_refl s : idleFrame s s.
Proof. split; [apply sameQueue_refl|reflexivity]. Qed.

Lemma idleFrame_trans s1 s2 s3 : idleFrame s1 s2 -> idleFrame s2 s3 -> idleFrame s1 s3.
Proof.
  intros [H1 H2] [H3 H4]. split; [eapply sameQueue_trans; eassumption|congruence].
Qed.

(** A step that returns and keeps the frame, followed by the rest. *)
Lemma wp_idle_bind {B} (m : M unit) (k : unit -> M B) s
    (Q : Outcome B -> State -> Prop) :
  wp m s (fun r s1 => r = Ok tt /\ idleFrame s s1) ->
  (forall s1, idleFrame s s1 -> wp (k tt) s1 Q) ->
  wp (bind m k) s Q.
Proof.
  intros Hm Hk. apply wp_bind. eapply wp_conseq; [exact Hm|].
  intros r s1 [-> H1]. cbn [andThen]. apply Hk. exact H1.
Qed.

Lemma destroyCommandsState_idle pr pt s :
  wp (destroyCommandsState pr pt) s (fun r s1 => r = Ok tt /\ idleFrame s s1).
Proof.
  unfold destroyCommandsState, set_state. wp_steps.
  destruct (valid (primaryCommands (mCommandsStateMap s pr pt)));
    destruct (secondaryCommands (mCommandsStateMap s pr pt));
    wp_steps; repeat split.
Qed.

Lemma forEach_idle {A} (l : list A) (body : A -> M unit) :
  (forall a s, wp (body a) s (fun r s1 => r = Ok tt /\ idleFrame s s1)) ->
  forall s, wp (forEach l body) s (fun r s1 => r = Ok tt /\ idleFrame s s1).
Proof.
  intros Hb. induction l as [|x l IH]; intros s; cbn [forEach].
  - apply wp_ret. split; [reflexivity|apply idleFrame_refl].
  - apply wp_idle_bind; [apply Hb|]. intros s1 H1.
    eapply wp_conseq; [apply IH|]. intros r s2 [-> H2].
    split; [reflexivity|eapply idleFrame_trans; eassumption].
Qed.

Lemma idleFrame_held mu s s' :
  idleFrame (set_held (mu :: held s) s) s' ->
  idleFrame s (set_held (unhold mu (held s')) s').
Proof.
  intros [(Hi & Hf & Hn & Hh) Hc]. ssimpl.
  repeat split; ssimpl; try assumption. rewrite Hh. apply unhold_head.
Qed.

Lemma lock_guard_idle mu (body : M unit) s :
  holds mu (held s) = false ->
  (forall s0, wp body s0 (fun r s1 => r = Ok tt /\ idleFrame s0 s1)) ->
  wp (lock_guard mu body) s (fun r s1 => r = Ok tt /\ idleFrame s s1).
Proof.
  intros Hh Hb. apply wp_lock_guard; [congruence|]. intros _.
  eapply wp_conseq; [apply Hb|]. intros r s1 [-> H1]. cbn [released].
  split; [reflexivity|apply idleFrame_held; exact H1].
Qed.

Lemma CommandPoolAccess_destroy_idle s :
  holds mCmdPoolMutex (held s) = false ->
  wp CommandPoolAccess_destroy s (fun r s1 => r = Ok tt /\ idleFrame s s1).
Proof.
  intros Hh. unfold CommandPoolAccess_destroy.
  apply lock_guard_idle; [exact Hh|]. intros s0.
  apply wp_idle_bind.
  { apply forEach_idle. intros pr s1. apply forEach_idle. intros pt s2.
    apply destroyCommandsState_idle. }
  intros s1 H1. eapply wp_conseq.
  { apply forEach_idle. intros pt s2. apply wp_bind, wp_get. cbn [andThen].
    apply wp_idle_bind.
    { apply forEach_idle. intros b s3. wp_steps. repeat split. }
    intros s3 H3. unfold set_pool. wp_steps.
    split; [reflexivity|]. eapply idleFrame_trans; [exact H3|]. repeat split. }
  intros r s2 [-> H2]. split; [reflexivity|eapply idleFrame_trans; eassumption].
Qed.

Lemma destroyFences_idle l s :
  wp (destroyFences l) s
     (fun r s1 => r = Ok tt /\ idleFrame s s1
                  /\ mFenceRecycler s1 = mFenceRecycler s).
Proof.
  revert s. induction l as [|f l IH]; intros s; cbn [destroyFences].
  - apply wp_ret. repeat split.
  - wp_steps. eapply wp_conseq; [apply IH|].
    intros r s1 (-> & H1 & H2). split; [reflexivity|]. split; [|exact H2].
    eapply idleFrame_trans; [|exact H1]. repeat split.
Qed.

Lemma FenceRecycler_destroy_idle s :
  holds mRecyclerMutex (held s) = false ->
  wp FenceRecycler_destroy s
     (fun r s1 => r = Ok tt /\ idleFrame s s1 /\ mFenceRecycler s1 = []).
Proof.
  intros Hh. unfold FenceRecycler_destroy.
  apply wp_lock_guard; [congruence|]. intros _. wp_steps.
  eapply wp_conseq; [apply destroyFences_idle|].
  intros r s1 (-> & H1 & H2). wp_steps.
  split; [reflexivity|]. split; [|reflexivity].
  destruct H1 as [(Hi & Hf & Hn & Hh1) Hc]. ssimpl.
  repeat split; ssimpl; try assumption. rewrite Hh1. apply unhold_head.
Qed.

(** X13: [CommandQueue::destroy] on a thread that holds none of the mutexes
    it takes.  The call returns exactly when the queue is idle: with a
    batch in flight it fails the assertion of line 1236, with a finished
    batch that of line 1237, with a counter of all batches that is not zero
    that of line 1238.  In every case the release work has been done by
    then: every last completed serial is the infinite serial, the fence
    recycler is empty, and the rings and the counter are untouched. *)
Theorem CommandQueue_destroy_outcome s :
  Forall (fun m => holds m (held s) = false) destroyMutexes ->
  let r := CommandQueue_destroy s in
  fst r = destroyOutcome s
  /\ mLastCompletedSerials (snd r)
     = replicate (length (mLastCompletedSerials s)) Serial_Infinite
  /\ mFenceRecycler (snd r) = []
  /\ mInFlightCommands (snd r) = mInFlightCommands s
  /\ mFinishedCommandBatches (snd r) = mFinishedCommandBatches s
  /\ mNumAllCommands (snd r) = mNumAllCommands s
  /\ (fst r = Ok tt -> held (snd r) = held s).
Proof.
  intros Hfree. cbv zeta.
  apply Forall_cons in Hfree as [H1 Hfree]. apply Forall_cons in Hfree as [H2 Hfree].
  apply Forall_cons in Hfree as [H3 Hfree]. apply Forall_cons in Hfree as [H4 Hfree].
  apply Forall_cons in Hfree as [H5 _].
  change (wp CommandQueue_destroy s
            (fun r s' =>
               r = destroyOutcome s
               /\ mLastCompletedSerials s'
                  = replicate (length (mLastCompletedSerials s)) Serial_Infinite
               /\ mFenceRecycler s' = []
               /\ mInFlightCommands s' = mInFlightCommands s
               /\ mFinishedCommandBatches s' = mFinishedCommandBatches s
               /\ mNumAllCommands s' = mNumAllCommands s
               /\ (r = Ok tt -> held s' = held s))).
  unfold CommandQueue_destroy.
  apply wp_lock_guard; intros Hh1; [congruence|].
  apply wp_lock_guard; ssimpl; intros Hh2.
  { cbn [holds Mutex_eqb orb] in Hh2. congruence. }
  apply wp_lock_guard; ssimpl; intros Hh3.
  { cbn [holds Mutex_eqb orb] in Hh3. congruence. }
  unfold fillLastCompleted. wp_steps.
  eapply wp_conseq.
  { apply CommandPoolAccess_destroy_idle. ssimpl.
    cbn [holds Mutex_eqb orb]. exact H4. }
  intros r s1 [-> [(Hi1 & Hf1 & Hn1 & Hh1') Hc1]]. ssimpl. wp_steps.
  eapply wp_conseq.
  { apply FenceRecycler_destroy_idle. rewrite Hh1'.
    cbn [holds Mutex_eqb orb]. exact H5. }
  intros r s2 (-> & [(Hi2 & Hf2 & Hn2 & Hh2') Hc2] & Hr2).
  assert (Ei : mInFlightCommands s2 = mInFlightCommands s) by congruence.
  assert (Ef : mFinishedCommandBatches s2 = mFinishedCommandBatches s) by congruence.
  assert (En : mNumAllCommands s2 = mNumAllCommands s) by congruence.
  assert (Ec : mLastCompletedSerials s2
               = replicate (length (mLastCompletedSerials s)) Serial_Infinite)
    by congruence.
  assert (Eh : held s2 = mCmdReleaseMutex :: mCmdCompleteMutex
                           :: mQueueSubmitMutex :: held s) by congruence.
  clear Hi1 Hf1 Hn1 Hh1' Hc1 Hi2 Hf2 Hn2 Hh2' Hc2.
  unfold inFlightEmpty, finishedEmpty, destroyOutcome.
  apply wp_bind, wp_get. cbn [andThen]. rewrite Ei. apply wp_bind.
  destruct (mInFlightCommands s) as [|b l].
  2:{ apply wp_ASSERT; intros Hc; [discriminate Hc|]. cbn [andThen].
      repeat split; try assumption. discriminate. }
  apply wp_ASSERT; intros Hc; [|discriminate Hc]. cbn [andThen].
  apply wp_bind, wp_get. cbn [andThen]. rewrite Ef. apply wp_bind.
  destruct (mFinishedCommandBatches s) as [|b l].
  2:{ apply wp_ASSERT; intros Hc'; [discriminate Hc'|]. cbn [andThen].
      repeat split; try assumption. discriminate. }
  apply wp_ASSERT; intros Hc'; [|discriminate Hc']. cbn [andThen].
  apply wp_bind, wp_get. cbn [andThen]. rewrite En.
  destruct (mNumAllCommands s) as [|n].
  2:{ apply wp_ASSERT; intros Hc''; [discriminate Hc''|]. cbn [released].
      repeat split; try assumption. discriminate. }
  apply wp_ASSERT; intros Hc''; [|discriminate Hc'']. cbn [released]. ssimpl.
  repeat split; try assumption. intros _. rewrite Eh.
  cbn [unhold Mutex_eqb]. reflexivity.
Qed.

Lemma CommandQueue_destroy_outcome_witness :
  let s := set_mFenceRecycler [7%Z; 8%Z] initialState in
  let r := CommandQueue_destroy s in
  fst r = destroyOutcome s
  /\ mLastCompletedSerials (snd r)
     = replicate (length (mLastCompletedSerials s)) Serial_Infinite
  /\ mFenceRecycler (snd r) = []
  /\ mInFlightCommands (snd r) = mInFlightCommands s
  /\ mFinishedCommandBatches (snd r) = mFinishedCommandBatches s
  /\ mNumAllCommands (snd r) = mNumAllCommands s
  /\ (fst r = Ok tt -> held (snd r) = held s).
Proof.
  apply (CommandQueue_destroy_outcome (set_mFenceRecycler [7%Z; 8%Z] initialState)).
  repeat constructor.
Defined.

(** ** The wait semaphores of the command pool *)

(** A step that can fail only by handing the error to the context, before a
    postcondition that speaks of the runs that return. *)
Lemma wp_VK_TRY_returns {B} context (command : M VkResult) fn ln (k : unit -> M B) s
    (Q : Outcome B -> State -> Prop) :
  (forall s', Q Stop s') -> (forall f s', Q (Abort f) s') ->
  wp command s (fun r s1 =>
                  forall res, r = Ok res -> (res =? VK_SUCCESS)%Z = true ->
                              wp (k tt) s1 Q) ->
  wp (bind (ANGLE_VK_TRY context command fn ln) k) s Q.
Proof.
  intros Hstop Habort Hc. unfold wp, ANGLE_VK_TRY, bind in *.
  destruct (command s) as [[res| |f] s1]; cbn [fst snd] in *; auto.
  destruct (res =? VK_SUCCESS)%Z eqn:Hres; cbn [ret fst snd].
  - apply (Hc res eq_refl Hres).
  - destruct (handleError context res thisFile fn ln s1) as [[[]| |f] s2];
      cbn [fst snd stop]; auto.
Qed.

(** X14: the wait semaphores that [CommandPoolAccess::flushWaitSemaphores]
    hands to the commands state of a priority and a protection type are
    what the next [getCommandsAndWaitSemaphores] for this pair takes out:
    when the two calls return, the semaphores and their stage masks are
    those that were waiting before followed by the new ones, in their
    order, there was at least one new semaphore with as many masks as
    semaphores, and the commands state of the pair is left empty while
    those of the other pairs are as before. *)
Theorem flushWaitSemaphores_then_get env context pt pr sems masks batch s got :
  let r := (CommandPoolAccess_flushWaitSemaphores pt pr sems masks ;;
            getCommandsAndWaitSemaphores env context pt pr batch)%cmd s in
  fst r = Ok got ->
  sems <> [] /\ length sems = length masks
  /\ fst (snd got) = waitSemaphores (mCommandsStateMap s pr pt) ++ sems
  /\ snd (snd got) = waitSemaphoreStageMasks (mCommandsStateMap s pr pt) ++ masks
  /\ mPrimaryCommands (fst got) = primaryCommands (mCommandsStateMap s pr pt)
  /\ mSecondaryCommands (fst got) = secondaryCommands (mCommandsStateMap s pr pt)
  /\ mCommandsStateMap (snd r) pr pt = emptyCommandsState
  /\ (forall pr' pt',
        ContextPriority_eqb pr' pr && ProtectionType_eqb pt' pt = false ->
        mCommandsStateMap (snd r) pr' pt' = mCommandsStateMap s pr' pt')
  /\ held (snd r) = held s.
Proof.
  cbv zeta.
  change (wp (CommandPoolAccess_flushWaitSemaphores pt pr sems masks ;;
              getCommandsAndWaitSemaphores env context pt pr batch)%cmd s
            (fun r s' =>
               r = Ok got ->
               sems <> [] /\ length sems = length masks
               /\ fst (snd got) = waitSemaphores (mCommandsStateMap s pr pt) ++ sems
               /\ snd (snd got)
                  = waitSemaphoreStageMasks (mCommandsStateMap s pr pt) ++ masks
               /\ mPrimaryCommands (fst got) = primaryCommands (mCommandsStateMap s pr pt)
               /\ mSecondaryCommands (fst got)
                  = secondaryCommands (mCommandsStateMap s pr pt)
               /\ mCommandsStateMap s' pr pt = emptyCommandsState
               /\ (forall pr' pt',
                     ContextPriority_eqb pr' pr && ProtectionType_eqb pt' pt = false ->
                     mCommandsStateMap s' pr' pt' = mCommandsStateMap s pr' pt')
               /\ held s' = held s)).
  assert (Hpr : ContextPriority_eqb pr pr = true) by (destruct pr; reflexivity).
  assert (Hpt : ProtectionType_eqb pt pt = true) by (destruct pt; reflexivity).
  unfold CommandPoolAccess_flushWaitSemaphores. apply wp_bind. apply wp_bind.
  apply wp_ASSERT; intros Hne; [|discriminate]. cbn [andThen].
  apply wp_bind. apply wp_ASSERT; intros Hlen; [|discriminate]. cbn [andThen].
  assert (Hsems : sems <> []) by (destruct sems; [discriminate Hne|discriminate]).
  apply Nat.eqb_eq in Hlen.
  apply wp_lock_guard; [discriminate|]. intros Hh1.
  unfold set_state. wp_steps.
  unfold getCommandsAndWaitSemaphores.
  apply wp_lock_guard; [discriminate|]. rewrite unhold_head. intros Hh2.
  wp_steps. rewrite Hpr, Hpt. cbn [andb primaryCommands secondaryCommands
                                   waitSemaphores waitSemaphoreStageMasks].
  apply wp_ASSERT; intros Hc; [|discriminate]. cbn [andThen].
  assert (Hrest : forall s1,
            held s1 = mCmdPoolMutex :: held s ->
            mCommandsStateMap s1
            = (fun pr0 pt0 =>
                 if ContextPriority_eqb pr0 pr && ProtectionType_eqb pt0 pt
                 then {| primaryCommands := primaryCommands (mCommandsStateMap s pr pt);
                         secondaryCommands := secondaryCommands (mCommandsStateMap s pr pt);
                         waitSemaphores :=
                           waitSemaphores (mCommandsStateMap s pr pt) ++ sems;
                         waitSemaphoreStageMasks :=
                           waitSemaphoreStageMasks (mCommandsStateMap s pr pt) ++ masks |}
                 else mCommandsStateMap s pr0 pt0) ->
            wp (batchOut <- setPrimaryCommands
                              (primaryCommands (mCommandsStateMap s pr pt)) true batch ;;
                batchOut <- setSecondaryCommands
                              (secondaryCommands (mCommandsStateMap s pr pt)) batchOut ;;
                set_state pr pt
                  {| primaryCommands := VK_NULL_HANDLE; secondaryCommands := [];
                     waitSemaphores := []; waitSemaphoreStageMasks := [] |} ;;
                ret (batchOut,
                     (waitSemaphores (mCommandsStateMap s pr pt) ++ sems,
                      waitSemaphoreStageMasks (mCommandsStateMap s pr pt) ++ masks)))%cmd
               s1
               (released mCmdPoolMutex
                  (fun r s' =>
                     r = Ok got ->
                     sems <> [] /\ length sems = length masks
                     /\ fst (snd got) = waitSemaphores (mCommandsStateMap s pr pt) ++ sems
                     /\ snd (snd got)
                        = waitSemaphoreStageMasks (mCommandsStateMap s pr pt) ++ masks
                     /\ mPrimaryCommands (fst got)
                        = primaryCommands (mCommandsStateMap s pr pt)
                     /\ mSecondaryCommands (fst got)
                        = secondaryCommands (mCommandsStateMap s pr pt)
                     /\ mCommandsStateMap s' pr pt = emptyCommandsState
                     /\ (forall pr' pt',
                           ContextPriority_eqb pr' pr && ProtectionType_eqb pt' pt = false ->
                           mCommandsStateMap s' pr' pt' = mCommandsStateMap s pr' pt')
                     /\ held s' = held s))).
  { intros s1 Hheld Hmap. unfold setPrimaryCommands, setSecondaryCommands, set_state.
    apply wp_bind. apply wp_bind.
    apply wp_ASSERT; intros C1; [|discriminate]. cbn [andThen]. apply wp_bind.
    apply wp_ASSERT; intros C2; [|discriminate]. cbn [andThen]. apply wp_bind.
    apply wp_ASSERT; intros C3; [|discriminate]. cbn [andThen]. wp_steps.
    apply wp_ASSERT; intros C4; [|discriminate]. wp_steps.
    intros [= <-]. cbn [fst snd mPrimaryCommands mSecondaryCommands
                          set_mSecondaryCommands set_mCommandPoolAccess
                          set_mPrimaryCommands].
    rewrite Hpr, Hpt, Hheld, unhold_head. cbn [andb].
    repeat split; try assumption.
    intros pr' pt' Hd. rewrite Hd, Hmap, Hd. reflexivity. }
  destruct (valid (primaryCommands (mCommandsStateMap s pr pt))).
  - apply wp_VK_TRY_returns; [discriminate|discriminate|].
    wp_steps. intros res _ _. apply Hrest; reflexivity.
  - apply wp_bind, wp_ret. cbn [andThen]. apply Hrest; reflexivity.
Qed.

Lemma flushWaitSemaphores_then_get_witness :
  let s := initialState in
  let got := (set_mCommandPoolAccess true CommandBatch_new, ([11%Z], [1%Z])) in
  let r := (CommandPoolAccess_flushWaitSemaphores Unprotected Medium [11%Z] [1%Z] ;;
            getCommandsAndWaitSemaphores quietDevice (externalContext 0)
              Unprotected Medium CommandBatch_new)%cmd s in
  [11%Z] <> [] /\ length [11%Z] = length [1%Z]
  /\ fst (snd got) = waitSemaphores (mCommandsStateMap s Medium Unprotected) ++ [11%Z]
  /\ snd (snd got)
     = waitSemaphoreStageMasks (mCommandsStateMap s Medium Unprotected) ++ [1%Z]
  /\ mPrimaryCommands (fst got) = primaryCommands (mCommandsStateMap s Medium Unprotected)
  /\ mSecondaryCommands (fst got)
     = secondaryCommands (mCommandsStateMap s Medium Unprotected)
  /\ mCommandsStateMap (snd r) Medium Unprotected = emptyCommandsState
  /\ (forall pr' pt',
        ContextPriority_eqb pr' Medium && ProtectionType_eqb pt' Unprotected = false ->
        mCommandsStateMap (snd r) pr' pt' = mCommandsStateMap s pr' pt')
  /\ held (snd r) = held s.
Proof.
  apply (flushWaitSemaphores_then_get quietDevice (externalContext 0) Unprotected
           Medium [11%Z] [1%Z] CommandBatch_new initialState
           (set_mCommandPoolAccess true CommandBatch_new, ([11%Z], [1%Z]))).
  reflexivity.
Defined.

(** ** The fences of the batches *)

(** X15: [RecyclableFence::init] on an empty, detached fence takes a fence
    of the recycler before it asks the device for one.  With a valid fence
    at the head of the recycler the call returns [VK_SUCCESS]: the fence
    has left the recycler and is the fence of the slot, attached to the
    recycler, and the only call to the device is its reset, made under the
    recycler mutex.  With an empty recycler the only call is the creation
    of a fence: when it fails the call returns the error of the device and
    the slot stays empty and detached; when it succeeds with a valid fence
    the call returns [VK_SUCCESS] with this fence in the slot, attached.
    The recycler is not locked during the creation. *)
Theorem RecyclableFence_init_sources env p s r :
  sharedFences s !! p = Some r ->
  valid (rfFence r) = false ->
  rfRecycler r = false ->
  holds mRecyclerMutex (held s) = false ->
  let out := RecyclableFence_init env p s in
  held (snd out) = held s
  /\ match mFenceRecycler s with
     | f :: rest =>
         valid f = true ->
         fst out = Ok VK_SUCCESS
         /\ mFenceRecycler (snd out) = rest
         /\ fenceSlot (snd out) p = Some (f, true)
         /\ trace (snd out)
            = trace s ++ [ {| evLocks := mRecyclerMutex :: held s;
                              evAction := ActResetFence f |} ]
     | [] =>
         let created := vkCreateFence env (trace s) in
         mFenceRecycler (snd out) = []
         /\ trace (snd out)
            = trace s ++ [ {| evLocks := held s; evAction := ActCreateFence |} ]
         /\ (fst created <> VK_SUCCESS ->
             fst out = Ok (fst created)
             /\ fenceSlot (snd out) p = Some (rfFence r, false))
         /\ (fst created = VK_SUCCESS -> valid (snd created) = true ->
             fst out = Ok VK_SUCCESS
             /\ fenceSlot (snd out) p = Some (snd created, true))
     end.
Proof.
  intros Hp Hv Hr Hh. cbv zeta.
  assert (Hlt : p < length (sharedFences s)) by (eapply lookup_lt_Some; exact Hp).
  change (wp (RecyclableFence_init env p) s
            (fun res s' =>
               held s' = held s
               /\ match mFenceRecycler s with
                  | f :: rest =>
                      valid f = true ->
                      res = Ok VK_SUCCESS
                      /\ mFenceRecycler s' = rest
                      /\ fenceSlot s' p = Some (f, true)
                      /\ trace s'
                         = trace s ++ [ {| evLocks := mRecyclerMutex :: held s;
                                           evAction := ActResetFence f |} ]
                  | [] =>
                      mFenceRecycler s' = []
                      /\ trace s'
                         = trace s ++ [ {| evLocks := held s;
                                           evAction := ActCreateFence |} ]
                      /\ (fst (vkCreateFence env (trace s)) <> VK_SUCCESS ->
                          res = Ok (fst (vkCreateFence env (trace s)))
                          /\ fenceSlot s' p = Some (rfFence r, false))
                      /\ (fst (vkCreateFence env (trace s)) = VK_SUCCESS ->
                          valid (snd (vkCreateFence env (trace s))) = true ->
                          res = Ok VK_SUCCESS
                          /\ fenceSlot s' p = Some (snd (vkCreateFence env (trace s)), true))
                  end)).
  unfold RecyclableFence_init, deref. wp_steps. rewrite Hp. wp_steps.
  rewrite Hv, Hr. cbn [negb].
  apply wp_ASSERT; intros Hx; [clear Hx|discriminate Hx]. wp_steps.
  apply wp_ASSERT; intros Hx; [clear Hx|discriminate Hx]. wp_steps.
  unfold FenceRecycler_fetch. wp_steps. rewrite Hv. cbn [negb].
  apply wp_ASSERT; intros Hx; [clear Hx|discriminate Hx]. wp_steps.
  apply wp_lock_guard; [congruence|]. intros _.
  unfold Recycler_empty, Recycler_fetch. wp_steps.
  destruct (mFenceRecycler s) as [|f rest] eqn:Hrec; cbn [negb].
  - wp_steps. unfold store. wp_steps. rewrite Hv. cbn [negb]. wp_steps.
    rewrite unhold_head.
    destruct (fst (vkCreateFence env (trace s)) =? VK_SUCCESS)%Z eqn:Hc; cbn [negb].
    + wp_steps. apply wp_ASSERT; intros Hvalid.
      * wp_steps. split; [reflexivity|]. split; [exact Hrec|].
        split; [reflexivity|]. split.
        { intros Hne. apply Z.eqb_eq in Hc. contradiction. }
        intros _ _. split; [reflexivity|]. unfold fenceSlot. ssimpl.
        rewrite list_lookup_insert_eq by (rewrite !length_insert; exact Hlt).
        cbn [rfFence rfRecycler set_rfFence set_rfRecycler]. reflexivity.
      * ssimpl. split; [reflexivity|]. split; [exact Hrec|].
        split; [reflexivity|]. split.
        { intros Hne. apply Z.eqb_eq in Hc. contradiction. }
        intros _ Hvalid'. congruence.
    + wp_steps. rewrite ?Hv. cbn [negb].
      apply wp_ASSERT; intros Hx; [clear Hx|discriminate Hx]. wp_steps.
      split; [reflexivity|]. split; [exact Hrec|]. split; [reflexivity|]. split.
      * intros _. split; [reflexivity|]. unfold fenceSlot. ssimpl.
        rewrite list_lookup_insert_eq by exact Hlt.
        cbn [rfFence rfRecycler set_rfFence set_rfRecycler]. rewrite Hr. reflexivity.
      * intros He. apply Z.eqb_neq in Hc. contradiction.
  - wp_steps. rewrite Hrec. wp_steps. unfold store. wp_steps.
    rewrite unhold_head.
    destruct (valid f) eqn:Hvf; cbn [negb].
    + wp_steps. split; [reflexivity|]. intros _.
      repeat split. unfold fenceSlot. ssimpl.
      rewrite list_lookup_insert_eq by (rewrite !length_insert; exact Hlt).
      cbn [rfFence rfRecycler set_rfFence set_rfRecycler]. reflexivity.
    + wp_steps.
      destruct (fst (vkCreateFence env
                  (trace s ++ [ {| evLocks := mRecyclerMutex :: held s;
                                   evAction := ActResetFence f |} ])) =? VK_SUCCESS)%Z;
        cbn [negb]; wp_steps.
      * apply wp_ASSERT; intros Hx; wp_steps; (split; [reflexivity|discriminate]).
      * split; [reflexivity|discriminate].
Qed.

Lemma RecyclableFence_init_sources_witness :
  let s := emptyFenceState [700%Z] in
  let out := RecyclableFence_init quietDevice 0 s in
  held (snd out) = held s
  /\ (valid 700%Z = true ->
      fst out = Ok VK_SUCCESS
      /\ mFenceRecycler (snd out) = []
      /\ fenceSlot (snd out) 0 = Some (700%Z, true)
      /\ trace (snd out)
         = trace s ++ [ {| evLocks := mRecyclerMutex :: held s;
                           evAction := ActResetFence 700%Z |} ]).
Proof.
  apply (RecyclableFence_init_sources quietDevice 0 (emptyFenceState [700%Z])
           {| rfFence := VK_NULL_HANDLE; rfRecycler := false; rfRefs := 1 |});
    reflexivity.
Defined.

Lemma wp_RecyclableFence_init_reuse env p s r f rest
    (Q : Outcome VkResult -> State -> Prop) :
  sharedFences s !! p = Some r ->
  valid (rfFence r) = false ->
  rfRecycler r = false ->
  holds mRecyclerMutex (held s) = false ->
  mFenceRecycler s = f :: rest ->
  valid f = true ->
  (forall s',
     sharedFences s' = <[p := set_rfRecycler true (set_rfFence f r)]> (sharedFences s) ->
     mFenceRecycler s' = rest ->
     held s' = held s ->
     Q (Ok VK_SUCCESS) s') ->
  wp (RecyclableFence_init env p) s Q.
Proof.
  intros Hp Hv Hr Hh Hrec Hvf HQ.
  unfold RecyclableFence_init, deref. wp_steps. rewrite Hp. wp_steps.
  rewrite Hv, Hr. cbn [negb].
  apply wp_ASSERT; intros Hx; [clear Hx|discriminate Hx]. wp_steps.
  apply wp_ASSERT; intros Hx; [clear Hx|discriminate Hx]. wp_steps.
  unfold FenceRecycler_fetch. wp_steps. rewrite Hv. cbn [negb].
  apply wp_ASSERT; intros Hx; [clear Hx|discriminate Hx]. wp_steps.
  apply wp_lock_guard; [congruence|]. intros _.
  unfold Recycler_empty, Recycler_fetch. wp_steps. rewrite Hrec. cbn [negb].
  wp_steps. rewrite Hrec. wp_steps. unfold store. wp_steps.
  rewrite Hvf. cbn [negb]. wp_steps. apply HQ; ssimpl.
  - apply list_insert_insert_eq.
  - reflexivity.
  - apply unhold_head.
Qed.

(** X16: what becomes of the fence of a batch.  A batch without a fence
    takes the fence at the head of the recycler in [CommandBatch::initFence].
    When the batch is then released, [CommandBatch::release] gives the fence
    back: the recycler is as it was before.  When the batch is destroyed
    instead, [CommandBatch::destroy] detaches the recycler first: the fence
    does not come back and the recycler stays one fence short.  Either way
    the batch holds no fence afterwards and the slot of the fence is
    empty. *)
Theorem initFence_then_release_or_destroy env context b s f rest :
  mFence b = None ->
  mExternalFence b = None ->
  valid (mPrimaryCommands b) = false ->
  holds mRecyclerMutex (held s) = false ->
  mFenceRecycler s = f :: rest ->
  valid f = true ->
  let released :=
    (out <- initFence env b ;; CommandBatch_release env context (snd out))%cmd s in
  let destroyed :=
    (out <- initFence env b ;; CommandBatch_destroy (snd out))%cmd s in
  (exists b', fst released = Ok b' /\ mFence b' = None /\ mExternalFence b' = None)
  /\ mFenceRecycler (snd released) = f :: rest
  /\ fenceSlot (snd released) (length (sharedFences s)) = Some (VK_NULL_HANDLE, true)
  /\ (exists b', fst destroyed = Ok b' /\ mFence b' = None /\ mExternalFence b' = None)
  /\ mFenceRecycler (snd destroyed) = rest
  /\ fenceSlot (snd destroyed) (length (sharedFences s)) = Some (VK_NULL_HANDLE, false).
Proof.
  intros Hf He Hprim Hh Hrec Hvf. cbv zeta.
  set (p := length (sharedFences s)).
  set (slot := {| rfFence := VK_NULL_HANDLE; rfRecycler := false; rfRefs := 1 |}).
  assert (Hinit : forall (Q : Outcome (VkResult * CommandBatch) -> State -> Prop),
            (forall s',
               sharedFences s'
               = <[p := set_rfRecycler true (set_rfFence f slot)]>
                   (sharedFences s ++ [slot]) ->
               mFenceRecycler s' = rest ->
               held s' = held s ->
               Q (Ok (VK_SUCCESS, set_mFence (Some p) b)) s') ->
            wp (initFence env b) s Q).
  { intros Q HQ. unfold initFence, hasFence. wp_steps. rewrite Hf, He. cbn [isSome negb orb].
    apply wp_ASSERT; intros Hx; [clear Hx|discriminate Hx]. wp_steps.
    apply wp_ASSERT; intros Hx; [clear Hx|discriminate Hx]. wp_steps.
    unfold SharedFence_MakeShared. wp_steps. fold p. fold slot.
    apply (wp_RecyclableFence_init_reuse env p _ slot f rest); ssimpl;
      try first [reflexivity | assumption].
    { apply list_lookup_middle. reflexivity. }
    intros s1 H1 H2 H3. cbn [andThen Z.eqb VK_SUCCESS]. unfold deref. wp_steps.
    rewrite H1, list_lookup_insert_eq by (rewrite length_app; cbn [length]; lia).
    wp_steps. cbn [rfFence set_rfRecycler set_rfFence]. rewrite Hvf.
    apply wp_ASSERT; intros Hx; [clear Hx|discriminate Hx]. wp_steps.
    apply HQ; assumption. }
  assert (Hlen : p < length (sharedFences s ++ [slot]))
    by (rewrite length_app; cbn [length]; lia).
  assert (Hrel : wp (out <- initFence env b ;;
                     CommandBatch_release env context (snd out))%cmd s
                   (fun r s' =>
                      (exists b', r = Ok b' /\ mFence b' = None /\ mExternalFence b' = None)
                      /\ mFenceRecycler s' = f :: rest
                      /\ fenceSlot s' p = Some (VK_NULL_HANDLE, true))).
  { apply wp_bind, Hinit. intros s1 H1 H2 H3. cbn [andThen snd].
    unfold CommandBatch_release, releaseCommandBuffers.
    cbn [mPrimaryCommands mSecondaryCommands mFence set_mFence].
    rewrite Hprim. wp_steps.
    assert (Hreset : forall b1 s2,
              sharedFences s2 = sharedFences s1 -> mFenceRecycler s2 = rest ->
              held s2 = held s -> mFence b1 = Some p ->
              wp (b2 <- match mFence b1 with
                        | Some p0 => SharedFence_reset p0 ;; ret (set_mFence None b1)
                        | None => ret b1
                        end ;;
                  ret (set_mExternalFence None b2))%cmd s2
                 (fun r s' =>
                    (exists b', r = Ok b' /\ mFence b' = None /\ mExternalFence b' = None)
                    /\ mFenceRecycler s' = f :: rest
                    /\ fenceSlot s' p = Some (VK_NULL_HANDLE, true))).
    { intros b1 s2 E1 E2 E3 E4. rewrite E4. unfold SharedFence_reset, deref. wp_steps.
      rewrite E1, H1, list_lookup_insert_eq by exact Hlen. wp_steps.
      unfold store. wp_steps. cbn [rfRefs set_rfRecycler set_rfFence slot Nat.leb].
      unfold RecyclableFence_destroy, deref. wp_steps.
      rewrite list_lookup_insert_eq
        by (rewrite E1, H1, length_insert; exact Hlen).
      wp_steps. cbn [rfFence rfRecycler set_rfRefs set_rfRecycler set_rfFence].
      rewrite Hvf. unfold FenceRecycler_recycle, Recycler_recycle. wp_steps.
      apply wp_lock_guard; [ssimpl; rewrite E3; congruence|]. intros _. wp_steps.
      unfold store. wp_steps.
      split; [eexists; split; [reflexivity|split; reflexivity]|].
      split; [rewrite E2; reflexivity|].
      unfold fenceSlot. ssimpl.
      rewrite list_lookup_insert_eq
        by (rewrite length_insert, E1, H1, length_insert; exact Hlen).
      reflexivity. }
    cbn [mSecondaryCommands set_mFence].
    destruct (mSecondaryCommands b);
      [apply wp_ret|apply wp_bind, wp_emit; cbn [andThen]; apply wp_ret];
      cbn [andThen]; apply Hreset; ssimpl; first [reflexivity | assumption]. }
  assert (Hdes : wp (out <- initFence env b ;; CommandBatch_destroy (snd out))%cmd s
                   (fun r s' =>
                      (exists b', r = Ok b' /\ mFence b' = None /\ mExternalFence b' = None)
                      /\ mFenceRecycler s' = rest
                      /\ fenceSlot s' p = Some (VK_NULL_HANDLE, false))).
  { apply wp_bind, Hinit. intros s1 H1 H2 H3. cbn [andThen snd].
    unfold CommandBatch_destroy, releaseCommandBuffers.
    cbn [mPrimaryCommands mSecondaryCommands mFence set_mFence].
    rewrite Hprim. wp_steps.
    assert (Hreset : forall b1 s2,
              sharedFences s2 = sharedFences s1 -> mFenceRecycler s2 = rest ->
              mFence b1 = Some p ->
              wp (b2 <- match mFence b1 with
                        | Some p0 =>
                            RecyclableFence_detachRecycler p0 ;;
                            SharedFence_reset p0 ;; ret (set_mFence None b1)
                        | None => ret b1
                        end ;;
                  ret (set_mExternalFence None b2))%cmd s2
                 (fun r s' =>
                    (exists b', r = Ok b' /\ mFence b' = None /\ mExternalFence b' = None)
                    /\ mFenceRecycler s' = rest
                    /\ fenceSlot s' p = Some (VK_NULL_HANDLE, false))).
    { intros b1 s2 E1 E2 E4. rewrite E4.
      unfold RecyclableFence_detachRecycler, SharedFence_reset, deref. wp_steps.
      rewrite E1, H1, list_lookup_insert_eq by exact Hlen. wp_steps.
      unfold store. wp_steps.
      rewrite list_lookup_insert_eq by (rewrite E1, H1, length_insert; exact Hlen).
      wp_steps. cbn [rfRefs set_rfRecycler set_rfFence slot Nat.leb].
      unfold RecyclableFence_destroy, deref. wp_steps.
      rewrite list_lookup_insert_eq
        by (rewrite length_insert, E1, H1, length_insert; exact Hlen).
      wp_steps. cbn [rfFence rfRecycler set_rfRefs set_rfRecycler set_rfFence].
      rewrite Hvf. wp_steps. unfold store. wp_steps.
      split; [eexists; split; [reflexivity|split; reflexivity]|].
      split; [exact E2|].
      unfold fenceSlot. ssimpl.
      rewrite list_lookup_insert_eq
        by (rewrite !length_insert, E1, H1, length_insert; exact Hlen).
      reflexivity. }
    cbn [mSecondaryCommands set_mFence].
    destruct (mSecondaryCommands b);
      [apply wp_ret|apply wp_bind, wp_emit; cbn [andThen]; apply wp_ret];
      cbn [andThen]; apply Hreset; ssimpl; first [reflexivity | assumption]. }
  unfold wp in Hrel, Hdes.
  destruct Hrel as (R1 & R2 & R3). destruct Hdes as (D1 & D2 & D3).
  repeat split; assumption.
Qed.

Lemma initFence_then_release_or_destroy_witness :
  let s := set_mFenceRecycler [700%Z; 701%Z] initialState in
  let released :=
    (out <- initFence quietDevice CommandBatch_new ;;
     CommandBatch_release quietDevice (externalContext 0) (snd out))%cmd s in
  let destroyed :=
    (out <- initFence quietDevice CommandBatch_new ;;
     CommandBatch_destroy (snd out))%cmd s in
  (exists b', fst released = Ok b' /\ mFence b' = None /\ mExternalFence b' = None)
  /\ mFenceRecycler (snd released) = [700%Z; 701%Z]
  /\ fenceSlot (snd released) (length (sharedFences s)) = Some (VK_NULL_HANDLE, true)
  /\ (exists b', fst destroyed = Ok b' /\ mFence b' = None /\ mExternalFence b' = None)
  /\ mFenceRecycler (snd destroyed) = [701%Z]
  /\ fenceSlot (snd destroyed) (length (sharedFences s)) = Some (VK_NULL_HANDLE, false).
Proof.
  apply (initFence_then_release_or_destroy quietDevice (externalContext 0)
           CommandBatch_new (set_mFenceRecycler [700%Z; 701%Z] initialState)
           700%Z [701%Z]); reflexivity.
Defined.

(** ** The task queue of the processor *)

Lemma tame_dispatchTask allowed env this task :
  (forall k, k <> KTask -> allowed k = true) ->
  tameContext allowed this -> tame allowed (dispatchTask env this task).
Proof.
  intros Hall Hc.
  assert (Hm : tame allowed (modify (set_mNeedCommandsAndGarbageCleanup true)))
    by (apply tame_modify; intros; repeat split; reflexivity).
  assert (He : forall h, tame allowed (emit (ActRecycleCommandBufferHelper h)))
    by (intros; apply tame_emit; [apply Hall; discriminate|intros; reflexivity]).
  unfold dispatchTask. destruct (task_mTask task).
  - apply tame_abort.
  - apply tame_flushWaitSemaphores.
  - apply tame_bind;
      [apply tame_flushCommands; try (apply Hall; discriminate); exact Hc|].
    intros _. apply He.
  - apply tame_bind;
      [apply tame_flushCommands; try (apply Hall; discriminate); exact Hc|].
    intros _. apply He.
  - apply tame_bind;
      [apply tame_submitCommands; try (apply Hall; discriminate); exact Hc|].
    intros _. exact Hm.
  - apply tame_bind;
      [apply tame_queueSubmitOneOff; try (apply Hall; discriminate); exact Hc|].
    intros _. exact Hm.
  - apply tame_bind; [apply tame_present; apply Hall; discriminate|]. intros result.
    destruct (negb (result =? VK_ERROR_OUT_OF_DATE_KHR)%Z
              && negb (result =? VK_SUBOPTIMAL_KHR)%Z
              && negb (result =? VK_SUCCESS)%Z); [|apply tame_ret].
    apply Hc.
Qed.

Lemma tame_processTask env this task :
  tameContext anyKind this -> tame anyKind (processTask env this task).
Proof.
  intros Hc. unfold processTask.
  apply tame_bind; [apply tame_emit; [reflexivity|intros; reflexivity]|]. intros _.
  apply tame_dispatchTask; [reflexivity|exact Hc].
Qed.

(** X17: [CommandProcessor::queueCommand] keeps the task queue a bounded
    FIFO.  When it returns, the new task is the last of the queue and the
    queue is within its limit.  If the queue had room, the tasks before the
    new one are those of the entry; if it was full, its oldest task has been
    taken out and run first, on the calling thread, with the enqueue and the
    dequeue mutex held, and the others follow in their order. *)
Theorem queueCommand_fifo env this task s :
  tameContext anyKind this ->
  let r := queueCommand env this task s in
  fst r = Ok tt ->
  length (mTaskQueue (snd r)) <= kMaxCommandProcessorTasksLimit env
  /\ if (kMaxCommandProcessorTasksLimit env <=? length (mTaskQueue s))%nat
     then exists t rest evs,
            mTaskQueue s = t :: rest
            /\ mTaskQueue (snd r) = rest ++ [task]
            /\ trace (snd r)
               = trace s
                 ++ {| evLocks := mTaskDequeueMutex :: mTaskEnqueueMutex :: held s;
                       evAction := ActProcessTask (task_mTask t) |} :: evs
     else mTaskQueue (snd r) = mTaskQueue s ++ [task]
          /\ trace (snd r)
             = trace s ++ [ {| evLocks := mTaskEnqueueMutex :: held s;
                               evAction := ActNotifyWorker |} ].
Proof.
  intros Hc. cbv zeta.
  change (wp (queueCommand env this task) s
            (fun r s' =>
               r = Ok tt ->
               length (mTaskQueue s') <= kMaxCommandProcessorTasksLimit env
               /\ if (kMaxCommandProcessorTasksLimit env <=? length (mTaskQueue s))%nat
                  then exists t rest evs,
                         mTaskQueue s = t :: rest
                         /\ mTaskQueue s' = rest ++ [task]
                         /\ trace s'
                            = trace s
                              ++ {| evLocks := mTaskDequeueMutex :: mTaskEnqueueMutex
                                                 :: held s;
                                    evAction := ActProcessTask (task_mTask t) |} :: evs
                  else mTaskQueue s' = mTaskQueue s ++ [task]
                       /\ trace s'
                          = trace s ++ [ {| evLocks := mTaskEnqueueMutex :: held s;
                                            evAction := ActNotifyWorker |} ])).
  unfold queueCommand.
  apply wp_lock_guard; [discriminate|]. intros Hh.
  unfold taskQueueFull at 1. apply wp_bind, wp_get. ssimpl.
  destruct (kMaxCommandProcessorTasksLimit env <=? length (mTaskQueue s))%nat eqn:Hfull.
  - apply wp_bind.
    apply wp_lock_guard; [discriminate|]. ssimpl. intros Hh2.
    unfold taskQueueFull at 1. apply wp_bind, wp_get. ssimpl. rewrite Hfull.
    unfold popTask. wp_steps.
    destruct (mTaskQueue s) as [|t rest] eqn:Hq; [wp_steps; discriminate|].
    wp_steps. unfold processTask. wp_steps.
    eapply (wp_tame anyKind);
      [apply tame_dispatchTask; [reflexivity|exact Hc]|apply lockedBy_refl|].
    intros r s1 (evs & Ht & _ & _ & _ & Hqueue & _) _ _. ssimpl.
    destruct r as [[]| |f]; cbn [released andThen]; try discriminate.
    unfold pushTask, taskQueueFull. wp_steps. rewrite Hqueue.
    apply wp_ASSERT; intros Hroom; [|discriminate]. wp_steps.
    intros _. apply negb_true_iff, Nat.leb_gt in Hroom.
    split; [rewrite Hqueue, length_app; cbn [length]; lia|].
    exists t, rest. eexists. split; [reflexivity|]. split; [rewrite Hqueue; reflexivity|].
    rewrite Ht. ssimpl. rewrite <- !app_assoc. cbn [app]. reflexivity.
  - wp_steps. unfold pushTask, taskQueueFull. wp_steps. rewrite Hfull. cbn [negb].
    apply wp_ASSERT; intros Hroom; [|discriminate]. wp_steps.
    intros _. apply Nat.leb_gt in Hfull.
    split; [rewrite length_app; cbn [length]; lia|]. split; reflexivity.
Qed.

Lemma queueCommand_fifo_witness :
  let env := quietDevice in
  let s := fullTaskQueueState in
  let task := flushTask 15%Z in
  let r := queueCommand env (externalContext 0) task s in
  length (mTaskQueue (snd r)) <= kMaxCommandProcessorTasksLimit env
  /\ if (kMaxCommandProcessorTasksLimit env <=? length (mTaskQueue s))%nat
     then exists t rest evs,
            mTaskQueue s = t :: rest
            /\ mTaskQueue (snd r) = rest ++ [task]
            /\ trace (snd r)
               = trace s
                 ++ {| evLocks := mTaskDequeueMutex :: mTaskEnqueueMutex :: held s;
                       evAction := ActProcessTask (task_mTask t) |} :: evs
     else mTaskQueue (snd r) = mTaskQueue s ++ [task]
          /\ trace (snd r)
             = trace s ++ [ {| evLocks := mTaskEnqueueMutex :: held s;
                               evAction := ActNotifyWorker |} ].
Proof.
  apply (queueCommand_fifo quietDevice (externalContext 0) (flushTask 15%Z)
           fullTaskQueueState).
  - apply tameContext_external. reflexivity.
  - reflexivity.
Defined.

(** A run of [checkAndPopPendingError] that returns found no error, and has
    changed nothing but for the error mutex that it took and gave back. *)
Lemma wp_checkAndPopPendingError_returns {B} context (k : unit -> M B) s
    (Q : Outcome B -> State -> Prop) :
  (forall s', Q Stop s') -> (forall f s', Q (Abort f) s') ->
  (mErrors s = [] -> holds mErrorMutex (held s) = false ->
   wp (k tt) (set_held (unhold mErrorMutex (mErrorMutex :: held s))
                (set_held (mErrorMutex :: held s) s)) Q) ->
  wp (bind (checkAndPopPendingError context) k) s Q.
Proof.
  intros Hstop Habort Hk. apply wp_bind. unfold checkAndPopPendingError.
  apply wp_lock_guard; [intros _; apply Habort|]. intros Hh.
  apply wp_bind, wp_get. ssimpl.
  destruct (mErrors s) as [|e errs] eqn:He.
  - apply wp_ret. cbn [released andThen]. ssimpl. apply Hk; [reflexivity|exact Hh].
  - apply wp_bind. unfold wp.
    match goal with
    | |- context [loop ?n ?body ?s0] => destruct (loop n body s0) as [[[]| |f] s1]
    end; cbn [fst snd andThen released stop]; auto.
    apply wp_stop. cbn [released andThen]. apply Hstop.
Qed.

(** ** The wait for a present *)

Lemma wp_initPresent priority info status s
    (Q : Outcome CommandProcessorTask -> State -> Prop) :
  present_sType info <> 0%Z ->
  swapchainCount info = 1%Z ->
  (waitSemaphoreCount info <= 1)%Z ->
  (forall task,
     task_mTask task = Present ->
     task_mPriority task = priority ->
     task_mSwapchainStatus task = status ->
     task_mPresentInfo task = copiedPresentInfo info ->
     Q (Ok task) s) ->
  wp (initPresent priority info status) s Q.
Proof.
  intros Hty Hc Hw HQ. unfold initPresent, copyPresentInfo. wp_steps.
  destruct (present_sType info =? 0)%Z eqn:Hz; [apply Z.eqb_eq in Hz; congruence|].
  rewrite Hc. cbn [Z.ltb Z.compare Z.eqb Pos.eqb]. wp_steps.
  apply wp_ASSERT; [intros _|discriminate]. wp_steps.
  destruct (0 <? waitSemaphoreCount info)%Z eqn:Hpos.
  - apply wp_ASSERT; intros Hone.
    + wp_steps. apply HQ; try reflexivity.
      cbn [task_mPresentInfo]. unfold copiedPresentInfo. rewrite Hpos. reflexivity.
    + apply Z.ltb_lt in Hpos. apply Z.eqb_neq in Hone. lia.
  - wp_steps. apply HQ; try reflexivity.
    cbn [task_mPresentInfo]. unfold copiedPresentInfo. rewrite Hpos. reflexivity.
Qed.

(** X19: a present that is enqueued and then waited for has been made.
    On a thread that holds none of the mutexes of the way, with an empty
    task queue that has room for a task and a status that is not pending,
    [enqueuePresent] followed by [waitForPresentToBeSubmitted] returns: the
    waiting thread has run the task itself, the status holds the answer of
    the device to the present and is no longer pending, and the task queue
    is empty again.  An answer other than success, suboptimal and out of
    date is queued as an error of the processor as well. *)
Theorem enqueuePresent_then_wait env fuel priority info status st s :
  Forall (fun m => holds m (held s) = false) presentMutexes ->
  mTaskQueue s = [] ->
  0 < kMaxCommandProcessorTasksLimit env ->
  swapchainStatus s !! status = Some st ->
  isPending st = false ->
  present_sType info <> 0%Z ->
  swapchainCount info = 1%Z ->
  (waitSemaphoreCount info <= 1)%Z ->
  pResults info = false ->
  let this := CommandProcessor_this env (S fuel) in
  let called :=
    trace s
    ++ [ {| evLocks := held s; evAction := ActStoreIsPending status true |};
         {| evLocks := held s; evAction := ActStoreLastPresentResult status VK_SUCCESS |};
         {| evLocks := mTaskEnqueueMutex :: held s; evAction := ActNotifyWorker |};
         {| evLocks := mTaskDequeueMutex :: held s;
            evAction := ActProcessTask Present |} ] in
  let result := vkQueuePresentKHR env called (copiedPresentInfo info) in
  result <> VK_ERROR_DEVICE_LOST ->
  let r := (enqueuePresent env this priority info status ;;
            waitForPresentToBeSubmitted env this status)%cmd s in
  fst r = Ok tt
  /\ swapchainStatus (snd r) !! status
     = Some {| isPending := false; lastPresentResult := result |}
  /\ mTaskQueue (snd r) = []
  /\ mErrors (snd r)
     = mErrors s
       ++ (if presentIsFine result then []
           else [ {| errorCode := result; file := thisFile;
                     function := "processTask"; line := 765 |} ])
  /\ held (snd r) = held s.
Proof.
  intros Hfree Hq Hroom Hst Hp Hty Hc Hw Hr this called result Hlost r.
  apply Forall_cons in Hfree as [H1 Hfree]. apply Forall_cons in Hfree as [H2 Hfree].
  apply Forall_cons in Hfree as [H3 Hfree]. apply Forall_cons in Hfree as [H4 _].
  assert (Hlt : status < length (swapchainStatus s)) by (eapply lookup_lt_Some; eauto).
  assert (Hfull : (kMaxCommandProcessorTasksLimit env <=? 0)%nat = false)
    by (apply Nat.leb_gt; exact Hroom).
  subst r. apply wp_elim.
  apply wp_bind. unfold enqueuePresent, derefStatus. wp_steps. rewrite Hst. wp_steps.
  rewrite Hp. apply wp_ASSERT; [intros _|discriminate]. wp_steps.
  unfold storeIsPending, derefStatus. wp_steps. rewrite Hst. wp_steps.
  unfold storeLastPresentResult, derefStatus. wp_steps.
  rewrite list_lookup_insert_eq by assumption. wp_steps.
  rewrite list_insert_insert_eq.
  apply wp_initPresent; try assumption. intros task Tt Tp Ts Ti. wp_steps.
  unfold queueCommand.
  apply wp_lock_guard; [ssimpl; congruence|intros _].
  unfold taskQueueFull. wp_steps. rewrite Hq. cbn [length]. rewrite Hfull. wp_steps.
  unfold pushTask, taskQueueFull. wp_steps. rewrite Hq. cbn [length app]. rewrite Hfull.
  apply wp_ASSERT; [intros _|discriminate]. wp_steps.
  rewrite unhold_head.
  unfold waitForPresentToBeSubmitted, derefStatus. wp_steps.
  rewrite list_lookup_insert_eq by assumption. wp_steps.
  apply wp_lock_guard; [ssimpl; congruence|intros _]. wp_steps.
  rewrite ?Hq. cbn [app length drainUntilPresented isPending lastPresentResult].
  rewrite ?list_insert_insert_eq. unfold derefStatus. wp_steps.
  rewrite list_lookup_insert_eq by assumption. wp_steps.
  cbn [isPending]. unfold popTask. wp_steps. unfold processTask, dispatchTask. wp_steps.
  rewrite Tt, Tp, Ts, Ti. wp_steps.
  eapply wp_eq.
  { eapply present_spec
      with (st := {| isPending := true; lastPresentResult := VK_SUCCESS |}); ssimpl.
    - cbn [holds Mutex_eqb orb]. exact H3.
    - reflexivity.
    - exact Hr.
    - apply list_lookup_insert_eq. exact Hlt.
    - reflexivity. }
  ssimpl.
  match goal with
  | |- context [vkQueuePresentKHR env ?t (copiedPresentInfo info)] =>
      assert (Hcalled : t = called)
        by (unfold called; rewrite <- !app_assoc; reflexivity);
      rewrite !Hcalled
  end.
  fold result.
  assert (Hfine : negb (result =? VK_ERROR_OUT_OF_DATE_KHR)%Z
                  && negb (result =? VK_SUBOPTIMAL_KHR)%Z
                  && negb (result =? VK_SUCCESS)%Z = negb (presentIsFine result)).
  { unfold presentIsFine.
    destruct (result =? VK_ERROR_OUT_OF_DATE_KHR)%Z, (result =? VK_SUBOPTIMAL_KHR)%Z,
      (result =? VK_SUCCESS)%Z; reflexivity. }
  rewrite Hfine. rewrite list_insert_insert_eq.
  destruct (presentIsFine result) eqn:Hres; cbn [negb].
  - wp_steps. rewrite list_lookup_insert_eq by assumption. wp_steps.
    apply wp_ASSERT; [intros _|discriminate]. ssimpl.
    rewrite list_lookup_insert_eq by assumption. rewrite app_nil_r, unhold_head.
    repeat split.
  - subst this. cbn [CommandProcessor_this handleError].
    unfold CommandProcessor_handleError.
    assert (Hne : (result =? VK_SUCCESS)%Z = false).
    { unfold presentIsFine in Hres. apply orb_false_iff in Hres. apply Hres. }
    assert (Hnl : (result =? VK_ERROR_DEVICE_LOST)%Z = false)
      by (apply Z.eqb_neq; exact Hlost).
    rewrite Hne, Hnl. cbn [negb]. wp_steps.
    apply wp_ASSERT; [intros _|discriminate]. wp_steps.
    apply wp_lock_guard; [ssimpl; cbn [holds Mutex_eqb orb]; congruence|intros _].
    wp_steps. rewrite list_lookup_insert_eq by assumption. wp_steps.
    apply wp_ASSERT; [intros _|discriminate]. ssimpl.
    rewrite list_lookup_insert_eq by assumption. rewrite !unhold_head.
    repeat split.
Qed.

Lemma enqueuePresent_then_wait_witness :
  let env := suboptimalDevice in
  let s := oneSurfaceState in
  let this := CommandProcessor_this env 1 in
  let r := (enqueuePresent env this Medium onePresentInfo 0 ;;
            waitForPresentToBeSubmitted env this 0)%cmd s in
  fst r = Ok tt
  /\ swapchainStatus (snd r) !! 0
     = Some {| isPending := false; lastPresentResult := VK_SUBOPTIMAL_KHR |}
  /\ mTaskQueue (snd r) = []
  /\ mErrors (snd r) = mErrors s ++ []
  /\ held (snd r) = held s.
Proof.
  apply (enqueuePresent_then_wait suboptimalDevice 0 Medium onePresentInfo 0
           {| isPending := false; lastPresentResult := VK_SUCCESS |} oneSurfaceState).
  - repeat constructor.
  - reflexivity.
  - vm_compute. lia.
  - reflexivity.
  - reflexivity.
  - discriminate.
  - reflexivity.
  - discriminate.
  - reflexivity.
  - discriminate.
Defined.

(** ** The drain of the task queue *)

Lemma tasksRun_app evs1 evs2 : tasksRun (evs1 ++ evs2) = tasksRun evs1 ++ tasksRun evs2.
Proof.
  induction evs1 as [|e evs1 IH]; [reflexivity|]. cbn [app tasksRun].
  destruct (evAction e); rewrite ?IH; reflexivity.
Qed.

Lemma tasksRun_inside L evs :
  Forall (fun e => insideTask (kind (evAction e)) = true /\ lockedBy L (evLocks e)) evs ->
  tasksRun evs = [].
Proof.
  induction 1 as [|e evs [He _] _ IH]; [reflexivity|]. cbn [tasksRun].
  destruct (evAction e); try exact IH. discriminate He.
Qed.

Lemma insideTask_all k : k <> KTask -> insideTask k = true.
Proof. destruct k; intros H; try reflexivity. congruence. Qed.

(** The loop of [waitForAllWorkToBeSubmitted] runs every task of the queue,
    in the order of the queue. *)
Lemma drainAll_effect env this :
  tameContext insideTask this ->
  forall n s,
  wp (loop n
        (e <- taskQueueEmpty ;;
         if e then ret false
         else
           (task <- popTask ;;
            processTask env this task ;;
            ret true))%cmd) s
     (fun r s' =>
        r = Ok tt ->
        mTaskQueue s' = []
        /\ exists evs,
             trace s' = trace s ++ evs
             /\ tasksRun evs = map task_mTask (mTaskQueue s)).
Proof.
  intros Hc. induction n as [|n IH]; intros s; cbn [loop]; [discriminate|].
  apply wp_bind. unfold taskQueueEmpty at 1. apply wp_bind, wp_get. cbn [andThen].
  destruct (mTaskQueue s) as [|t rest] eqn:Hq.
  { apply wp_ret. cbn [andThen]. apply wp_ret. intros _.
    split; [exact Hq|]. exists []. rewrite app_nil_r. split; reflexivity. }
  unfold popTask. wp_steps. rewrite Hq. wp_steps. unfold processTask. wp_steps.
  eapply (wp_tame insideTask);
    [apply tame_dispatchTask; [apply insideTask_all|exact Hc]|apply lockedBy_refl|].
  intros r s1 (evs1 & Ht1 & Hall1 & _ & _ & Hqueue & _) _ _. ssimpl.
  destruct r as [[]| |f]; cbn [andThen]; try discriminate.
  wp_steps. eapply wp_conseq; [apply IH|]. intros r s2 H Hr.
  destruct (H Hr) as (Hempty & evs2 & Ht2 & Hrun2).
  split; [exact Hempty|].
  exists ({| evLocks := held s; evAction := ActProcessTask (task_mTask t) |}
            :: evs1 ++ evs2).
  split.
  - rewrite Ht2, Ht1. rewrite <- !app_assoc. reflexivity.
  - cbn [tasksRun evAction map]. rewrite tasksRun_app, Hrun2, Hqueue.
    rewrite (tasksRun_inside _ _ Hall1). reflexivity.
Qed.

(** X20: [CommandProcessor::waitForAllWorkToBeSubmitted] drains the task
    queue in its order.  When it returns, no error was pending at the
    entry, the task queue is empty, the request for a clean-up is cleared,
    and the tasks that were run since the entry are exactly the tasks of
    the queue at the entry, the oldest first. *)
Theorem waitForAllWorkToBeSubmitted_drains env this context s :
  tameContext insideTask this ->
  tameContext insideTask context ->
  let r := waitForAllWorkToBeSubmitted env this context s in
  fst r = Ok tt ->
  mErrors s = []
  /\ mTaskQueue (snd r) = []
  /\ mNeedCommandsAndGarbageCleanup (snd r) = false
  /\ exists evs,
       trace (snd r) = trace s ++ evs
       /\ tasksRun evs = map task_mTask (mTaskQueue s).
Proof.
  intros Hthis Hctx. cbv zeta.
  change (wp (waitForAllWorkToBeSubmitted env this context) s
            (fun r s' =>
               r = Ok tt ->
               mErrors s = []
               /\ mTaskQueue s' = []
               /\ mNeedCommandsAndGarbageCleanup s' = false
               /\ exists evs,
                    trace s' = trace s ++ evs
                    /\ tasksRun evs = map task_mTask (mTaskQueue s))).
  unfold waitForAllWorkToBeSubmitted.
  apply wp_lock_guard; [discriminate|]. intros Hh1.
  apply wp_lock_guard; [discriminate|]. ssimpl. intros Hh2.
  apply wp_checkAndPopPendingError_returns; [discriminate|discriminate|].
  ssimpl. intros He Hh3. wp_steps.
  eapply wp_conseq; [apply (drainAll_effect env this Hthis)|].
  intros r s1 H. ssimpl. destruct r as [[]| |f]; cbn [andThen]; try discriminate.
  destruct (H eq_refl) as (Hempty & evs1 & Ht1 & Hrun1). ssimpl.
  assert (Hend : forall s2 evs2,
            mTaskQueue s2 = [] -> trace s2 = trace s1 ++ evs2 -> tasksRun evs2 = [] ->
            wp (modify (set_mNeedCommandsAndGarbageCleanup false)) s2
               (released mTaskDequeueMutex
                  (released mTaskEnqueueMutex
                     (fun r s' =>
                        r = Ok tt ->
                        mErrors s = []
                        /\ mTaskQueue s' = []
                        /\ mNeedCommandsAndGarbageCleanup s' = false
                        /\ exists evs,
                             trace s' = trace s ++ evs
                             /\ tasksRun evs = map task_mTask (mTaskQueue s))))).
  { intros s2 evs2 Hq2 Ht2 Hrun2. wp_steps. intros _.
    split; [exact He|]. split; [exact Hq2|]. split; [reflexivity|].
    exists (evs1 ++ evs2). split.
    - rewrite Ht2, Ht1, app_assoc. reflexivity.
    - rewrite tasksRun_app, Hrun1, Hrun2, app_nil_r. reflexivity. }
  apply wp_bind.
  destruct (isAsyncCommandBufferResetAndGarbageCleanupEnabled env).
  - eapply (wp_tame insideTask) with (L := held s1); [|apply lockedBy_refl|].
    { apply tame_bind.
      - unfold releaseFinishedCommands. apply tame_lock_guard.
        apply tame_releaseFinishedCommandsLocked;
          try (apply insideTask_all; discriminate). exact Hctx.
      - intros _. apply tame_emit; [reflexivity|intros; reflexivity]. }
    intros r s2 (evs2 & Ht2 & Hall2 & _ & _ & Hqueue & _) _ _.
    destruct r as [[]| |f]; cbn [andThen]; try discriminate.
    apply (Hend s2 evs2); [congruence|exact Ht2|].
    exact (tasksRun_inside _ _ Hall2).
  - apply wp_ret. cbn [andThen]. apply (Hend s1 []); [exact Hempty| |reflexivity].
    rewrite app_nil_r. reflexivity.
Qed.

Lemma waitForAllWorkToBeSubmitted_drains_witness :
  let s := fullTaskQueueState in
  let r := waitForAllWorkToBeSubmitted quietDevice (externalContext 0)
             (externalContext 1) s in
  mErrors s = []
  /\ mTaskQueue (snd r) = []
  /\ mNeedCommandsAndGarbageCleanup (snd r) = false
  /\ exists evs,
       trace (snd r) = trace s ++ evs
       /\ tasksRun evs = map task_mTask (mTaskQueue s).
Proof.
  apply (waitForAllWorkToBeSubmitted_drains quietDevice (externalContext 0)
           (externalContext 1) fullTaskQueueState).
  - apply tameContext_external. reflexivity.
  - apply tameContext_external. reflexivity.
  - reflexivity.
Defined.

(** ** The wait for a resource use to be submitted *)

(** The loop of [waitForResourceUseToBeSubmitted] is the run of the first
    [k] tasks, for the least [k] after which the use is submitted or a task
    has failed, and at most [n]. *)
Lemma drainUntilSubmitted_runs env this use : forall n s,
  exists k,
    k <= n
    /\ drainUntilSubmitted env this n use s = runTasks env this k s
    /\ (forall j, j < k ->
          fst (runTasks env this j s) = Ok tt
          /\ serialsReached (mLastSubmittedSerials (snd (runTasks env this j s))) use
             = false)
    /\ (fst (runTasks env this k s) = Ok tt ->
        k = n
        \/ serialsReached (mLastSubmittedSerials (snd (runTasks env this k s))) use
           = true).
Proof.
  induction n as [|n IH]; intros s.
  - exists 0. split; [lia|]. split; [reflexivity|]. split; [intros j Hj; lia|].
    intros _. left. reflexivity.
  - cbn [drainUntilSubmitted]. unfold hasResourceUseSubmitted at 1.
    unfold bind at 1. cbn [get].
    destruct (serialsReached (mLastSubmittedSerials s) use) eqn:Hsub; cbn [negb].
    + exists 0. split; [lia|]. split; [reflexivity|]. split; [intros j Hj; lia|].
      intros _. right. exact Hsub.
    + pose (step := (task <- popTask ;; processTask env this task)).
      assert (Hstep : forall k,
                runTasks env this (S k) s
                = match step s with
                  | (Ok _, s1) => runTasks env this k s1
                  | (Stop, s1) => (Stop, s1)
                  | (Abort f, s1) => (Abort f, s1)
                  end).
      { intros k. cbn [runTasks]. unfold step, bind.
        destruct (popTask s) as [[t| |f] s1]; [|reflexivity..].
        destruct (processTask env this t s1) as [[[]| |f] s2]; reflexivity. }
      assert (Hloop : (task <- popTask ;; processTask env this task ;;
                       drainUntilSubmitted env this n use) s
                = match step s with
                  | (Ok _, s1) => drainUntilSubmitted env this n use s1
                  | (Stop, s1) => (Stop, s1)
                  | (Abort f, s1) => (Abort f, s1)
                  end).
      { unfold step, bind.
        destruct (popTask s) as [[t| |f] s1]; [|reflexivity..].
        destruct (processTask env this t s1) as [[[]| |f] s2]; reflexivity. }
      rewrite Hloop. clearbody step.
      destruct (step s) as [[[]| |f] s1] eqn:Hrun.
      * destruct (IH s1) as (k & Hk & Heq & Hbefore & Hend).
        exists (S k). split; [lia|]. rewrite ?Hstep.
        split; [exact Heq|]. split.
        -- intros [|j] Hj; [split; [reflexivity|exact Hsub]|].
           rewrite ?Hstep. apply Hbefore. lia.
        -- intros Hok. destruct (Hend Hok) as [->|Hr]; [left; reflexivity|right; exact Hr].
      * exists 1. split; [lia|]. rewrite ?Hstep.
        split; [reflexivity|]. split; [|discriminate].
        intros [|j] Hj; [split; [reflexivity|exact Hsub]|lia].
      * exists 1. split; [lia|]. rewrite ?Hstep.
        split; [reflexivity|]. split; [|discriminate].
        intros [|j] Hj; [split; [reflexivity|exact Hsub]|lia].
Qed.

(** The tasks that [runTasks] has run when it returns are the first [k]
    tasks of the queue, in their order, and the others are left. *)
Lemma runTasks_effect env this :
  tameContext insideTask this ->
  forall k s,
  wp (runTasks env this k) s
     (fun r s' =>
        r = Ok tt ->
        mTaskQueue s' = skipn k (mTaskQueue s)
        /\ exists evs,
             trace s' = trace s ++ evs
             /\ tasksRun evs = map task_mTask (firstn k (mTaskQueue s))).
Proof.
  intros Hc. induction k as [|k IH]; intros s; cbn [runTasks].
  - apply wp_ret. intros _. split; [reflexivity|]. exists [].
    rewrite app_nil_r. split; reflexivity.
  - unfold popTask. wp_steps.
    destruct (mTaskQueue s) as [|t rest] eqn:Hq; [wp_steps; discriminate|].
    wp_steps. unfold processTask. wp_steps.
    eapply (wp_tame insideTask);
      [apply tame_dispatchTask; [apply insideTask_all|exact Hc]|apply lockedBy_refl|].
    intros r s1 (evs1 & Ht1 & Hall1 & _ & _ & Hqueue & _) _ _. ssimpl.
    destruct r as [[]| |f]; cbn [andThen]; try discriminate.
    eapply wp_conseq; [apply IH|]. intros r s2 H Hr.
    destruct (H Hr) as (Hrest & evs2 & Ht2 & Hrun2).
    cbn [skipn firstn map]. split; [rewrite Hrest, Hqueue; reflexivity|].
    exists ({| evLocks := held s; evAction := ActProcessTask (task_mTask t) |}
              :: evs1 ++ evs2).
    split.
    + rewrite Ht2, Ht1. rewrite <- !app_assoc. reflexivity.
    + cbn [tasksRun evAction map]. rewrite tasksRun_app, Hrun2, Hqueue.
      rewrite (tasksRun_inside _ _ Hall1). reflexivity.
Qed.

Lemma checkAndPopPendingError_none context s :
  mErrors s = [] -> holds mErrorMutex (held s) = false ->
  checkAndPopPendingError context s = (Ok tt, s).
Proof.
  intros He Hh. apply wp_run. unfold checkAndPopPendingError.
  apply wp_lock_guard; [congruence|]. intros _. wp_steps. rewrite He. wp_steps.
  rewrite unhold_head. split; [reflexivity|]. destruct s; reflexivity.
Qed.

(** X18: [CommandProcessor::waitForResourceUseToBeSubmitted], entered with
    no error pending.  If the use is submitted at the entry it returns at
    once and changes nothing.  If not, the call is the run of the first [k]
    tasks of the queue under the dequeue mutex, on the calling thread, for a
    [k] that is at most the size of the queue at the entry: before each of
    these tasks the tasks before it had returned and the use was not
    submitted; and when the call returns, either all the tasks of the entry
    have been run or the use is submitted, the tasks that are left are the
    others, and the tasks that were run are the first [k] in their order. *)
Theorem waitForResourceUseToBeSubmitted_drains env this context use s :
  tameContext insideTask this ->
  mErrors s = [] ->
  holds mErrorMutex (held s) = false ->
  let r := waitForResourceUseToBeSubmitted env this context use s in
  let s0 := set_held (mTaskDequeueMutex :: held s) s in
  (serialsReached (mLastSubmittedSerials s) use = true -> r = (Ok tt, s))
  /\ (serialsReached (mLastSubmittedSerials s) use = false ->
      exists k,
        k <= length (mTaskQueue s)
        /\ r = lock_guard mTaskDequeueMutex (runTasks env this k) s
        /\ (forall j, j < k ->
              fst (runTasks env this j s0) = Ok tt
              /\ serialsReached
                   (mLastSubmittedSerials (snd (runTasks env this j s0))) use = false)
        /\ (fst r = Ok tt ->
            (k = length (mTaskQueue s)
             \/ serialsReached (mLastSubmittedSerials (snd r)) use = true)
            /\ mTaskQueue (snd r) = skipn k (mTaskQueue s)
            /\ exists evs,
                 trace (snd r) = trace s ++ evs
                 /\ tasksRun evs = map task_mTask (firstn k (mTaskQueue s)))).
Proof.
  intros Hc He Hh r s0.
  assert (Hr : r = if serialsReached (mLastSubmittedSerials s) use
                   then checkAndPopPendingError context s
                   else lock_guard mTaskDequeueMutex
                          (checkAndPopPendingError context ;;
                           maxTaskCount <- get (fun s => length (mTaskQueue s)) ;;
                           drainUntilSubmitted env this maxTaskCount use) s).
  { subst r. unfold waitForResourceUseToBeSubmitted, hasResourceUseSubmitted.
    unfold bind at 1. cbn [get].
    destruct (serialsReached (mLastSubmittedSerials s) use); reflexivity. }
  rewrite Hr. clear Hr. clearbody r. clear r.
  destruct (serialsReached (mLastSubmittedSerials s) use) eqn:Hsub;
    (split; [|intros Hx]); try discriminate.
  - intros _. apply checkAndPopPendingError_none; assumption.
  - clear Hx. destruct (drainUntilSubmitted_runs env this use (length (mTaskQueue s)) s0)
      as (k & Hk & Heq & Hbefore & Hend).
    exists k. split; [exact Hk|].
    assert (Hbody : forall s1, s1 = s0 ->
              (checkAndPopPendingError context ;;
               maxTaskCount <- get (fun s => length (mTaskQueue s)) ;;
               drainUntilSubmitted env this maxTaskCount use) s1
              = runTasks env this k s1).
    { intros s1 ->. unfold bind at 1.
      rewrite checkAndPopPendingError_none; [|exact He|].
      2:{ subst s0. ssimpl. cbn [holds Mutex_eqb orb]. exact Hh. }
      unfold bind at 1. cbn [get]. subst s0. ssimpl. exact Heq. }
    assert (Hrun : lock_guard mTaskDequeueMutex
                     (checkAndPopPendingError context ;;
                      maxTaskCount <- get (fun s => length (mTaskQueue s)) ;;
                      drainUntilSubmitted env this maxTaskCount use) s
                   = lock_guard mTaskDequeueMutex (runTasks env this k) s).
    { unfold lock_guard, lock. destruct (holds mTaskDequeueMutex (held s)); [reflexivity|].
      fold s0. rewrite (Hbody s0 eq_refl). reflexivity. }
    split; [exact Hrun|]. split; [exact Hbefore|].
    rewrite Hrun. clear Hrun Hbody Heq.
    pose proof (wp_elim _ _ _ (runTasks_effect env this Hc k s0)) as Heff.
    cbv beta in Heff. unfold lock_guard, lock.
    destruct (holds mTaskDequeueMutex (held s)); [discriminate|]. fold s0.
    destruct (runTasks env this k s0) as [[[]| |f] s1]; cbn [fst snd] in *;
      try discriminate.
    intros _. destruct (Heff eq_refl) as (Hq & evs & Ht & Hruns). ssimpl.
    split; [|split].
    + destruct (Hend eq_refl) as [Hall|Hr]; [left|right]; assumption.
    + exact Hq.
    + exists evs. split; assumption.
Qed.

Lemma waitForResourceUseToBeSubmitted_drains_witness :
  let s := submitQueueState in
  let use := [ {| qsIndex := 0%N; qsSerial := 1%Z |} ] in
  let r := waitForResourceUseToBeSubmitted quietDevice (externalContext 0)
             (externalContext 1) use s in
  let s0 := set_held (mTaskDequeueMutex :: held s) s in
  fst r = Ok tt
  /\ serialsReached (mLastSubmittedSerials s) use = false
  /\ serialsReached (mLastSubmittedSerials (snd r)) use = true
  /\ mTaskQueue (snd r) = [submitTask 2; flushTask 11%Z]
  /\ exists k,
       k <= length (mTaskQueue s)
       /\ r = lock_guard mTaskDequeueMutex (runTasks quietDevice (externalContext 0) k) s
       /\ (forall j, j < k ->
             fst (runTasks quietDevice (externalContext 0) j s0) = Ok tt
             /\ serialsReached
                  (mLastSubmittedSerials
                     (snd (runTasks quietDevice (externalContext 0) j s0))) use = false)
       /\ (fst r = Ok tt ->
           (k = length (mTaskQueue s)
            \/ serialsReached (mLastSubmittedSerials (snd r)) use = true)
           /\ mTaskQueue (snd r) = skipn k (mTaskQueue s)
           /\ exists evs,
                trace (snd r) = trace s ++ evs
                /\ tasksRun evs = map task_mTask (firstn k (mTaskQueue s))).
Proof.
  split; [reflexivity|]. split; [reflexivity|]. split; [reflexivity|].
  split; [reflexivity|].
  apply (waitForResourceUseToBeSubmitted_drains quietDevice (externalContext 0)
           (externalContext 1) [ {| qsIndex := 0%N; qsSerial := 1%Z |} ]
           submitQueueState).
  - apply tameContext_external. reflexivity.
  - reflexivity.
  - reflexivity.
  - reflexivity.
Defined.

(** ** The search for a queue family *)

Section FindIndexProofs.

Variable kInvalidIndex : Z.
Variable flags : Z.

Lemma matchingFrom_length base base' props :
  length (matchingFrom flags base props) = length (matchingFrom flags base' props).
Proof.
  revert base base'. induction props as [|q rest IH]; intros base base'; [reflexivity|].
  cbn [matchingFrom]. destruct (hasFlags flags q); cbn [length];
    rewrite (IH (base + 1)%Z (base' + 1)%Z); reflexivity.
Qed.

Lemma matchingFrom_length_le base props :
  length (matchingFrom flags base props) <= length props.
Proof.
  revert base. induction props as [|q rest IH]; intros base; [reflexivity|].
  cbn [matchingFrom]. destruct (hasFlags flags q); cbn [length];
    specialize (IH (base + 1)%Z); lia.
Qed.

Lemma uint32_small z : (0 <= z < 2 ^ 32)%Z -> uint32 z = z.
Proof. intros H. unfold uint32. apply Z.mod_small. exact H. Qed.

(** Once the index is found, the loop only counts. *)
Lemma FindIndex_loop_found props : forall familyIndex index count matchNumber,
  index <> kInvalidIndex ->
  Forall (fun q => hasFlags flags q = true -> (0 < queueCount q)%Z) props ->
  (0 <= count)%Z -> (count + Z.of_nat (length props) < 2 ^ 32)%Z ->
  FindIndex_loop kInvalidIndex flags props familyIndex index count matchNumber
  = Ok (index, (count + Z.of_nat (length (matchingFrom flags familyIndex props)))%Z).
Proof.
  induction props as [|q rest IH]; intros fi index count m Hne Hall H0 Hlt.
  - cbn [FindIndex_loop matchingFrom length]. rewrite Z.add_0_r. reflexivity.
  - cbn [FindIndex_loop matchingFrom]. cbn [length] in Hlt.
    pose proof (Forall_inv Hall) as Hq. pose proof (Forall_inv_tail Hall) as Hrest.
    destruct (hasFlags flags q) eqn:Hf.
    + assert ((0 <? queueCount q)%Z = true) as -> by (apply Z.ltb_lt; auto).
      assert ((index =? kInvalidIndex)%Z = false) as -> by (apply Z.eqb_neq; exact Hne).
      rewrite (uint32_small (count + 1)) by lia.
      rewrite IH; try assumption; try lia. cbn [length].
      rewrite (matchingFrom_length (uint32 (fi + 1)) (fi + 1)%Z).
      f_equal. f_equal. lia.
    + rewrite IH; try assumption; try lia.
      rewrite (matchingFrom_length (uint32 (fi + 1)) (fi + 1)%Z). reflexivity.
Qed.

(** While the index is not found, the loop counts the matches down. *)
Lemma FindIndex_loop_search props : forall base count matchNumber,
  Forall (fun q => hasFlags flags q = true -> (0 < queueCount q)%Z) props ->
  (0 <= base)%Z ->
  (base + Z.of_nat (length props) <= kInvalidIndex)%Z ->
  (base + Z.of_nat (length props) < 2 ^ 32)%Z ->
  (0 <= count)%Z -> (count + Z.of_nat (length props) < 2 ^ 32)%Z ->
  (INT32_MIN + Z.of_nat (length props) <= matchNumber)%Z ->
  FindIndex_loop kInvalidIndex flags props base kInvalidIndex count matchNumber
  = Ok (nthMatch kInvalidIndex matchNumber (matchingFrom flags base props),
        (count + Z.of_nat (length (matchingFrom flags base props)))%Z).
Proof.
  induction props as [|q rest IH]; intros base count m Hall Hb Hinv Hb32 H0 Hlt Hm.
  - cbn [FindIndex_loop matchingFrom length]. rewrite Z.add_0_r.
    unfold nthMatch. destruct (m <? 0)%Z; [reflexivity|].
    destruct (Z.to_nat m); reflexivity.
  - cbn [FindIndex_loop matchingFrom]. cbn [length] in Hinv, Hb32, Hlt, Hm.
    pose proof (Forall_inv Hall) as Hq. pose proof (Forall_inv_tail Hall) as Hrest.
    rewrite (uint32_small (base + 1)) by lia.
    destruct (hasFlags flags q) eqn:Hf.
    + assert ((0 <? queueCount q)%Z = true) as -> by (apply Z.ltb_lt; auto).
      rewrite Z.eqb_refl. rewrite (uint32_small (count + 1)) by lia.
      assert ((m =? INT32_MIN)%Z = false) as -> by (apply Z.eqb_neq; lia).
      destruct (m =? 0)%Z eqn:Hzero.
      * apply Z.eqb_eq in Hzero. subst m.
        rewrite FindIndex_loop_found; try assumption; try lia.
        cbn [length]. unfold nthMatch. cbn [Z.ltb Z.compare Z.to_nat nth].
        f_equal. f_equal. lia.
      * apply Z.eqb_neq in Hzero.
        rewrite IH; try assumption; try lia. cbn [length].
        f_equal. f_equal; [|lia].
        unfold nthMatch.
        destruct (m <? 0)%Z eqn:Hneg.
        { assert ((m - 1 <? 0)%Z = true) as -> by (apply Z.ltb_lt; apply Z.ltb_lt in Hneg; lia).
          reflexivity. }
        apply Z.ltb_ge in Hneg.
        assert ((m - 1 <? 0)%Z = false) as -> by (apply Z.ltb_ge; lia).
        replace (Z.to_nat m) with (S (Z.to_nat (m - 1))) by lia.
        reflexivity.
    + rewrite IH; try assumption; try lia. reflexivity.
Qed.

(** A match is the index of a family that has the flags. *)
Lemma matchingFrom_In props : forall base i,
  In i (matchingFrom flags base props) ->
  (base <= i < base + Z.of_nat (length props))%Z
  /\ exists q, props !! Z.to_nat (i - base) = Some q /\ hasFlags flags q = true.
Proof.
  induction props as [|q rest IH]; intros base i Hin; [destruct Hin|].
  cbn [matchingFrom] in Hin. cbn [length].
  assert (Hrec : In i (matchingFrom flags (base + 1) rest) ->
                 (base <= i < base + Z.of_nat (S (length rest)))%Z
                 /\ exists q0, (q :: rest) !! Z.to_nat (i - base) = Some q0
                               /\ hasFlags flags q0 = true).
  { intros H. destruct (IH _ _ H) as (Hr & q0 & Hl & Hq0). split; [lia|].
    exists q0. split; [|exact Hq0].
    replace (Z.to_nat (i - base)) with (S (Z.to_nat (i - (base + 1)))) by lia.
    exact Hl. }
  destruct (hasFlags flags q) eqn:Hf; [|apply Hrec; exact Hin].
  destruct Hin as [<- | Hin]; [|apply Hrec; exact Hin].
  split; [lia|]. exists q. rewrite Z.sub_diag. split; [reflexivity|exact Hf].
Qed.

End FindIndexProofs.

(** X21: [QueueFamily::FindIndex] returns the index of the match of number
    [matchNumber] among the families that have all the flags, counted from
    zero in the order of the list, and the invalid index when there are not
    that many or when [matchNumber] is negative; [*matchCount] is the number
    of these families.  An index other than the invalid one is the position
    of a family that has the flags and at least one queue.  This holds when
    every family with the flags has a queue, the list is shorter than the
    invalid index and than 2^32, and [matchNumber] cannot run below the
    least [int32_t]. *)
Theorem FindIndex_spec kInvalidIndex props flags matchNumber :
  Forall (fun q => hasFlags flags q = true -> (0 < queueCount q)%Z) props ->
  (Z.of_nat (length props) <= kInvalidIndex)%Z ->
  (Z.of_nat (length props) < 2 ^ 32)%Z ->
  (INT32_MIN + Z.of_nat (length props) <= matchNumber)%Z ->
  let matches := matchingFrom flags 0 props in
  let index := nthMatch kInvalidIndex matchNumber matches in
  FindIndex kInvalidIndex props flags matchNumber
  = Ok (index, Z.of_nat (length matches))
  /\ (index <> kInvalidIndex ->
      (0 <= index < Z.of_nat (length props))%Z
      /\ exists q, props !! Z.to_nat index = Some q
                   /\ hasFlags flags q = true /\ (0 < queueCount q)%Z).
Proof.
  intros Hall Hinv H32 Hm. cbv zeta. split.
  - unfold FindIndex. rewrite FindIndex_loop_search; try assumption; try lia.
    reflexivity.
  - intros Hne.
    assert (Hin : In (nthMatch kInvalidIndex matchNumber (matchingFrom flags 0 props))
                     (matchingFrom flags 0 props)).
    { unfold nthMatch in *. destruct (matchNumber <? 0)%Z; [congruence|].
      destruct (nth_in_or_default (Z.to_nat matchNumber) (matchingFrom flags 0 props)
                  kInvalidIndex) as [H|H]; [exact H|congruence]. }
    destruct (matchingFrom_In flags props 0 _ Hin) as (Hr & q & Hl & Hq).
    rewrite Z.sub_0_r in Hl. split; [lia|]. exists q. split; [exact Hl|].
    split; [exact Hq|].
    exact (Forall_lookup_1 _ _ _ _ Hall Hl Hq).
Qed.

Lemma FindIndex_spec_witness :
  let matches := matchingFrom 2 0 threeFamilies in
  let index := nthMatch 4294967295 1 matches in
  FindIndex 4294967295 threeFamilies 2 1 = Ok (index, Z.of_nat (length matches))
  /\ (index <> 4294967295%Z ->
      (0 <= index < Z.of_nat (length threeFamilies))%Z
      /\ exists q, threeFamilies !! Z.to_nat index = Some q
                   /\ hasFlags 2 q = true /\ (0 < queueCount q)%Z).
Proof.
  apply (FindIndex_spec 4294967295 threeFamilies 2 1).
  - repeat constructor; vm_compute; intros; congruence.
  - vm_compute. discriminate.
  - vm_compute. reflexivity.
  - vm_compute. discriminate.
Defined.

(** ** The queues of the priorities *)

(** X22: [DeviceQueueMap::initialize] gives every priority a queue of the
    range it was given.  When the sum of the first index and of the count
    does not wrap around, the call returns exactly when the count is not
    zero and the range lies within the queues of the family.  The medium
    priority then has the first queue of the range; the high priority the
    second one if there are at least two queues and the low priority the
    third one if there are at least three, and they share the queue of the
    medium priority, under its priority, otherwise.  Every index is within
    the range, and every queue is the one that the device gives for the
    family and this index. *)
Theorem DeviceQueueMap_initialize_in_range get get2 this family makeProtected
    queueIndex queueCount :
  (0 <= queueIndex)%Z -> (0 <= queueCount)%Z ->
  (queueIndex + queueCount < 2 ^ 32)%Z ->
  let r := DeviceQueueMap_initialize get get2 this family makeProtected
             queueIndex queueCount in
  if (queueCount =? 0)%Z then r = Abort (AssertionFailed 1841)
  else if negb (queueIndex + queueCount <=? getProperties_queueCount family)%Z
  then r = Abort (AssertionFailed 1842)
  else
    exists m,
      r = Ok m
      /\ mQueueFamilyIndex m = getQueueFamilyIndex family
      /\ mIsProtected m = makeProtected
      /\ mQueueAndIndices m Medium
         = {| qi_devicePriority := Medium;
              qi_queue := GetDeviceQueue get get2 makeProtected
                         (getQueueFamilyIndex family) queueIndex;
              qi_index := queueIndex |}
      /\ mQueueAndIndices m High
         = (if (1 <? queueCount)%Z
            then {| qi_devicePriority := High;
                    qi_queue := GetDeviceQueue get get2 makeProtected
                               (getQueueFamilyIndex family) (queueIndex + 1);
                    qi_index := (queueIndex + 1)%Z |}
            else mQueueAndIndices m Medium)
      /\ mQueueAndIndices m Low
         = (if (2 <? queueCount)%Z
            then {| qi_devicePriority := Low;
                    qi_queue := GetDeviceQueue get get2 makeProtected
                               (getQueueFamilyIndex family) (queueIndex + 2);
                    qi_index := (queueIndex + 2)%Z |}
            else mQueueAndIndices m Medium)
      /\ forall p,
           (queueIndex <= qi_index (mQueueAndIndices m p) < queueIndex + queueCount)%Z
           /\ (qi_index (mQueueAndIndices m p) < getProperties_queueCount family)%Z
           /\ qi_queue (mQueueAndIndices m p)
              = GetDeviceQueue get get2 makeProtected (getQueueFamilyIndex family)
                  (qi_index (mQueueAndIndices m p)).
Proof.
  intros Hi Hc Hsum. cbv zeta. unfold DeviceQueueMap_initialize.
  destruct (queueCount =? 0)%Z eqn:Hzero; [reflexivity|].
  apply Z.eqb_neq in Hzero.
  rewrite (uint32_small (queueIndex + queueCount)) by lia.
  destruct (queueIndex + queueCount <=? getProperties_queueCount family)%Z eqn:Hfit;
    cbn [negb]; [|reflexivity].
  apply Z.leb_le in Hfit.
  rewrite Z.add_0_r. rewrite (uint32_small queueIndex) by lia.
  eexists. split; [reflexivity|]. cbn [mQueueFamilyIndex mIsProtected mQueueAndIndices].
  split; [reflexivity|]. split; [reflexivity|].
  destruct (1 <? queueCount)%Z eqn:H1; destruct (2 <? queueCount)%Z eqn:H2;
    try (apply Z.ltb_lt in H1); try (apply Z.ltb_lt in H2);
    try (apply Z.ltb_ge in H1); try (apply Z.ltb_ge in H2); try lia;
    rewrite ?(uint32_small (queueIndex + 1)) by lia;
    rewrite ?(uint32_small (queueIndex + 2)) by lia;
    (split; [reflexivity|]); (split; [reflexivity|]); (split; [reflexivity|]);
    intros p; destruct p;
    cbn [setQueueAndIndex ContextPriority_eqb qi_index qi_queue];
    (split; [lia|split; [lia|reflexivity]]).
Qed.

Lemma DeviceQueueMap_initialize_in_range_witness :
  let r := DeviceQueueMap_initialize numberedQueue numberedQueue emptyQueueMap
             twoQueueFamily false 0 2 in
  if (2 =? 0)%Z then r = Abort (AssertionFailed 1841)
  else if negb (0 + 2 <=? getProperties_queueCount twoQueueFamily)%Z
  then r = Abort (AssertionFailed 1842)
  else
    exists m,
      r = Ok m
      /\ mQueueFamilyIndex m = getQueueFamilyIndex twoQueueFamily
      /\ mIsProtected m = false
      /\ mQueueAndIndices m Medium
         = {| qi_devicePriority := Medium;
              qi_queue := GetDeviceQueue numberedQueue numberedQueue false
                         (getQueueFamilyIndex twoQueueFamily) 0;
              qi_index := 0%Z |}
      /\ mQueueAndIndices m High
         = (if (1 <? 2)%Z
            then {| qi_devicePriority := High;
                    qi_queue := GetDeviceQueue numberedQueue numberedQueue false
                               (getQueueFamilyIndex twoQueueFamily) (0 + 1);
                    qi_index := (0 + 1)%Z |}
            else mQueueAndIndices m Medium)
      /\ mQueueAndIndices m Low
         = (if (2 <? 2)%Z
            then {| qi_devicePriority := Low;
                    qi_queue := GetDeviceQueue numberedQueue numberedQueue false
                               (getQueueFamilyIndex twoQueueFamily) (0 + 2);
                    qi_index := (0 + 2)%Z |}
            else mQueueAndIndices m Medium)
      /\ forall p,
           (0 <= qi_index (mQueueAndIndices m p) < 0 + 2)%Z
           /\ (qi_index (mQueueAndIndices m p) < getProperties_queueCount twoQueueFamily)%Z
           /\ qi_queue (mQueueAndIndices m p)
              = GetDeviceQueue numberedQueue numberedQueue false
                  (getQueueFamilyIndex twoQueueFamily)
                  (qi_index (mQueueAndIndices m p)).
Proof.
  apply (DeviceQueueMap_initialize_in_range numberedQueue numberedQueue emptyQueueMap
           twoQueueFamily false 0 2); lia.
Defined.

(** ** Whether the queue is busy *)

Lemma isBusy_from_spec count : forall i s,
  i + count <= length (mLastSubmittedSerials s) ->
  i + count <= length (mLastCompletedSerials s) ->
  exists b,
    isBusy_from count i s = (Ok b, s)
    /\ (b = false <->
        forall j a c, i <= j < i + count ->
                      mLastSubmittedSerials s !! j = Some a ->
                      mLastCompletedSerials s !! j = Some c -> (a <= c)%Z).
Proof.
  induction count as [|n IH]; intros i s Hs Hc.
  - exists false. split; [reflexivity|]. split; [intros _ j a c Hj; lia|reflexivity].
  - cbn [isBusy_from]. unfold serialAt. cbv [bind get]. cbn [fst snd].
    rewrite Nat2N.id.
    destruct (mLastSubmittedSerials s !! i) as [a|] eqn:Ha;
      [|apply lookup_ge_None in Ha; lia].
    destruct (mLastCompletedSerials s !! i) as [c|] eqn:Hcc;
      [|apply lookup_ge_None in Hcc; lia].
    destruct (c <? a)%Z eqn:Hlt.
    + exists true. split; [reflexivity|]. split; [discriminate|].
      intros H. apply Z.ltb_lt in Hlt. pose proof (H i a c ltac:(lia) Ha Hcc). lia.
    + apply Z.ltb_ge in Hlt.
      destruct (IH (S i) s) as (b & Hrun & Hb); [lia|lia|].
      exists b. split; [exact Hrun|]. rewrite Hb. split.
      * intros H j a' c' Hj Ha' Hc'.
        destruct (Nat.eq_dec j i) as [->|Hne].
        { assert (E1 : Some a' = Some a) by (rewrite <- Ha; symmetry; exact Ha').
          assert (E2 : Some c' = Some c) by (rewrite <- Hcc; symmetry; exact Hc').
          injection E1 as ->. injection E2 as ->. exact Hlt. }
        apply (H j a' c'); [lia|assumption|assumption].
      * intros H j a' c' Hj. apply H. lia.
Qed.

(** X23: [CommandQueue::isBusy] answers whether a serial of an index up to
    [maxIndex] is submitted and not completed.  It reads the two arrays and
    changes nothing.  When it answers that the queue is not busy, every
    resource use of these indices that is submitted is finished as well. *)
Theorem isBusy_spec maxIndex s :
  maxIndex < length (mLastSubmittedSerials s) ->
  maxIndex < length (mLastCompletedSerials s) ->
  exists b,
    isBusy maxIndex s = (Ok b, s)
    /\ (b = false <->
        forall j a c, j <= maxIndex ->
                      mLastSubmittedSerials s !! j = Some a ->
                      mLastCompletedSerials s !! j = Some c -> (a <= c)%Z)
    /\ (b = false ->
        forall use, withinIndex maxIndex use ->
                    serialsReached (mLastSubmittedSerials s) use = true ->
                    serialsReached (mLastCompletedSerials s) use = true).
Proof.
  intros Hs Hc.
  destruct (isBusy_from_spec (S maxIndex) 0 s) as (b & Hrun & Hb); [lia|lia|].
  exists b. split; [exact Hrun|]. split.
  - rewrite Hb. split; intros H j a c Hj; apply H; lia.
  - intros Hfalse use Hin Hsub. pose proof (proj1 Hb Hfalse) as Hall. clear Hfalse.
    unfold serialsReached in *. rewrite forallb_forall in *.
    intros q Hq. specialize (Hsub q Hq). unfold serialAt in *.
    assert (Hle : N.to_nat (qsIndex q) <= maxIndex).
    { unfold withinIndex in Hin. clear - Hin Hq.
      induction Hin as [|q0 use Hq0 _ IH]; [destruct Hq|].
      destruct Hq as [<- | Hq]; [exact Hq0|apply IH; exact Hq]. }
    destruct (mLastSubmittedSerials s !! N.to_nat (qsIndex q)) as [a|] eqn:Ha;
      [|discriminate].
    destruct (mLastCompletedSerials s !! N.to_nat (qsIndex q)) as [c|] eqn:Hcc;
      [|apply lookup_ge_None in Hcc; lia].
    apply Z.leb_le in Hsub. apply Z.leb_le.
    assert (Hrange : 0 <= N.to_nat (qsIndex q) < 0 + S maxIndex) by lia.
    pose proof (Hall (N.to_nat (qsIndex q)) a c Hrange Ha Hcc) as Hac. lia.
Qed.

Lemma isBusy_spec_witness :
  let s := initialState in
  exists b,
    isBusy 3 s = (Ok b, s)
    /\ (b = false <->
        forall j a c, j <= 3 ->
                      mLastSubmittedSerials s !! j = Some a ->
                      mLastCompletedSerials s !! j = Some c -> (a <= c)%Z)
    /\ (b = false ->
        forall use, withinIndex 3 use ->
                    serialsReached (mLastSubmittedSerials s) use = true ->
                    serialsReached (mLastCompletedSerials s) use = true).
Proof.
  apply (isBusy_spec 3 initialState); vm_compute; lia.
Defined.

(** ** A wait that times out *)

Lemma external_hasFence b f s :
  mFence b = None -> mExternalFence b = Some f -> hasFence b s = (Ok true, s).
Proof.
  intros Hf He. unfold hasFence. rewrite Hf, He. reflexivity.
Qed.

(** The check of a batch whose external fence is not signalled. *)
Lemma wp_checkOne_not_ready env context b f rest s
    (Q : Outcome bool -> State -> Prop) :
  mInFlightCommands s = b :: rest ->
  mFence b = None -> mExternalFence b = Some f ->
  vkGetFenceStatus env (trace s) f = VK_NOT_READY ->
  Q (Ok false) (set_trace (trace s ++ [queryEvent (held s) f]) s) ->
  wp (checkOneCommandBatchLocked env context) s Q.
Proof.
  intros Hi Hf He Hnot HQ.
  unfold checkOneCommandBatchLocked, inFlightEmpty, inFlightFront.
  wp_steps. rewrite Hi. apply wp_ASSERT; intros Hc; [|discriminate Hc].
  wp_steps. rewrite Hi. wp_steps.
  eapply wp_eq; [apply (external_hasFence b f _ Hf He)|]. wp_steps.
  unfold getFenceStatus. wp_steps.
  eapply wp_eq; [apply (external_hasFence b f _ Hf He)|]. wp_steps.
  apply wp_ASSERT; intros Hc2; [|discriminate Hc2]. wp_steps.
  unfold theFence. rewrite Hf, He. wp_steps.
  rewrite Hnot. cbn [Z.eqb VK_NOT_READY Pos.eqb]. wp_steps. exact HQ.
Qed.

(** The wait for an external fence with the complete mutex released. *)
Lemma wp_waitFenceUnlocked_external env b f timeout l s
    (Q : Outcome VkResult -> State -> Prop) :
  mFence b = None -> mExternalFence b = Some f ->
  held s = mCmdCompleteMutex :: l ->
  holds mCmdCompleteMutex l = false ->
  Q (Ok (vkWaitForFences env (trace s) f timeout))
    (set_held (mCmdCompleteMutex :: l)
       (set_trace (trace s ++ [waitEvent l f timeout]) (set_held l s))) ->
  wp (waitFenceUnlocked env b timeout mCmdCompleteMutex) s Q.
Proof.
  intros Hf He Hh Hl HQ. unfold waitFenceUnlocked. wp_steps.
  eapply wp_eq; [apply (external_hasFence b f _ Hf He)|]. wp_steps.
  apply wp_ASSERT; intros Hc; [|discriminate Hc]. wp_steps.
  rewrite Hf, He. wp_steps. rewrite Hh, unhold_head.
  apply wp_lock; ssimpl; [congruence|]. intros _. wp_steps. exact HQ.
Qed.

(** X24: a wait with a user timeout that times out is not an error.  When
    the use is submitted, the oldest batch in flight has an external fence
    that the device does not signal, and the wait for it times out,
    [waitForResourceUseToFinishWithUserTimeout] returns with the result
    [VK_TIMEOUT]: no error is handed to the context, and the rings are as
    before.  The device has been asked three times: for the status of the
    fence under the complete mutex, to wait for it with the complete mutex
    released, and for its status again under the complete mutex. *)
Theorem waitForResourceUseToFinishWithUserTimeout_times_out
    env fuel context use timeout b f s :
  stalledOn env use timeout b f s ->
  let r := waitForResourceUseToFinishWithUserTimeout env (S fuel) context use
             timeout s in
  fst r = Ok VK_TIMEOUT
  /\ trace (snd r)
     = trace s ++ [ queryEvent (mCmdCompleteMutex :: held s) f;
                    waitEvent (held s) f timeout;
                    queryEvent (mCmdCompleteMutex :: held s) f ]
  /\ mInFlightCommands (snd r) = mInFlightCommands s
  /\ mFinishedCommandBatches (snd r) = []
  /\ mLastCompletedSerials (snd r) = mLastCompletedSerials s
  /\ mErrors (snd r) = mErrors s
  /\ held (snd r) = held s.
Proof.
  intros ((rest & Hi) & Hf & He & Hfin & Hh & Hsub & Hcomp & Hnot & Hwait).
  cbv zeta. apply wp_elim.
  unfold waitForResourceUseToFinishWithUserTimeout, hasResourceUseSubmitted.
  wp_steps. rewrite Hsub. cbn [negb].
  apply wp_bind. apply wp_lock_guard; [congruence|]. intros _.
  unfold hasResourceUseFinished. wp_steps. rewrite Hcomp.
  cbn [waitLoop]. unfold inFlightEmpty at 1. wp_steps. rewrite Hi.
  unfold hasResourceUseFinished. wp_steps. rewrite Hcomp. cbn [negb andb].
  apply wp_bind.
  apply (wp_checkOne_not_ready env context b f rest); ssimpl;
    try first [assumption | apply Hnot].
  cbn [andThen negb]. unfold inFlightFront. wp_steps. rewrite Hi. wp_steps.
  apply (wp_waitFenceUnlocked_external env b f timeout (held s)); ssimpl;
    try first [assumption | reflexivity].
  cbn [andThen]. rewrite Hwait. cbn [Z.eqb VK_TIMEOUT Pos.eqb]. wp_steps.
  unfold checkCompletedCommandsLocked. wp_steps. rewrite Hi. cbn [length loop].
  unfold inFlightEmpty at 1. wp_steps. rewrite Hi. wp_steps.
  apply (wp_checkOne_not_ready env context b f rest); ssimpl;
    try first [assumption | apply Hnot].
  cbn [andThen]. wp_steps. rewrite Hfin. cbn [length Nat.ltb Nat.leb]. wp_steps.
  rewrite unhold_head, Hfin, <- !app_assoc. cbn [app].
  repeat split; try reflexivity. exact Hi.
Qed.

Lemma stalledOn_fullRing :
  stalledOn stalledDevice [ {| qsIndex := 0%N; qsSerial := 1%Z |} ] 1000%Z
    (fencedBatch 1) 501%Z fullRingState.
Proof.
  split; [exists [fencedBatch 2]; reflexivity|].
  repeat split; intros; reflexivity.
Defined.

Lemma waitForResourceUseToFinishWithUserTimeout_times_out_witness :
  let s := fullRingState in
  let r := waitForResourceUseToFinishWithUserTimeout stalledDevice 1
             (externalContext 0) [ {| qsIndex := 0%N; qsSerial := 1%Z |} ] 1000%Z s in
  fst r = Ok VK_TIMEOUT
  /\ trace (snd r)
     = trace s ++ [ queryEvent (mCmdCompleteMutex :: held s) 501%Z;
                    waitEvent (held s) 501%Z 1000%Z;
                    queryEvent (mCmdCompleteMutex :: held s) 501%Z ]
  /\ mInFlightCommands (snd r) = mInFlightCommands s
  /\ mFinishedCommandBatches (snd r) = []
  /\ mLastCompletedSerials (snd r) = mLastCompletedSerials s
  /\ mErrors (snd r) = mErrors s
  /\ held (snd r) = held s.
Proof.
  apply (waitForResourceUseToFinishWithUserTimeout_times_out stalledDevice 0
           (externalContext 0) [ {| qsIndex := 0%N; qsSerial := 1%Z |} ] 1000%Z
           (fencedBatch 1) 501%Z fullRingState).
  exact stalledOn_fullRing.
Defined.

(** X25: the same wait is an error for [CommandQueue::finishResourceUse].
    When the use is submitted, the oldest batch in flight has an external
    fence that the device does not signal, and the wait for it times out,
    [finishResourceUse] hands [VK_TIMEOUT] to the context and returns
    [angle::Result::Stop] right after the wait: the rings are as before,
    and the complete mutex, released for the wait and taken again, has been
    given back. *)
Theorem finishResourceUse_times_out env fuel id use timeout b f s :
  stalledOn env use timeout b f s ->
  let r := finishResourceUse env (S fuel) (externalContext id) use timeout s in
  fst r = Stop
  /\ trace (snd r)
     = trace s
       ++ [ queryEvent (mCmdCompleteMutex :: held s) f;
            waitEvent (held s) f timeout;
            handled id (mCmdCompleteMutex :: held s)
              {| errorCode := VK_TIMEOUT; file := thisFile;
                 function := "finishResourceUse"; line := 1337 |} ]
  /\ mInFlightCommands (snd r) = mInFlightCommands s
  /\ mFinishedCommandBatches (snd r) = []
  /\ mLastCompletedSerials (snd r) = mLastCompletedSerials s
  /\ held (snd r) = held s.
Proof.
  intros ((rest & Hi) & Hf & He & Hfin & Hh & Hsub & Hcomp & Hnot & Hwait).
  cbv zeta. apply wp_elim.
  unfold finishResourceUse.
  apply wp_bind. apply wp_lock_guard; [congruence|]. intros _.
  apply wp_bind. cbn [finishLoop]. unfold inFlightEmpty at 1. wp_steps. rewrite Hi.
  unfold hasResourceUseFinished. wp_steps. rewrite Hcomp. cbn [negb andb].
  apply wp_bind.
  apply (wp_checkOne_not_ready env (externalContext id) b f rest); ssimpl;
    try first [assumption | apply Hnot].
  cbn [andThen negb]. unfold inFlightFront. wp_steps. rewrite Hi. wp_steps.
  unfold ANGLE_VK_TRY. wp_steps.
  apply (wp_waitFenceUnlocked_external env b f timeout (held s)); ssimpl;
    try first [assumption | reflexivity].
  cbn [andThen]. rewrite Hwait. cbn [Z.eqb VK_TIMEOUT VK_SUCCESS]. wp_steps.
  apply wp_handleError_external. wp_steps.
  rewrite unhold_head, Hfin, <- !app_assoc. cbn [app].
  repeat split; try reflexivity. exact Hi.
Qed.

Lemma finishResourceUse_times_out_witness :
  let s := fullRingState in
  let r := finishResourceUse stalledDevice 1 (externalContext 0)
             [ {| qsIndex := 0%N; qsSerial := 1%Z |} ] 1000%Z s in
  fst r = Stop
  /\ trace (snd r)
     = trace s
       ++ [ queryEvent (mCmdCompleteMutex :: held s) 501%Z;
            waitEvent (held s) 501%Z 1000%Z;
            handled 0 (mCmdCompleteMutex :: held s)
              {| errorCode := VK_TIMEOUT; file := thisFile;
                 function := "finishResourceUse"; line := 1337 |} ]
  /\ mInFlightCommands (snd r) = mInFlightCommands s
  /\ mFinishedCommandBatches (snd r) = []
  /\ mLastCompletedSerials (snd r) = mLastCompletedSerials s
  /\ held (snd r) = held s.
Proof.
  apply (finishResourceUse_times_out stalledDevice 0 0
           [ {| qsIndex := 0%N; qsSerial := 1%Z |} ] 1000%Z
           (fencedBatch 1) 501%Z fullRingState).
  exact stalledOn_fullRing.
Defined.
